(** * miniargv: the argument, environment and configuration-file matching engine

    A shallow embedding of [lib/miniargv.c] (with the declarations of
    [miniargv.h]) and the properties of its dispatch engine.

    Conventions of the embedding:
    - a C string is a [string]; its terminating NUL is the end of the
      [string], and [char_at] reads the NUL there, as [s[n]] does;
    - a NULL-terminated [char* argv[]] is a [list string]; the loop
      [for (i = ...; argv[i]; i++)] walks the suffix [argv + i] and carries
      the index [i], which is what the function returns;
    - a definition table is a [list] of entries; the scan stops at the
      sentinel entry (the first one whose [callbackfn] is NULL);
    - a function pointer is a value of an abstract type [F]; what calling
      it does is given by [call], a state transformer over the caller's
      state that also yields the returned status;
    - every call through a function pointer is recorded in a trace (ghost
      state), together with the cursor position at the time of the call.

    The properties of whole traversals are stated against the visits of
    the input: the tokens the loop stops at, each with its resolution
    against the table, which depend on the table and on the tokens
    only. *)

From Stdlib Require Import ZArith Lia Ascii String Sorted.
From Stdlib Require Import DecimalString DecimalZ DecimalPos.
From stdpp Require Import base list strings gmap.

Local Open Scope Z_scope.

(** ** C strings *)

Module CStr.

Definition NUL : ascii := Ascii.zero.

Definition is_nul (c : ascii) : bool := Ascii.eqb c NUL.

(** [s[n]]: the character at offset [n], the terminator at the end. *)
Definition char_at (s : string) (n : nat) : ascii :=
  match String.get n s with
  | Some c => c
  | None => NUL
  end.

(** [s + n]: the string that starts [n] characters into [s]. *)
Fixpoint offset (n : nat) (s : string) : string :=
  match n, s with
  | O, _ => s
  | S n', String _ s' => offset n' s'
  | S _, EmptyString => EmptyString
  end.

Definition strlen (s : string) : nat := String.length s.

Definition uchar (c : ascii) : Z := Z.of_N (N_of_ascii c).

(** [strncmp(a, b, n)]: compares at most [n] characters, as unsigned
    chars, and stops at a terminator. *)
Fixpoint strncmp (a b : string) (n : nat) {struct n} : Z :=
  match n with
  | O => 0
  | S n' =>
      match a, b with
      | EmptyString, EmptyString => 0
      | EmptyString, String d _ => - uchar d
      | String c _, EmptyString => uchar c
      | String c a', String d b' =>
          if Ascii.eqb c d then strncmp a' b' n' else uchar c - uchar d
      end
  end.

(** [strchr(s, c) - s] for a non-NUL [c]; [None] is the NULL result. *)
Fixpoint strchr (s : string) (c : ascii) : option nat :=
  match s with
  | EmptyString => None
  | String d s' => if Ascii.eqb d c then Some O else S <$> strchr s' c
  end.

(** [isspace] in the C locale. *)
Definition isspace (c : ascii) : bool :=
  let n := N_of_ascii c in
  (N.eqb n 32 || (N.leb 9 n && N.leb n 13))%bool.

(** The first [n] characters of [s] (the [%.*s] of a pointer range). *)
Fixpoint take (n : nat) (s : string) : string :=
  match n, s with
  | S n', String c s' => String c (take n' s')
  | _, _ => EmptyString
  end.

(** A [string] that stands for a C string holds no NUL character. *)
Fixpoint cstring (s : string) : bool :=
  match s with
  | EmptyString => true
  | String c s' => negb (is_nul c) && cstring s'
  end.

Definition LF : ascii := ascii_of_nat 10.
Definition CR : ascii := ascii_of_nat 13.

End CStr.

Import CStr.

(** ** Definition tables *)

(** [struct miniargv_definition_struct]. [shortarg] is a [char], 0 when
    there is no short form; the three strings are NULL ([None]) or present;
    [callbackfn] is NULL in the sentinel entry; [userdata] is an address. *)
Record miniargv_definition (F : Type) : Type := mk_def {
  shortarg : ascii;
  longarg : option string;
  argparam : option string;
  callbackfn : option F;
  userdata : Z;
  help : option string
}.
Arguments mk_def {F}.
Arguments shortarg {F}.
Arguments longarg {F}.
Arguments argparam {F}.
Arguments callbackfn {F}.
Arguments userdata {F}.
Arguments help {F}.

(** The [void* callbackdata] handed to every callback: the caller's own
    object, or the address of the private [argindex] of
    [miniargv_get_next_arg_param]. *)
Inductive callbackdata (D : Type) : Type :=
| UserData (d : D)
| ArgIndexRef (argindex : Z).
Arguments UserData {D}.
Arguments ArgIndexRef {D}.

(** Where in the source a call through a function pointer is made. *)
Inductive callsite : Type :=
| ShortFlag | LongFlag | Standalone | Unmatched | EnvVar | CfgVar.

Definition callsite_eqb (a b : callsite) : bool :=
  match a, b with
  | ShortFlag, ShortFlag | LongFlag, LongFlag | Standalone, Standalone
  | Unmatched, Unmatched | EnvVar, EnvVar | CfgVar, CfgVar => true
  | _, _ => false
  end.

(** One recorded call: the site, the cursor [i] at the time of the call,
    the arguments [argdef] and [value], and the status it returned. *)
Record event (F : Type) : Type := mk_event {
  ev_site : callsite;
  ev_index : Z;
  ev_def : option (miniargv_definition F);
  ev_value : option string;
  ev_status : Z
}.
Arguments mk_event {F}.
Arguments ev_site {F}.
Arguments ev_index {F}.
Arguments ev_def {F}.
Arguments ev_value {F}.
Arguments ev_status {F}.

(** The state a traversal threads: the caller's state, the trace of calls
    and what was written to [stderr]. *)
Record world (F S : Type) : Type := mk_world {
  st : S;
  trace : list (event F);
  stderr : list string
}.
Arguments mk_world {F S}.
Arguments st {F S}.
Arguments trace {F S}.
Arguments stderr {F S}.

Definition MINIARG_PROCESS_FLAG_FLAGS : Z := 0x01.
Definition MINIARG_PROCESS_FLAG_VALUES : Z := 0x02.
Definition MINIARG_PROCESS_FLAG_BOTH : Z :=
  Z.lor MINIARG_PROCESS_FLAG_FLAGS MINIARG_PROCESS_FLAG_VALUES.
Definition MINIARG_PROCESS_FLAG_FIND_ONLY : Z := 0x08.
Definition MINIARG_PROCESS_FLAG_FIND_VALUE : Z :=
  Z.lor MINIARG_PROCESS_FLAG_FIND_ONLY MINIARG_PROCESS_FLAG_VALUES.

(** [(flags & bit) != 0] *)
Definition has_flag (flags bit : Z) : bool := negb (Z.land flags bit =? 0).

(** The syntactic category the nested tests of the loop body select. *)
Inductive token_class : Type := ShortArg | LongArg | StandaloneArg.

(** [argv[i][0] == '-' && argv[i][1]], then [argv[i][1] != '-']. *)
Definition classify (tok : string) : token_class :=
  if (Ascii.eqb (char_at tok 0) "-" && negb (is_nul (char_at tok 1)))%bool
  then if negb (Ascii.eqb (char_at tok 1) "-") then ShortArg else LongArg
  else StandaloneArg.

(** What one branch of the loop body leaves behind: [success], whether
    [i] was advanced onto the following token, and the world; or the
    early [return i] of the find-only mode. *)
Inductive matched (F S : Type) : Type :=
| Matched (success : bool) (advanced : bool) (w : world F S)
| Found (i : Z) (w : world F S).
Arguments Matched {F S}.
Arguments Found {F S}.

(** What one iteration of the loop does: go on (having consumed the
    following token or not), or return. *)
Inductive outcome (F S : Type) : Type :=
| Continue (advanced : bool) (w : world F S)
| Return (r : Z) (w : world F S).
Arguments Continue {F S}.
Arguments Return {F S}.

(** The cached standalone value definition:
    [standalonevaluedefset] and [standalonevaluedef]. *)
Record standalone_cache (F : Type) : Type := mk_cache {
  standalonevaluedefset : bool;
  standalonevaluedef : option (miniargv_definition F)
}.
Arguments mk_cache {F}.
Arguments standalonevaluedefset {F}.
Arguments standalonevaluedef {F}.

Section Engine.

Context {F S D : Type}.

(** What a call through a function pointer does. *)
Variable call :
  F -> option (miniargv_definition F) -> option string ->
  callbackdata D -> S -> Z * S.

(** What [*(int* )callbackdata] reads from the caller's own object. *)
Variable int_at : D -> Z.

Abbreviation def := (miniargv_definition F).
Abbreviation World := (world F S).

(** A call [(fn)(argdef, value, callbackdata)] made at cursor [i]. *)
Definition invoke (site : callsite) (i : Z) (fn : F) (argdef : option def)
    (value : option string) (cbd : callbackdata D) (w : World) : Z * World :=
  let '(r, s') := call fn argdef value cbd (st w) in
  (r, mk_world s' (trace w ++ [mk_event site i argdef value r]) (stderr w)).

(** The pattern repeated in every flag branch:
    [if ((flags & FLAGS) == 0) success++;
     else if ((callbackfn)(argdef, value, callbackdata) == 0) success++;] *)
Definition dispatch_flag (flags : Z) (site : callsite) (i : Z) (fn : F)
    (d : def) (value : option string) (cbd : callbackdata D) (w : World)
    : bool * World :=
  if Z.land flags MINIARG_PROCESS_FLAG_FLAGS =? 0 then (true, w)
  else let '(r, w') := invoke site i fn (Some d) value cbd w in (r =? 0, w').

(** The short argument branch (source lines 30-60), for the token [tok]
    at [argv[i]] and [next] at [argv[i + 1]]. [success] is still 0
    whenever the loop condition is tested, since every path that sets it
    breaks out of the loop. *)
Fixpoint short_arg_scan (flags : Z) (cbd : callbackdata D) (i : Z)
    (tok : string) (next : option string) (w : World)
    (current_argdef : list def) : bool * bool * World :=
  match current_argdef with
  | [] => (false, false, w)
  | d :: more =>
      match callbackfn d with
      | None => (false, false, w)
      | Some fn =>
          if (negb (is_nul (shortarg d))
              && Ascii.eqb (char_at tok 1) (shortarg d))%bool
          then
            match argparam d with
            | None =>
                if is_nul (char_at tok 2)
                then let '(ok, w') :=
                       dispatch_flag flags ShortFlag i fn d None cbd w in
                     (ok, false, w')
                else (false, false, w)
            | Some _ =>
                if negb (is_nul (char_at tok 2))
                then let '(ok, w') :=
                       dispatch_flag flags ShortFlag i fn d
                         (Some (offset 2 tok)) cbd w in
                     (ok, false, w')
                else
                  match next with
                  | Some v =>
                      let '(ok, w') :=
                        dispatch_flag flags ShortFlag (i + 1) fn d
                          (Some v) cbd w in
                      (ok, true, w')
                  | None => (false, false, w)
                  end
            end
          else short_arg_scan flags cbd i tok next w more
      end
  end.

(** The long argument branch (source lines 63-87). *)
Fixpoint long_arg_scan (flags : Z) (cbd : callbackdata D) (i : Z)
    (tok : string) (w : World) (current_argdef : list def)
    : bool * World :=
  match current_argdef with
  | [] => (false, w)
  | d :: more =>
      match callbackfn d with
      | None => (false, w)
      | Some fn =>
          match longarg d with
          | None => long_arg_scan flags cbd i tok w more
          | Some name =>
              let l := strlen name in
              if ((strncmp (offset 2 tok) name l =? 0)
                  && (is_nul (char_at tok (2 + l))
                      || Ascii.eqb (char_at tok (2 + l)) "="))%bool
              then
                match argparam d with
                | None =>
                    if is_nul (char_at tok (2 + l))
                    then dispatch_flag flags LongFlag i fn d None cbd w
                    else (false, w)
                | Some _ =>
                    if Ascii.eqb (char_at tok (2 + l)) "="
                    then dispatch_flag flags LongFlag i fn d
                           (Some (offset (3 + l) tok)) cbd w
                    else (false, w)
                end
              else long_arg_scan flags cbd i tok w more
          end
      end
  end.

(** The lookup of the standalone value definition (source lines 92-99):
    the first entry before the sentinel with neither a short nor a long
    form. *)
Fixpoint find_standalone (current_argdef : list def) : option def :=
  match current_argdef with
  | [] => None
  | d :: more =>
      match callbackfn d with
      | None => None
      | Some _ =>
          if (is_nul (shortarg d)
              && match longarg d with None => true | Some _ => false end)%bool
          then Some d
          else find_standalone more
      end
  end.

(** Source lines 91-101: the lookup runs only while the cache is unset. *)
Definition standalone_lookup (argdef : list def)
    (cache : standalone_cache F) : standalone_cache F :=
  if standalonevaluedefset cache then cache
  else mk_cache true (find_standalone argdef).

(** The standalone value branch (source lines 91-109). *)
Definition standalone_arg (flags : Z) (cbd : callbackdata D) (i : Z)
    (tok : string) (w : World) (cache : standalone_cache F)
    : matched F S :=
  match standalonevaluedef cache with
  | Some d =>
      match callbackfn d with
      | Some fn =>
          if Z.land flags MINIARG_PROCESS_FLAG_VALUES =? 0
          then Matched true false w
          else if has_flag flags MINIARG_PROCESS_FLAG_FIND_ONLY
          then Found i w
          else let '(r, w') :=
                 invoke Standalone i fn (Some d) (Some tok) cbd w in
               Matched (r =? 0) false w'
      | None => Matched false false w
      end
  | None => Matched false false w
  end.

Definition invalid_argument_message (tok : string) : string :=
  "Invalid command line argument: " +:+ tok +:+ String LF "".

(** The end of the loop body (source lines 111-125), entered with
    [success == 0]; [cur] is [argv[i]] for the current [i]. *)
Definition bad_argument (flags : Z) (badfn : option F)
    (cbd : callbackdata D) (i : Z) (cur : string) (advanced : bool)
    (w : World) : outcome F S :=
  match badfn with
  | Some bad =>
      let '(r, w') := invoke Unmatched i bad None (Some cur) cbd w in
      if r =? 0 then Continue advanced w'
      else if has_flag flags MINIARG_PROCESS_FLAG_FIND_ONLY
      then Return (-1) w'
      else Return i w'
  | None =>
      if has_flag flags MINIARG_PROCESS_FLAG_FIND_ONLY
      then Return (-1) w
      else Return i
             (mk_world (st w) (trace w)
                (stderr w ++ [invalid_argument_message cur]))
  end.

(** One iteration of the loop of [miniargv_process_partial], at
    [argv[i] = tok] with [argv[i + 1] = next]. *)
Definition process_token (flags : Z) (argdef : list def)
    (badfn : option F) (cbd : callbackdata D) (i : Z) (tok : string)
    (next : option string) (cache : standalone_cache F) (w : World)
    : outcome F S * standalone_cache F :=
  let '(m, cache') :=
    match classify tok with
    | ShortArg =>
        let '(ok, adv, w') :=
          short_arg_scan flags cbd i tok next w argdef in
        (Matched ok adv w', cache)
    | LongArg =>
        let '(ok, w') := long_arg_scan flags cbd i tok w argdef in
        (Matched ok false w', cache)
    | StandaloneArg =>
        let cache' := standalone_lookup argdef cache in
        (standalone_arg flags cbd i tok w cache', cache')
    end in
  match m with
  | Found r w' => (Return r w', cache')
  | Matched true adv w' => (Continue adv w', cache')
  | Matched false adv w' =>
      if adv
      then (bad_argument flags badfn cbd (i + 1) (default tok next) adv w',
            cache')
      else (bad_argument flags badfn cbd i tok adv w', cache')
  end.

(** The loop [for (i = ...; argv[i]; i++)] over [rest = argv + i]. *)
Fixpoint scan (flags : Z) (argdef : list def) (badfn : option F)
    (cbd : callbackdata D) (rest : list string) (i : Z)
    (cache : standalone_cache F) (w : World) : Z * World :=
  match rest with
  | [] => (0, w)
  | tok :: rest' =>
      match process_token flags argdef badfn cbd i tok (head rest') cache w
      with
      | (Return r w', _) => (r, w')
      | (Continue false w', cache') =>
          scan flags argdef badfn cbd rest' (i + 1) cache' w'
      | (Continue true w', cache') =>
          match rest' with
          | _ :: rest'' =>
              scan flags argdef badfn cbd rest'' (i + 2) cache' w'
          | [] => (0, w')
          end
      end
  end.

(** The initial value of [i]. *)
Definition start_index (flags : Z) (cbd : callbackdata D) : Z :=
  if Z.land flags MINIARG_PROCESS_FLAG_FIND_ONLY =? 0 then 1
  else match cbd with
       | ArgIndexRef argindex => argindex + 1
       | UserData d => int_at d + 1
       end.

Definition miniargv_process_partial (flags : Z) (argv : list string)
    (argdef : list def) (badfn : option F) (cbd : callbackdata D)
    (w : World) : Z * World :=
  let i := start_index flags cbd in
  scan flags argdef badfn cbd (drop (Z.to_nat i) argv) i
    (mk_cache false None) w.

Definition miniargv_process_arg (argv : list string) (argdef : list def)
    (badfn : option F) (cbd : callbackdata D) (w : World) : Z * World :=
  miniargv_process_partial MINIARG_PROCESS_FLAG_BOTH argv argdef badfn cbd w.

Definition miniargv_process_arg_flags (argv : list string)
    (argdef : list def) (badfn : option F) (cbd : callbackdata D)
    (w : World) : Z * World :=
  miniargv_process_partial MINIARG_PROCESS_FLAG_FLAGS argv argdef badfn cbd w.

Definition miniargv_process_arg_params (argv : list string)
    (argdef : list def) (badfn : option F) (cbd : callbackdata D)
    (w : World) : Z * World :=
  miniargv_process_partial MINIARG_PROCESS_FLAG_VALUES argv argdef badfn cbd w.

(** [argindex] is passed by value; the callbacks get its address. *)
Definition miniargv_get_next_arg_param (argindex : Z) (argv : list string)
    (argdef : list def) (badfn : option F) (w : World) : Z * World :=
  miniargv_process_partial MINIARG_PROCESS_FLAG_FIND_VALUE argv argdef badfn
    (ArgIndexRef argindex) w.

(** *** Environment variables *)

(** The inner loop of [miniargv_process_env] for one definition, over
    [current_env]; [k] is the index of [*current_env] in [env]. A
    non-zero status is the [return result] of the source. *)
Fixpoint env_scan (d : def) (fn : F) (name : string)
    (cbd : callbackdata D) (k : Z) (current_env : list string)
    (w : World) : Z * World :=
  match current_env with
  | [] => (0, w)
  | e :: more =>
      match strchr e "=" with
      | Some n =>
          if strncmp e name n =? 0
          then
            let '(result, w') :=
              invoke EnvVar k fn (Some d) (Some (offset (n + 1) e)) cbd w in
            if negb (result =? 0) then (result, w')
            else env_scan d fn name cbd (k + 1) more w'
          else env_scan d fn name cbd (k + 1) more w
      | None => env_scan d fn name cbd (k + 1) more w
      end
  end.

(** The outer loop of [miniargv_process_env], over the definitions. *)
Fixpoint env_defs (env : list string) (cbd : callbackdata D)
    (current_envdef : list def) (w : World) : Z * World :=
  match current_envdef with
  | [] => (0, w)
  | d :: more =>
      match callbackfn d with
      | None => (0, w)
      | Some fn =>
          match longarg d with
          | Some name =>
              let '(result, w') := env_scan d fn name cbd 0 env w in
              if negb (result =? 0) then (result, w')
              else env_defs env cbd more w'
          | None => env_defs env cbd more w
          end
      end
  end.

Definition miniargv_process_env (env : list string) (envdef : list def)
    (cbd : callbackdata D) (w : World) : Z * World :=
  env_defs env cbd envdef w.

(** *** The two traversal policies *)

(** [argv] and [env] may be NULL ([None]). *)
Definition miniargv_process (argv env : option (list string))
    (argdef envdef : list def) (badfn : option F) (cbd : callbackdata D)
    (w : World) : Z * World :=
  let '(result, w) :=
    match env with
    | Some e => miniargv_process_env e envdef cbd w
    | None => (0, w)
    end in
  match argv with
  | Some a =>
      let '(result, w) :=
        if result =? 0
        then miniargv_process_partial MINIARG_PROCESS_FLAG_FLAGS a argdef
               badfn cbd w
        else (result, w) in
      if result =? 0
      then miniargv_process_partial MINIARG_PROCESS_FLAG_VALUES a argdef
             badfn cbd w
      else (result, w)
  | None => (result, w)
  end.

Definition miniargv_process_ltr (argv env : option (list string))
    (argdef envdef : list def) (badfn : option F) (cbd : callbackdata D)
    (w : World) : Z * World :=
  let '(result, w) :=
    match env with
    | Some e => miniargv_process_env e envdef cbd w
    | None => (0, w)
    end in
  match argv with
  | Some a =>
      if result =? 0 then miniargv_process_arg a argdef badfn cbd w
      else (result, w)
  | None => (result, w)
  end.

(** *** Configuration files *)

(** The lines successive calls of [readline] return for the rest [src]
    of the file, each with whether a line feed ended it. [readline]
    gathers [fgets] blocks up to and including the next line feed; at
    the end of the file with nothing read it returns NULL. The file is
    taken to hold no NUL byte. *)
Fixpoint raw_lines (src : string) : list (string * bool) :=
  match src with
  | EmptyString => []
  | String c src' =>
      if Ascii.eqb c LF then (EmptyString, true) :: raw_lines src'
      else match raw_lines src' with
           | [] => [(String c EmptyString, false)]
           | (l, nl) :: ls => (String c l, nl) :: ls
           end
  end.

(** The line feed is removed, and then one carriage return before it. *)
Definition chomp (l : string * bool) : string :=
  let '(s, nl) := l in
  if nl
  then let n := strlen s in
       if ((0 <? n)%nat && Ascii.eqb (char_at s (n - 1)) CR)%bool
       then take (n - 1) s else s
  else s.

Definition readlines (src : string) : list string :=
  chomp <$> raw_lines src.

(** The loop that skips the white space a string starts with. *)
Fixpoint skip_spaces (s : string) : string :=
  match s with
  | String c s' => if isspace c then skip_spaces s' else s
  | EmptyString => s
  end.

(** The loop that moves [p] to the first ['='], [':'], ['#'] or [';'],
    or to the terminator; the result is the offset [p - varname]. *)
Fixpoint find_delimiter (s : string) : nat :=
  match s with
  | String c s' =>
      if (Ascii.eqb c "=" || Ascii.eqb c ":" || Ascii.eqb c "#"
          || Ascii.eqb c ";")%bool
      then O else Datatypes.S (find_delimiter s')
  | EmptyString => O
  end.

(** The loop that moves [p] back from [s + n] while the character before
    it is white space and [p != s]; the result is the offset [p - s]. *)
Fixpoint trim_end (s : string) (n : nat) : nat :=
  match n with
  | O => O
  | Datatypes.S n' => if isspace (char_at s n') then trim_end s n' else n
  end.

(** The scan of the definitions for one variable (source lines
    266-275); the result is the new [status]. *)
Fixpoint cfg_defs (varname : string) (varnamelen : nat) (value : string)
    (cbd : callbackdata D) (lineno : Z) (current_cfgdef : list def)
    (w : World) : Z * World :=
  match current_cfgdef with
  | [] => (0, w)
  | d :: more =>
      match callbackfn d with
      | None => (0, w)
      | Some fn =>
          match longarg d with
          | Some name =>
              if strncmp varname name varnamelen =? 0
              then invoke CfgVar lineno fn (Some d) (Some value) cbd w
              else cfg_defs varname varnamelen value cbd lineno more w
          | None => cfg_defs varname varnamelen value cbd lineno more w
          end
      end
  end.

(** The body of the line loop (source lines 240-278); [status] is 0 on
    entry, and unchanged unless a callback is called. *)
Definition cfg_line (cfgdef : list def) (cbd : callbackdata D)
    (lineno : Z) (line : string) (w : World) : Z * World :=
  let varname := skip_spaces line in
  if negb (is_nul (char_at varname 0)) then
    let p := find_delimiter varname in
    if (Ascii.eqb (char_at varname p) "="
        || Ascii.eqb (char_at varname p) ":")%bool
    then
      let value := offset (p + 1) varname in
      let varnamelen := trim_end varname p in
      if negb (varnamelen =? 0)%nat then
        let value := skip_spaces value in
        let value := take (trim_end value (strlen value)) value in
        cfg_defs varname varnamelen value cbd lineno cfgdef w
      else (0, w)
    else (0, w)
  else (0, w).

(** The line loop, which runs while [status == 0] and [readline] returns
    a line; the result is the final [status]. *)
Fixpoint cfg_lines (cfgdef : list def) (cbd : callbackdata D)
    (lineno : Z) (lines : list string) (status : Z) (w : World)
    : Z * World :=
  if negb (status =? 0) then (status, w)
  else match lines with
       | [] => (status, w)
       | line :: more =>
           let '(status', w') := cfg_line cfgdef cbd lineno line w in
           cfg_lines cfgdef cbd (lineno + 1) more status' w'
       end.

(** [fs] maps the path of a readable file to its contents; [fopen]
    fails on any other path. The function ends in [return 0;]. *)
Definition miniargv_process_cfgfile (fs : gmap string string)
    (cfgfile : string) (cfgdef : list def) (cbd : callbackdata D)
    (w : World) : Z * World :=
  match fs !! cfgfile with
  | Some src =>
      let '(status, w') := cfg_lines cfgdef cbd 1 (readlines src) 0 w in
      (0, w')
  | None => (0, w)
  end.

End Engine.

(** ** The table of the examples *)

(** [-o/--output] with a value, [-v/--verbose] without, one standalone
    value definition, and the sentinel. *)
Section ExampleTable.

Context {F : Type}.

Definition opt_output (fn : F) : miniargv_definition F :=
  mk_def "o" (Some "output") (Some "FILE") (Some fn) 0 (Some "output file").

Definition opt_verbose (fn : F) : miniargv_definition F :=
  mk_def "v" (Some "verbose") None (Some fn) 0 (Some "verbose mode").

Definition opt_param (fn : F) : miniargv_definition F :=
  mk_def NUL None (Some "file") (Some fn) 0 (Some "input file").

Definition sentinel : miniargv_definition F :=
  mk_def NUL None None None 0 None.

Definition example_table (fo fv fp : F) : list (miniargv_definition F) :=
  [opt_output fo; opt_verbose fv; opt_param fp; sentinel].

End ExampleTable.

(** ** Vocabulary of the properties *)

Section Vocabulary.

Context {F S D : Type}.

Abbreviation def := (miniargv_definition F).

(** The calls made for a match with a table entry, as opposed to the
    call of the handler of unmatched tokens. *)
Definition is_flag_site (s : callsite) : bool :=
  match s with ShortFlag | LongFlag => true | _ => false end.

Definition is_definition_site (s : callsite) : bool :=
  match s with ShortFlag | LongFlag | Standalone => true | _ => false end.

Definition is_flag_event (e : event F) : bool := is_flag_site (ev_site e).

Definition is_standalone_event (e : event F) : bool :=
  callsite_eqb (ev_site e) Standalone.

Definition is_definition_event (e : event F) : bool :=
  is_definition_site (ev_site e).

Definition is_unmatched_event (e : event F) : bool :=
  callsite_eqb (ev_site e) Unmatched.

(** The calls recorded between the world [w] and a later world [w']. *)
Definition new_events (w w' : world F S) : list (event F) :=
  drop (length (trace w)) (trace w').

(** The entries of [pre] all lie before the sentinel. *)
Definition before_sentinel (pre : list def) : Prop :=
  Forall (fun e => callbackfn e <> None) pre.

(** The long names of the table are C strings. *)
Definition long_names_ok (argdef : list def) : Prop :=
  Forall (fun e => forall n, longarg e = Some n -> cstring n = true) argdef.

(** The long name [name] is a prefix of the remainder [rem] of a token,
    followed at once by the end of the token or by ['=']. *)
Definition long_candidate (name rem : string) : Prop :=
  rem = name \/ exists v, rem = name +:+ String "=" v.

(** The test of the long argument loop on the entry named [name], for
    the token ["--" rem]. *)
Definition long_test (rem name : string) : bool :=
  let tok := String "-" (String "-" rem) in
  ((strncmp (offset 2 tok) name (strlen name) =? 0)
   && (is_nul (char_at tok (2 + strlen name))
       || Ascii.eqb (char_at tok (2 + strlen name)) "="))%bool.

(** The entry [d] is the first of the table, before the sentinel, that
    satisfies [P]. *)
Definition first_entry (P : def -> Prop) (argdef : list def) (d : def)
    : Prop :=
  exists pre post,
    argdef = pre ++ d :: post /\ before_sentinel pre /\
    Forall (fun e => ~ P e) pre /\ callbackfn d <> None /\ P d.

(** No entry before the sentinel satisfies [P]. *)
Definition no_entry (P : def -> Prop) (argdef : list def) : Prop :=
  exists pre post,
    argdef = pre ++ post /\ before_sentinel pre /\
    Forall (fun e => ~ P e) pre /\
    match post with [] => True | d :: _ => callbackfn d = None end.

Definition has_short (c : ascii) (d : def) : Prop :=
  shortarg d = c.

Definition has_long_candidate (rem : string) (d : def) : Prop :=
  exists name, longarg d = Some name /\ long_candidate name rem.

Definition is_standalone_def (d : def) : Prop :=
  shortarg d = NUL /\ longarg d = None.

(** The cache is unset, or it holds the result of the lookup in
    [argdef]. *)
Definition cache_valid (argdef : list def) (cache : standalone_cache F)
    : Prop :=
  standalonevaluedefset cache = false \/
  cache = mk_cache true (find_standalone argdef).

(** The cursor after the optional advance onto the following token. *)
Definition cursor (i : Z) (advanced : bool) : Z :=
  if advanced then i + 1 else i.

(** The token [argv[i]] names once the cursor may have advanced. *)
Definition current (tok : string) (next : option string) (advanced : bool)
    : string :=
  if advanced then default tok next else tok.

(** The call of the callback of a table entry that one iteration can
    make at [argv[i] = tok]: at the cursor, from a flag branch only when
    the mode acts on flags, from the standalone branch only when the mode
    acts on values and is not find-only, and then on the token itself. *)
Definition definition_call (flags : Z) (sd : option def) (i : Z)
    (tok : string) (advanced : bool) (e : event F) : Prop :=
  is_definition_event e = true /\
  ev_index e = cursor i advanced /\
  (exists d, ev_def e = Some d /\ callbackfn d <> None) /\
  (is_flag_event e = true ->
   has_flag flags MINIARG_PROCESS_FLAG_FLAGS = true /\
   classify tok <> StandaloneArg) /\
  (is_standalone_event e = true ->
   has_flag flags MINIARG_PROCESS_FLAG_VALUES = true /\
   has_flag flags MINIARG_PROCESS_FLAG_FIND_ONLY = false /\
   advanced = false /\ ev_def e = sd /\ ev_value e = Some tok /\
   classify tok = StandaloneArg).

(** The call of the handler of unmatched tokens that one iteration can
    make: with a NULL definition and the token at the cursor. *)
Definition unmatched_call (badfn : option F) (i : Z) (tok : string)
    (next : option string) (advanced : bool) (b : event F) : Prop :=
  is_Some badfn /\
  b = mk_event Unmatched (cursor i advanced) None
        (Some (current tok next advanced)) (ev_status b).

(** The calls of one iteration: at most one callback of a table entry,
    then at most one call of the handler of unmatched tokens, which
    follows a callback only when that callback returned non-zero. *)
Inductive step_calls (flags : Z) (sd : option def) (badfn : option F)
    (i : Z) (tok : string) (next : option string) (advanced : bool)
    : list (event F) -> Prop :=
| calls_none :
    step_calls flags sd badfn i tok next advanced []
| calls_definition e :
    definition_call flags sd i tok advanced e ->
    step_calls flags sd badfn i tok next advanced [e]
| calls_unmatched b :
    unmatched_call badfn i tok next advanced b ->
    step_calls flags sd badfn i tok next advanced [b]
| calls_definition_unmatched e b :
    definition_call flags sd i tok advanced e ->
    ev_status e <> 0 ->
    unmatched_call badfn i tok next advanced b ->
    step_calls flags sd badfn i tok next advanced [e; b].

(** What one iteration of the loop can do, from the world [w]. *)
Inductive token_step (flags : Z) (sd : option def) (badfn : option F)
    (i : Z) (tok : string) (next : option string) (w : world F S)
    : outcome F S -> Prop :=
| step_continue advanced new w' :
    trace w' = trace w ++ new ->
    stderr w' = stderr w ->
    (advanced = true -> is_Some next) ->
    step_calls flags sd badfn i tok next advanced new ->
    (forall e, last new = Some e -> ev_status e = 0) ->
    token_step flags sd badfn i tok next w (Continue advanced w')
| step_found :
    has_flag flags MINIARG_PROCESS_FLAG_FIND_ONLY = true ->
    has_flag flags MINIARG_PROCESS_FLAG_VALUES = true ->
    classify tok = StandaloneArg ->
    token_step flags sd badfn i tok next w (Return i w)
| step_abort advanced new w' :
    trace w' = trace w ++ new ->
    (advanced = true -> is_Some next) ->
    step_calls flags sd badfn i tok next advanced new ->
    match badfn with
    | Some _ =>
        stderr w' = stderr w /\
        exists b, last new = Some b /\ is_unmatched_event b = true /\
                  ev_status b <> 0
    | None =>
        Forall (fun e => is_unmatched_event e = false) new /\
        stderr w' =
          stderr w ++
          (if has_flag flags MINIARG_PROCESS_FLAG_FIND_ONLY then []
           else [invalid_argument_message (current tok next advanced)])
    end ->
    token_step flags sd badfn i tok next w
      (Return (if has_flag flags MINIARG_PROCESS_FLAG_FIND_ONLY then -1
               else cursor i advanced) w').

(** What a branch of the loop body did before the test of [success]:
    nothing, or one call of the callback of the entry [d]. *)
Definition branch_result (flags : Z) (site : callsite) (i : Z)
    (argdef : list def) (w : world F S) (ok advanced : bool) (w' : world F S)
    : Prop :=
  (w' = w /\ (ok = false -> advanced = false)) \/
  (exists d v r,
     In d argdef /\ callbackfn d <> None /\
     has_flag flags MINIARG_PROCESS_FLAG_FLAGS = true /\
     ok = (r =? 0) /\
     trace w' = trace w ++ [mk_event site (cursor i advanced) (Some d) v r] /\
     stderr w' = stderr w).

(** The order of two consecutive calls: the later one is at a later
    token, or it is the handler of unmatched tokens called on the token
    whose callback has just returned non-zero. *)
Definition follows (e1 e2 : event F) : Prop :=
  ev_index e1 < ev_index e2 \/
  (ev_index e1 = ev_index e2 /\ is_definition_event e1 = true /\
   ev_status e1 <> 0 /\ is_unmatched_event e2 = true).

(** The calls a traversal of [rest = argv + i] in the mode [flags] can
    make. *)
Definition call_allowed (flags : Z) (sd : option def) (rest : list string)
    (i : Z) (e : event F) : Prop :=
  (is_definition_event e = true \/ is_unmatched_event e = true) /\
  (is_flag_event e = true ->
   has_flag flags MINIARG_PROCESS_FLAG_FLAGS = true) /\
  (is_standalone_event e = true ->
   has_flag flags MINIARG_PROCESS_FLAG_VALUES = true /\
   has_flag flags MINIARG_PROCESS_FLAG_FIND_ONLY = false /\
   ev_def e = sd /\
   exists tok, rest !! Z.to_nat (ev_index e - i) = Some tok /\
               ev_value e = Some tok /\ classify tok = StandaloneArg).

(** The positions of the calls of callbacks of table entries. *)
Definition definition_positions (new : list (event F)) : list Z :=
  ev_index <$> List.filter is_definition_event new.

Definition standalone_positions (new : list (event F)) : list Z :=
  ev_index <$> List.filter is_standalone_event new.

Definition calls_in_order (flags : Z) (sd : option def)
    (rest : list string) (i : Z) (new : list (event F)) : Prop :=
  Forall (fun e => i <= ev_index e < i + Z.of_nat (length rest)) new /\
  Sorted follows new /\
  StronglySorted Z.lt (definition_positions new) /\
  Forall (call_allowed flags sd rest i) new.

(** How a traversal of [rest = argv + i] that made the calls [new] ends
    with the result [r]: at the end of the input, at a standalone value in
    the find-only mode, or at the token that made it fail. *)
Definition traversal_end (flags : Z) (badfn : option F) (rest : list string)
    (i : Z) (w : world F S) (new : list (event F)) (r : Z)
    (w' : world F S) : Prop :=
  (r = 0 /\ stderr w' = stderr w /\
   Forall (fun e => is_unmatched_event e = true -> ev_status e = 0) new) \/
  (has_flag flags MINIARG_PROCESS_FLAG_FIND_ONLY = true /\
   has_flag flags MINIARG_PROCESS_FLAG_VALUES = true /\
   i <= r < i + Z.of_nat (length rest) /\
   (exists tok, rest !! Z.to_nat (r - i) = Some tok /\
                classify tok = StandaloneArg) /\
   stderr w' = stderr w /\
   Forall (fun e => is_unmatched_event e = true -> ev_status e = 0) new) \/
  (exists j tok,
     r = (if has_flag flags MINIARG_PROCESS_FLAG_FIND_ONLY then -1 else j) /\
     i <= j < i + Z.of_nat (length rest) /\
     rest !! Z.to_nat (j - i) = Some tok /\
     Forall (fun e => ev_index e <= j) new /\
     match badfn with
     | Some _ =>
         stderr w' = stderr w /\
         exists status,
           status <> 0 /\
           last new = Some (mk_event Unmatched j None (Some tok) status)
     | None =>
         Forall (fun e => is_unmatched_event e = false) new /\
         stderr w' =
           stderr w ++
           (if has_flag flags MINIARG_PROCESS_FLAG_FIND_ONLY then []
            else [invalid_argument_message tok])
     end).

(** The return contract of a full traversal of [argv] that started in
    the world [w] and returned [r] in the world [w']: 0 when it reached the
    end of the input, with every call of the handler of unmatched tokens
    having returned 0; otherwise the index [r > 0] of a token of [argv],
    with no call made beyond it, and either there is no handler and the
    token is reported on [stderr], or the last call was the handler on
    that token and it returned non-zero. *)
Definition return_contract (argv : list string) (badfn : option F)
    (w : world F S) (r : Z) (w' : world F S) : Prop :=
  let new := new_events w w' in
  (r = 0 /\ stderr w' = stderr w /\
   Forall (fun e => is_unmatched_event e = true -> ev_status e = 0) new) \/
  (0 < r /\
   exists tok,
     argv !! Z.to_nat r = Some tok /\
     Forall (fun e => ev_index e <= r) new /\
     match badfn with
     | Some _ =>
         stderr w' = stderr w /\
         exists status,
           status <> 0 /\
           last new = Some (mk_event Unmatched r None (Some tok) status)
     | None =>
         Forall (fun e => is_unmatched_event e = false) new /\
         stderr w' = stderr w ++ [invalid_argument_message tok]
     end).

(** In the trace [new], every call for a flag match comes before every
    call for a standalone value. *)
Definition flags_before_values (new : list (event F)) : Prop :=
  forall (p q : nat) (e1 e2 : event F),
    new !! p = Some e1 -> new !! q = Some e2 ->
    is_flag_event e1 = true -> is_standalone_event e2 = true ->
    (p < q)%nat.

(** In the trace [new], the calls for standalone values are made in the
    order of their tokens in [argv], each with its token as the value. *)
Definition values_left_to_right (argv : list string)
    (new : list (event F)) : Prop :=
  StronglySorted Z.lt (standalone_positions new) /\
  Forall (fun e =>
            is_standalone_event e = true ->
            0 < ev_index e /\
            exists tok, argv !! Z.to_nat (ev_index e) = Some tok /\
                        ev_value e = Some tok) new.

(** In the trace [new], the calls are made token after token: two
    consecutive calls are in the order [follows], and the callbacks of
    table entries are called at strictly increasing positions. *)
Definition left_to_right (new : list (event F)) : Prop :=
  Sorted follows new /\ StronglySorted Z.lt (definition_positions new).

(** What the iteration returns, next to the trace of the values pass run
    with handlers that accept everything. *)
Definition enumeration_matches (badfn : option F) (i : Z) (w : world F S)
    (result : option (list Z * Z * world F S)) (newr : list (event F)) : Prop :=
  exists ps fin w',
    result = Some (ps, fin, w') /\
    (fin = 0 \/ fin = -1) /\
    Forall (fun p => i <= p) ps /\
    StronglySorted Z.lt ps /\
    ps `prefix_of` standalone_positions newr /\
    (fin = 0 -> ps = standalone_positions newr) /\
    (badfn = None -> ps = standalone_positions newr /\ w' = w).

(** A handler semantics under which every call returns 0 and leaves the
    caller's state alone. *)
Definition accept_all (fn : F) (argdef : option def) (value : option string)
    (cbd : callbackdata D) (s : S) : Z * S :=
  (0, s).

Variable call :
  F -> option def -> option string -> callbackdata D -> S -> Z * S.
Variable int_at : D -> Z.

(** What an iteration does with a flag token resolved to the entry [d],
    of callback [fn], with the value [value], the cursor having advanced
    onto the following token or not: in a mode that acts on flags the
    callback is called with [d] and [value], and the token counts as
    unmatched if it returns non-zero; in the other modes the token is
    passed over. *)
Definition flag_outcome (flags : Z) (badfn : option F)
    (cbd : callbackdata D) (site : callsite) (i : Z) (tok : string)
    (next : option string) (fn : F) (d : def) (value : option string)
    (advanced : bool) (w : world F S) : outcome F S :=
  if has_flag flags MINIARG_PROCESS_FLAG_FLAGS
  then
    let '(r, w') :=
      invoke call site (cursor i advanced) fn (Some d) value cbd w in
    if r =? 0 then Continue advanced w'
    else bad_argument call flags badfn cbd (cursor i advanced)
           (current tok next advanced) advanced w'
  else Continue advanced w.

(** What an iteration does with an unmatched token: the end of the loop
    body with [success == 0], at the token itself. *)
Definition unmatched_outcome (flags : Z) (badfn : option F)
    (cbd : callbackdata D) (i : Z) (tok : string) (w : world F S)
    : outcome F S :=
  bad_argument call flags badfn cbd i tok false w.

(** What an iteration does with a standalone value, resolved against
    [sd]. *)
Definition standalone_outcome (flags : Z) (badfn : option F)
    (cbd : callbackdata D) (i : Z) (tok : string) (sd : option def)
    (w : world F S) : outcome F S :=
  match sd with
  | Some d =>
      match callbackfn d with
      | Some fn =>
          if has_flag flags MINIARG_PROCESS_FLAG_VALUES
          then
            if has_flag flags MINIARG_PROCESS_FLAG_FIND_ONLY then Return i w
            else
              let '(r, w') :=
                invoke call Standalone i fn (Some d) (Some tok) cbd w in
              if r =? 0 then Continue false w'
              else unmatched_outcome flags badfn cbd i tok w'
          else Continue false w
      | None => unmatched_outcome flags badfn cbd i tok w
      end
  | None => unmatched_outcome flags badfn cbd i tok w
  end.

(** The external iteration [miniargv_get_next_arg_param] is made for:
    [i = 0; while ((i = miniargv_get_next_arg_param(i, ...)) > 0) ...],
    here started at [argindex]. The result is the list of the indices
    returned, the final non-positive result, and the final world; it is
    [None] when [fuel] calls did not reach a non-positive result. *)
Fixpoint next_arg_params (fuel : nat) (argv : list string)
    (argdef : list def) (badfn : option F) (argindex : Z) (w : world F S)
    : option (list Z * Z * world F S) :=
  match fuel with
  | O => None
  | Datatypes.S fuel' =>
      let '(r, w') :=
        miniargv_get_next_arg_param call int_at argindex argv argdef badfn w in
      if 0 <? r
      then '(ps, fin, w'') ← next_arg_params fuel' argv argdef badfn r w';
           Some (r :: ps, fin, w'')
      else Some ([], r, w')
  end.

(** The same iteration, entered in the middle of a call: the loop of the
    call is at [rest = argv + i]. *)
Definition next_arg_params_from (fuel : nat) (argv : list string)
    (argdef : list def) (badfn : option F) (cbd : callbackdata D)
    (rest : list string) (i : Z) (cache : standalone_cache F)
    (w : world F S) : option (list Z * Z * world F S) :=
  let '(r, w') :=
    scan call MINIARG_PROCESS_FLAG_FIND_VALUE argdef badfn cbd rest i cache
      w in
  if 0 <? r
  then '(ps, fin, w'') ← next_arg_params fuel argv argdef badfn r w';
       Some (r :: ps, fin, w'')
  else Some ([], r, w').

End Vocabulary.

(** ** Vocabulary of the visits *)

(** How a token is resolved against the table: it matches the flag
    entry [d], which gets [value] (taken from the following token when
    [advanced]); it is a standalone value for the entry [d]; or it matches
    nothing. *)
Inductive resolution (F : Type) : Type :=
| FlagMatch (site : callsite) (d : miniargv_definition F)
    (value : option string) (advanced : bool)
| ValueMatch (d : miniargv_definition F)
| NoMatch.
Arguments FlagMatch {F}.
Arguments ValueMatch {F}.
Arguments NoMatch {F}.

(** One token the loop stops at: its index, the token, the token that
    follows it, and its resolution. *)
Record visit (F : Type) : Type := mk_visit {
  v_index : Z;
  v_token : string;
  v_next : option string;
  v_res : resolution F
}.
Arguments mk_visit {F}.
Arguments v_index {F}.
Arguments v_token {F}.
Arguments v_next {F}.
Arguments v_res {F}.

(** A call through a function pointer, without the status it returns. *)
Record invocation (F : Type) : Type := mk_invocation {
  in_site : callsite;
  in_index : Z;
  in_def : option (miniargv_definition F);
  in_value : option string
}.
Arguments mk_invocation {F}.
Arguments in_site {F}.
Arguments in_index {F}.
Arguments in_def {F}.
Arguments in_value {F}.

(** How one iteration ends: the loop goes on, or the function returns. *)
Inductive step_end : Type := GoOn | StopAt (r : Z).

Section Visits.

Context {F : Type}.

Abbreviation def := (miniargv_definition F).

(** The entries of the table: those before the sentinel. *)
Fixpoint table_entries (argdef : list def) : list def :=
  match argdef with
  | [] => []
  | d :: more =>
      match callbackfn d with
      | Some _ => d :: table_entries more
      | None => []
      end
  end.

(** The entry has the short form the token names. *)
Definition short_test (tok : string) (d : def) : bool :=
  (negb (is_nul (shortarg d)) && Ascii.eqb (char_at tok 1) (shortarg d))%bool.

(** The entry has a long name that the token names: the name, then the
    end of the token or ['=']. *)
Definition long_name_test (tok : string) (d : def) : bool :=
  match longarg d with
  | Some name =>
      ((strncmp (offset 2 tok) name (strlen name) =? 0)
       && (is_nul (char_at tok (2 + strlen name))
           || Ascii.eqb (char_at tok (2 + strlen name)) "="))%bool
  | None => false
  end.

(** The resolution of the token [tok], followed by [next], against the
    table: the first entry with the short form, or the first entry with
    the long name, decides for a flag (an entry that takes no value
    matches when the token ends there, and one that takes a value when a
    value is there); the standalone value definition takes every other
    token. *)
Definition resolve (argdef : list def) (tok : string) (next : option string)
    : resolution F :=
  match classify tok with
  | ShortArg =>
      match List.find (short_test tok) (table_entries argdef) with
      | Some d =>
          match argparam d with
          | None =>
              if is_nul (char_at tok 2) then FlagMatch ShortFlag d None false
              else NoMatch
          | Some _ =>
              if negb (is_nul (char_at tok 2))
              then FlagMatch ShortFlag d (Some (offset 2 tok)) false
              else match next with
                   | Some v => FlagMatch ShortFlag d (Some v) true
                   | None => NoMatch
                   end
          end
      | None => NoMatch
      end
  | LongArg =>
      match List.find (long_name_test tok) (table_entries argdef) with
      | Some d =>
          let l := strlen (default EmptyString (longarg d)) in
          match argparam d with
          | None =>
              if is_nul (char_at tok (2 + l))
              then FlagMatch LongFlag d None false
              else NoMatch
          | Some _ =>
              if Ascii.eqb (char_at tok (2 + l)) "="
              then FlagMatch LongFlag d (Some (offset (3 + l) tok)) false
              else NoMatch
          end
      | None => NoMatch
      end
  | StandaloneArg =>
      match find_standalone argdef with
      | Some d => ValueMatch d
      | None => NoMatch
      end
  end.

(** The resolution took the following token as the value of the flag. *)
Definition advanced_of (res : resolution F) : bool :=
  match res with
  | FlagMatch _ _ _ advanced => advanced
  | _ => false
  end.

(** The tokens the loop stops at, from [rest = argv + i]: every token,
    but for the one that follows a flag and was taken as its value. *)
Fixpoint visits (argdef : list def) (rest : list string) (i : Z)
    : list (visit F) :=
  match rest with
  | [] => []
  | tok :: rest' =>
      let res := resolve argdef tok (head rest') in
      mk_visit i tok (head rest') res ::
      (if advanced_of res
       then match rest' with
            | _ :: rest'' => visits argdef rest'' (i + 2)
            | [] => []
            end
       else visits argdef rest' (i + 1))
  end.

(** The cursor and the token [argv[i]] once the visit has taken the
    value of its flag. *)
Definition v_cursor (v : visit F) : Z :=
  cursor (v_index v) (advanced_of (v_res v)).

Definition v_current (v : visit F) : string :=
  current (v_token v) (v_next v) (advanced_of (v_res v)).

(** The call an event records, and the event of a call that returns
    [status]. *)
Definition invocation_of (e : event F) : invocation F :=
  mk_invocation (ev_site e) (ev_index e) (ev_def e) (ev_value e).

Definition returning (c : invocation F) (status : Z) : event F :=
  mk_event (in_site c) (in_index c) (in_def c) (in_value c) status.

(** The call of the callback of the matched entry. *)
Definition match_invocation (v : visit F) : option (invocation F) :=
  match v_res v with
  | FlagMatch site d value advanced =>
      Some (mk_invocation site (cursor (v_index v) advanced) (Some d) value)
  | ValueMatch d =>
      Some (mk_invocation Standalone (v_index v) (Some d) (Some (v_token v)))
  | NoMatch => None
  end.

(** The call of the handler of unmatched tokens. *)
Definition unmatched_invocation (v : visit F) : invocation F :=
  mk_invocation Unmatched (v_cursor v) None (Some (v_current v)).

(** The mode [flags] calls the callback of the matched entry. *)
Definition acts_on (flags : Z) (res : resolution F) : bool :=
  match res with
  | FlagMatch _ _ _ _ => has_flag flags MINIARG_PROCESS_FLAG_FLAGS
  | ValueMatch _ =>
      (has_flag flags MINIARG_PROCESS_FLAG_VALUES
       && negb (has_flag flags MINIARG_PROCESS_FLAG_FIND_ONLY))%bool
  | NoMatch => false
  end.

(** The mode [flags] returns the index of the matched token. *)
Definition finds (flags : Z) (res : resolution F) : bool :=
  match res with
  | ValueMatch _ =>
      (has_flag flags MINIARG_PROCESS_FLAG_VALUES
       && has_flag flags MINIARG_PROCESS_FLAG_FIND_ONLY)%bool
  | _ => false
  end.

(** What a traversal returns when it gives up at the cursor [c]. *)
Definition abort_result (flags : Z) (c : Z) : Z :=
  if has_flag flags MINIARG_PROCESS_FLAG_FIND_ONLY then -1 else c.

(** What becomes of an unmatched token: a handler that is supplied is
    called with it, and the traversal goes on when the handler returns 0;
    when the handler returns non-zero, or is absent, the traversal gives up
    at the token. *)
Inductive handler_calls (flags : Z) (badfn : option F) (v : visit F)
    : list (event F) -> step_end -> Prop :=
| handler_accepts :
    is_Some badfn ->
    handler_calls flags badfn v [returning (unmatched_invocation v) 0] GoOn
| handler_refuses status :
    is_Some badfn -> status <> 0 ->
    handler_calls flags badfn v [returning (unmatched_invocation v) status]
      (StopAt (abort_result flags (v_cursor v)))
| handler_absent :
    badfn = None ->
    handler_calls flags badfn v [] (StopAt (abort_result flags (v_cursor v))).

(** The calls made at one visit, and how the iteration ends: a match the
    mode does not act on is passed over; the find-only mode returns the
    index of a standalone value; the callback of a match the mode acts on
    is called, and the token counts as unmatched when it returns non-zero;
    an unmatched token goes to the handler. *)
Inductive visit_calls (flags : Z) (badfn : option F) (v : visit F)
    : list (event F) -> step_end -> Prop :=
| visit_passed :
    v_res v <> NoMatch -> acts_on flags (v_res v) = false ->
    finds flags (v_res v) = false ->
    visit_calls flags badfn v [] GoOn
| visit_found :
    finds flags (v_res v) = true ->
    visit_calls flags badfn v [] (StopAt (v_index v))
| visit_called c :
    acts_on flags (v_res v) = true -> match_invocation v = Some c ->
    visit_calls flags badfn v [returning c 0] GoOn
| visit_call_failed c status calls ending :
    acts_on flags (v_res v) = true -> match_invocation v = Some c ->
    status <> 0 ->
    handler_calls flags badfn v calls ending ->
    visit_calls flags badfn v (returning c status :: calls) ending
| visit_unmatched calls ending :
    v_res v = NoMatch ->
    handler_calls flags badfn v calls ending ->
    visit_calls flags badfn v calls ending.

(** The calls of a traversal of the visits [vs], and its result. *)
Inductive traversal_calls (flags : Z) (badfn : option F)
    : list (visit F) -> list (event F) -> Z -> Prop :=
| traversal_done :
    traversal_calls flags badfn [] [] 0
| traversal_on v vs calls1 calls2 r :
    visit_calls flags badfn v calls1 GoOn ->
    traversal_calls flags badfn vs calls2 r ->
    traversal_calls flags badfn (v :: vs) (calls1 ++ calls2) r
| traversal_stop v vs calls r :
    visit_calls flags badfn v calls (StopAt r) ->
    traversal_calls flags badfn (v :: vs) calls r.

(** The kinds of visits. *)
Definition is_flag_match (v : visit F) : bool :=
  match v_res v with FlagMatch _ _ _ _ => true | _ => false end.

Definition is_value_match (v : visit F) : bool :=
  match v_res v with ValueMatch _ => true | _ => false end.

Definition is_no_match (v : visit F) : bool :=
  match v_res v with NoMatch => true | _ => false end.

(** The calls for the matches of the visits [vs], in the order of the
    tokens: all of them, those for flags, and those for standalone
    values. *)
Definition matches (vs : list (visit F)) : list (invocation F) :=
  omap match_invocation vs.

Definition flag_matches (vs : list (visit F)) : list (invocation F) :=
  omap match_invocation (List.filter is_flag_match vs).

Definition value_matches (vs : list (visit F)) : list (invocation F) :=
  omap match_invocation (List.filter is_value_match vs).

(** The calls for the matches the mode [flags] acts on. *)
Definition expected (flags : Z) (vs : list (visit F)) : list (invocation F) :=
  omap match_invocation
    (List.filter (fun v => acts_on flags (v_res v)) vs).

(** The calls of a handler that is called with every unmatched token
    among [vs] and returns 0. *)
Definition accepted (vs : list (visit F)) : list (event F) :=
  (fun v => mk_event Unmatched (v_index v) None (Some (v_token v)) 0)
    <$> List.filter is_no_match vs.

(** The handler did not accept the unmatched token of the visit [v],
    reached after the visits [pre]: it was called with every unmatched
    token of [pre], returned 0 for those, and non-zero for the token of
    [v]; or there is no handler, and [pre] holds no unmatched token. *)
Definition refused (badfn : option F) (pre : list (visit F)) (v : visit F)
    (calls : list (event F)) : Prop :=
  match badfn with
  | Some _ =>
      exists status,
        status <> 0 /\
        calls = accepted pre ++
                [mk_event Unmatched (v_index v) None (Some (v_token v))
                   status]
  | None => calls = [] /\ Forall (fun u => is_no_match u = false) pre
  end.

(** The indices of the standalone values among [vs]. *)
Definition value_positions (vs : list (visit F)) : list Z :=
  v_index <$> List.filter is_value_match vs.

(** The iteration over the visits [vs] returned the indices [ps], ended
    on [fin] and made the calls [calls]: it ended on 0 having returned the
    index of every standalone value, the handler having accepted every
    unmatched token; or it ended on -1 at an unmatched token that the
    handler did not accept, having returned the indices of the standalone
    values before that token. *)
Definition enumerated (badfn : option F) (vs : list (visit F))
    (ps : list Z) (fin : Z) (calls : list (event F)) : Prop :=
  (fin = 0 /\ ps = value_positions vs /\ calls = accepted vs /\
   (badfn = None -> Forall (fun u => is_no_match u = false) vs)) \/
  (fin = -1 /\
   exists pre v post,
     vs = pre ++ v :: post /\ v_res v = NoMatch /\
     ps = value_positions pre /\ refused badfn pre v calls).

(** The calls of a visit of a full traversal, case by case: a match the
    mode does not act on; a callback that returns 0; a callback that
    returns non-zero, with the handler accepting, refusing or absent; an
    unmatched token, with the handler accepting, refusing or absent. *)
Inductive visit_shape (flags : Z) (badfn : option F) (v : visit F)
    : list (event F) -> step_end -> Prop :=
| shape_silent :
    v_res v <> NoMatch -> acts_on flags (v_res v) = false ->
    visit_shape flags badfn v [] GoOn
| shape_called c :
    acts_on flags (v_res v) = true -> match_invocation v = Some c ->
    visit_shape flags badfn v [returning c 0] GoOn
| shape_failed_accepted c status :
    acts_on flags (v_res v) = true -> match_invocation v = Some c ->
    status <> 0 -> is_Some badfn ->
    visit_shape flags badfn v
      [returning c status; returning (unmatched_invocation v) 0] GoOn
| shape_failed_refused c status status' :
    acts_on flags (v_res v) = true -> match_invocation v = Some c ->
    status <> 0 -> is_Some badfn -> status' <> 0 ->
    visit_shape flags badfn v
      [returning c status; returning (unmatched_invocation v) status']
      (StopAt (v_cursor v))
| shape_failed_absent c status :
    acts_on flags (v_res v) = true -> match_invocation v = Some c ->
    status <> 0 -> badfn = None ->
    visit_shape flags badfn v [returning c status] (StopAt (v_cursor v))
| shape_unmatched_accepted :
    v_res v = NoMatch -> is_Some badfn ->
    visit_shape flags badfn v [returning (unmatched_invocation v) 0] GoOn
| shape_unmatched_refused status :
    v_res v = NoMatch -> is_Some badfn -> status <> 0 ->
    visit_shape flags badfn v [returning (unmatched_invocation v) status]
      (StopAt (v_cursor v))
| shape_unmatched_absent :
    v_res v = NoMatch -> badfn = None ->
    visit_shape flags badfn v [] (StopAt (v_cursor v)).

End Visits.

Section VisitSteps.

Context {F S : Type}.

(** One iteration, from the world [w], against the visit [v]: the calls
    it makes are those of [v], and it goes on past the value of a flag
    exactly when [v] took one. *)
Definition step_exact (flags : Z) (badfn : option F) (v : visit F)
    (w : world F S) (out : outcome F S) : Prop :=
  match out with
  | Continue advanced w' =>
      advanced = advanced_of (v_res v) /\
      exists calls,
        trace w' = trace w ++ calls /\
        visit_calls flags badfn v calls GoOn
  | Return r w' =>
      exists calls,
        trace w' = trace w ++ calls /\
        visit_calls flags badfn v calls (StopAt r)
  end.

(** What is known of the visits of [argv]: the index is that of the
    token, the next token is the one that follows it, a flag that took
    its value from the next token had one, and the resolution is that of
    the token. *)
Definition visit_ok (argdef : list (miniargv_definition F))
    (argv : list string) (v : visit F) : Prop :=
  0 < v_index v /\
  argv !! Z.to_nat (v_index v) = Some (v_token v) /\
  v_next v = argv !! Z.to_nat (v_index v + 1) /\
  (advanced_of (v_res v) = true -> is_Some (v_next v)) /\
  v_res v = resolve argdef (v_token v) (v_next v).

End VisitSteps.

(** ** The predefined callbacks *)

(** The callbacks of the library act on the object [userdata] points to.
    The caller's state is a memory of integer objects, by address. An [int]
    has 32 bits; the width of a [long] depends on the platform and is a
    parameter. Signed arithmetic is written with two's complement
    wrap-around. A call with a NULL [argdef], or with [userdata] not the
    address of an object, is outside what C defines and leaves the memory
    as it is. *)
Module Predefined.

Definition wrap (bits x : Z) : Z :=
  (x + 2 ^ (bits - 1)) mod 2 ^ bits - 2 ^ (bits - 1).

Definition INT_BITS : Z := 32.

Definition min_signed (bits : Z) : Z := - 2 ^ (bits - 1).
Definition max_signed (bits : Z) : Z := 2 ^ (bits - 1) - 1.

Section Callbacks.

Context {F D : Type}.
Variable LONG_BITS : Z.

Abbreviation def := (miniargv_definition F).

(** [*(T* )argdef->userdata = f( *(T* )argdef->userdata )] *)
Definition update_object (f : Z -> Z) (argdef : option def)
    (m : gmap Z Z) : Z * gmap Z Z :=
  match argdef with
  | Some d => (0, alter f (userdata d) m)
  | None => (0, m)
  end.

Definition miniargv_cb_set_int_to_zero (argdef : option def)
    (value : option string) (cbd : callbackdata D) (m : gmap Z Z) :=
  update_object (fun _ => 0) argdef m.

Definition miniargv_cb_set_int_to_one (argdef : option def)
    (value : option string) (cbd : callbackdata D) (m : gmap Z Z) :=
  update_object (fun _ => 1) argdef m.

Definition miniargv_cb_set_int_to_minus_one (argdef : option def)
    (value : option string) (cbd : callbackdata D) (m : gmap Z Z) :=
  update_object (fun _ => -1) argdef m.

(** [( *((int* )argdef->userdata))++;] *)
Definition miniargv_cb_increment_int (argdef : option def)
    (value : option string) (cbd : callbackdata D) (m : gmap Z Z) :=
  update_object (fun v => wrap INT_BITS (v + 1)) argdef m.

(** [( *((int* )argdef->userdata))--;] *)
Definition miniargv_cb_decrement_int (argdef : option def)
    (value : option string) (cbd : callbackdata D) (m : gmap Z Z) :=
  update_object (fun v => wrap INT_BITS (v - 1)) argdef m.

Definition miniargv_cb_set_long_to_zero (argdef : option def)
    (value : option string) (cbd : callbackdata D) (m : gmap Z Z) :=
  update_object (fun _ => 0) argdef m.

Definition miniargv_cb_set_long_to_one (argdef : option def)
    (value : option string) (cbd : callbackdata D) (m : gmap Z Z) :=
  update_object (fun _ => 1) argdef m.

Definition miniargv_cb_set_long_to_minus_one (argdef : option def)
    (value : option string) (cbd : callbackdata D) (m : gmap Z Z) :=
  update_object (fun _ => -1) argdef m.

(** [( *((long* )argdef->userdata))--;] *)
Definition miniargv_cb_increment_long (argdef : option def)
    (value : option string) (cbd : callbackdata D) (m : gmap Z Z) :=
  update_object (fun v => wrap LONG_BITS (v - 1)) argdef m.

(** [( *((long* )argdef->userdata))++;] *)
Definition miniargv_cb_decrement_long (argdef : option def)
    (value : option string) (cbd : callbackdata D) (m : gmap Z Z) :=
  update_object (fun v => wrap LONG_BITS (v + 1)) argdef m.

Definition miniargv_cb_noop (argdef : option def)
    (value : option string) (cbd : callbackdata D) (m : gmap Z Z)
    : Z * gmap Z Z :=
  (0, m).

(** [if (argdef->userdata) fprintf(stderr, "%s\n", argdef->userdata);
    return -1;] Here [userdata] is NULL (0) or the address of a message,
    which [text_at] reads; beside the status and the memory, which is
    untouched, the result holds what is written to [stderr]. *)
Definition miniargv_cb_error (text_at : Z -> string) (argdef : option def)
    (value : option string) (cbd : callbackdata D) (m : gmap Z Z)
    : Z * gmap Z Z * list string :=
  match argdef with
  | Some d =>
      if userdata d =? 0 then (-1, m, [])
      else (-1, m, [text_at (userdata d) +:+ String LF EmptyString])
  | None => (-1, m, [])
  end.

End Callbacks.

End Predefined.

(** ** A program that uses the library *)

(** The function pointers of a small application: the predefined
    callbacks that act on the memory, and two handlers of its own.
    [app_count a status] adds one to the [int] global at address [a] and
    returns [status]; [app_status status] only returns [status]. *)
Module App.

Inductive fnptr : Type :=
| cb_noop
| cb_set_int_to_zero | cb_set_int_to_one | cb_set_int_to_minus_one
| cb_increment_int | cb_decrement_int
| cb_set_long_to_zero | cb_set_long_to_one | cb_set_long_to_minus_one
| cb_increment_long | cb_decrement_long
| app_count (a : Z) (status : Z)
| app_status (status : Z).

Definition LONG_BITS : Z := 64.

Definition call (fn : fnptr) (argdef : option (miniargv_definition fnptr))
    (value : option string) (cbd : callbackdata unit) (m : gmap Z Z)
    : Z * gmap Z Z :=
  match fn with
  | cb_noop => Predefined.miniargv_cb_noop argdef value cbd m
  | cb_set_int_to_zero =>
      Predefined.miniargv_cb_set_int_to_zero argdef value cbd m
  | cb_set_int_to_one =>
      Predefined.miniargv_cb_set_int_to_one argdef value cbd m
  | cb_set_int_to_minus_one =>
      Predefined.miniargv_cb_set_int_to_minus_one argdef value cbd m
  | cb_increment_int =>
      Predefined.miniargv_cb_increment_int argdef value cbd m
  | cb_decrement_int =>
      Predefined.miniargv_cb_decrement_int argdef value cbd m
  | cb_set_long_to_zero =>
      Predefined.miniargv_cb_set_long_to_zero argdef value cbd m
  | cb_set_long_to_one =>
      Predefined.miniargv_cb_set_long_to_one argdef value cbd m
  | cb_set_long_to_minus_one =>
      Predefined.miniargv_cb_set_long_to_minus_one argdef value cbd m
  | cb_increment_long =>
      Predefined.miniargv_cb_increment_long LONG_BITS argdef value cbd m
  | cb_decrement_long =>
      Predefined.miniargv_cb_decrement_long LONG_BITS argdef value cbd m
  | app_count a status =>
      (status, alter (fun v => Predefined.wrap Predefined.INT_BITS (v + 1)) a m)
  | app_status status => (status, m)
  end.

(** The application passes no callback data. *)
Definition int_at (d : unit) : Z := 0.

Definition NULL : callbackdata unit := UserData tt.

Definition initial (m : gmap Z Z) : world fnptr (gmap Z Z) :=
  mk_world m [] [].

End App.

(** ** The program name *)

(** [tolower] and [strcasecmp], in the C locale. *)
Definition tolower (c : ascii) : ascii :=
  let n := N_of_ascii c in
  if (N.leb 65 n && N.leb n 90)%bool then ascii_of_N (n + 32) else c.

Fixpoint strcasecmp (a b : string) : Z :=
  match a, b with
  | EmptyString, EmptyString => 0
  | EmptyString, String d _ => - uchar (tolower d)
  | String c _, EmptyString => uchar (tolower c)
  | String c a', String d b' =>
      if Ascii.eqb (tolower c) (tolower d) then strcasecmp a' b'
      else uchar (tolower c) - uchar (tolower d)
  end.

(** The characters that end the directory part of a path: ['/'], and
    under [_WIN32] also the backslash and [':']. *)
Definition is_separator (win32 : bool) (c : ascii) : bool :=
  (Ascii.eqb c "/" || (win32 && (Ascii.eqb c "\" || Ascii.eqb c ":")))%bool.

(** The loop [while (pos > 1 && argv0[pos - 1] != '/' ...) pos--;]. *)
Fixpoint name_start (win32 : bool) (argv0 : string) (pos : nat) : nat :=
  match pos with
  | O => O
  | Datatypes.S pos' =>
      if ((1 <? pos)%nat
          && negb (is_separator win32 (char_at argv0 pos')))%bool
      then name_start win32 argv0 pos'
      else pos
  end.

(** [miniargv_getprogramname(argv0, length)]: the returned pointer, and
    the value stored in [*length] when [length] is not NULL. [win32] tells
    whether [_WIN32] is defined. *)
Definition miniargv_getprogramname (win32 : bool) (argv0 : option string)
    : option string * Z :=
  match argv0 with
  | None => (None, 0)
  | Some s =>
      if is_nul (char_at s 0) then (None, 0)
      else
        let len := strlen s in
        let pos := name_start win32 s len in
        let len :=
          if (win32 && (4 <=? len)%nat
              && (strcasecmp (offset (len - 4) s) ".exe" =? 0))%bool
          then (len - 4)%nat else len in
        (Some (offset pos s), Z.of_nat len - Z.of_nat pos)
  end.

(** ** Wrapped text *)

(** The loop [while ( *r && !isspace( *r)) r++;]: how far it moves [r]. *)
Fixpoint word_length (s : string) : nat :=
  match s with
  | String c s' => if isspace c then O else Datatypes.S (word_length s')
  | EmptyString => O
  end.

(** The loop [while ( *r && isspace( *r)) r++;]: how far it moves [r]. *)
Fixpoint space_length (s : string) : nat :=
  match s with
  | String c s' => if isspace c then Datatypes.S (space_length s') else O
  | EmptyString => O
  end.

(** What [printf("%*s", n, "")] prints: [|n|] spaces. *)
Fixpoint spaces (n : nat) : string :=
  match n with
  | O => EmptyString
  | Datatypes.S n' => String " " (spaces n')
  end.

(** The [do ... while ( *r)] loop that looks for the wrap position, with
    [q] and [r] as offsets from [p]; the result is the final [q - p]. The
    loop is entered with [q = r = p]. *)
Fixpoint find_wrap (fuel : nat) (p : string) (currentpos wrapwidth : Z)
    (q r : nat) : option nat :=
  match fuel with
  | O => None
  | Datatypes.S fuel' =>
      let r := (r + word_length (offset r p))%nat in
      if wrapwidth <? currentpos + Z.of_nat r
      then Some (if (q =? 0)%nat then r else q)
      else
        let q := r in
        if Ascii.eqb (char_at p r) LF then Some q
        else
          let r := (r + space_length (offset r p))%nat in
          if negb (is_nul (char_at p r))
          then find_wrap fuel' p currentpos wrapwidth q r
          else Some q
  end.

(** The loop [while (p)], from the text at [p]; the result is what it
    prints. *)
Fixpoint wrap_text (fuel : nat) (p : string)
    (currentpos indentpos wrapwidth : Z) : option string :=
  match fuel with
  | O => None
  | Datatypes.S fuel' =>
      q ← find_wrap (Datatypes.S (strlen p)) p currentpos wrapwidth 0 0;
      if is_nul (char_at p q) then Some p
      else
        out ← wrap_text fuel' (skip_spaces (offset q p)) indentpos indentpos
                wrapwidth;
        Some (take q p +:+ String LF (spaces (Z.abs_nat indentpos)) +:+ out)
  end.

(** What [miniargv_wrap_and_indent_text] prints; [None] stands for a
    loop that has not ended after as many rounds as the text has
    characters, plus one. *)
Definition miniargv_wrap_and_indent_text (text : option string)
    (currentpos indentpos wrapwidth : Z) : option string :=
  let wrapwidth := if wrapwidth =? 0 then 79 else wrapwidth in
  match text with
  | None => Some EmptyString
  | Some t =>
      wrap_text (Datatypes.S (strlen t)) t currentpos indentpos wrapwidth
  end.

(** ** Generated configuration files *)

(** What [printf("%s", s)] prints; for a NULL [s] the C library prints
    ["(null)"]. *)
Definition printf_s (s : option string) : string := default "(null)" s.

(** What [miniargv_cfgfile_generate] writes to [cfgfile]. *)
Fixpoint miniargv_cfgfile_generate {F : Type}
    (current_cfgdef : list (miniargv_definition F)) : string :=
  match current_cfgdef with
  | [] => EmptyString
  | d :: more =>
      match callbackfn d with
      | None => EmptyString
      | Some _ =>
          match longarg d with
          | Some name =>
              "; " +:+ name +:+ String LF ";   " +:+ printf_s (help d)
              +:+ String LF name +:+ " = " +:+ default EmptyString (argparam d)
              +:+ String LF (miniargv_cfgfile_generate more)
          | None => miniargv_cfgfile_generate more
          end
      end
  end.

(** ** Integer values *)

Definition isdigit (c : ascii) : bool :=
  let n := N_of_ascii c in (N.leb 48 n && N.leb n 57)%bool.

Definition digit_value (c : ascii) : Z := uchar c - 48.

(** The digits a string starts with: how many, and their value in base
    10 after the digits [acc] already read. *)
Fixpoint digit_count (s : string) : nat :=
  match s with
  | String c s' => if isdigit c then Datatypes.S (digit_count s') else O
  | EmptyString => O
  end.

Fixpoint digits_value (s : string) (acc : Z) : Z :=
  match s with
  | String c s' =>
      if isdigit c then digits_value s' (10 * acc + digit_value c) else acc
  | EmptyString => acc
  end.

(** [strtol(nptr, &end, 10)] for a [long] of [bits] bits: the result and
    the offset [end - nptr]. White space is skipped, then an optional sign
    is read, then the digits; with no digit nothing is converted and [end]
    is [nptr]; a value out of range is replaced by the nearest bound. *)
Definition strtol (bits : Z) (nptr : string) : Z * nat :=
  let s := skip_spaces nptr in
  let ws := (strlen nptr - strlen s)%nat in
  let '(negative, signlen) :=
    if Ascii.eqb (char_at s 0) "-" then (true, 1%nat)
    else if Ascii.eqb (char_at s 0) "+" then (false, 1%nat)
    else (false, 0%nat) in
  let ds := offset signlen s in
  let n := digit_count ds in
  if (n =? 0)%nat then (0, 0%nat)
  else
    let v := digits_value ds 0 in
    let v := if negative then - v else v in
    (Z.max (Predefined.min_signed bits) (Z.min (Predefined.max_signed bits) v),
     (ws + signlen + n)%nat).

Section IntegerCallbacks.

Import Predefined.

Context {F D : Type}.
Variable LONG_BITS : Z.

(** [miniargv_cb_set_int]; [end] is never NULL after [strtol], and the
    conversion [(int)intval] keeps the low 32 bits. *)
Definition miniargv_cb_set_int (argdef : option (miniargv_definition F))
    (value : option string) (cbd : callbackdata D) (m : gmap Z Z)
    : Z * gmap Z Z :=
  match value with
  | None => (1, m)
  | Some v =>
      if is_nul (char_at v 0) then (1, m)
      else
        let '(intval, e) := strtol LONG_BITS v in
        if negb (is_nul (char_at v e)) then (2, m)
        else if intval =? min_signed LONG_BITS then (3, m)
        else if intval =? max_signed LONG_BITS then (4, m)
        else update_object (fun _ => wrap INT_BITS intval) argdef m
  end.

Definition miniargv_cb_set_long (argdef : option (miniargv_definition F))
    (value : option string) (cbd : callbackdata D) (m : gmap Z Z)
    : Z * gmap Z Z :=
  match value with
  | None => (1, m)
  | Some v =>
      if is_nul (char_at v 0) then (1, m)
      else
        let '(intval, e) := strtol LONG_BITS v in
        if negb (is_nul (char_at v e)) then (2, m)
        else if intval =? min_signed LONG_BITS then (3, m)
        else if intval =? max_signed LONG_BITS then (4, m)
        else update_object (fun _ => intval) argdef m
  end.

End IntegerCallbacks.

(** ** Help texts *)

(** What [miniargv_arg_help] prints for an entry before the
    description; [pos] in the source is the length of this text. *)
Definition arg_label {F : Type} (d : miniargv_definition F) : string :=
  "  " +:+
  (if (is_nul (shortarg d)
       && match longarg d with None => true | Some _ => false end)%bool
   then default "param" (argparam d)
   else
     (if negb (is_nul (shortarg d))
      then "-" +:+ String (shortarg d) EmptyString +:+
           match argparam d with
           | Some p => " " +:+ p
           | None => EmptyString
           end
      else EmptyString) +:+
     match longarg d with
     | Some l =>
         (if negb (is_nul (shortarg d)) then ", " else EmptyString) +:+
         "--" +:+ l +:+
         match argparam d with
         | Some p => "=" +:+ p
         | None => EmptyString
         end
     | None => EmptyString
     end).

(** The same for [miniargv_env_help], which prints no short form. *)
Definition env_label {F : Type} (d : miniargv_definition F) : string :=
  "  " +:+
  (if (is_nul (shortarg d)
       && match longarg d with None => true | Some _ => false end)%bool
   then " " +:+ default "param" (argparam d)
   else
     match longarg d with
     | Some l =>
         (if negb (is_nul (shortarg d)) then ", " else EmptyString) +:+
         l +:+
         match argparam d with
         | Some p => "=" +:+ p
         | None => EmptyString
         end
     | None => EmptyString
     end).

(** What is printed between the label, which ends in column [pos], and
    the description: a new line and the indent when
    [pos > descindent - 2], else the spaces up to the indent. *)
Definition description_gap (pos descindent : Z) : string :=
  if descindent - 2 <? pos
  then String LF (spaces (Z.abs_nat descindent))
  else spaces (Z.abs_nat (if pos <? descindent then descindent - pos else 2)).

(** The loop of [miniargv_arg_help] and of [miniargv_env_help], which
    differ in the label. *)
Fixpoint help_entries {F : Type} (label : miniargv_definition F -> string)
    (current_argdef : list (miniargv_definition F))
    (descindent wrapwidth : Z) : option string :=
  match current_argdef with
  | [] => Some EmptyString
  | d :: more =>
      match callbackfn d with
      | None => Some EmptyString
      | Some _ =>
          let pos := Z.of_nat (strlen (label d)) in
          text ← miniargv_wrap_and_indent_text (help d) descindent descindent
                   wrapwidth;
          rest ← help_entries label more descindent wrapwidth;
          Some (label d +:+ description_gap pos descindent +:+ text
                +:+ String LF rest)
      end
  end.

Definition miniargv_arg_help {F : Type}
    (argdef : list (miniargv_definition F)) (descindent wrapwidth : Z)
    : option string :=
  let descindent := if descindent =? 0 then 25 else descindent in
  help_entries arg_label argdef descindent wrapwidth.

Definition miniargv_env_help {F : Type}
    (envdef : list (miniargv_definition F)) (descindent wrapwidth : Z)
    : option string :=
  let descindent := if descindent =? 0 then 25 else descindent in
  help_entries env_label envdef descindent wrapwidth.

(** [argdef] and [envdef] may be NULL. *)
Definition miniargv_help {F : Type}
    (argdef envdef : option (list (miniargv_definition F)))
    (descindent wrapwidth : Z) : option string :=
  a ← match argdef with
       | Some defs =>
           text ← miniargv_arg_help defs descindent wrapwidth;
           Some ("Command line arguments:" +:+ String LF text)
       | None => Some EmptyString
       end;
  e ← match envdef with
       | Some defs =>
           text ← miniargv_env_help defs descindent wrapwidth;
           Some ("Environment variables:" +:+ String LF text)
       | None => Some EmptyString
       end;
  Some (a +:+ e).
(** ** Vocabulary of the further properties *)

(** Every character of [s] satisfies [P]. *)
Fixpoint all_chars (P : ascii -> bool) (s : string) : bool :=
  match s with
  | EmptyString => true
  | String c s' => (P c && all_chars P s')%bool
  end.

Definition no_separator (win32 : bool) (s : string) : bool :=
  all_chars (fun c => negb (is_separator win32 c)) s.

(** The optional sign of a number. *)
Inductive sign : Type := NoSign | Plus | Minus.

Definition sign_text (sg : sign) : string :=
  match sg with
  | NoSign => EmptyString
  | Plus => "+"
  | Minus => "-"
  end.

Definition signed (sg : sign) (n : Z) : Z :=
  match sg with
  | Minus => - n
  | _ => n
  end.

(** What [strtol] returns for the mathematical value [z]. *)
Definition clamp (bits z : Z) : Z :=
  Z.max (Predefined.min_signed bits) (Z.min (Predefined.max_signed bits) z).

(** The decimal text of an integer: ["0"], ["42"], ["-7"]. *)
Definition decimal (z : Z) : string := NilZero.string_of_int (Z.to_int z).

(** The words of a text: its maximal runs of characters that are not
    white space, in order. [cur] is the word being read. *)
Fixpoint words_from (s : string) (cur : string) : list string :=
  match s with
  | EmptyString =>
      match cur with EmptyString => [] | _ => [cur] end
  | String c s' =>
      if isspace c
      then match cur with
           | EmptyString => words_from s' EmptyString
           | _ => cur :: words_from s' EmptyString
           end
      else words_from s' (cur +:+ String c EmptyString)
  end.

Definition words (s : string) : list string := words_from s EmptyString.

(** The lines of a text: what stands between its line feeds. *)
Fixpoint lines (s : string) : list string :=
  match s with
  | EmptyString => [EmptyString]
  | String c s' =>
      if Ascii.eqb c LF then EmptyString :: lines s'
      else match lines s' with
           | l :: ls => String c l :: ls
           | [] => [String c EmptyString]
           end
  end.

(** A line of wrapped text that starts in column [col] fits the width,
    or it holds a single word, which is never split. *)
Definition line_fits (wrapwidth col : Z) (l : string) : Prop :=
  col + Z.of_nat (strlen l) <= wrapwidth \/ (length (words l) <= 1)%nat.

Definition no_line_feed (s : string) : bool :=
  all_chars (fun c => negb (Ascii.eqb c LF)) s.

(** [q] is at the end of the text [p] or at a white space character: a
    place where a word ends. *)
Definition boundary (p : string) (q : nat) : Prop :=
  q = strlen p \/ isspace (char_at p q) = true.

(** The lines [ls], each followed by the line end [eol]. *)
Fixpoint with_line_ends (eol : string) (ls : list string) : string :=
  match ls with
  | [] => EmptyString
  | l :: more => l +:+ eol +:+ with_line_ends eol more
  end.

(** The characters at which the scan for the end of a variable name
    stops. *)
Definition is_delimiter (c : ascii) : bool :=
  (Ascii.eqb c "=" || Ascii.eqb c ":" || Ascii.eqb c "#"
   || Ascii.eqb c ";")%bool.

Definition no_delimiter (s : string) : bool :=
  all_chars (fun c => negb (is_delimiter c)) s.

(** A text with no white space at either end. *)
Definition trimmed (s : string) : Prop :=
  isspace (char_at s 0) = false /\
  isspace (char_at s (strlen s - 1)) = false.

(** The string [n] starts with [k]. *)
Definition starts_with (n k : string) : Prop :=
  exists tail, n = k +:+ tail.

(** [starts_with n k], as a test. *)
Fixpoint starts_withb (n k : string) {struct k} : bool :=
  match k, n with
  | EmptyString, _ => true
  | String c k', String d n' => (Ascii.eqb c d && starts_withb n' k')%bool
  | String _ _, EmptyString => false
  end.

(** An entry that [miniargv_cfgfile_generate] writes in a form that
    [miniargv_process_cfgfile] reads back: its long name, if it has one,
    is not empty and holds neither white space nor one of [= : # ;]; its
    help text holds no line feed; its value text holds no line feed and
    has no white space at either end. *)
Definition savable {F : Type} (d : miniargv_definition F) : bool :=
  match longarg d with
  | None => true
  | Some name =>
      let value := default EmptyString (argparam d) in
      (cstring name && negb (strlen name =? 0)%nat && no_delimiter name
       && all_chars (fun c => negb (isspace c)) name
       && no_line_feed (printf_s (help d))
       && no_line_feed value
       && negb (isspace (char_at value 0))
       && negb (isspace (char_at value (strlen value - 1))))%bool
  end.

(** No long name of [suffix] is the start of the long name of an entry
    that comes before it in [pre ++ suffix]. *)
Fixpoint no_shadowing {F : Type} (pre suffix : list (miniargv_definition F))
    : bool :=
  match suffix with
  | [] => true
  | d :: more =>
      (match longarg d with
       | Some name =>
           forallb (fun e => match longarg e with
                             | Some n => negb (starts_withb n name)
                             | None => true
                             end) pre
       | None => true
       end && no_shadowing (pre ++ [d]) more)%bool
  end.

(** The calls that reading a generated file makes when every callback
    returns 0: one for each entry with a long name, in the order of the
    table, on the third line of its block, with the value text. *)
Fixpoint saved_variables {F : Type} (cfgdef : list (miniargv_definition F))
    (lineno : Z) : list (event F) :=
  match cfgdef with
  | [] => []
  | d :: more =>
      match callbackfn d with
      | None => []
      | Some _ =>
          match longarg d with
          | Some _ =>
              mk_event CfgVar (lineno + 2) (Some d)
                (Some (default EmptyString (argparam d))) 0
              :: saved_variables more (lineno + 3)
          | None => saved_variables more lineno
          end
      end
  end.

(** The tokens handed to the handler of unmatched tokens, with their
    positions, in the order of the calls. *)
Definition unmatched_tokens {F : Type} (new : list (event F))
    : list (Z * option string) :=
  (fun e => (ev_index e, ev_value e)) <$> List.filter is_unmatched_event new.

(** The function pointer [fn] returns 0 whatever it is called with. *)
Definition returns_zero {F S D : Type}
    (call : F -> option (miniargv_definition F) -> option string ->
            callbackdata D -> S -> Z * S) (fn : F) : Prop :=
  forall a v c s, (call fn a v c s).1 = 0.

(** The callbacks of the table all return 0. *)
Definition callbacks_return_zero {F S D : Type}
    (call : F -> option (miniargv_definition F) -> option string ->
            callbackdata D -> S -> Z * S)
    (argdef : list (miniargv_definition F)) : Prop :=
  Forall (fun d => forall fn, callbackfn d = Some fn -> returns_zero call fn)
    argdef.

(** The column the cursor is in after [s] is printed from column [col]:
    the number of characters since the last line feed. *)
Fixpoint column_from (s : string) (col : nat) : nat :=
  match s with
  | EmptyString => col
  | String c s' =>
      if Ascii.eqb c LF then column_from s' 0
      else column_from s' (Datatypes.S col)
  end.

Definition column (s : string) : nat := column_from s 0.

(** The calls [new] of an operation that stops at the first status that
    is not 0, and whose status in the end is [result]: every call
    returned 0, except the last one when [result] is not 0, which
    returned [result]. *)
Definition stops_at_first_failure {F : Type} (new : list (event F))
    (result : Z) : Prop :=
  (result = 0 /\ Forall (fun e => ev_status e = 0) new) \/
  (result <> 0 /\
   exists pre e,
     new = pre ++ [e] /\ ev_status e = result /\
     Forall (fun e => ev_status e = 0) pre).

(** The call [e] is made for the pair at [ev_index e] of [env] and for
    an entry of [envdef]: the pair is [key=value], the long name of the
    entry starts with [key], and the value passed is [value]. *)
Definition env_call {F : Type} (env : list string)
    (envdef : list (miniargv_definition F)) (e : event F) : Prop :=
  ev_site e = EnvVar /\ 0 <= ev_index e /\
  exists d name key value,
    ev_def e = Some d /\ In d envdef /\ callbackfn d <> None /\
    longarg d = Some name /\
    env !! Z.to_nat (ev_index e) = Some (key +:+ String "=" value) /\
    strchr key "=" = None /\
    starts_with name key /\
    ev_value e = Some value.

(** The call [e] is made for a line of the file and for an entry of
    [cfgdef] that has a long name. *)
Definition cfg_call {F : Type} (cfgdef : list (miniargv_definition F))
    (e : event F) : Prop :=
  ev_site e = CfgVar /\
  exists d name,
    ev_def e = Some d /\ In d cfgdef /\ callbackfn d <> None /\
    longarg d = Some name /\ is_Some (ev_value e).

(** * Properties *)

(** ** The predefined callbacks *)

Section PredefinedFacts.

Import Predefined.

Lemma wrap_in_range (bits x : Z) :
  0 < bits -> min_signed bits <= x <= max_signed bits -> wrap bits x = x.
Proof.
  unfold wrap, min_signed, max_signed. intros Hb Hx.
  assert (H2 : 2 ^ bits = 2 * 2 ^ (bits - 1)).
  { replace bits with (Z.succ (bits - 1)) at 1 by lia.
    rewrite Z.pow_succ_r; lia. }
  rewrite Z.mod_small; lia.
Qed.

Lemma alter_present (f : Z -> Z) (p v : Z) (m : gmap Z Z) :
  m !! p = Some v -> alter f p m = <[p := f v]> m.
Proof.
  intros Hp. apply map_eq. intros q.
  destruct (decide (p = q)) as [->|Hne].
  - rewrite lookup_alter_eq, lookup_insert_eq, Hp. reflexivity.
  - rewrite lookup_alter_ne, lookup_insert_ne by done. reflexivity.
Qed.

(** C10. On the object [userdata] points to, holding [v]:
    [miniargv_cb_increment_long] stores [v - 1] and
    [miniargv_cb_decrement_long] stores [v + 1], the reverse of their names
    and of their documentation, whereas [miniargv_cb_increment_int] stores
    [v + 1] and [miniargv_cb_decrement_int] stores [v - 1], as named. Each
    returns 0 and touches no other object. The ranges exclude exactly the
    operations that overflow. *)
Theorem long_increment_decrement_swapped {F D : Type} (LONG_BITS : Z)
    (d : miniargv_definition F) (value : option string)
    (cbd : callbackdata D) (m : gmap Z Z) (v : Z) :
  0 < LONG_BITS ->
  m !! userdata d = Some v ->
  (min_signed LONG_BITS < v <= max_signed LONG_BITS ->
   miniargv_cb_increment_long LONG_BITS (Some d) value cbd m
   = (0, <[userdata d := v - 1]> m)) /\
  (min_signed LONG_BITS <= v < max_signed LONG_BITS ->
   miniargv_cb_decrement_long LONG_BITS (Some d) value cbd m
   = (0, <[userdata d := v + 1]> m)) /\
  (min_signed INT_BITS <= v < max_signed INT_BITS ->
   miniargv_cb_increment_int (Some d) value cbd m
   = (0, <[userdata d := v + 1]> m)) /\
  (min_signed INT_BITS < v <= max_signed INT_BITS ->
   miniargv_cb_decrement_int (Some d) value cbd m
   = (0, <[userdata d := v - 1]> m)).
Proof.
  intros Hbits Hv.
  unfold miniargv_cb_increment_long, miniargv_cb_decrement_long,
    miniargv_cb_increment_int, miniargv_cb_decrement_int, update_object.
  rewrite !(alter_present _ _ v) by exact Hv.
  repeat split; intros Hr; rewrite wrap_in_range;
    try reflexivity; try lia; unfold INT_BITS; lia.
Qed.

Lemma long_increment_decrement_swapped_witness :
  let d : miniargv_definition App.fnptr :=
    mk_def "c" None None (Some App.cb_increment_long) 100 None in
  let m : gmap Z Z := {[100 := 5]} in
  miniargv_cb_increment_long 64 (Some d) None App.NULL m = (0, <[100 := 4]> m)
  /\ miniargv_cb_decrement_long 64 (Some d) None App.NULL m
     = (0, <[100 := 6]> m)
  /\ miniargv_cb_increment_int (Some d) None App.NULL m = (0, <[100 := 6]> m)
  /\ miniargv_cb_decrement_int (Some d) None App.NULL m = (0, <[100 := 4]> m).
Proof.
  intros d m.
  destruct (long_increment_decrement_swapped 64 d None App.NULL m 5)
    as (H1 & H2 & H3 & H4); [lia | reflexivity |].
  split; [|split; [|split]].
  - apply H1. vm_compute. split; [reflexivity | discriminate].
  - apply H2. vm_compute. split; [discriminate | reflexivity].
  - apply H3. vm_compute. split; [discriminate | reflexivity].
  - apply H4. vm_compute. split; [reflexivity | discriminate].
Defined.

End PredefinedFacts.

(** ** One iteration of the loop *)

Section TokenFacts.

Context {F S D : Type}.
Variable call :
  F -> option (miniargv_definition F) -> option string ->
  callbackdata D -> S -> Z * S.

Abbreviation def := (miniargv_definition F).
Abbreviation World := (world F S).

Lemma invoke_inv (site : callsite) (i : Z) (fn : F) (d : option def)
    (v : option string) (cbd : callbackdata D) (w w' : World) (r : Z) :
  invoke call site i fn d v cbd w = (r, w') ->
  call fn d v cbd (st w) = (r, st w') /\
  trace w' = trace w ++ [mk_event site i d v r] /\
  stderr w' = stderr w.
Proof.
  unfold invoke. destruct (call fn d v cbd (st w)) as [r0 s0].
  intros ?; simplify_eq. auto.
Qed.

(** A flag branch makes no call when the mode does not act on flags. *)
Lemma dispatch_flag_silent (flags : Z) (site : callsite) (i : Z) (fn : F)
    (d : def) (v : option string) (cbd : callbackdata D) (w : World) :
  has_flag flags MINIARG_PROCESS_FLAG_FLAGS = false ->
  dispatch_flag call flags site i fn d v cbd w = (true, w).
Proof.
  unfold has_flag, dispatch_flag. intros H.
  destruct (Z.land flags MINIARG_PROCESS_FLAG_FLAGS =? 0); [reflexivity|].
  discriminate.
Qed.

Lemma dispatch_flag_acts (flags : Z) (site : callsite) (i : Z) (fn : F)
    (d : def) (v : option string) (cbd : callbackdata D) (w : World) :
  has_flag flags MINIARG_PROCESS_FLAG_FLAGS = true ->
  dispatch_flag call flags site i fn d v cbd w
  = let '(r, w') := invoke call site i fn (Some d) v cbd w in (r =? 0, w').
Proof.
  unfold has_flag, dispatch_flag. intros H.
  destruct (Z.land flags MINIARG_PROCESS_FLAG_FLAGS =? 0); [discriminate|].
  reflexivity.
Qed.

Lemma dispatch_flag_inv (flags : Z) (site : callsite) (i : Z) (fn : F)
    (d : def) (v : option string) (cbd : callbackdata D) (w w' : World)
    (ok : bool) :
  dispatch_flag call flags site i fn d v cbd w = (ok, w') ->
  (ok = true /\ w' = w /\
   has_flag flags MINIARG_PROCESS_FLAG_FLAGS = false) \/
  (exists r,
     has_flag flags MINIARG_PROCESS_FLAG_FLAGS = true /\
     ok = (r =? 0) /\
     trace w' = trace w ++ [mk_event site i (Some d) v r] /\
     stderr w' = stderr w).
Proof.
  unfold dispatch_flag, has_flag.
  destruct (Z.land flags MINIARG_PROCESS_FLAG_FLAGS =? 0).
  - intros ?; simplify_eq. left. auto.
  - destruct (invoke call site i fn (Some d) v cbd w) as [r w1] eqn:E.
    intros ?; simplify_eq. right. exists r.
    apply invoke_inv in E as (_ & Ht & He). auto.
Qed.

Lemma short_arg_scan_result (flags : Z) (cbd : callbackdata D) (i : Z)
    (tok : string) (next : option string) (w : World) (argdef : list def)
    (ok advanced : bool) (w' : World) :
  short_arg_scan call flags cbd i tok next w argdef = (ok, advanced, w') ->
  (advanced = true -> is_Some next) /\
  branch_result flags ShortFlag i argdef w ok advanced w'.
Proof.
  unfold branch_result.
  induction argdef as [|d more IH]; cbn [short_arg_scan].
  - intros ?; simplify_eq. split; [discriminate | left; auto].
  - destruct (callbackfn d) as [fn|] eqn:Hfn.
    2:{ intros ?; simplify_eq. split; [discriminate | left; auto]. }
    destruct (negb (is_nul (shortarg d)) &&
              Ascii.eqb (char_at tok 1) (shortarg d))%bool.
    2:{ intros H. destruct (IH H) as [Ha [Hb|Hb]]; split; auto.
        right. destruct Hb as (d' & v & r & Hin & Hrest).
        exists d', v, r. split; [right; exact Hin | exact Hrest]. }
    assert (Hd : callbackfn d <> None) by (rewrite Hfn; discriminate).
    destruct (argparam d).
    + destruct (negb (is_nul (char_at tok 2))).
      * destruct (dispatch_flag call flags ShortFlag i fn d
                    (Some (offset 2 tok)) cbd w) as [ok1 w1] eqn:E.
        intros ?; simplify_eq. split; [discriminate|].
        apply dispatch_flag_inv in E as [(-> & -> & _)|(r & Hf & -> & Ht & He)].
        -- left. auto.
        -- right. exists d, (Some (offset 2 tok)), r. simpl. auto 10.
      * destruct next as [v|].
        -- destruct (dispatch_flag call flags ShortFlag (i + 1) fn d (Some v)
                       cbd w) as [ok1 w1] eqn:E.
           intros ?; simplify_eq. split; [eauto|].
           apply dispatch_flag_inv in E
             as [(-> & -> & _)|(r & Hf & -> & Ht & He)].
           ++ left. split; [reflexivity | discriminate].
           ++ right. exists d, (Some v), r. simpl. auto 10.
        -- intros ?; simplify_eq. split; [discriminate | left; auto].
    + destruct (is_nul (char_at tok 2)).
      * destruct (dispatch_flag call flags ShortFlag i fn d None cbd w)
          as [ok1 w1] eqn:E.
        intros ?; simplify_eq. split; [discriminate|].
        apply dispatch_flag_inv in E as [(-> & -> & _)|(r & Hf & -> & Ht & He)].
        -- left. auto.
        -- right. exists d, None, r. simpl. auto 10.
      * intros ?; simplify_eq. split; [discriminate | left; auto].
Qed.

Lemma long_arg_scan_result (flags : Z) (cbd : callbackdata D) (i : Z)
    (tok : string) (w : World) (argdef : list def) (ok : bool) (w' : World) :
  long_arg_scan call flags cbd i tok w argdef = (ok, w') ->
  branch_result flags LongFlag i argdef w ok false w'.
Proof.
  unfold branch_result.
  induction argdef as [|d more IH]; cbn [long_arg_scan].
  - intros ?; simplify_eq. left; auto.
  - destruct (callbackfn d) as [fn|] eqn:Hfn.
    2:{ intros ?; simplify_eq. left; auto. }
    assert (Hd : callbackfn d <> None) by (rewrite Hfn; discriminate).
    assert (Hmore :
      long_arg_scan call flags cbd i tok w more = (ok, w') ->
      w' = w /\ (ok = false -> false = false) \/
      (exists d0 v r,
         In d0 (d :: more) /\ callbackfn d0 <> None /\
         has_flag flags MINIARG_PROCESS_FLAG_FLAGS = true /\
         ok = (r =? 0) /\
         trace w' = trace w ++ [mk_event LongFlag i (Some d0) v r] /\
         stderr w' = stderr w)).
    { intros H. destruct (IH H) as [Hb|Hb]; auto.
      right. destruct Hb as (d' & v & r & Hin & Hrest).
      exists d', v, r. split; [right; exact Hin | exact Hrest]. }
    destruct (longarg d) as [name|]; [|exact Hmore].
    destruct ((strncmp (offset 2 tok) name (strlen name) =? 0) &&
              (is_nul (char_at tok (2 + strlen name))
               || Ascii.eqb (char_at tok (2 + strlen name)) "="))%bool;
      [|exact Hmore].
    destruct (argparam d).
    + destruct (Ascii.eqb (char_at tok (2 + strlen name)) "=").
      * intros E.
        apply dispatch_flag_inv in E as [(-> & -> & _)|(r & Hf & -> & Ht & He)].
        -- left. auto.
        -- right. exists d, (Some (offset (3 + strlen name) tok)), r.
           simpl. auto 10.
      * intros ?; simplify_eq. left; auto.
    + destruct (is_nul (char_at tok (2 + strlen name))).
      * intros E.
        apply dispatch_flag_inv in E as [(-> & -> & _)|(r & Hf & -> & Ht & He)].
        -- left. auto.
        -- right. exists d, None, r. simpl. auto 10.
      * intros ?; simplify_eq. left; auto.
Qed.

Lemma bad_argument_step (flags : Z) (sd : option def) (badfn : option F)
    (cbd : callbackdata D) (i : Z) (tok : string) (next : option string)
    (advanced : bool) (w w1 : World) (defs : list (event F)) :
  trace w1 = trace w ++ defs ->
  stderr w1 = stderr w ->
  (advanced = true -> is_Some next) ->
  (defs = [] \/
   exists e, defs = [e] /\ definition_call flags sd i tok advanced e /\
             ev_status e <> 0) ->
  token_step flags sd badfn i tok next w
    (bad_argument call flags badfn cbd (cursor i advanced)
       (current tok next advanced) advanced w1).
Proof.
  intros Ht He Hadv Hdefs. unfold bad_argument.
  destruct badfn as [bad|].
  - destruct (invoke call Unmatched (cursor i advanced) bad None
                (Some (current tok next advanced)) cbd w1) as [r w2] eqn:E.
    apply invoke_inv in E as (_ & Ht2 & He2).
    set (b := mk_event Unmatched (cursor i advanced) None
                (Some (current tok next advanced)) r) in *.
    assert (Hb : unmatched_call (Some bad) i tok next advanced b).
    { split; [eauto | reflexivity]. }
    assert (Hcalls :
      step_calls flags sd (Some bad) i tok next advanced (defs ++ [b])).
    { destruct Hdefs as [->|(e & -> & Hdc & Hne)]; simpl.
      - apply calls_unmatched; exact Hb.
      - apply calls_definition_unmatched; assumption. }
    assert (Hlast : last (defs ++ [b]) = Some b) by apply last_snoc.
    assert (Htr : trace w2 = trace w ++ (defs ++ [b])).
    { rewrite Ht2, Ht, <- app_assoc. reflexivity. }
    destruct (r =? 0) eqn:Hr.
    + eapply step_continue; eauto; [congruence|].
      intros e. rewrite Hlast. intros [= <-]. simpl. lia.
    + replace (if has_flag flags MINIARG_PROCESS_FLAG_FIND_ONLY
               then Return (-1) w2 else Return (cursor i advanced) w2)
        with (Return (F := F)
                (if has_flag flags MINIARG_PROCESS_FLAG_FIND_ONLY then -1
                 else cursor i advanced) w2)
        by (destruct (has_flag flags MINIARG_PROCESS_FLAG_FIND_ONLY);
            reflexivity).
      eapply step_abort; eauto. split; [congruence|].
      exists b. repeat split; auto. simpl. lia.
  - match goal with
    | |- token_step _ _ _ _ _ _ _ (if ?c then Return ?a ?x else Return ?b ?y) =>
        replace (if c then Return a x else Return b y)
          with (Return (F := F) (if c then a else b) (if c then x else y))
          by (destruct c; reflexivity)
    end.
    eapply (step_abort _ _ _ _ _ _ _ advanced defs); eauto.
    { destruct (has_flag flags MINIARG_PROCESS_FLAG_FIND_ONLY);
        simpl; exact Ht. }
    { destruct Hdefs as [->|(e & -> & Hdc & Hne)];
        [apply calls_none | apply calls_definition; exact Hdc]. }
    split.
    + destruct Hdefs as [->|(e & -> & Hdc & Hne)]; [constructor|].
      constructor; [|constructor].
      destruct Hdc as (Hsite & _). unfold is_definition_event in Hsite.
      unfold is_unmatched_event. destruct (ev_site e); done.
    + destruct (has_flag flags MINIARG_PROCESS_FLAG_FIND_ONLY); simpl;
        rewrite ?app_nil_r; congruence.
Qed.

Lemma flag_branch_step (flags : Z) (sd : option def) (site : callsite)
    (argdef : list def) (badfn : option F) (cbd : callbackdata D) (i : Z) (tok : string)
    (next : option string) (w w1 : World) (ok advanced : bool) :
  is_flag_site site = true ->
  classify tok <> StandaloneArg ->
  (advanced = true -> is_Some next) ->
  branch_result flags site i argdef w ok advanced w1 ->
  token_step flags sd badfn i tok next w
    (if ok then Continue advanced w1
     else bad_argument call flags badfn cbd (cursor i advanced)
            (current tok next advanced) advanced w1).
Proof.
  intros Hsite Hcls Hadv [(-> & Hok)|(d & v & r & Hin & Hcb & Hf & -> & Ht & He)].
  - destruct ok.
    + eapply (step_continue _ _ _ _ _ _ _ advanced []); eauto.
      * rewrite app_nil_r; reflexivity.
      * constructor.
      * discriminate.
    + eapply bad_argument_step; eauto. rewrite app_nil_r; reflexivity.
  - set (e := mk_event site (cursor i advanced) (Some d) v r) in *.
    assert (Hdc : definition_call flags sd i tok advanced e).
    { unfold definition_call, is_definition_event, is_flag_event,
        is_standalone_event. simpl.
      repeat split; eauto; try (destruct site; done). }
    destruct (r =? 0) eqn:Hr.
    + eapply step_continue; eauto.
      * apply calls_definition; exact Hdc.
      * intros e'. simpl. intros [= <-]. simpl. lia.
    + eapply bad_argument_step; eauto. right. exists e.
      split; [reflexivity | split; [exact Hdc | simpl; lia]].
Qed.

Lemma standalone_arg_step (flags : Z) (badfn : option F)
    (cbd : callbackdata D) (i : Z) (tok : string) (next : option string)
    (cache : standalone_cache F) (w : World) :
  classify tok = StandaloneArg ->
  token_step flags (standalonevaluedef cache) badfn i tok next w
    (match standalone_arg call flags cbd i tok w cache with
     | Found r w' => Return r w'
     | Matched true adv w' => Continue adv w'
     | Matched false adv w' =>
         bad_argument call flags badfn cbd (cursor i adv)
           (current tok next adv) adv w'
     end).
Proof.
  intros Hcls. unfold standalone_arg.
  assert (Hbad : forall sd, token_step flags sd badfn i tok next w
            (bad_argument call flags badfn cbd (cursor i false)
               (current tok next false) false w)).
  { intros sd. eapply bad_argument_step; eauto; [|discriminate].
    rewrite app_nil_r; reflexivity. }
  destruct (standalonevaluedef cache) as [d|] eqn:Hsd; [|apply Hbad].
  destruct (callbackfn d) as [fn|] eqn:Hfn; [|apply Hbad].
  destruct (Z.land flags MINIARG_PROCESS_FLAG_VALUES =? 0) eqn:Hv.
  { eapply (step_continue _ _ _ _ _ _ _ false []); eauto.
    - rewrite app_nil_r; reflexivity.
    - discriminate.
    - constructor.
    - discriminate. }
  assert (Hval : has_flag flags MINIARG_PROCESS_FLAG_VALUES = true).
  { unfold has_flag. rewrite Hv. reflexivity. }
  destruct (has_flag flags MINIARG_PROCESS_FLAG_FIND_ONLY) eqn:Hfind.
  { apply step_found; assumption. }
  destruct (invoke call Standalone i fn (Some d) (Some tok) cbd w)
    as [r w1] eqn:E.
  apply invoke_inv in E as (_ & Ht & He).
  set (e := mk_event Standalone i (Some d) (Some tok) r) in *.
  assert (Hdc : definition_call flags (Some d) i tok false e).
  { unfold definition_call, is_definition_event, is_flag_event,
      is_standalone_event. simpl.
    repeat split; eauto; try done.
    exists d. split; [reflexivity|]. rewrite Hfn. discriminate. }
  destruct (r =? 0) eqn:Hr.
  - eapply step_continue; eauto.
    + discriminate.
    + apply calls_definition; exact Hdc.
    + intros e'. simpl. intros [= <-]. simpl. lia.
  - eapply bad_argument_step; eauto; [discriminate|]. right. exists e.
    split; [reflexivity | split; [exact Hdc | simpl; lia]].
Qed.

(** Every iteration of the loop is one of the steps of [token_step]. *)
Lemma process_token_step (flags : Z) (argdef : list def) (badfn : option F)
    (cbd : callbackdata D) (i : Z) (tok : string) (next : option string)
    (cache : standalone_cache F) (w : World) :
  token_step flags (standalonevaluedef (standalone_lookup argdef cache))
    badfn i tok next w
    (process_token call flags argdef badfn cbd i tok next cache w).1.
Proof.
  unfold process_token.
  destruct (classify tok) eqn:Hcls.
  - destruct (short_arg_scan call flags cbd i tok next w argdef)
      as [[ok adv] w1] eqn:E.
    apply short_arg_scan_result in E as [Hadv Hres].
    pose proof (flag_branch_step flags
                  (standalonevaluedef (standalone_lookup argdef cache))
                  ShortFlag argdef badfn cbd i tok next
                  w w1 ok adv eq_refl) as Hstep.
    rewrite Hcls in Hstep. specialize (Hstep ltac:(discriminate) Hadv Hres).
    destruct ok; [exact Hstep|]. destruct adv; exact Hstep.
  - destruct (long_arg_scan call flags cbd i tok w argdef) as [ok w1] eqn:E.
    apply long_arg_scan_result in E.
    pose proof (flag_branch_step flags
                  (standalonevaluedef (standalone_lookup argdef cache))
                  LongFlag argdef badfn cbd i tok next
                  w w1 ok false eq_refl) as Hstep.
    rewrite Hcls in Hstep.
    specialize (Hstep ltac:(discriminate) ltac:(discriminate) E).
    destruct ok; exact Hstep.
  - pose proof (standalone_arg_step flags badfn cbd i tok next
                  (standalone_lookup argdef cache) w Hcls) as Hstep.
    destruct (standalone_arg call flags cbd i tok w
                (standalone_lookup argdef cache)) as [ok adv w1|r w1];
      [|exact Hstep].
    destruct ok; [exact Hstep|]. destruct adv; exact Hstep.
Qed.

End TokenFacts.

(** ** The whole traversal *)

Section TraversalFacts.

Context {F S D : Type}.
Variable call :
  F -> option (miniargv_definition F) -> option string ->
  callbackdata D -> S -> Z * S.

Abbreviation def := (miniargv_definition F).
Abbreviation World := (world F S).

Lemma definition_positions_app (l1 l2 : list (event F)) :
  definition_positions (l1 ++ l2)
  = definition_positions l1 ++ definition_positions l2.
Proof.
  unfold definition_positions. rewrite List.filter_app, fmap_app. reflexivity.
Qed.

Lemma standalone_positions_app (l1 l2 : list (event F)) :
  standalone_positions (l1 ++ l2)
  = standalone_positions l1 ++ standalone_positions l2.
Proof.
  unfold standalone_positions. rewrite List.filter_app, fmap_app. reflexivity.
Qed.

Lemma sorted_follows_app (l1 l2 : list (event F)) :
  Sorted follows l1 -> Sorted follows l2 ->
  (forall a b, a ∈ l1 -> b ∈ l2 -> ev_index a < ev_index b) ->
  Sorted follows (l1 ++ l2).
Proof.
  induction l1 as [|a l1 IH]; intros H1 H2 Hlt; [exact H2|].
  simpl. apply Sorted_inv in H1 as [H1 Hhd]. constructor.
  - apply IH; auto. intros x y Hx Hy. apply Hlt; [right; exact Hx | exact Hy].
  - destruct l1 as [|b l1]; simpl.
    + destruct l2 as [|c l2]; constructor.
      left. apply Hlt; [left | left].
    + constructor. inversion Hhd; assumption.
Qed.

Lemma strongly_sorted_lt_app (l1 l2 : list Z) :
  StronglySorted Z.lt l1 -> StronglySorted Z.lt l2 ->
  (forall a b, a ∈ l1 -> b ∈ l2 -> a < b) ->
  StronglySorted Z.lt (l1 ++ l2).
Proof.
  induction l1 as [|a l1 IH]; intros H1 H2 Hlt; [exact H2|].
  simpl. apply StronglySorted_inv in H1 as [H1 Hall]. constructor.
  - apply IH; auto. intros x y Hx Hy. apply Hlt; [right; exact Hx | exact Hy].
  - apply Forall_app. split; [exact Hall|].
    apply Forall_forall. intros y Hy. apply Hlt; [left | exact Hy].
Qed.

Lemma elem_of_definition_positions (l : list (event F)) (p : Z) :
  p ∈ definition_positions l -> exists e, e ∈ l /\ ev_index e = p.
Proof.
  unfold definition_positions. intros H.
  apply list_elem_of_fmap in H as (e & -> & He).
  exists e. split; [|reflexivity].
  apply list_elem_of_In in He. apply List.filter_In in He as [He _].
  apply list_elem_of_In. exact He.
Qed.

(** The calls of one iteration: all at the cursor, in order, allowed, and
    with the handler of unmatched tokens last. *)
Lemma step_calls_facts (flags : Z) (sd : option def) (badfn : option F)
    (i : Z) (tok : string) (rest' : list string) (advanced : bool)
    (new : list (event F)) :
  step_calls flags sd badfn i tok (head rest') advanced new ->
  Forall (fun e => ev_index e = cursor i advanced) new /\
  Sorted follows new /\
  StronglySorted Z.lt (definition_positions new) /\
  Forall (call_allowed flags sd (tok :: rest') i) new /\
  (forall e : event F, e ∈ new -> is_unmatched_event e = true ->
     is_Some badfn /\ last new = Some e /\
     e = mk_event Unmatched (cursor i advanced) None
           (Some (current tok (head rest') advanced)) (ev_status e)).
Proof.
  assert (Hdef : forall e : event F,
    definition_call flags sd i tok advanced e ->
    ev_index e = cursor i advanced /\
    call_allowed flags sd (tok :: rest') i e /\
    is_definition_event e = true /\ is_unmatched_event e = false).
  { intros e (Hsite & Hidx & _ & Hflag & Hsa).
    split; [exact Hidx|]. split; [|split; [exact Hsite|]].
    - split; [left; exact Hsite|]. split; [intros H; apply Hflag, H|].
      intros H. destruct (Hsa H) as (Hv & Hf & -> & Hsd & Hval & Hcls).
      split; [exact Hv|]. split; [exact Hf|]. split; [exact Hsd|].
      exists tok.
      rewrite Hidx. unfold cursor. rewrite Z.sub_diag. auto.
    - unfold is_definition_event in Hsite. unfold is_unmatched_event.
      destruct (ev_site e); done. }
  assert (Hbad : forall b : event F,
    unmatched_call badfn i tok (head rest') advanced b ->
    ev_index b = cursor i advanced /\
    call_allowed flags sd (tok :: rest') i b /\
    is_definition_event b = false /\ is_unmatched_event b = true /\
    is_Some badfn).
  { intros b (Hsome & ->). simpl. repeat split; auto; done. }
  intros Hcalls. inversion Hcalls as [|e He|b Hb|e b He Hne Hb]; subst.
  - split; [constructor|]. split; [constructor|]. split; [constructor|].
    split; [constructor|]. intros x Hx. inversion Hx.
  - destruct (Hdef e He) as (Hi & Ha & Hd & Hu).
    split; [constructor; [exact Hi | constructor]|]. split; [repeat constructor|].
    split; [unfold definition_positions; simpl; rewrite Hd;
            repeat constructor|].
    split; [constructor; [exact Ha | constructor]|].
    intros x Hx Hux. apply list_elem_of_singleton in Hx as ->. congruence.
  - destruct (Hbad b Hb) as (Hi & Ha & Hd & Hu & Hs).
    split; [constructor; [exact Hi | constructor]|]. split; [repeat constructor|].
    split; [unfold definition_positions; simpl; rewrite Hd;
            repeat constructor|].
    split; [constructor; [exact Ha | constructor]|].
    intros x Hx Hux. apply list_elem_of_singleton in Hx as ->.
    split; [exact Hs|]. split; [reflexivity|]. destruct Hb as [_ Hb].
    exact Hb.
  - destruct (Hdef e He) as (Hi & Ha & Hd & Hu).
    destruct (Hbad b Hb) as (Hi' & Ha' & Hd' & Hu' & Hs').
    split; [constructor; [exact Hi | constructor; [exact Hi' | constructor]]|].
    split.
    { constructor; [repeat constructor|]. constructor. right.
      split; [congruence|]. auto. }
    split; [unfold definition_positions; simpl; rewrite Hd, Hd';
            repeat constructor|].
    split; [constructor; [exact Ha | constructor; [exact Ha' | constructor]]|].
    intros x Hx Hux. apply elem_of_cons in Hx as [->|Hx]; [congruence|].
    apply list_elem_of_singleton in Hx as ->.
    split; [exact Hs'|]. split; [reflexivity|]. destruct Hb as [_ Hb].
    exact Hb.
Qed.

Lemma call_allowed_shift (flags : Z) (sd : option def)
    (pre rest2 : list string) (i : Z) (e : event F) :
  i + Z.of_nat (length pre) <= ev_index e ->
  call_allowed flags sd rest2 (i + Z.of_nat (length pre)) e ->
  call_allowed flags sd (pre ++ rest2) i e.
Proof.
  intros Hle (Hsite & Hflag & Hsa). split; [exact Hsite|].
  split; [exact Hflag|]. intros H.
  destruct (Hsa H) as (Hv & Hf & Hsd & tok & Hlook & Hval & Hcls).
  split; [exact Hv|]. split; [exact Hf|]. split; [exact Hsd|]. exists tok.
  split; [|auto]. rewrite lookup_app_r by lia.
  rewrite <- Hlook. f_equal. lia.
Qed.

(** The calls of one iteration, followed by those of the traversal of
    the rest of the input. *)
Lemma traversal_extend (flags : Z) (sd : option def) (badfn : option F)
    (pre rest2 : list string) (i : Z) (w w1 w' : World)
    (new1 new2 : list (event F)) (r : Z) :
  pre <> [] ->
  Forall (fun e => ev_index e = i + Z.of_nat (length pre) - 1) new1 ->
  Sorted follows new1 ->
  StronglySorted Z.lt (definition_positions new1) ->
  Forall (call_allowed flags sd (pre ++ rest2) i) new1 ->
  Forall (fun e => is_unmatched_event e = true -> ev_status e = 0) new1 ->
  (badfn = None -> Forall (fun e => is_unmatched_event e = false) new1) ->
  stderr w1 = stderr w ->
  calls_in_order flags sd rest2 (i + Z.of_nat (length pre)) new2 ->
  traversal_end flags badfn rest2 (i + Z.of_nat (length pre)) w1 new2 r w' ->
  calls_in_order flags sd (pre ++ rest2) i (new1 ++ new2) /\
  traversal_end flags badfn (pre ++ rest2) i w (new1 ++ new2) r w'.
Proof.
  intros Hpre Hidx Hs1 Hd1 Ha1 Hu1 Hn1 He (Hb2 & Hs2 & Hd2 & Ha2) Hend.
  assert (Hlen : 0 < Z.of_nat (length pre)).
  { destruct pre; [done | simpl; lia]. }
  rewrite Forall_forall in Hidx, Hb2.
  assert (Hlt : forall a b : event F,
            a ∈ new1 -> b ∈ new2 -> ev_index a < ev_index b).
  { intros a b Ha Hb. specialize (Hidx a Ha). specialize (Hb2 b Hb). lia. }
  split.
  - split; [|split; [|split]].
    + apply Forall_app. split; apply Forall_forall.
      * intros e He1. specialize (Hidx e He1). rewrite length_app. lia.
      * intros e He2. specialize (Hb2 e He2). rewrite length_app. lia.
    + apply sorted_follows_app; assumption.
    + rewrite definition_positions_app.
      apply strongly_sorted_lt_app; [assumption..|].
      intros a b Ha Hb.
      apply elem_of_definition_positions in Ha as (ea & Hea & <-).
      apply elem_of_definition_positions in Hb as (eb & Heb & <-).
      apply Hlt; assumption.
    + apply Forall_app. split; [exact Ha1|].
      rewrite Forall_forall in Ha2. apply Forall_forall. intros e He2.
      apply call_allowed_shift; [|apply Ha2, He2].
      specialize (Hb2 e He2). lia.
  - destruct Hend as [(-> & Hst & Hu2)|[(Hfo & Hfv & Hr & (tok & Hl & Hc) & Hst & Hu2)
        |(j & tok & -> & Hj & Hl & Hle & Hev)]].
    + left. split; [reflexivity|]. split; [congruence|].
      apply Forall_app; auto.
    + right; left. split; [exact Hfo|]. split; [exact Hfv|].
      split; [rewrite length_app; lia|].
      split; [|split; [congruence | apply Forall_app; auto]].
      exists tok. split; [|exact Hc]. rewrite lookup_app_r by lia.
      rewrite <- Hl. f_equal. lia.
    + right; right. exists j, tok. split; [reflexivity|].
      split; [rewrite length_app; lia|].
      split; [rewrite lookup_app_r by lia; rewrite <- Hl; f_equal; lia|].
      split.
      { apply Forall_app. split; [|exact Hle].
        apply Forall_forall. intros e He1. specialize (Hidx e He1). lia. }
      destruct badfn as [bad|].
      * destruct Hev as (Hst & status & Hne & Hlast).
        split; [congruence|]. exists status. split; [exact Hne|].
        destruct new2 as [|x new2] using rev_ind; [discriminate|].
        rewrite app_assoc, last_snoc. rewrite last_snoc in Hlast. exact Hlast.
      * destruct Hev as (Hnu & Hst). split.
        -- apply Forall_app. split; [apply Hn1; reflexivity | exact Hnu].
        -- rewrite Hst, He. reflexivity.
Qed.

Lemma standalone_lookup_valid (argdef : list def)
    (cache : standalone_cache F) :
  cache_valid argdef cache ->
  standalone_lookup argdef cache = mk_cache true (find_standalone argdef).
Proof.
  unfold standalone_lookup. intros [H| ->]; [rewrite H|]; reflexivity.
Qed.

(** An iteration leaves the cache as it is, or fills it by the lookup. *)
Lemma process_token_cache (flags : Z) (argdef : list def) (badfn : option F)
    (cbd : callbackdata D) (i : Z) (tok : string) (next : option string)
    (cache : standalone_cache F) (w : World) :
  (process_token call flags argdef badfn cbd i tok next cache w).2
  = match classify tok with
    | StandaloneArg => standalone_lookup argdef cache
    | _ => cache
    end.
Proof.
  unfold process_token. destruct (classify tok).
  - destruct (short_arg_scan call flags cbd i tok next w argdef)
      as [[[] []] w1]; reflexivity.
  - destruct (long_arg_scan call flags cbd i tok w argdef) as [[] w1];
      reflexivity.
  - destruct (standalone_arg call flags cbd i tok w
                (standalone_lookup argdef cache)) as [[] [] w1|r w1];
      reflexivity.
Qed.

Lemma process_token_cache_valid (flags : Z) (argdef : list def)
    (badfn : option F) (cbd : callbackdata D) (i : Z) (tok : string)
    (next : option string) (cache : standalone_cache F) (w : World) :
  cache_valid argdef cache ->
  cache_valid argdef
    (process_token call flags argdef badfn cbd i tok next cache w).2.
Proof.
  intros Hv. rewrite process_token_cache.
  destruct (classify tok); try exact Hv.
  right. apply standalone_lookup_valid, Hv.
Qed.

Lemma scan_spec (flags : Z) (argdef : list def) (badfn : option F)
    (cbd : callbackdata D) (n : nat) :
  forall (rest : list string) (i : Z) (cache : standalone_cache F) (w : World),
    (length rest <= n)%nat ->
    cache_valid argdef cache ->
    let sd := find_standalone argdef in
    exists new,
      trace (scan call flags argdef badfn cbd rest i cache w).2
      = trace w ++ new /\
      calls_in_order flags sd rest i new /\
      traversal_end flags badfn rest i w new
        (scan call flags argdef badfn cbd rest i cache w).1
        (scan call flags argdef badfn cbd rest i cache w).2.
Proof.
  assert (Hnil : forall sd i (w : World),
    exists new : list (event F),
      trace w = trace w ++ new /\ calls_in_order flags sd [] i new /\
      traversal_end flags badfn [] i w new 0 w).
  { intros sd i w. exists []. rewrite app_nil_r. split; [reflexivity|].
    split; [repeat split; constructor|]. left. repeat split; constructor. }
  induction n as [|n IH]; intros rest i cache w Hlen Hvalid sd.
  { destruct rest; [apply Hnil | simpl in Hlen; lia]. }
  destruct rest as [|tok rest']; [apply Hnil|].
  cbn [scan].
  pose proof (process_token_step call flags argdef badfn cbd i tok
                (head rest') cache w) as Hstep.
  rewrite (standalone_lookup_valid argdef cache Hvalid) in Hstep.
  cbn [standalonevaluedef] in Hstep. fold sd in Hstep.
  pose proof (process_token_cache_valid flags argdef badfn cbd i tok
                (head rest') cache w Hvalid) as Hvalid'.
  destruct (process_token call flags argdef badfn cbd i tok (head rest')
              cache w) as [out cache'].
  simpl in Hstep. simpl in Hlen. cbn [snd] in Hvalid'.
  inversion Hstep as [adv new1 w1 Ht He Hadv Hcalls Hlast
                     |Hfo Hfv Hcls|adv new1 w1 Ht Hadv Hcalls Hev]; subst.
  - (* the iteration goes on *)
    destruct (step_calls_facts flags sd badfn i tok rest' adv new1 Hcalls)
      as (Hidx & Hs1 & Hd1 & Ha1 & Hun).
    assert (Hu1 : Forall (fun e : event F =>
                    is_unmatched_event e = true -> ev_status e = 0) new1).
    { apply Forall_forall. intros e Hin Hu.
      destruct (Hun e Hin Hu) as (_ & Hl & _). apply Hlast, Hl. }
    assert (Hn1 : badfn = None ->
              Forall (fun e : event F => is_unmatched_event e = false) new1).
    { intros ->. apply Forall_forall. intros e Hin.
      destruct (is_unmatched_event e) eqn:Hu; [|reflexivity].
      destruct (Hun e Hin Hu) as ([x Hx] & _). discriminate. }
    destruct adv.
    + destruct rest' as [|v rest'']; [destruct (Hadv eq_refl); discriminate|].
      destruct (IH rest'' (i + 2) cache' w1 ltac:(simpl in Hlen; lia)
                  Hvalid')
        as (new2 & Ht2 & Hord & Hend).
      exists (new1 ++ new2).
      split; [rewrite Ht2, Ht, app_assoc; reflexivity|].
      apply (traversal_extend flags sd badfn [tok; v] rest'' i w w1); auto;
        try done.
      eapply Forall_impl; [exact Hidx|]. simpl. unfold cursor. intros; lia.
    + destruct (IH rest' (i + 1) cache' w1 ltac:(lia) Hvalid')
        as (new2 & Ht2 & Hord & Hend).
      exists (new1 ++ new2).
      split; [rewrite Ht2, Ht, app_assoc; reflexivity|].
      apply (traversal_extend flags sd badfn [tok] rest' i w w1); auto;
        try done.
      eapply Forall_impl; [exact Hidx|]. simpl. unfold cursor. intros; lia.
  - (* the find-only mode returns the index of a standalone value *)
    exists []. cbn [fst snd]. rewrite app_nil_r. split; [reflexivity|].
    split; [repeat split; constructor|]. right; left.
    split; [exact Hfo|]. split; [exact Hfv|].
    split; [rewrite length_cons; lia|].
    split; [|split; [reflexivity | constructor]].
    exists tok. rewrite Z.sub_diag. auto.
  - (* the traversal fails at this token *)
    destruct (step_calls_facts flags sd badfn i tok rest' adv new1 Hcalls)
      as (Hidx & Hs1 & Hd1 & Ha1 & Hun).
    exists new1. cbn [fst snd]. split; [exact Ht|].
    assert (Hcur : 0 <= cursor i adv - i < Z.of_nat (Datatypes.S (length rest'))
                   /\ (tok :: rest') !! Z.to_nat (cursor i adv - i)
                      = Some (current tok (head rest') adv)).
    { destruct adv; unfold cursor, current.
      - destruct rest' as [|v rest''];
          [destruct (Hadv eq_refl); discriminate|].
        replace (i + 1 - i) with 1 by lia. simpl. split; [lia | reflexivity].
      - rewrite Z.sub_diag. simpl. split; [lia | reflexivity]. }
    destruct Hcur as [Hrange Hlook].
    split.
    + split; [|split; [|split]]; try assumption.
      eapply Forall_impl; [exact Hidx|]. simpl. intros e ->. simpl. lia.
    + right; right. exists (cursor i adv), (current tok (head rest') adv).
      split; [reflexivity|]. split; [simpl; lia|]. split; [exact Hlook|].
      split; [eapply Forall_impl; [exact Hidx|]; simpl; intros e ->; lia|].
      destruct badfn as [bad|]; [|exact Hev].
      destruct Hev as (Hst & b & Hl & Hu & Hne). split; [exact Hst|].
      exists (ev_status b). split; [exact Hne|]. rewrite Hl. f_equal.
      apply Hun; [|exact Hu].
      apply last_Some_elem_of. exact Hl.
Qed.

Variable int_at : D -> Z.

Lemma new_events_app (w w' : World) (new : list (event F)) :
  trace w' = trace w ++ new -> new_events w w' = new.
Proof.
  unfold new_events. intros ->. apply drop_app_length.
Qed.

(** A full traversal starts at [argv[1]]. *)
Lemma process_partial_spec (flags : Z) (argv : list string)
    (argdef : list def) (badfn : option F) (cbd : callbackdata D)
    (w : World) :
  has_flag flags MINIARG_PROCESS_FLAG_FIND_ONLY = false ->
  exists new,
    trace (miniargv_process_partial call int_at flags argv argdef badfn cbd
             w).2 = trace w ++ new /\
    calls_in_order flags (find_standalone argdef) (drop 1 argv) 1 new /\
    traversal_end flags badfn (drop 1 argv) 1 w new
      (miniargv_process_partial call int_at flags argv argdef badfn cbd w).1
      (miniargv_process_partial call int_at flags argv argdef badfn cbd w).2.
Proof.
  intros Hfo. unfold miniargv_process_partial, start_index.
  unfold has_flag in Hfo.
  destruct (Z.land flags MINIARG_PROCESS_FLAG_FIND_ONLY =? 0); [|discriminate].
  change (Z.to_nat 1) with 1%nat.
  apply (scan_spec flags argdef badfn cbd (length (drop 1 argv))); [lia|].
  left. reflexivity.
Qed.

Lemma lookup_drop_index (argv : list string) (r : Z) :
  1 <= r -> drop 1 argv !! Z.to_nat (r - 1) = argv !! Z.to_nat r.
Proof.
  intros Hr. rewrite lookup_drop. f_equal. lia.
Qed.

Lemma process_partial_contract (flags : Z) (argv : list string)
    (argdef : list def) (badfn : option F) (cbd : callbackdata D)
    (w : World) :
  has_flag flags MINIARG_PROCESS_FLAG_FIND_ONLY = false ->
  return_contract argv badfn w
    (miniargv_process_partial call int_at flags argv argdef badfn cbd w).1
    (miniargv_process_partial call int_at flags argv argdef badfn cbd w).2.
Proof.
  intros Hfo.
  destruct (process_partial_spec flags argv argdef badfn cbd w Hfo)
    as (new & Ht & _ & Hend).
  unfold return_contract. rewrite (new_events_app _ _ _ Ht).
  destruct Hend as [H|[(Hfo' & _)|(j & tok & Hr & Hj & Hl & Hle & Hev)]].
  - left. exact H.
  - congruence.
  - right. rewrite Hfo in Hr, Hev. rewrite Hr.
    split; [lia|]. exists tok.
    split; [rewrite <- Hl; symmetry; apply lookup_drop_index; lia|].
    split; [exact Hle|]. exact Hev.
Qed.

End TraversalFacts.

(** ** The return contract and the examples *)

Section Contract.

Context {F S D : Type}.
Variable call :
  F -> option (miniargv_definition F) -> option string ->
  callbackdata D -> S -> Z * S.
Variable int_at : D -> Z.

Abbreviation def := (miniargv_definition F).
Abbreviation World := (world F S).

Lemma mode_flags_not_find_only :
  has_flag MINIARG_PROCESS_FLAG_BOTH MINIARG_PROCESS_FLAG_FIND_ONLY = false /\
  has_flag MINIARG_PROCESS_FLAG_FLAGS MINIARG_PROCESS_FLAG_FIND_ONLY = false /\
  has_flag MINIARG_PROCESS_FLAG_VALUES MINIARG_PROCESS_FLAG_FIND_ONLY = false.
Proof. repeat split. Qed.

(** The three full traversals of the arguments, in every world and
    for every table, input and handler: the result is 0 when the end of
    the input is reached, and then every call of the handler of unmatched
    tokens has returned 0; otherwise it is the positive index of a token
    of [argv], no call was made beyond that token, and the traversal
    stopped there because the handler is absent (the token is then
    reported on [stderr]) or because the handler, called last and on that
    very token, returned non-zero. With no environment, the results of
    [miniargv_process] and [miniargv_process_ltr] are likewise 0 or the
    positive index of a token. For the table of the examples and the
    input ["-x"] after the program name, without a handler, the result is
    1 and no callback is called. *)
Lemma return_contract_holds (argv : list string)
    (argdef envdef : list def) (badfn : option F) (cbd : callbackdata D)
    (w : World) :
  return_contract argv badfn w
    (miniargv_process_arg call int_at argv argdef badfn cbd w).1
    (miniargv_process_arg call int_at argv argdef badfn cbd w).2 /\
  return_contract argv badfn w
    (miniargv_process_arg_flags call int_at argv argdef badfn cbd w).1
    (miniargv_process_arg_flags call int_at argv argdef badfn cbd w).2 /\
  return_contract argv badfn w
    (miniargv_process_arg_params call int_at argv argdef badfn cbd w).1
    (miniargv_process_arg_params call int_at argv argdef badfn cbd w).2 /\
  (forall r,
     r = (miniargv_process call int_at (Some argv) None argdef envdef badfn
            cbd w).1 \/
     r = (miniargv_process_ltr call int_at (Some argv) None argdef envdef
            badfn cbd w).1 ->
     r = 0 \/ (0 < r /\ exists tok, argv !! Z.to_nat r = Some tok)) /\
  (forall (argv0 : string) (fo fv fp : F),
     let failed :=
       (1, mk_world (st w) (trace w)
             (stderr w ++ [invalid_argument_message "-x"])) in
     miniargv_process_arg call int_at [argv0; "-x"]
       (example_table fo fv fp) None cbd w = failed /\
     miniargv_process_arg_flags call int_at [argv0; "-x"]
       (example_table fo fv fp) None cbd w = failed /\
     miniargv_process_arg_params call int_at [argv0; "-x"]
       (example_table fo fv fp) None cbd w = failed).
Proof.
  destruct mode_flags_not_find_only as (Hb & Hf & Hv).
  split; [apply process_partial_contract, Hb|].
  split; [apply process_partial_contract, Hf|].
  split; [apply process_partial_contract, Hv|].
  split; [|intros argv0 fo fv fp failed; repeat split].
  assert (Hidx : forall mode (w0 : World),
    has_flag mode MINIARG_PROCESS_FLAG_FIND_ONLY = false ->
    let r :=
      (miniargv_process_partial call int_at mode argv argdef badfn cbd
         w0).1 in
    r = 0 \/ (0 < r /\ exists tok, argv !! Z.to_nat r = Some tok)).
  { intros mode w0 Hmode r.
    destruct (process_partial_contract call int_at mode argv argdef badfn
                cbd w0 Hmode) as [(H & _)|(H & tok & Hl & _)].
    - left. exact H.
    - right. split; [exact H|]. exists tok. exact Hl. }
  intros r [->| ->].
  - unfold miniargv_process. change (0 =? 0) with true. cbv iota.
    pose proof (Hidx MINIARG_PROCESS_FLAG_FLAGS w Hf) as H1.
    destruct (miniargv_process_partial call int_at MINIARG_PROCESS_FLAG_FLAGS
                argv argdef badfn cbd w) as [r1 w1].
    cbn [fst] in H1. cbv zeta in H1.
    destruct (r1 =? 0) eqn:E; [|exact H1].
    apply (Hidx MINIARG_PROCESS_FLAG_VALUES w1 Hv).
  - unfold miniargv_process_ltr, miniargv_process_arg.
    change (0 =? 0) with true. cbv iota.
    apply (Hidx MINIARG_PROCESS_FLAG_BOTH w Hb).
Qed.

(** C5. With the table of the examples, whose three callbacks return 0,
    the left-to-right traversal of ["-v"; "-oresult.txt"; "input.txt"]
    after the program name calls exactly: the callback of [-v/--verbose]
    with no value, then the callback of [-o/--output] with the value
    ["result.txt"], then the callback of the standalone value definition
    with the value ["input.txt"]; and it returns 0. *)
Theorem example_left_to_right (fo fv fp : F) (badfn : option F)
    (cbd : callbackdata D) (w : World) (argv0 : string) :
  (forall d v c s, (call fo d v c s).1 = 0) ->
  (forall d v c s, (call fv d v c s).1 = 0) ->
  (forall d v c s, (call fp d v c s).1 = 0) ->
  let r :=
    miniargv_process_arg call int_at
      [argv0; "-v"; "-oresult.txt"; "input.txt"]
      (example_table fo fv fp) badfn cbd w in
  r.1 = 0 /\
  new_events w r.2 =
    [mk_event ShortFlag 1 (Some (opt_verbose fv)) None 0;
     mk_event ShortFlag 2 (Some (opt_output fo)) (Some "result.txt") 0;
     mk_event Standalone 3 (Some (opt_param fp)) (Some "input.txt") 0] /\
  stderr r.2 = stderr w.
Proof.
  intros Ho Hv Hp r.
  assert (Hrun : exists s',
    r = (0, mk_world s'
              (((trace w ++
                 [mk_event ShortFlag 1 (Some (opt_verbose fv)) None 0]) ++
                [mk_event ShortFlag 2 (Some (opt_output fo))
                   (Some "result.txt") 0]) ++
               [mk_event Standalone 3 (Some (opt_param fp))
                  (Some "input.txt") 0])
              (stderr w))).
  { subst r. cbv.
    match goal with
    | |- context [call fv ?a ?b ?c ?d] =>
        pose proof (Hv a b c d) as H1; destruct (call fv a b c d) as [r1 s1]
    end.
    simpl in H1. subst r1. cbv.
    match goal with
    | |- context [call fo ?a ?b ?c ?d] =>
        pose proof (Ho a b c d) as H2; destruct (call fo a b c d) as [r2 s2]
    end.
    simpl in H2. subst r2. cbv.
    match goal with
    | |- context [call fp ?a ?b ?c ?d] =>
        pose proof (Hp a b c d) as H3; destruct (call fp a b c d) as [r3 s3]
    end.
    simpl in H3. subst r3. cbv.
    exists s3. reflexivity. }
  destruct Hrun as [s' ->]. cbn [fst snd stderr].
  split; [reflexivity|]. split; [|reflexivity].
  apply new_events_app. cbn [trace]. rewrite <- !app_assoc. reflexivity.
Qed.

End Contract.

(** The traversal skips [argv[0]] whatever it is: handed the three
    tokens with no program name before them, it takes ["-v"] for the
    program name and calls no callback for it. *)
Lemma example_without_program_name :
  let r :=
    miniargv_process_arg App.call App.int_at
      ["-v"; "-oresult.txt"; "input.txt"]
      (example_table App.cb_noop App.cb_noop App.cb_noop)
      None App.NULL (App.initial ∅) in
  r.1 = 0 /\
  trace r.2 =
    [mk_event ShortFlag 1 (Some (opt_output App.cb_noop))
       (Some "result.txt") 0;
     mk_event Standalone 2 (Some (opt_param App.cb_noop))
       (Some "input.txt") 0].
Proof. split; reflexivity. Qed.

Lemma example_left_to_right_witness :
  let r :=
    miniargv_process_arg App.call App.int_at
      ["prog"; "-v"; "-oresult.txt"; "input.txt"]
      (example_table App.cb_set_int_to_one App.cb_increment_int App.cb_noop)
      None App.NULL (App.initial ∅) in
  r.1 = 0 /\
  new_events (App.initial ∅) r.2 =
    [mk_event ShortFlag 1 (Some (opt_verbose App.cb_increment_int)) None 0;
     mk_event ShortFlag 2 (Some (opt_output App.cb_set_int_to_one))
       (Some "result.txt") 0;
     mk_event Standalone 3 (Some (opt_param App.cb_noop))
       (Some "input.txt") 0] /\
  stderr r.2 = stderr (App.initial ∅).
Proof.
  apply (example_left_to_right App.call App.int_at
           App.cb_set_int_to_one App.cb_increment_int App.cb_noop
           None App.NULL (App.initial ∅) "prog").
  - intros [d|] v c s; reflexivity.
  - intros [d|] v c s; reflexivity.
  - intros d v c s; reflexivity.
Defined.

(** ** The order of the calls *)

Section Order.

Context {F S D : Type}.
Variable call :
  F -> option (miniargv_definition F) -> option string ->
  callbackdata D -> S -> Z * S.
Variable int_at : D -> Z.

Abbreviation def := (miniargv_definition F).
Abbreviation World := (world F S).

Lemma env_scan_trace (d : def) (fn : F) (name : string)
    (cbd : callbackdata D) (env : list string) :
  forall (k : Z) (w : World),
    exists new,
      trace (env_scan call d fn name cbd k env w).2 = trace w ++ new /\
      Forall (fun e => ev_site e = EnvVar) new.
Proof.
  induction env as [|e more IH]; intros k w; cbn [env_scan].
  { exists []. rewrite app_nil_r. split; [reflexivity | constructor]. }
  destruct (strchr e "=") as [n|]; [|apply IH].
  destruct (strncmp e name n =? 0); [|apply IH].
  destruct (invoke call EnvVar k fn (Some d) (Some (offset (n + 1) e)) cbd w)
    as [r w1] eqn:E.
  apply invoke_inv in E as (_ & Ht & _).
  destruct (negb (r =? 0)).
  - eexists. split; [exact Ht|]. repeat constructor.
  - destruct (IH (k + 1) w1) as (new & Ht' & Hall).
    eexists. split; [rewrite Ht', Ht, <- app_assoc; reflexivity|].
    constructor; [reflexivity | exact Hall].
Qed.

Lemma process_env_trace (env : list string) (envdef : list def)
    (cbd : callbackdata D) :
  forall w : World,
    exists new,
      trace (miniargv_process_env call env envdef cbd w).2 = trace w ++ new /\
      Forall (fun e => ev_site e = EnvVar) new.
Proof.
  unfold miniargv_process_env.
  induction envdef as [|d more IH]; intros w; cbn [env_defs].
  { exists []. rewrite app_nil_r. split; [reflexivity | constructor]. }
  destruct (callbackfn d) as [fn|].
  2:{ exists []. rewrite app_nil_r. split; [reflexivity | constructor]. }
  destruct (longarg d) as [name|]; [|apply IH].
  destruct (env_scan_trace d fn name cbd env 0 w) as (new1 & Ht1 & Hall1).
  destruct (env_scan call d fn name cbd 0 env w) as [r w1].
  destruct (negb (r =? 0)); [exists new1; auto|].
  destruct (IH w1) as (new2 & Ht2 & Hall2).
  exists (new1 ++ new2). simpl in Ht1.
  split; [rewrite Ht2, Ht1, <- app_assoc; reflexivity|].
  apply Forall_app; auto.
Qed.

(** The flags pass makes no call for a standalone value. *)
Lemma flags_pass_trace (argv : list string) (argdef : list def)
    (badfn : option F) (cbd : callbackdata D) (w : World) :
  exists new,
    trace (miniargv_process_partial call int_at MINIARG_PROCESS_FLAG_FLAGS
             argv argdef badfn cbd w).2 = trace w ++ new /\
    Forall (fun e => is_standalone_event e = false) new.
Proof.
  destruct (process_partial_spec call int_at MINIARG_PROCESS_FLAG_FLAGS argv
              argdef badfn cbd w eq_refl)
    as (new & Ht & (_ & _ & _ & Hall) & _).
  exists new. split; [exact Ht|].
  eapply Forall_impl; [exact Hall|]. intros e (_ & _ & Hsa).
  destruct (is_standalone_event e); [|reflexivity].
  destruct (Hsa eq_refl) as (Hv & _). discriminate.
Qed.

Lemma standalone_positions_subset (l : list (event F)) (p : Z) :
  p ∈ standalone_positions l -> p ∈ definition_positions l.
Proof.
  unfold standalone_positions, definition_positions.
  induction l as [|e l IH]; simpl; [auto|].
  unfold is_standalone_event, is_definition_event at 1.
  destruct (ev_site e); simpl; auto.
  - intros H. right. auto.
  - intros H. right. auto.
  - intros H. apply elem_of_cons in H as [->|H]; [left | right; auto].
Qed.

Lemma standalone_positions_sorted (l : list (event F)) :
  StronglySorted Z.lt (definition_positions l) ->
  StronglySorted Z.lt (standalone_positions l).
Proof.
  induction l as [|e l IH]; [intros; constructor|].
  unfold standalone_positions, definition_positions. simpl.
  unfold is_standalone_event, is_definition_event at 1.
  destruct (ev_site e); simpl; try exact IH.
  - intros H. apply StronglySorted_inv in H as [H _]. apply IH, H.
  - intros H. apply StronglySorted_inv in H as [H _]. apply IH, H.
  - intros H. apply StronglySorted_inv in H as [H Hall]. constructor.
    + apply IH, H.
    + rewrite Forall_forall in Hall. apply Forall_forall. intros p Hp.
      apply Hall, standalone_positions_subset, Hp.
Qed.

(** The values pass makes no call for a flag, and calls the callback of
    the standalone value definition in the order of the tokens. *)
Lemma values_pass_trace (argv : list string) (argdef : list def)
    (badfn : option F) (cbd : callbackdata D) (w : World) :
  exists new,
    trace (miniargv_process_partial call int_at MINIARG_PROCESS_FLAG_VALUES
             argv argdef badfn cbd w).2 = trace w ++ new /\
    Forall (fun e => is_flag_event e = false) new /\
    values_left_to_right argv new.
Proof.
  destruct (process_partial_spec call int_at MINIARG_PROCESS_FLAG_VALUES argv
              argdef badfn cbd w eq_refl)
    as (new & Ht & (Hb & _ & Hd & Hall) & _).
  exists new. split; [exact Ht|]. split; [|split].
  - eapply Forall_impl; [exact Hall|]. intros e (_ & Hfl & _).
    destruct (is_flag_event e); [|reflexivity].
    specialize (Hfl eq_refl). discriminate.
  - apply standalone_positions_sorted, Hd.
  - rewrite Forall_forall in Hb, Hall. apply Forall_forall.
    intros e He Hsa. specialize (Hb e He).
    destruct (Hall e He) as (_ & _ & H).
    destruct (H Hsa) as (_ & _ & _ & tok & Hl & Hv & _).
    split; [lia|]. exists tok. split; [|exact Hv].
    rewrite <- Hl. symmetry. apply lookup_drop_index. lia.
Qed.

Lemma flags_before_values_app (l1 l2 : list (event F)) :
  Forall (fun e => is_standalone_event e = false) l1 ->
  Forall (fun e => is_flag_event e = false) l2 ->
  flags_before_values (l1 ++ l2).
Proof.
  rewrite !Forall_forall. intros H1 H2 p q e1 e2 Hp Hq Hf Hs.
  destruct (decide (q < length l1)%nat) as [Hlt|Hge].
  - rewrite lookup_app_l in Hq by exact Hlt.
    apply list_elem_of_lookup_2 in Hq. rewrite (H1 e2 Hq) in Hs. discriminate.
  - destruct (decide (p < length l1)%nat) as [Hlt|Hge']; [lia|].
    rewrite lookup_app_r in Hp by lia.
    apply list_elem_of_lookup_2 in Hp. rewrite (H2 e1 Hp) in Hf. discriminate.
Qed.

Lemma no_standalone_positions (l : list (event F)) :
  Forall (fun e => is_standalone_event e = false) l ->
  standalone_positions l = [].
Proof.
  unfold standalone_positions. induction 1 as [|e l He _ IH]; [reflexivity|].
  simpl. rewrite He. exact IH.
Qed.

Lemma values_left_to_right_app (argv : list string)
    (l1 l2 : list (event F)) :
  Forall (fun e => is_standalone_event e = false) l1 ->
  values_left_to_right argv l2 ->
  values_left_to_right argv (l1 ++ l2).
Proof.
  intros H1 [Hs Hall]. split.
  - rewrite standalone_positions_app, no_standalone_positions by exact H1.
    exact Hs.
  - apply Forall_app. split; [|exact Hall].
    eapply Forall_impl; [exact H1|]. simpl. intros e -> H. discriminate.
Qed.

Lemma values_left_to_right_nil (argv : list string) :
  values_left_to_right (F := F) argv [].
Proof. split; constructor. Qed.

Lemma env_events_not_standalone (l : list (event F)) :
  Forall (fun e => ev_site e = EnvVar) l ->
  Forall (fun e => is_standalone_event e = false) l.
Proof.
  intros H. eapply Forall_impl; [exact H|].
  intros e He. unfold is_standalone_event. rewrite He. reflexivity.
Qed.

(** The two passes one after the other, from any world. *)
Lemma two_passes_order (argv : list string) (argdef : list def)
    (badfn : option F) (cbd : callbackdata D) (w1 : World) (run2 : bool) :
  let w2 :=
    (miniargv_process_partial call int_at MINIARG_PROCESS_FLAG_FLAGS argv
       argdef badfn cbd w1).2 in
  let w3 :=
    if run2
    then (miniargv_process_partial call int_at MINIARG_PROCESS_FLAG_VALUES
            argv argdef badfn cbd w2).2
    else w2 in
  exists l1 l2,
    trace w2 = trace w1 ++ l1 /\
    trace w3 = trace w2 ++ l2 /\
    Forall (fun e => is_standalone_event e = false) l1 /\
    Forall (fun e => is_flag_event e = false) l2 /\
    values_left_to_right argv l2.
Proof.
  intros w2 w3.
  destruct (flags_pass_trace argv argdef badfn cbd w1) as (l1 & Ht1 & H1).
  fold w2 in Ht1. destruct run2.
  - destruct (values_pass_trace argv argdef badfn cbd w2)
      as (l2 & Ht2 & H2 & Hv).
    fold w3 in Ht2. exists l1, l2. auto.
  - exists l1, []. subst w3. rewrite app_nil_r.
    split; [exact Ht1|]. split; [reflexivity|]. split; [exact H1|].
    split; [constructor | apply values_left_to_right_nil].
Qed.

Lemma two_passes_new (argv : list string) (w w1 w2 w3 : World)
    (l0 l1 l2 : list (event F)) :
  trace w1 = trace w ++ l0 ->
  trace w2 = trace w1 ++ l1 ->
  trace w3 = trace w2 ++ l2 ->
  Forall (fun e => is_standalone_event e = false) l0 ->
  Forall (fun e => is_standalone_event e = false) l1 ->
  Forall (fun e => is_flag_event e = false) l2 ->
  values_left_to_right argv l2 ->
  flags_before_values (new_events w w3) /\
  values_left_to_right argv (new_events w w3).
Proof.
  intros Ht1 Ht2 Ht3 H0 H1 H2 Hv.
  rewrite (new_events_app w w3 ((l0 ++ l1) ++ l2))
    by (rewrite Ht3, Ht2, Ht1, <- !app_assoc; reflexivity).
  split.
  - apply flags_before_values_app; [apply Forall_app; auto | exact H2].
  - apply values_left_to_right_app; [apply Forall_app; auto | exact Hv].
Qed.

(** The order of the calls that are made. From every world, for every
    table, input and handler:
    - in the trace of [miniargv_process] (environment, then the flags
      pass, then the values pass), every call for a flag match comes
      before every call for a standalone value, and the calls for
      standalone values are made at strictly increasing positions, each
      with the token at its position;
    - the same holds for [miniargv_process_arg_flags] followed by
      [miniargv_process_arg_params], which is what [miniargv_process] runs
      on the arguments when there is no environment;
    - in the trace of [miniargv_process_arg] the callbacks of table entries
      are called at strictly increasing positions, and a call follows
      another at a later token, except that the handler of unmatched
      tokens is called on the token whose callback has just returned
      non-zero. *)
Lemma trace_order (argv env : option (list string))
    (argdef envdef : list def) (badfn : option F) (cbd : callbackdata D)
    (w : World) :
  (let new :=
     new_events w
       (miniargv_process call int_at argv env argdef envdef badfn cbd w).2 in
   flags_before_values new /\ values_left_to_right (default [] argv) new) /\
  (forall a : list string,
     let r1 := miniargv_process_arg_flags call int_at a argdef badfn cbd w in
     let r2 :=
       miniargv_process_arg_params call int_at a argdef badfn cbd r1.2 in
     flags_before_values (new_events w r2.2) /\
     values_left_to_right a (new_events w r2.2) /\
     values_left_to_right a (new_events r1.2 r2.2) /\
     miniargv_process call int_at (Some a) None argdef envdef badfn cbd w
     = (if r1.1 =? 0 then r2 else r1)) /\
  (forall a : list string,
     left_to_right
       (new_events w
          (miniargv_process_arg call int_at a argdef badfn cbd w).2)).
Proof.
  split; [|split].
  - unfold miniargv_process.
    assert (Henv : exists r0 w0 l0,
      match env with
      | Some e => miniargv_process_env call e envdef cbd w
      | None => (0, w)
      end = (r0, w0) /\
      trace w0 = trace w ++ l0 /\
      Forall (fun e => is_standalone_event e = false) l0).
    { destruct env as [e|].
      - destruct (process_env_trace e envdef cbd w) as (l0 & Ht & Hall).
        destruct (miniargv_process_env call e envdef cbd w) as [r0 w0].
        exists r0, w0, l0. split; [reflexivity|]. split; [exact Ht|].
        apply env_events_not_standalone, Hall.
      - exists 0, w, []. rewrite app_nil_r. repeat split. constructor. }
    destruct Henv as (r0 & w0 & l0 & -> & Ht0 & H0).
    assert (Hstop :
      flags_before_values (new_events w w0) /\
      values_left_to_right (default [] argv) (new_events w w0)).
    { apply (two_passes_new _ w w0 w0 w0 l0 [] []);
        first [ assumption | apply values_left_to_right_nil
              | apply Forall_nil_2 | rewrite app_nil_r; reflexivity ]. }
    destruct argv as [a|]; [|exact Hstop].
    destruct (r0 =? 0) eqn:E0; [|rewrite E0; exact Hstop].
    pose proof (two_passes_order a argdef badfn cbd w0) as H2.
    destruct (miniargv_process_partial call int_at MINIARG_PROCESS_FLAG_FLAGS
                a argdef badfn cbd w0) as [r1 w1].
    cbn [snd] in H2.
    specialize (H2 (r1 =? 0)). cbv zeta in H2.
    destruct H2 as (l1 & l2 & Ht1 & Ht2 & H1 & Hf & Hv).
    destruct (r1 =? 0);
      apply (two_passes_new a w w0 w1 _ l0 l1 l2); auto.
  - intros a r1 r2.
    pose proof (two_passes_order a argdef badfn cbd w true) as H2.
    cbv zeta in H2. destruct H2 as (l1 & l2 & Ht1 & Ht2 & H1 & Hf & Hv).
    change (trace r1.2 = trace w ++ l1) in Ht1.
    change (trace r2.2 = trace r1.2 ++ l2) in Ht2.
    destruct (two_passes_new a w w r1.2 r2.2 [] l1 l2) as [Ha Hb];
      try first [ assumption | apply Forall_nil_2
                | rewrite app_nil_r; reflexivity ].
    split; [exact Ha|]. split; [exact Hb|]. split.
    + rewrite (new_events_app r1.2 r2.2 l2 Ht2). exact Hv.
    + unfold miniargv_process. subst r2 r1.
      unfold miniargv_process_arg_flags, miniargv_process_arg_params.
      change (0 =? 0) with true. cbv iota.
      destruct (miniargv_process_partial call int_at
                  MINIARG_PROCESS_FLAG_FLAGS a argdef badfn cbd w)
        as [r1 w1].
      cbn [fst snd]. destruct (r1 =? 0) eqn:E; rewrite ?E; reflexivity.
  - intros a. unfold miniargv_process_arg.
    destruct (process_partial_spec call int_at MINIARG_PROCESS_FLAG_BOTH a
                argdef badfn cbd w eq_refl)
      as (new & Ht & (_ & Hs & Hd & _) & _).
    rewrite (new_events_app _ _ _ Ht). split; assumption.
Qed.

End Order.

(** ** The resolution of one token *)

Section Resolution.

Context {F S D : Type}.
Variable call :
  F -> option (miniargv_definition F) -> option string ->
  callbackdata D -> S -> Z * S.

Abbreviation def := (miniargv_definition F).
Abbreviation World := (world F S).

Lemma is_nul_false (c : ascii) : c <> NUL -> is_nul c = false.
Proof. intros H. unfold is_nul. apply Ascii.eqb_neq, H. Qed.

Lemma cstring_cons (c : ascii) (s : string) :
  cstring (String c s) = true -> c <> NUL /\ cstring s = true.
Proof.
  cbn [cstring]. intros H. apply andb_prop in H as [Hc Hs].
  split; [|exact Hs]. intros ->. discriminate.
Qed.

(** In a C string, the terminator is read exactly at the end. *)
Lemma char_at_0_nul (s : string) :
  cstring s = true -> (is_nul (char_at s 0) = true <-> s = EmptyString).
Proof.
  destruct s as [|c s]; intros H.
  - split; reflexivity.
  - apply cstring_cons in H as [Hc _]. unfold char_at. simpl.
    rewrite (is_nul_false c Hc). split; discriminate.
Qed.

Lemma classify_short (c : ascii) (rest : string) :
  c <> NUL -> c <> "-"%char ->
  classify (String "-" (String c rest)) = ShortArg.
Proof.
  intros Hn Hd. unfold classify, char_at. simpl.
  rewrite (is_nul_false c Hn). simpl.
  apply Ascii.eqb_neq in Hd. rewrite Hd. reflexivity.
Qed.

(** The entries before the first one with the short form [c] are passed
    over. *)
Lemma short_arg_scan_skip (flags : Z) (cbd : callbackdata D) (i : Z)
    (tok : string) (next : option string) (w : World)
    (pre more : list def) :
  before_sentinel pre ->
  Forall (fun e => ~ has_short (char_at tok 1) e) pre ->
  short_arg_scan call flags cbd i tok next w (pre ++ more)
  = short_arg_scan call flags cbd i tok next w more.
Proof.
  induction pre as [|e pre IH]; intros Hb Hn; [reflexivity|].
  apply Forall_cons in Hb as [He Hb]. apply Forall_cons in Hn as [Hne Hn].
  cbn [app short_arg_scan].
  destruct (callbackfn e) as [fn|]; [|done].
  assert (Hc : Ascii.eqb (char_at tok 1) (shortarg e) = false).
  { apply Ascii.eqb_neq. intros Heq. apply Hne. unfold has_short. auto. }
  rewrite Hc, andb_false_r. apply IH; assumption.
Qed.

Lemma short_arg_scan_sentinel (flags : Z) (cbd : callbackdata D) (i : Z)
    (tok : string) (next : option string) (w : World) (post : list def) :
  match post with [] => True | d :: _ => callbackfn d = None end ->
  short_arg_scan call flags cbd i tok next w post = (false, false, w).
Proof.
  destruct post as [|d post]; [reflexivity|]. cbn [short_arg_scan].
  intros ->. reflexivity.
Qed.

Lemma dispatch_flag_outcome (flags : Z) (badfn : option F)
    (cbd : callbackdata D) (site : callsite) (i : Z) (tok : string)
    (next : option string) (fn : F) (d : def) (value : option string)
    (advanced : bool) (w : World) :
  (let '(ok, w') :=
     dispatch_flag call flags site (cursor i advanced) fn d value cbd w in
   if ok then Continue advanced w'
   else bad_argument call flags badfn cbd (cursor i advanced)
          (current tok next advanced) advanced w')
  = flag_outcome call flags badfn cbd site i tok next fn d value advanced w.
Proof.
  unfold dispatch_flag, flag_outcome, has_flag.
  destruct (Z.land flags MINIARG_PROCESS_FLAG_FLAGS =? 0); [reflexivity|].
  cbn [negb].
  destruct (invoke call site (cursor i advanced) fn (Some d) value cbd w)
    as [r w1].
  reflexivity.
Qed.

(** C2. A short flag token ['-' c rest], with [c] other than ['-'], is
    classified as a short argument and resolved against the first entry
    [d] of the table, before the sentinel, whose short form is [c]:
    - [d] takes no value: the token matches when nothing follows [c]
      (the callback gets no value), and is unmatched otherwise;
    - [d] takes a value and characters follow [c]: they are the value;
    - [d] takes a value, nothing follows [c] and there is a following
      token: that token is the value and the cursor moves on by two;
    - [d] takes a value, nothing follows [c] and no token follows: the
      token is unmatched.
    In the modes that do not act on flags a match makes no call and moves
    the cursor in the same way. *)
Theorem short_flag_resolution (flags : Z) (argdef : list def)
    (badfn : option F) (cbd : callbackdata D) (i : Z) (c : ascii)
    (rest : string) (next : option string) (cache : standalone_cache F)
    (w : World) (d : def) (fn : F) :
  let tok := String "-" (String c rest) in
  let resolved value advanced :=
    process_token call flags argdef badfn cbd i tok next cache w
    = (flag_outcome call flags badfn cbd ShortFlag i tok next fn d value
         advanced w, cache) in
  let unmatched :=
    process_token call flags argdef badfn cbd i tok next cache w
    = (unmatched_outcome call flags badfn cbd i tok w, cache) in
  cstring tok = true ->
  c <> "-"%char ->
  first_entry (has_short c) argdef d ->
  callbackfn d = Some fn ->
  classify tok = ShortArg /\
  (argparam d = None -> rest = EmptyString -> resolved None false) /\
  (argparam d = None -> rest <> EmptyString -> unmatched) /\
  (argparam d <> None -> rest <> EmptyString ->
   resolved (Some rest) false) /\
  (argparam d <> None -> rest = EmptyString ->
   forall v, next = Some v -> resolved (Some v) true) /\
  (argparam d <> None -> rest = EmptyString -> next = None -> unmatched) /\
  (forall v more w' cache',
     process_token call flags argdef badfn cbd i tok (Some v) cache w
     = (Continue true w', cache') ->
     scan call flags argdef badfn cbd (tok :: v :: more) i cache w
     = scan call flags argdef badfn cbd more (i + 2) cache' w').
Proof.
  intros tok resolved unmatched Hcs Hdash
    (pre & post & -> & Hpre & Hnone & _ & Hshort) Hfn.
  apply cstring_cons in Hcs as [_ Hcs]. apply cstring_cons in Hcs as [Hc Hcs].
  pose proof (classify_short c rest Hc Hdash) as Hcls. fold tok in Hcls.
  assert (Hc1 : char_at tok 1 = c) by reflexivity.
  assert (Hc2 : is_nul (char_at tok 2) = true <-> rest = EmptyString).
  { apply (char_at_0_nul rest Hcs). }
  assert (Hscan :
    short_arg_scan call flags cbd i tok next w (pre ++ d :: post)
    = match argparam d with
      | None =>
          if is_nul (char_at tok 2)
          then let '(ok, w') :=
                 dispatch_flag call flags ShortFlag i fn d None cbd w in
               (ok, false, w')
          else (false, false, w)
      | Some _ =>
          if negb (is_nul (char_at tok 2))
          then let '(ok, w') :=
                 dispatch_flag call flags ShortFlag i fn d
                   (Some (offset 2 tok)) cbd w in
               (ok, false, w')
          else
            match next with
            | Some v =>
                let '(ok, w') :=
                  dispatch_flag call flags ShortFlag (i + 1) fn d (Some v)
                    cbd w in
                (ok, true, w')
            | None => (false, false, w)
            end
      end).
  { rewrite short_arg_scan_skip by (rewrite ?Hc1; assumption).
    cbn [short_arg_scan]. rewrite Hfn, Hc1. unfold has_short in Hshort.
    rewrite Hshort, (is_nul_false c Hc), Ascii.eqb_refl. reflexivity. }
  assert (Hres : forall value advanced,
    short_arg_scan call flags cbd i tok next w (pre ++ d :: post)
    = (let '(ok, w') :=
         dispatch_flag call flags ShortFlag (cursor i advanced) fn d value
           cbd w in (ok, advanced, w')) ->
    resolved value advanced).
  { intros value advanced H. subst resolved. cbv beta.
    unfold process_token. rewrite Hcls, H.
    rewrite <- dispatch_flag_outcome.
    destruct (dispatch_flag call flags ShortFlag (cursor i advanced) fn d
                value cbd w) as [[] w1]; [reflexivity|].
    destruct advanced; reflexivity. }
  assert (Hun :
    short_arg_scan call flags cbd i tok next w (pre ++ d :: post)
    = (false, false, w) -> unmatched).
  { intros H. subst unmatched. unfold process_token.
    rewrite Hcls, H. reflexivity. }
  split; [exact Hcls|].
  split; [|split; [|split; [|split; [|split]]]].
  - intros Hp Hr. apply (Hres None false). rewrite Hscan, Hp.
    apply Hc2 in Hr. rewrite Hr. reflexivity.
  - intros Hp Hr. apply Hun. rewrite Hscan, Hp.
    destruct (is_nul (char_at tok 2)) eqn:E; [|reflexivity].
    destruct Hr. apply Hc2. reflexivity.
  - intros Hp Hr. apply (Hres (Some rest) false). rewrite Hscan.
    destruct (argparam d); [|done].
    destruct (is_nul (char_at tok 2)) eqn:E; [|reflexivity].
    destruct Hr. apply Hc2. reflexivity.
  - intros Hp Hr v ->. apply (Hres (Some v) true). rewrite Hscan.
    destruct (argparam d); [|done].
    apply Hc2 in Hr. rewrite Hr. reflexivity.
  - intros Hp Hr ->. apply Hun. rewrite Hscan.
    destruct (argparam d); [|done].
    apply Hc2 in Hr. rewrite Hr. reflexivity.
  - intros v more w' cache' H. cbn [scan head]. rewrite H. reflexivity.
Qed.

(** *** Long names *)

Lemma append_cons (c : ascii) (s t : string) :
  String c s +:+ t = String c (s +:+ t).
Proof. reflexivity. Qed.

Lemma append_empty_r (s : string) : s +:+ EmptyString = s.
Proof.
  induction s as [|c s IH]; [reflexivity|]. rewrite append_cons, IH.
  reflexivity.
Qed.

Lemma cstring_append (a b : string) :
  cstring (a +:+ b) = true -> cstring b = true.
Proof.
  induction a as [|c a IH]; [auto|]. rewrite append_cons. cbn [cstring].
  intros H. apply andb_prop in H as [_ H]. auto.
Qed.

Lemma char_at_append (name tail : string) :
  char_at (name +:+ tail) (strlen name) = char_at tail 0.
Proof. induction name as [|c name IH]; [reflexivity | exact IH]. Qed.

Lemma offset_append (name tail : string) (k : nat) :
  offset (k + strlen name) (name +:+ tail) = offset k tail.
Proof.
  induction name as [|c name IH].
  - cbn [strlen String.length]. rewrite Nat.add_0_r. reflexivity.
  - rewrite append_cons. cbn [strlen String.length].
    rewrite Nat.add_succ_r. exact IH.
Qed.

Lemma uchar_inj (c d : ascii) : uchar c = uchar d -> c = d.
Proof.
  unfold uchar. intros H. apply N2Z.inj in H.
  rewrite <- (ascii_N_embedding c), <- (ascii_N_embedding d), H.
  reflexivity.
Qed.

Lemma uchar_nul (c : ascii) : uchar c = 0 -> c = NUL.
Proof. intros H. apply uchar_inj. exact H. Qed.

(** [strncmp] over the length of [name] is 0 exactly on the strings that
    start with [name]. *)
Lemma strncmp_prefix (name tail : string) :
  strncmp (name +:+ tail) name (strlen name) = 0.
Proof.
  induction name as [|c name IH]; [reflexivity|].
  rewrite append_cons. cbn [strlen String.length strncmp].
  rewrite Ascii.eqb_refl. exact IH.
Qed.

Lemma strncmp_zero_prefix (name : string) :
  cstring name = true ->
  forall rem, strncmp rem name (strlen name) = 0 ->
              exists tail, rem = name +:+ tail.
Proof.
  induction name as [|d name IH]; intros Hcs rem H.
  - exists rem. reflexivity.
  - apply cstring_cons in Hcs as [Hd Hcs].
    cbn [strlen String.length strncmp] in H.
    destruct rem as [|c rem].
    + destruct Hd. apply uchar_nul. lia.
    + destruct (Ascii.eqb c d) eqn:E.
      * apply Ascii.eqb_eq in E as ->.
        destruct (IH Hcs rem H) as [tail ->]. exists tail. reflexivity.
      * apply Ascii.eqb_neq in E. destruct E. apply uchar_inj. lia.
Qed.

Lemma long_test_exact (name : string) :
  long_test name name = true /\
  is_nul (char_at (String "-" (String "-" name)) (2 + strlen name)) = true.
Proof.
  unfold long_test. cbn [offset Nat.add].
  change (char_at (String "-" (String "-" name)) (Datatypes.S (Datatypes.S (strlen name))))
    with (char_at name (strlen name)).
  pose proof (strncmp_prefix name EmptyString) as H.
  pose proof (char_at_append name EmptyString) as Hc.
  rewrite append_empty_r in H, Hc. rewrite H, Hc. split; reflexivity.
Qed.

Lemma long_test_value (name v : string) :
  let rem := name +:+ String "=" v in
  let tok := String "-" (String "-" rem) in
  long_test rem name = true /\
  is_nul (char_at tok (2 + strlen name)) = false /\
  Ascii.eqb (char_at tok (2 + strlen name)) "=" = true /\
  offset (3 + strlen name) tok = v.
Proof.
  intros rem tok. unfold long_test. subst tok. cbn [offset Nat.add].
  change (char_at (String "-" (String "-" rem)) (Datatypes.S (Datatypes.S (strlen name))))
    with (char_at rem (strlen name)).
  subst rem. rewrite strncmp_prefix, char_at_append.
  split; [reflexivity|]. split; [reflexivity|]. split; [reflexivity|].
  apply (offset_append name (String "=" v) 1).
Qed.

Lemma long_test_candidate (rem name : string) :
  cstring rem = true -> cstring name = true ->
  long_test rem name = true -> long_candidate name rem.
Proof.
  intros Hr Hn. unfold long_test. cbn [offset Nat.add].
  change (char_at (String "-" (String "-" rem)) (Datatypes.S (Datatypes.S (strlen name))))
    with (char_at rem (strlen name)).
  intros H. apply andb_prop in H as [H1 H2].
  apply Z.eqb_eq in H1.
  destruct (strncmp_zero_prefix name Hn rem H1) as [tail ->].
  rewrite char_at_append in H2. apply orb_prop in H2 as [H2|H2].
  - apply char_at_0_nul in H2; [|eapply cstring_append, Hr].
    subst tail. left. apply append_empty_r.
  - destruct tail as [|c tail]; [discriminate|].
    apply Ascii.eqb_eq in H2. unfold char_at in H2. simpl in H2. subst c.
    right. exists tail. reflexivity.
Qed.

Lemma long_candidate_test (rem name : string) :
  long_candidate name rem -> long_test rem name = true.
Proof.
  intros [->|[v ->]].
  - apply long_test_exact.
  - apply long_test_value.
Qed.

(** The entries before the first candidate are passed over. *)
Lemma long_arg_scan_skip (flags : Z) (cbd : callbackdata D) (i : Z)
    (rem : string) (w : World) (pre more : list def) :
  cstring rem = true ->
  before_sentinel pre ->
  long_names_ok pre ->
  Forall (fun e => ~ has_long_candidate rem e) pre ->
  long_arg_scan call flags cbd i (String "-" (String "-" rem)) w (pre ++ more)
  = long_arg_scan call flags cbd i (String "-" (String "-" rem)) w more.
Proof.
  intros Hcs. induction pre as [|e pre IH]; intros Hb Hok Hn; [reflexivity|].
  apply Forall_cons in Hb as [He Hb]. apply Forall_cons in Hok as [Hoke Hok].
  apply Forall_cons in Hn as [Hne Hn].
  cbn [app long_arg_scan].
  destruct (callbackfn e) as [fn|]; [|done].
  destruct (longarg e) as [name|] eqn:Hl; [|apply IH; assumption].
  change ((strncmp (offset 2 (String "-" (String "-" rem))) name
             (strlen name) =? 0)
          && (is_nul (char_at (String "-" (String "-" rem)) (2 + strlen name))
              || Ascii.eqb
                   (char_at (String "-" (String "-" rem)) (2 + strlen name))
                   "="))%bool
    with (long_test rem name).
  destruct (long_test rem name) eqn:Ht; [|apply IH; assumption].
  destruct Hne. exists name. split; [exact Hl|].
  apply long_test_candidate; auto.
Qed.

Lemma long_arg_scan_sentinel (flags : Z) (cbd : callbackdata D) (i : Z)
    (tok : string) (w : World) (post : list def) :
  match post with [] => True | d :: _ => callbackfn d = None end ->
  long_arg_scan call flags cbd i tok w post = (false, w).
Proof.
  destruct post as [|d post]; [reflexivity|]. cbn [long_arg_scan].
  intros ->. reflexivity.
Qed.

Lemma is_nul_not_equals (c : ascii) :
  is_nul c = true -> Ascii.eqb c "=" = false.
Proof.
  unfold is_nul. intros H. apply Ascii.eqb_eq in H as ->. reflexivity.
Qed.

(** C3. A long flag token ["--" rem] is classified as a long argument
    and resolved against the first entry [d] of the table, before the
    sentinel, whose long name [name] is a prefix of [rem] followed at once
    by the end of the token or by ['=']:
    - [d] takes no value: the token matches when [rem] is [name] (the
      callback gets no value: NULL), and is unmatched when ['='] follows;
    - [d] takes a value: the token matches when ['='] follows, with what
      comes after it as the value (the empty string for ["--name="], which
      is not NULL), and is unmatched when [rem] is [name].
    When no entry before the sentinel is such a candidate the token is
    unmatched; so is ["--verbosity"] for the table of the examples, whose
    [--verbose] is not a candidate for it.
    In the modes that do not act on flags a match makes no call. *)
Theorem long_flag_resolution (flags : Z) (argdef : list def)
    (badfn : option F) (cbd : callbackdata D) (i : Z) (rem : string)
    (next : option string) (cache : standalone_cache F) (w : World)
    (d : def) (fn : F) (name : string) :
  let tok := String "-" (String "-" rem) in
  let resolved value :=
    process_token call flags argdef badfn cbd i tok next cache w
    = (flag_outcome call flags badfn cbd LongFlag i tok next fn d value
         false w, cache) in
  let unmatched table t :=
    process_token call flags table badfn cbd i t next cache w
    = (unmatched_outcome call flags badfn cbd i t w, cache) in
  cstring tok = true ->
  long_names_ok argdef ->
  first_entry (has_long_candidate rem) argdef d ->
  callbackfn d = Some fn ->
  longarg d = Some name ->
  classify tok = LongArg /\
  (argparam d = None -> rem = name -> resolved None) /\
  (argparam d = None -> rem <> name -> unmatched argdef tok) /\
  (argparam d <> None ->
   forall v, rem = name +:+ String "=" v -> resolved (Some v)) /\
  (argparam d <> None -> rem = name -> unmatched argdef tok) /\
  (forall table,
     long_names_ok table -> no_entry (has_long_candidate rem) table ->
     unmatched table tok) /\
  (forall fo fv fp : F,
     ~ has_long_candidate "verbosity" (opt_verbose fv) /\
     ~ has_long_candidate "verb" (opt_verbose fv) /\
     unmatched (example_table fo fv fp) "--verbosity" /\
     unmatched (example_table fo fv fp) "--verb").
Proof.
  intros tok resolved unmatched Hcs Hok
    (pre & post & -> & Hpre & Hnone & _ & Hcand) Hfn Hname.
  apply cstring_cons in Hcs as [_ Hcs]. apply cstring_cons in Hcs as [_ Hcs].
  assert (Hcls : classify tok = LongArg) by reflexivity.
  destruct Hcand as (name' & Hname' & Hcand).
  rewrite Hname in Hname'. injection Hname' as <-.
  apply Forall_app in Hok as [Hokpre _].
  assert (Hscan :
    long_arg_scan call flags cbd i tok w (pre ++ d :: post)
    = match argparam d with
      | None =>
          if is_nul (char_at tok (2 + strlen name))
          then dispatch_flag call flags LongFlag i fn d None cbd w
          else (false, w)
      | Some _ =>
          if Ascii.eqb (char_at tok (2 + strlen name)) "="
          then dispatch_flag call flags LongFlag i fn d
                 (Some (offset (3 + strlen name) tok)) cbd w
          else (false, w)
      end).
  { subst tok. rewrite long_arg_scan_skip by assumption.
    cbn [long_arg_scan]. rewrite Hfn, Hname.
    change ((strncmp (offset 2 (String "-" (String "-" rem))) name
               (strlen name) =? 0)
            && (is_nul
                  (char_at (String "-" (String "-" rem)) (2 + strlen name))
                || Ascii.eqb
                     (char_at (String "-" (String "-" rem))
                        (2 + strlen name)) "="))%bool
      with (long_test rem name).
    rewrite (long_candidate_test rem name Hcand). reflexivity. }
  assert (Hres : forall value,
    long_arg_scan call flags cbd i tok w (pre ++ d :: post)
    = dispatch_flag call flags LongFlag i fn d value cbd w ->
    resolved value).
  { intros value H. subst resolved. cbv beta.
    unfold process_token. rewrite Hcls, H.
    rewrite <- (dispatch_flag_outcome flags badfn cbd LongFlag i tok next
                  fn d value false w).
    unfold cursor, current.
    destruct (dispatch_flag call flags LongFlag i fn d value cbd w)
      as [[] w1]; reflexivity. }
  assert (Hun : forall table t,
    classify t = LongArg ->
    long_arg_scan call flags cbd i t w table = (false, w) ->
    unmatched table t).
  { intros table t Hc H. subst unmatched. cbv beta. unfold process_token.
    rewrite Hc, H. reflexivity. }
  assert (Hexact : rem = name ->
    is_nul (char_at tok (2 + strlen name)) = true).
  { intros ->. apply long_test_exact. }
  assert (Hvalue : forall v, rem = name +:+ String "=" v ->
    is_nul (char_at tok (2 + strlen name)) = false /\
    Ascii.eqb (char_at tok (2 + strlen name)) "=" = true /\
    offset (3 + strlen name) tok = v).
  { intros v ->. apply (long_test_value name v). }
  split; [exact Hcls|].
  split; [|split; [|split; [|split; [|split]]]].
  - intros Hp Hr. apply Hres. rewrite Hscan, Hp, (Hexact Hr). reflexivity.
  - intros Hp Hr. apply Hun; [exact Hcls|]. rewrite Hscan, Hp.
    destruct Hcand as [Heq|[v Hv]]; [done|].
    destruct (Hvalue v Hv) as (-> & _). reflexivity.
  - intros Hp v Hv. apply Hres. rewrite Hscan.
    destruct (argparam d); [|done].
    destruct (Hvalue v Hv) as (_ & -> & ->). reflexivity.
  - intros Hp Hr. apply Hun; [exact Hcls|]. rewrite Hscan.
    destruct (argparam d); [|done].
    rewrite (is_nul_not_equals _ (Hexact Hr)). reflexivity.
  - intros table Htok (pre' & post' & -> & Hpre' & Hnone' & Hsent).
    apply Hun; [exact Hcls|]. subst tok.
    apply Forall_app in Htok as [Htok _].
    rewrite long_arg_scan_skip by assumption.
    apply long_arg_scan_sentinel, Hsent.
  - intros fo fv fp.
    assert (Hno : forall r, long_test r "verbose" = false ->
              cstring r = true ->
              ~ has_long_candidate r (opt_verbose fv)).
    { intros r Ht Hr (n & Hn & Hc). injection Hn as <-.
      apply long_candidate_test in Hc. congruence. }
    split; [apply Hno; reflexivity|]. split; [apply Hno; reflexivity|].
    split; (apply Hun; [reflexivity|]); cbn [long_arg_scan example_table];
      reflexivity.
Qed.

End Resolution.

Lemma short_flag_resolution_witness :
  let table := example_table App.cb_noop App.cb_noop App.cb_noop in
  process_token App.call MINIARG_PROCESS_FLAG_BOTH table None App.NULL 1
    "-oresult.txt" None (mk_cache false None) (App.initial ∅)
  = (flag_outcome App.call MINIARG_PROCESS_FLAG_BOTH None App.NULL ShortFlag
       1 "-oresult.txt" None App.cb_noop (opt_output App.cb_noop)
       (Some "result.txt") false (App.initial ∅),
     mk_cache false None).
Proof.
  intros table.
  destruct (short_flag_resolution App.call MINIARG_PROCESS_FLAG_BOTH table
              None App.NULL 1 "o" "result.txt" None (mk_cache false None)
              (App.initial ∅) (opt_output App.cb_noop) App.cb_noop)
    as (_ & _ & _ & H & _).
  - reflexivity.
  - discriminate.
  - exists [], [opt_verbose App.cb_noop; opt_param App.cb_noop; sentinel].
    split; [reflexivity|]. split; [constructor|]. split; [constructor|].
    split; [discriminate | reflexivity].
  - reflexivity.
  - apply H; discriminate.
Defined.

Lemma long_flag_resolution_witness :
  let table := example_table App.cb_noop App.cb_noop App.cb_noop in
  process_token App.call MINIARG_PROCESS_FLAG_BOTH table None App.NULL 1
    "--output=" None (mk_cache false None) (App.initial ∅)
  = (flag_outcome App.call MINIARG_PROCESS_FLAG_BOTH None App.NULL LongFlag
       1 "--output=" None App.cb_noop (opt_output App.cb_noop)
       (Some "") false (App.initial ∅),
     mk_cache false None).
Proof.
  intros table.
  destruct (long_flag_resolution App.call MINIARG_PROCESS_FLAG_BOTH table
              None App.NULL 1 "output=" None (mk_cache false None)
              (App.initial ∅) (opt_output App.cb_noop) App.cb_noop "output")
    as (_ & _ & _ & H & _).
  - reflexivity.
  - repeat constructor; intros n [= <-]; reflexivity.
  - exists [], [opt_verbose App.cb_noop; opt_param App.cb_noop; sentinel].
    split; [reflexivity|]. split; [constructor|]. split; [constructor|].
    split; [discriminate|]. exists "output". split; [reflexivity|].
    right. exists "". reflexivity.
  - reflexivity.
  - reflexivity.
  - apply H; [discriminate | reflexivity].
Defined.

(** ** Standalone values *)

Section StandaloneValues.

Context {F S D : Type}.
Variable call :
  F -> option (miniargv_definition F) -> option string ->
  callbackdata D -> S -> Z * S.
Variable int_at : D -> Z.

Abbreviation def := (miniargv_definition F).
Abbreviation World := (world F S).

Lemma classify_standalone (tok : string) :
  tok = EmptyString \/ tok = "-" \/
  (exists c rest, tok = String c rest /\ c <> "-"%char) ->
  classify tok = StandaloneArg.
Proof.
  intros [->|[->|(c & rest & -> & Hc)]]; try reflexivity.
  unfold classify, char_at. simpl.
  apply Ascii.eqb_neq in Hc. rewrite Hc. reflexivity.
Qed.

Lemma is_standalone_def_test (d : def) :
  (is_nul (shortarg d)
   && match longarg d with None => true | Some _ => false end)%bool = true
  <-> is_standalone_def d.
Proof.
  unfold is_standalone_def, is_nul. split.
  - intros H. apply andb_prop in H as [H1 H2].
    apply Ascii.eqb_eq in H1. destruct (longarg d); [discriminate | auto].
  - intros [-> ->]. reflexivity.
Qed.

(** The lookup finds the first entry, before the sentinel, that has
    neither a short nor a long form. *)
Lemma find_standalone_first (argdef : list def) (d : def) :
  find_standalone argdef = Some d <-> first_entry is_standalone_def argdef d.
Proof.
  split.
  - induction argdef as [|e more IH]; cbn [find_standalone]; [discriminate|].
    destruct (callbackfn e) as [fn|] eqn:Hfn; [|discriminate].
    destruct (is_nul (shortarg e)
              && match longarg e with None => true | Some _ => false end)%bool
      eqn:Ht.
    + intros [= <-]. exists [], more.
      split; [reflexivity|]. split; [constructor|]. split; [constructor|].
      split; [rewrite Hfn; discriminate|]. apply is_standalone_def_test, Ht.
    + intros H. destruct (IH H) as (pre & post & -> & Hb & Hn & Hd).
      exists (e :: pre), post. split; [reflexivity|].
      split; [constructor; [rewrite Hfn; discriminate | exact Hb]|].
      split; [|exact Hd]. constructor; [|exact Hn].
      intros Hs. apply is_standalone_def_test in Hs. congruence.
  - intros (pre & post & -> & Hb & Hn & Hcb & Hd).
    induction pre as [|e pre IH]; cbn [app find_standalone].
    + destruct (callbackfn d); [|done].
      apply is_standalone_def_test in Hd. rewrite Hd. reflexivity.
    + apply Forall_cons in Hb as [He Hb]. apply Forall_cons in Hn as [Hne Hn].
      destruct (callbackfn e); [|done].
      destruct (is_nul (shortarg e)
                && match longarg e with None => true | Some _ => false end)%bool
        eqn:Ht; [|apply IH; assumption].
      destruct Hne. apply is_standalone_def_test, Ht.
Qed.

Lemma find_standalone_none (argdef : list def) :
  find_standalone argdef = None <-> no_entry is_standalone_def argdef.
Proof.
  split.
  - induction argdef as [|e more IH]; cbn [find_standalone].
    + intros _. exists [], []. repeat split; constructor.
    + destruct (callbackfn e) as [fn|] eqn:Hfn.
      2:{ intros _. exists [], (e :: more).
          split; [reflexivity|]. split; [constructor|].
          split; [constructor | exact Hfn]. }
      destruct (is_nul (shortarg e)
                && match longarg e with None => true | Some _ => false end)%bool
        eqn:Ht; [discriminate|].
      intros H. destruct (IH H) as (pre & post & -> & Hb & Hn & Hs).
      exists (e :: pre), post. split; [reflexivity|].
      split; [constructor; [rewrite Hfn; discriminate | exact Hb]|].
      split; [|exact Hs]. constructor; [|exact Hn].
      intros Hd. apply is_standalone_def_test in Hd. congruence.
  - intros (pre & post & -> & Hb & Hn & Hs).
    induction pre as [|e pre IH]; cbn [app find_standalone].
    + destruct post as [|d post]; [reflexivity|]. cbn [find_standalone].
      rewrite Hs. reflexivity.
    + apply Forall_cons in Hb as [He Hb]. apply Forall_cons in Hn as [Hne Hn].
      destruct (callbackfn e); [|done].
      destruct (is_nul (shortarg e)
                && match longarg e with None => true | Some _ => false end)%bool
        eqn:Ht; [|apply IH; assumption].
      destruct Hne. apply is_standalone_def_test, Ht.
Qed.

(** With the cache holding [sd], a standalone value is resolved against
    [sd]. *)
Lemma standalone_arg_outcome (flags : Z) (badfn : option F)
    (cbd : callbackdata D) (i : Z) (tok : string) (next : option string)
    (sd : option def) (w : World) :
  match standalone_arg call flags cbd i tok w (mk_cache true sd) with
  | Found r w' => Return r w'
  | Matched true adv w' => Continue adv w'
  | Matched false adv w' =>
      if adv
      then bad_argument call flags badfn cbd (i + 1) (default tok next) adv w'
      else bad_argument call flags badfn cbd i tok adv w'
  end
  = standalone_outcome call flags badfn cbd i tok sd w.
Proof.
  unfold standalone_arg, standalone_outcome, unmatched_outcome, has_flag.
  cbn [standalonevaluedef].
  destruct sd as [d|]; [|reflexivity].
  destruct (callbackfn d) as [fn|]; [|reflexivity].
  destruct (Z.land flags MINIARG_PROCESS_FLAG_VALUES =? 0); [reflexivity|].
  cbn [negb].
  destruct (negb (Z.land flags MINIARG_PROCESS_FLAG_FIND_ONLY =? 0));
    [reflexivity|].
  destruct (invoke call Standalone i fn (Some d) (Some tok) cbd w) as [r w1].
  destruct (r =? 0); reflexivity.
Qed.

(** C4. A token that does not begin with ['-'], and the token ["-"]
    itself, is classified as a standalone value, and resolved against the
    standalone value definition: the result of the lookup, which is the
    first entry of the table, before the sentinel, with neither a short
    nor a long form. The lookup fills the cache; once the cache is set
    the table is no longer consulted for a standalone value, and the
    other tokens leave the cache alone; so in a full traversal every
    callback called for a standalone value is called with that one
    entry. *)
Theorem standalone_value_resolution (flags : Z) (argdef : list def)
    (badfn : option F) (cbd : callbackdata D) (i : Z) (tok : string)
    (next : option string) (cache : standalone_cache F) (w : World) :
  tok = EmptyString \/ tok = "-" \/
  (exists c rest, tok = String c rest /\ c <> "-"%char) ->
  cache_valid argdef cache ->
  classify tok = StandaloneArg /\
  process_token call flags argdef badfn cbd i tok next cache w
  = (standalone_outcome call flags badfn cbd i tok (find_standalone argdef) w,
     mk_cache true (find_standalone argdef)) /\
  (forall d, find_standalone argdef = Some d <->
             first_entry is_standalone_def argdef d) /\
  (find_standalone argdef = None <-> no_entry is_standalone_def argdef) /\
  (forall sd table,
     process_token call flags table badfn cbd i tok next (mk_cache true sd) w
     = (standalone_outcome call flags badfn cbd i tok sd w,
        mk_cache true sd)) /\
  (forall t,
     classify t <> StandaloneArg ->
     (process_token call flags argdef badfn cbd i t next cache w).2 = cache) /\
  (forall argv mode,
     has_flag mode MINIARG_PROCESS_FLAG_FIND_ONLY = false ->
     Forall (fun e => is_standalone_event e = true ->
                      ev_def e = find_standalone argdef)
       (new_events w
          (miniargv_process_partial call int_at mode argv argdef badfn cbd
             w).2)).
Proof.
  intros Htok Hvalid.
  pose proof (classify_standalone tok Htok) as Hcls.
  assert (Hset : forall sd table,
    process_token call flags table badfn cbd i tok next (mk_cache true sd) w
    = (standalone_outcome call flags badfn cbd i tok sd w,
       mk_cache true sd)).
  { intros sd table. unfold process_token. rewrite Hcls.
    unfold standalone_lookup. cbn [standalonevaluedefset].
    rewrite <- (standalone_arg_outcome flags badfn cbd i tok next sd w).
    destruct (standalone_arg call flags cbd i tok w (mk_cache true sd))
      as [[] [] w1|r w1]; reflexivity. }
  split; [exact Hcls|]. split; [|split; [|split; [|split; [|split]]]].
  - rewrite <- (Hset (find_standalone argdef) argdef).
    unfold process_token. rewrite Hcls.
    rewrite (standalone_lookup_valid argdef cache Hvalid).
    unfold standalone_lookup. reflexivity.
  - apply find_standalone_first.
  - apply find_standalone_none.
  - exact Hset.
  - intros t Ht. rewrite process_token_cache.
    destruct (classify t); done.
  - intros argv mode Hmode.
    destruct (process_partial_spec call int_at mode argv argdef badfn cbd w
                Hmode) as (new & Htr & (_ & _ & _ & Hall) & _).
    rewrite (new_events_app _ _ _ Htr).
    eapply Forall_impl; [exact Hall|].
    intros e (_ & _ & Hsa) He. destruct (Hsa He) as (_ & _ & Hd & _).
    exact Hd.
Qed.

End StandaloneValues.

Lemma standalone_value_resolution_witness :
  let table := example_table App.cb_noop App.cb_noop App.cb_noop in
  classify "-" = StandaloneArg /\
  process_token App.call MINIARG_PROCESS_FLAG_BOTH table None App.NULL 1
    "-" None (mk_cache false None) (App.initial ∅)
  = (standalone_outcome App.call MINIARG_PROCESS_FLAG_BOTH None App.NULL 1
       "-" (Some (opt_param App.cb_noop)) (App.initial ∅),
     mk_cache true (Some (opt_param App.cb_noop))).
Proof.
  intros table.
  destruct (standalone_value_resolution App.call App.int_at
              MINIARG_PROCESS_FLAG_BOTH table None App.NULL 1 "-" None
              (mk_cache false None) (App.initial ∅))
    as (H1 & H2 & _).
  - right; left. reflexivity.
  - left. reflexivity.
  - split; [exact H1 | exact H2].
Defined.

(** ** The find-only mode *)

Section FindOnly.

Context {F S D : Type}.

Abbreviation def := (miniargv_definition F).
Abbreviation World := (world F S).
Abbreviation handler :=
  (F -> option (miniargv_definition F) -> option string ->
   callbackdata D -> S -> Z * S).

(** In the modes that do not act on flags, what the flag branches find
    depends on the table and on the tokens only. *)
Lemma short_arg_scan_silent (call1 call2 : handler) (flags1 flags2 : Z)
    (cbd1 cbd2 : callbackdata D) (i : Z) (tok : string)
    (next : option string) (w1 w2 : World) (argdef : list def) :
  has_flag flags1 MINIARG_PROCESS_FLAG_FLAGS = false ->
  has_flag flags2 MINIARG_PROCESS_FLAG_FLAGS = false ->
  exists ok adv,
    short_arg_scan call1 flags1 cbd1 i tok next w1 argdef = (ok, adv, w1) /\
    short_arg_scan call2 flags2 cbd2 i tok next w2 argdef = (ok, adv, w2) /\
    (ok = false -> adv = false) /\
    (adv = true -> is_Some next).
Proof.
  intros H1 H2.
  induction argdef as [|d more IH]; cbn [short_arg_scan].
  { exists false, false. repeat split; auto; discriminate. }
  destruct (callbackfn d) as [fn|].
  2:{ exists false, false. repeat split; auto; discriminate. }
  destruct (negb (is_nul (shortarg d)) &&
            Ascii.eqb (char_at tok 1) (shortarg d))%bool; [|exact IH].
  destruct (argparam d).
  - destruct (negb (is_nul (char_at tok 2))).
    + rewrite (dispatch_flag_silent call1 flags1) by exact H1.
      rewrite (dispatch_flag_silent call2 flags2) by exact H2.
      exists true, false. repeat split; auto; discriminate.
    + destruct next as [v|].
      * rewrite (dispatch_flag_silent call1 flags1) by exact H1.
        rewrite (dispatch_flag_silent call2 flags2) by exact H2.
        exists true, true. repeat split; eauto; discriminate.
      * exists false, false. repeat split; auto; discriminate.
  - destruct (is_nul (char_at tok 2)).
    + rewrite (dispatch_flag_silent call1 flags1) by exact H1.
      rewrite (dispatch_flag_silent call2 flags2) by exact H2.
      exists true, false. repeat split; auto; discriminate.
    + exists false, false. repeat split; auto; discriminate.
Qed.

Lemma long_arg_scan_silent (call1 call2 : handler) (flags1 flags2 : Z)
    (cbd1 cbd2 : callbackdata D) (i : Z) (tok : string) (w1 w2 : World)
    (argdef : list def) :
  has_flag flags1 MINIARG_PROCESS_FLAG_FLAGS = false ->
  has_flag flags2 MINIARG_PROCESS_FLAG_FLAGS = false ->
  exists ok,
    long_arg_scan call1 flags1 cbd1 i tok w1 argdef = (ok, w1) /\
    long_arg_scan call2 flags2 cbd2 i tok w2 argdef = (ok, w2).
Proof.
  intros H1 H2.
  induction argdef as [|d more IH]; cbn [long_arg_scan].
  { exists false. split; reflexivity. }
  destruct (callbackfn d) as [fn|]; [|exists false; split; reflexivity].
  destruct (longarg d) as [name|]; [|exact IH].
  destruct ((strncmp (offset 2 tok) name (strlen name) =? 0) &&
            (is_nul (char_at tok (2 + strlen name))
             || Ascii.eqb (char_at tok (2 + strlen name)) "="))%bool;
    [|exact IH].
  rewrite ?(dispatch_flag_silent call1 flags1) by exact H1.
  rewrite ?(dispatch_flag_silent call2 flags2) by exact H2.
  destruct (argparam d).
  - destruct (Ascii.eqb (char_at tok (2 + strlen name)) "=");
      [exists true | exists false]; split; reflexivity.
  - destruct (is_nul (char_at tok (2 + strlen name)));
      [exists true | exists false]; split; reflexivity.
Qed.

Variable call : handler.
Variable int_at : D -> Z.

(** One iteration in the find-only mode, next to the same iteration of
    the values pass run with handlers that accept everything: both pass
    over a matched flag; at a standalone value with a definition the first
    returns its index where the second calls the callback; at an unmatched
    token both go to the end of the loop body. *)
Lemma find_only_step (argdef : list def) (badfn : option F)
    (cbd cbd' : callbackdata D) (i : Z) (tok : string)
    (next : option string) (cache cache' : standalone_cache F)
    (w wr : World) :
  cache_valid argdef cache -> cache_valid argdef cache' ->
  let pf :=
    (process_token call MINIARG_PROCESS_FLAG_FIND_VALUE argdef badfn cbd i
       tok next cache w).1 in
  let pv :=
    (process_token accept_all MINIARG_PROCESS_FLAG_VALUES argdef badfn cbd' i
       tok next cache' wr).1 in
  (exists adv,
     pf = Continue adv w /\ pv = Continue adv wr /\
     (adv = true -> is_Some next)) \/
  (pf = Return i w /\ classify tok = StandaloneArg /\
   exists e,
     pv = Continue false (mk_world (st wr) (trace wr ++ [e]) (stderr wr)) /\
     is_standalone_event e = true /\ ev_index e = i) \/
  (pf = bad_argument call MINIARG_PROCESS_FLAG_FIND_VALUE badfn cbd i tok
          false w /\
   pv = bad_argument accept_all MINIARG_PROCESS_FLAG_VALUES badfn cbd' i tok
          false wr).
Proof.
  intros Hv Hv' pf pv. subst pf pv. unfold process_token.
  destruct (classify tok) eqn:Hcls.
  - destruct (short_arg_scan_silent call accept_all
                MINIARG_PROCESS_FLAG_FIND_VALUE MINIARG_PROCESS_FLAG_VALUES
                cbd cbd' i tok next w wr argdef eq_refl eq_refl)
      as (ok & adv & -> & -> & Hok & Hadv).
    destruct ok.
    + left. exists adv. auto.
    + rewrite (Hok eq_refl). right; right. split; reflexivity.
  - destruct (long_arg_scan_silent call accept_all
                MINIARG_PROCESS_FLAG_FIND_VALUE MINIARG_PROCESS_FLAG_VALUES
                cbd cbd' i tok w wr argdef eq_refl eq_refl)
      as (ok & -> & ->).
    destruct ok.
    + left. exists false. repeat split. discriminate.
    + right; right. split; reflexivity.
  - rewrite !standalone_lookup_valid by assumption.
    unfold standalone_arg. cbn [standalonevaluedef].
    destruct (find_standalone argdef) as [d|];
      [|right; right; split; reflexivity].
    destruct (callbackfn d) as [fn|]; [|right; right; split; reflexivity].
    right; left. split; [reflexivity|]. split; [reflexivity|].
    eexists. split; [reflexivity|]. split; reflexivity.
Qed.

Lemma drop_cons_next (argv rest' : list string) (tok : string) (n : nat) :
  drop n argv = tok :: rest' -> drop (Datatypes.S n) argv = rest'.
Proof.
  intros H. replace (Datatypes.S n) with (n + 1)%nat by lia.
  rewrite <- drop_drop, H. reflexivity.
Qed.

Lemma next_arg_params_unfold (fuel : nat) (argv : list string)
    (argdef : list def) (badfn : option F) (argindex : Z) (w : World) :
  next_arg_params call int_at (Datatypes.S fuel) argv argdef badfn argindex w
  = next_arg_params_from call int_at fuel argv argdef badfn
      (ArgIndexRef argindex) (drop (Z.to_nat (argindex + 1)) argv)
      (argindex + 1) (mk_cache false None) w.
Proof. reflexivity. Qed.

Lemma next_from_continue (fuel : nat) (argv : list string)
    (argdef : list def) (badfn : option F) (cbd : callbackdata D)
    (tok : string) (rest' : list string) (i : Z)
    (cache cache1 : standalone_cache F) (w w1 : World) :
  process_token call MINIARG_PROCESS_FLAG_FIND_VALUE argdef badfn cbd i tok
    (head rest') cache w = (Continue false w1, cache1) ->
  next_arg_params_from call int_at fuel argv argdef badfn cbd (tok :: rest')
    i cache w
  = next_arg_params_from call int_at fuel argv argdef badfn cbd rest' (i + 1)
      cache1 w1.
Proof.
  intros H. unfold next_arg_params_from. cbn [scan]. rewrite H. reflexivity.
Qed.

Lemma next_from_continue_two (fuel : nat) (argv : list string)
    (argdef : list def) (badfn : option F) (cbd : callbackdata D)
    (tok v : string) (rest'' : list string) (i : Z)
    (cache cache1 : standalone_cache F) (w w1 : World) :
  process_token call MINIARG_PROCESS_FLAG_FIND_VALUE argdef badfn cbd i tok
    (Some v) cache w = (Continue true w1, cache1) ->
  next_arg_params_from call int_at fuel argv argdef badfn cbd
    (tok :: v :: rest'') i cache w
  = next_arg_params_from call int_at fuel argv argdef badfn cbd rest'' (i + 2)
      cache1 w1.
Proof.
  intros H. unfold next_arg_params_from. cbn [scan head]. rewrite H.
  reflexivity.
Qed.

Lemma next_from_return (fuel : nat) (argv : list string)
    (argdef : list def) (badfn : option F) (cbd : callbackdata D)
    (tok : string) (rest' : list string) (i r : Z)
    (cache cache1 : standalone_cache F) (w w1 : World) :
  process_token call MINIARG_PROCESS_FLAG_FIND_VALUE argdef badfn cbd i tok
    (head rest') cache w = (Return r w1, cache1) ->
  next_arg_params_from call int_at fuel argv argdef badfn cbd (tok :: rest')
    i cache w
  = if 0 <? r
    then '(ps, fin, w'') ← next_arg_params call int_at fuel argv argdef badfn
                             r w1;
         Some (r :: ps, fin, w'')
    else Some ([], r, w1).
Proof.
  intros H. unfold next_arg_params_from. cbn [scan]. rewrite H. reflexivity.
Qed.

Lemma bad_argument_accept_all (bad : F) (cbd : callbackdata D) (i : Z)
    (tok : string) (adv : bool) (wr : World) :
  bad_argument accept_all MINIARG_PROCESS_FLAG_VALUES (Some bad) cbd i tok
    adv wr
  = Continue adv
      (mk_world (st wr)
         (trace wr ++ [mk_event Unmatched i None (Some tok) 0]) (stderr wr)).
Proof. reflexivity. Qed.

Lemma enumeration_sim (argv : list string) (argdef : list def)
    (badfn : option F) (cbd' : callbackdata D) (n : nat) :
  forall (rest : list string) (i : Z) (fuel : nat) (cbd : callbackdata D)
         (cache cache' : standalone_cache F) (w wr : World),
    (length rest <= n)%nat -> (n <= fuel)%nat ->
    rest = drop (Z.to_nat i) argv -> 1 <= i ->
    cache_valid argdef cache -> cache_valid argdef cache' ->
    exists newr,
      trace (scan accept_all MINIARG_PROCESS_FLAG_VALUES argdef badfn cbd'
               rest i cache' wr).2 = trace wr ++ newr /\
      enumeration_matches badfn i w
        (next_arg_params_from call int_at fuel argv argdef badfn cbd rest i
           cache w) newr.
Proof.
  assert (Hnil : forall i fuel cbd cache cache' (w wr : World),
    exists newr : list (event F),
      trace (scan accept_all MINIARG_PROCESS_FLAG_VALUES argdef badfn cbd'
               [] i cache' wr).2 = trace wr ++ newr /\
      enumeration_matches badfn i w
        (next_arg_params_from call int_at fuel argv argdef badfn cbd [] i
           cache w) newr).
  { intros. exists []. cbn [scan snd]. rewrite app_nil_r.
    split; [reflexivity|]. exists [], 0, w.
    split; [reflexivity|]. split; [left; reflexivity|].
    repeat split; try constructor; try reflexivity. }
  induction n as [|n IH];
    intros rest i fuel cbd cache cache' w wr Hlen Hfuel Hrest Hi Hv Hv'.
  { destruct rest; [apply Hnil | simpl in Hlen; lia]. }
  destruct rest as [|tok rest']; [apply Hnil|].
  simpl in Hlen.
  assert (Hrest' : rest' = drop (Z.to_nat (i + 1)) argv).
  { symmetry. replace (Z.to_nat (i + 1)) with (Datatypes.S (Z.to_nat i)) by lia.
    eapply drop_cons_next. symmetry. exact Hrest. }
  pose proof (find_only_step argdef badfn cbd cbd' i tok (head rest')
                cache cache' w wr Hv Hv') as Hstep.
  pose proof (process_token_cache_valid call
                MINIARG_PROCESS_FLAG_FIND_VALUE argdef badfn cbd i tok
                (head rest') cache w Hv) as Hc.
  pose proof (process_token_cache_valid accept_all
                MINIARG_PROCESS_FLAG_VALUES argdef badfn cbd' i tok
                (head rest') cache' wr Hv') as Hc'.
  destruct (process_token call MINIARG_PROCESS_FLAG_FIND_VALUE argdef badfn
              cbd i tok (head rest') cache w) as [pf cf] eqn:Epf.
  destruct (process_token accept_all MINIARG_PROCESS_FLAG_VALUES argdef badfn
              cbd' i tok (head rest') cache' wr) as [pv cv] eqn:Epv.
  cbn [fst snd] in Hstep, Hc, Hc'.
  assert (Hshift : forall j newr1 newr2 result (wr1 : World),
    i < j ->
    standalone_positions newr1 = [] ->
    trace wr1 = trace wr ++ newr1 ->
    forall wr2 : World,
    trace wr2 = trace wr1 ++ newr2 ->
    enumeration_matches badfn j w result newr2 ->
    trace wr2 = trace wr ++ (newr1 ++ newr2) /\
    enumeration_matches badfn i w result (newr1 ++ newr2)).
  { intros j newr1 newr2 result wr1 Hj Hno Ht1 wr2 Ht2
      (ps & fin & w' & Hres & Hfin & Hge & Hs & Hp & H0 & Hn).
    split; [rewrite Ht2, Ht1, <- app_assoc; reflexivity|].
    exists ps, fin, w'. rewrite standalone_positions_app, Hno. cbn [app].
    repeat split; try assumption; try (apply Hn; assumption).
    eapply Forall_impl; [exact Hge|]. simpl. intros; lia. }
  destruct Hstep as [(adv & -> & -> & Hadv)
                    |[(-> & Hcls & e & -> & Hse & Hei)|(-> & ->)]].
  - (* a matched flag is passed over *)
    destruct adv.
    + destruct rest' as [|v rest'']; [destruct (Hadv eq_refl); discriminate|].
      cbn [head] in Epf, Epv.
      rewrite (next_from_continue_two fuel argv argdef badfn cbd tok v rest''
                 i cache cf w w Epf).
      cbn [scan head]. rewrite Epv.
      destruct (IH rest'' (i + 2) fuel cbd cf cv w wr) as (newr & Ht & Hm);
        try assumption; try (simpl in Hlen; lia).
      { symmetry.
        replace (Z.to_nat (i + 2)) with (Datatypes.S (Z.to_nat (i + 1))) by lia.
        eapply drop_cons_next. symmetry. exact Hrest'. }
      exists newr. split; [exact Ht|].
      destruct (Hshift (i + 2) [] newr _ wr ltac:(lia) eq_refl
                  ltac:(rewrite app_nil_r; reflexivity) _ Ht Hm) as [_ H].
      exact H.
    + rewrite (next_from_continue fuel argv argdef badfn cbd tok rest' i
                 cache cf w w Epf).
      cbn [scan]. rewrite Epv.
      destruct (IH rest' (i + 1) fuel cbd cf cv w wr) as (newr & Ht & Hm);
        try assumption; try lia.
      exists newr. split; [exact Ht|].
      destruct (Hshift (i + 1) [] newr _ wr ltac:(lia) eq_refl
                  ltac:(rewrite app_nil_r; reflexivity) _ Ht Hm) as [_ H].
      exact H.
  - (* a standalone value: its index is returned *)
    rewrite (next_from_return fuel argv argdef badfn cbd tok rest' i i
               cache cf w w Epf).
    replace (0 <? i) with true by (symmetry; apply Z.ltb_lt; lia).
    destruct fuel as [|fuel]; [lia|].
    rewrite next_arg_params_unfold, <- Hrest'.
    cbn [scan]. rewrite Epv.
    set (wr1 := mk_world (st wr) (trace wr ++ [e]) (stderr wr)).
    destruct (IH rest' (i + 1) fuel (ArgIndexRef i) (mk_cache false None) cv
                w wr1) as (newr & Ht & Hm);
      try assumption; try lia; [left; reflexivity|].
    exists ([e] ++ newr).
    split; [rewrite Ht; subst wr1; cbn [trace]; rewrite <- app_assoc;
            reflexivity|].
    destruct Hm as (ps & fin & w' & -> & Hfin & Hge & Hs & Hp & H0 & Hn).
    exists (i :: ps), fin, w'. cbn [mbind option_bind].
    assert (Hpos : standalone_positions ([e] ++ newr)
                   = i :: standalone_positions newr).
    { rewrite standalone_positions_app. unfold standalone_positions at 1.
      cbn [List.filter]. rewrite Hse. cbn [fmap list_fmap app]. rewrite Hei.
      reflexivity. }
    rewrite Hpos.
    split; [reflexivity|]. split; [exact Hfin|].
    split; [constructor; [lia|]; eapply Forall_impl; [exact Hge|];
            simpl; intros; lia|].
    split; [constructor; [exact Hs|]; eapply Forall_impl; [exact Hge|];
            simpl; intros; lia|].
    split; [apply prefix_cons, Hp|].
    split; [intros H; rewrite (H0 H); reflexivity|].
    intros H. destruct (Hn H) as [-> ->]. split; reflexivity.
  - (* an unmatched token *)
    destruct badfn as [bad|].
    + rewrite bad_argument_accept_all in Epv. unfold bad_argument in Epf.
      set (b := mk_event Unmatched i None (Some tok) 0) in Epv.
      set (wr1 := mk_world (st wr) (trace wr ++ [b]) (stderr wr)) in Epv.
      destruct (invoke call Unmatched i bad None (Some tok) cbd w)
        as [r w1] eqn:Einv.
      destruct (r =? 0) eqn:Er.
      * rewrite (next_from_continue fuel argv argdef (Some bad) cbd tok rest'
                   i cache cf w w1 Epf).
        cbn [scan]. rewrite Epv.
        destruct (IH rest' (i + 1) fuel cbd cf cv w1 wr1)
          as (newr & Ht & Hm); try assumption; try lia.
        exists ([b] ++ newr).
        destruct (Hshift (i + 1) [b] newr
                    (next_arg_params_from call int_at fuel argv argdef
                       (Some bad) cbd rest' (i + 1) cf w1) wr1
                    ltac:(lia) eq_refl eq_refl _ Ht) as [H1 H2].
        { destruct Hm as (ps & fin & w' & Hres & Hfin & Hge & Hs & Hp & H0 & Hn).
          exists ps, fin, w'. repeat split; try assumption; discriminate. }
        split; [exact H1 | exact H2].
      * rewrite (next_from_return fuel argv argdef (Some bad) cbd tok rest'
                   i (-1) cache cf w w1 Epf).
        change (0 <? -1) with false. cbv iota.
        cbn [scan]. rewrite Epv.
        destruct (scan_spec accept_all MINIARG_PROCESS_FLAG_VALUES argdef
                    (Some bad) cbd' (length rest') rest' (i + 1) cv wr1
                    ltac:(lia) Hc') as (newr & Ht & _).
        exists ([b] ++ newr). split.
        { rewrite Ht. subst wr1. cbn [trace]. rewrite <- app_assoc.
          reflexivity. }
        exists [], (-1), w1. split; [reflexivity|]. split; [right; reflexivity|].
        split; [constructor|]. split; [constructor|].
        split; [apply prefix_nil|]. split; [lia | discriminate].
    + unfold bad_argument in Epf, Epv.
      change (has_flag MINIARG_PROCESS_FLAG_FIND_VALUE
                MINIARG_PROCESS_FLAG_FIND_ONLY) with true in Epf.
      change (has_flag MINIARG_PROCESS_FLAG_VALUES
                MINIARG_PROCESS_FLAG_FIND_ONLY) with false in Epv.
      cbv iota in Epf, Epv.
      rewrite (next_from_return fuel argv argdef None cbd tok rest'
                 i (-1) cache cf w w Epf).
      change (0 <? -1) with false. cbv iota.
      cbn [scan]. rewrite Epv. exists []. cbn [snd trace].
      rewrite app_nil_r. split; [reflexivity|].
      exists [], (-1), w. split; [reflexivity|]. split; [right; reflexivity|].
      split; [constructor|]. split; [constructor|].
      split; [apply prefix_nil|]. split; [lia|].
      intros _. split; reflexivity.
Qed.

(** Without a handler of unmatched tokens the find-only mode leaves the
    world as it is. *)
Lemma find_only_no_handler (argdef : list def) (cbd : callbackdata D)
    (n : nat) :
  forall (rest : list string) (i : Z) (cache : standalone_cache F) (w : World),
    (length rest <= n)%nat ->
    cache_valid argdef cache ->
    (scan call MINIARG_PROCESS_FLAG_FIND_VALUE argdef None cbd rest i cache
       w).2 = w.
Proof.
  induction n as [|n IH]; intros rest i cache w Hlen Hv.
  { destruct rest; [reflexivity | simpl in Hlen; lia]. }
  destruct rest as [|tok rest']; [reflexivity|].
  simpl in Hlen. cbn [scan].
  pose proof (find_only_step argdef None cbd cbd i tok (head rest')
                cache cache w w Hv Hv) as Hstep.
  pose proof (process_token_cache_valid call
                MINIARG_PROCESS_FLAG_FIND_VALUE argdef None cbd i tok
                (head rest') cache w Hv) as Hc.
  destruct (process_token call MINIARG_PROCESS_FLAG_FIND_VALUE argdef None
              cbd i tok (head rest') cache w) as [pf cf].
  cbn [fst snd] in Hstep, Hc.
  destruct Hstep as [(adv & -> & _ & Hadv)|[(-> & _)|(-> & _)]];
    [|reflexivity..].
  destruct adv.
  - destruct rest' as [|v rest'']; [reflexivity|].
    apply IH; [simpl in Hlen; lia | exact Hc].
  - apply IH; [lia | exact Hc].
Qed.

(** The find-only mode next to the values pass. A call of
    [miniargv_get_next_arg_param] calls no
    callback of a table entry: the only calls it makes are calls of the
    handler of unmatched tokens, nothing is written to [stderr], and
    without a handler the world is left as it is. It returns 0, -1, or an
    index beyond [argindex] of a token classified as a standalone value.
    Called again and again with the index it returned, from 0, it ends
    within [length argv + 1] calls on 0 or -1, and the indices it returned
    are strictly increasing; they are a prefix of the positions at which
    the values pass, run with handlers that accept everything, calls the
    callback of the standalone value definition, and all of them when the
    iteration ends on 0 or when there is no handler. *)
Lemma find_only_simulation (argv : list string) (argdef : list def)
    (badfn : option F) (w : World) :
  (forall argindex,
     0 <= argindex ->
     let r :=
       miniargv_get_next_arg_param call int_at argindex argv argdef badfn w in
     Forall (fun e => is_unmatched_event e = true) (new_events w r.2) /\
     stderr r.2 = stderr w /\
     (badfn = None -> r.2 = w) /\
     (r.1 = 0 \/ r.1 = -1 \/
      (argindex < r.1 /\
       exists tok, argv !! Z.to_nat r.1 = Some tok /\
                   classify tok = StandaloneArg))) /\
  (forall (cbd' : callbackdata D) (wr : World),
     let all :=
       standalone_positions
         (new_events wr
            (miniargv_process_arg_params accept_all int_at argv argdef badfn
               cbd' wr).2) in
     exists ps fin w',
       next_arg_params call int_at (Datatypes.S (length argv)) argv argdef
         badfn 0 w = Some (ps, fin, w') /\
       (fin = 0 \/ fin = -1) /\
       StronglySorted Z.lt ps /\
       ps `prefix_of` all /\
       (fin = 0 -> ps = all) /\
       (badfn = None -> ps = all /\ w' = w)).
Proof.
  split.
  - intros argindex Hidx r. subst r.
    unfold miniargv_get_next_arg_param, miniargv_process_partial.
    change (start_index int_at MINIARG_PROCESS_FLAG_FIND_VALUE
              (ArgIndexRef argindex)) with (argindex + 1).
    set (rest := drop (Z.to_nat (argindex + 1)) argv).
    destruct (scan_spec call MINIARG_PROCESS_FLAG_FIND_VALUE argdef badfn
                (ArgIndexRef argindex) (length rest) rest (argindex + 1)
                (mk_cache false None) w ltac:(lia) ltac:(left; reflexivity))
      as (new & Ht & (_ & _ & _ & Hall) & Hend).
    rewrite (new_events_app _ _ _ Ht).
    split; [|split; [|split]].
    + eapply Forall_impl; [exact Hall|]. intros e (Hsite & Hfl & Hsa).
      destruct Hsite as [Hdef|Hun]; [|exact Hun].
      unfold is_definition_event in Hdef.
      unfold is_flag_event in Hfl. unfold is_standalone_event in Hsa.
      destruct (ev_site e); try discriminate.
      * specialize (Hfl eq_refl). discriminate.
      * specialize (Hfl eq_refl). discriminate.
      * destruct (Hsa eq_refl) as (_ & H & _). discriminate.
    + destruct Hend as [(_ & H & _)|[(_ & _ & _ & _ & H & _)
                       |(j & tok & _ & _ & _ & _ & H)]]; try exact H.
      destruct badfn; [apply H|]. destruct H as [_ H].
      rewrite H. apply app_nil_r.
    + intros ->. apply (find_only_no_handler argdef _ (length rest));
        [lia | left; reflexivity].
    + destruct Hend as [(H & _)|[(_ & _ & Hr & (tok & Hl & Hc) & _)
                       |(j & tok & H & _)]].
      * left. exact H.
      * right; right. split; [lia|]. exists tok. split; [|exact Hc].
        rewrite <- Hl. subst rest. rewrite lookup_drop. f_equal. lia.
      * right; left. exact H.
  - intros cbd' wr all. rewrite next_arg_params_unfold.
    destruct (enumeration_sim argv argdef badfn cbd'
                (length (drop 1 argv)) (drop 1 argv) 1 (length argv)
                (ArgIndexRef 0) (mk_cache false None) (mk_cache false None)
                w wr)
      as (newr & Ht & ps & fin & w' & Hres & Hfin & _ & Hs & Hp & H0 & Hn);
      try (left; reflexivity); try reflexivity; try lia.
    { rewrite length_drop. lia. }
    exists ps, fin, w'. subst all.
    unfold miniargv_process_arg_params, miniargv_process_partial.
    change (start_index int_at MINIARG_PROCESS_FLAG_VALUES cbd') with 1.
    change (Z.to_nat 1) with 1%nat.
    rewrite (new_events_app _ _ _ Ht).
    split; [exact Hres|]. auto.
Qed.

End FindOnly.

(** C7 (what the code does not satisfy). The handler of unmatched tokens
    is called in the find-only mode too, and can change the caller's
    state: here it counts the unmatched ["-x"] in the global at address 5, on the
    way to the standalone value at index 2. *)
Lemma find_only_handler_changes_state :
  let w := App.initial {[5 := 0]} in
  let r :=
    miniargv_get_next_arg_param App.call App.int_at 0 ["prog"; "-x"; "a"]
      (example_table App.cb_noop App.cb_noop App.cb_noop)
      (Some (App.app_count 5 0)) w in
  r.1 = 2 /\
  st r.2 !! 5 = Some 1 /\
  st w !! 5 = Some 0 /\
  st r.2 <> st w /\
  new_events w r.2 = [mk_event Unmatched 1 None (Some "-x") 0].
Proof.
  intros w r.
  assert (H1 : st r.2 !! 5 = Some 1) by (vm_compute; reflexivity).
  assert (H0 : st w !! 5 = Some 0) by (vm_compute; reflexivity).
  split; [vm_compute; reflexivity|]. split; [exact H1|].
  split; [exact H0|]. split; [|vm_compute; reflexivity].
  intros Heq. rewrite Heq, H0 in H1. discriminate.
Qed.

(** ** Environment variables and configuration files *)

Lemma strncmp_common_prefix (key a b : string) :
  strncmp (key +:+ a) (key +:+ b) (strlen key) = 0.
Proof.
  induction key as [|c key IH]; [reflexivity|].
  rewrite !append_cons. cbn [strlen String.length strncmp].
  rewrite Ascii.eqb_refl. exact IH.
Qed.

Lemma strchr_after_key (key value : string) :
  strchr key "=" = None ->
  strchr (key +:+ String "=" value) "=" = Some (strlen key).
Proof.
  induction key as [|c key IH]; [reflexivity|].
  rewrite append_cons. cbn [strchr strlen String.length].
  destruct (Ascii.eqb c "="); [discriminate|].
  destruct (strchr key "=") eqn:E; [discriminate|].
  intros _. rewrite IH by reflexivity. reflexivity.
Qed.

(** C8 (the code departs from the specification). The comparison
    [strncmp(pair, longarg, key length)] is 0 as soon as the long name
    starts with the key: for every definition whose long name is
    [key +:+ tail], whatever [tail] is, the pair [key=value] calls the
    callback with [value]. So the callback of [PATHEXT] is called for the
    pair ["PATH=/bin"], whose key is not that name. The rest of the
    contract holds on the examples: every pair with the key fires, in
    order, and the first non-zero status ends the operation and is
    returned. *)
Theorem env_key_prefix_fires :
  (forall (F S D : Type)
          (call : F -> option (miniargv_definition F) -> option string ->
                  callbackdata D -> S -> Z * S)
          (d : miniargv_definition F) (fn : F) (key tail value : string)
          (cbd : callbackdata D) (k : Z) (w : world F S),
     strchr key "=" = None ->
     trace (env_scan call d fn (key +:+ tail) cbd k
              [key +:+ String "=" value] w).2
     = trace w ++
       [mk_event EnvVar k (Some d) (Some value)
          (call fn (Some d) (Some value) cbd (st w)).1]) /\
  (let d : miniargv_definition App.fnptr :=
     mk_def NUL (Some "PATHEXT") (Some "list") (Some App.cb_noop) 0 None in
   let r :=
     miniargv_process_env App.call ["PATH=/bin"] [d; sentinel] App.NULL
       (App.initial ∅) in
   r.1 = 0 /\
   trace r.2 = [mk_event EnvVar 0 (Some d) (Some "/bin") 0]) /\
  (let d : miniargv_definition App.fnptr :=
     mk_def NUL (Some "A") (Some "n") (Some App.cb_noop) 0 None in
   let r :=
     miniargv_process_env App.call ["A=1"; "B=0"; "A=2"] [d; sentinel]
       App.NULL (App.initial ∅) in
   r.1 = 0 /\
   trace r.2 = [mk_event EnvVar 0 (Some d) (Some "1") 0;
                mk_event EnvVar 2 (Some d) (Some "2") 0]) /\
  (let d : miniargv_definition App.fnptr :=
     mk_def NUL (Some "A") (Some "n") (Some (App.app_status 7)) 0 None in
   let r :=
     miniargv_process_env App.call ["A=1"; "B=0"; "A=2"] [d; sentinel]
       App.NULL (App.initial ∅) in
   r.1 = 7 /\
   trace r.2 = [mk_event EnvVar 0 (Some d) (Some "1") 7]).
Proof.
  split; [|repeat split].
  intros F S D call d fn key tail value cbd k w Hkey.
  cbn [env_scan]. rewrite (strchr_after_key key value Hkey).
  rewrite strncmp_common_prefix. change (0 =? 0) with true. cbv iota.
  replace (offset (strlen key + 1) (key +:+ String "=" value)) with value
    by (rewrite Nat.add_comm; symmetry;
        apply (offset_append key (String "=" value) 1)).
  unfold invoke.
  destruct (call fn (Some d) (Some value) cbd (st w)) as [r s'].
  destruct (negb (r =? 0)); reflexivity.
Qed.

Lemma cfg_lines_stop {F S D : Type}
    (call : F -> option (miniargv_definition F) -> option string ->
            callbackdata D -> S -> Z * S)
    (cfgdef : list (miniargv_definition F)) (cbd : callbackdata D)
    (lineno : Z) (lines : list string) (status : Z) (w : world F S) :
  status <> 0 ->
  cfg_lines call cfgdef cbd lineno lines status w = (status, w).
Proof.
  intros H. destruct lines; cbn [cfg_lines];
    apply Z.eqb_neq in H; rewrite H; reflexivity.
Qed.

(** C9 (the code departs from the specification). Once a callback has
    returned non-zero no further line is processed, but
    [miniargv_process_cfgfile] ends in [return 0;]: its result is 0
    whatever the callbacks returned. In the example the callback of [name]
    returns 7 on the first line; the second line is not processed and the
    result is 0. *)
Theorem cfgfile_status_dropped :
  (forall (F S D : Type)
          (call : F -> option (miniargv_definition F) -> option string ->
                  callbackdata D -> S -> Z * S)
          (fs : gmap string string) (cfgfile : string)
          (cfgdef : list (miniargv_definition F)) (cbd : callbackdata D)
          (w : world F S),
     (miniargv_process_cfgfile call fs cfgfile cfgdef cbd w).1 = 0) /\
  (forall (F S D : Type)
          (call : F -> option (miniargv_definition F) -> option string ->
                  callbackdata D -> S -> Z * S)
          (cfgdef : list (miniargv_definition F)) (cbd : callbackdata D)
          (lineno : Z) (lines : list string) (status : Z) (w : world F S),
     status <> 0 ->
     cfg_lines call cfgdef cbd lineno lines status w = (status, w)) /\
  (let d1 : miniargv_definition App.fnptr :=
     mk_def NUL (Some "name") (Some "text") (Some (App.app_status 7)) 0 None in
   let d2 : miniargv_definition App.fnptr :=
     mk_def NUL (Some "other") (Some "n") (Some App.cb_noop) 0 None in
   let src := "name = v1" +:+ String LF ("other = 2" +:+ String LF "") in
   let fs : gmap string string := {["app.cfg" := src]} in
   let r :=
     miniargv_process_cfgfile App.call fs "app.cfg" [d1; d2; sentinel]
       App.NULL (App.initial ∅) in
   readlines src = ["name = v1"; "other = 2"] /\
   r.1 = 0 /\
   trace r.2 = [mk_event CfgVar 1 (Some d1) (Some "v1") 7]).
Proof.
  split; [|split].
  - intros. unfold miniargv_process_cfgfile.
    destruct (fs !! cfgfile); [|reflexivity].
    destruct (cfg_lines call cfgdef cbd 1 (readlines s) 0 w). reflexivity.
  - intros. apply cfg_lines_stop. assumption.
  - vm_compute. repeat split.
Qed.

(** ** The visits of a traversal *)

Section VisitFacts.

Context {F S D : Type}.
Variable call :
  F -> option (miniargv_definition F) -> option string ->
  callbackdata D -> S -> Z * S.

Abbreviation def := (miniargv_definition F).
Abbreviation World := (world F S).

Lemma find_entry_callback (test : def -> bool) (argdef : list def) (d : def) :
  List.find test (table_entries argdef) = Some d ->
  exists fn, callbackfn d = Some fn.
Proof.
  induction argdef as [|e more IH]; cbn [table_entries]; [discriminate|].
  destruct (callbackfn e) as [fn|] eqn:Hfn; [|discriminate].
  cbn [List.find]. destruct (test e); [|exact IH].
  intros [= <-]. eauto.
Qed.

(** What [List.find] returns on the entries of the table is the first
    entry, before the sentinel, that passes the test. *)
Lemma find_entry_first (test : def -> bool) (argdef : list def) (d : def) :
  List.find test (table_entries argdef) = Some d <->
  first_entry (fun e => test e = true) argdef d.
Proof.
  split.
  - induction argdef as [|e more IH]; cbn [table_entries]; [discriminate|].
    destruct (callbackfn e) as [fn|] eqn:Hfn; [|discriminate].
    cbn [List.find]. destruct (test e) eqn:Ht.
    + intros [= <-]. exists [], more.
      split; [reflexivity|]. split; [constructor|]. split; [constructor|].
      split; [rewrite Hfn; discriminate | exact Ht].
    + intros H. destruct (IH H) as (pre & post & -> & Hb & Hn & Hd).
      exists (e :: pre), post. split; [reflexivity|].
      split; [constructor; [rewrite Hfn; discriminate | exact Hb]|].
      split; [|exact Hd]. constructor; [|exact Hn]. congruence.
  - intros (pre & post & -> & Hb & Hn & Hcb & Hd).
    induction pre as [|e pre IH]; cbn [app table_entries].
    + destruct (callbackfn d); [|done]. cbn [List.find]. rewrite Hd.
      reflexivity.
    + apply Forall_cons in Hb as [He Hb]. apply Forall_cons in Hn as [Hne Hn].
      destruct (callbackfn e); [|done]. cbn [List.find].
      destruct (test e) eqn:Ht; [destruct Hne; reflexivity|].
      apply IH; assumption.
Qed.

Lemma find_entry_none (test : def -> bool) (argdef : list def) :
  List.find test (table_entries argdef) = None <->
  no_entry (fun e => test e = true) argdef.
Proof.
  split.
  - induction argdef as [|e more IH]; cbn [table_entries].
    + intros _. exists [], []. repeat split; constructor.
    + destruct (callbackfn e) as [fn|] eqn:Hfn.
      2:{ intros _. exists [], (e :: more).
          split; [reflexivity|]. split; [constructor|].
          split; [constructor | exact Hfn]. }
      cbn [List.find]. destruct (test e) eqn:Ht; [discriminate|].
      intros H. destruct (IH H) as (pre & post & -> & Hb & Hn & Hs).
      exists (e :: pre), post. split; [reflexivity|].
      split; [constructor; [rewrite Hfn; discriminate | exact Hb]|].
      split; [|exact Hs]. constructor; [|exact Hn]. congruence.
  - intros (pre & post & -> & Hb & Hn & Hs).
    induction pre as [|e pre IH]; cbn [app table_entries].
    + destruct post as [|d post]; [reflexivity|]. cbn [table_entries].
      rewrite Hs. reflexivity.
    + apply Forall_cons in Hb as [He Hb]. apply Forall_cons in Hn as [Hne Hn].
      destruct (callbackfn e); [|done]. cbn [List.find].
      destruct (test e) eqn:Ht; [destruct Hne; reflexivity|].
      apply IH; assumption.
Qed.

Lemma find_standalone_callback (argdef : list def) (d : def) :
  find_standalone argdef = Some d -> exists fn, callbackfn d = Some fn.
Proof.
  induction argdef as [|e more IH]; cbn [find_standalone]; [discriminate|].
  destruct (callbackfn e) as [fn|] eqn:Hfn; [|discriminate].
  destruct (is_nul (shortarg e)
            && match longarg e with None => true | Some _ => false end)%bool;
    [|exact IH].
  intros [= <-]. eauto.
Qed.

(** The short argument loop stops at the first entry with the short
    form. *)
Lemma short_arg_scan_find (flags : Z) (cbd : callbackdata D) (i : Z)
    (tok : string) (next : option string) (w : World) (argdef : list def) :
  short_arg_scan call flags cbd i tok next w argdef
  = match List.find (short_test tok) (table_entries argdef) with
    | Some d =>
        match callbackfn d with
        | Some fn =>
            match argparam d with
            | None =>
                if is_nul (char_at tok 2)
                then let '(ok, w') :=
                       dispatch_flag call flags ShortFlag i fn d None cbd w in
                     (ok, false, w')
                else (false, false, w)
            | Some _ =>
                if negb (is_nul (char_at tok 2))
                then let '(ok, w') :=
                       dispatch_flag call flags ShortFlag i fn d
                         (Some (offset 2 tok)) cbd w in
                     (ok, false, w')
                else
                  match next with
                  | Some v =>
                      let '(ok, w') :=
                        dispatch_flag call flags ShortFlag (i + 1) fn d
                          (Some v) cbd w in
                      (ok, true, w')
                  | None => (false, false, w)
                  end
            end
        | None => (false, false, w)
        end
    | None => (false, false, w)
    end.
Proof.
  induction argdef as [|e more IH]; cbn [short_arg_scan table_entries];
    [reflexivity|].
  destruct (callbackfn e) as [fn|] eqn:Hfn; [|reflexivity].
  cbn [List.find]. unfold short_test at 1.
  destruct (negb (is_nul (shortarg e)) &&
            Ascii.eqb (char_at tok 1) (shortarg e))%bool; [|exact IH].
  rewrite Hfn. reflexivity.
Qed.

(** The long argument loop stops at the first entry with the long
    name. *)
Lemma long_arg_scan_find (flags : Z) (cbd : callbackdata D) (i : Z)
    (tok : string) (w : World) (argdef : list def) :
  long_arg_scan call flags cbd i tok w argdef
  = match List.find (long_name_test tok) (table_entries argdef) with
    | Some d =>
        match callbackfn d with
        | Some fn =>
            let l := strlen (default EmptyString (longarg d)) in
            match argparam d with
            | None =>
                if is_nul (char_at tok (2 + l))
                then dispatch_flag call flags LongFlag i fn d None cbd w
                else (false, w)
            | Some _ =>
                if Ascii.eqb (char_at tok (2 + l)) "="
                then dispatch_flag call flags LongFlag i fn d
                       (Some (offset (3 + l) tok)) cbd w
                else (false, w)
            end
        | None => (false, w)
        end
    | None => (false, w)
    end.
Proof.
  induction argdef as [|e more IH]; cbn [long_arg_scan table_entries];
    [reflexivity|].
  destruct (callbackfn e) as [fn|] eqn:Hfn; [|reflexivity].
  cbn [List.find]. unfold long_name_test at 1.
  destruct (longarg e) as [name|] eqn:Hname; [|exact IH].
  destruct ((strncmp (offset 2 tok) name (strlen name) =? 0) &&
            (is_nul (char_at tok (2 + strlen name))
             || Ascii.eqb (char_at tok (2 + strlen name)) "="))%bool;
    [|exact IH].
  rewrite Hfn, Hname. reflexivity.
Qed.

Lemma bad_argument_exact (flags : Z) (badfn : option F)
    (cbd : callbackdata D) (v : visit F) (w : World) :
  match bad_argument call flags badfn cbd (v_cursor v) (v_current v)
          (advanced_of (v_res v)) w with
  | Continue advanced w' =>
      advanced = advanced_of (v_res v) /\
      exists calls,
        trace w' = trace w ++ calls /\
        handler_calls flags badfn v calls GoOn
  | Return r w' =>
      exists calls,
        trace w' = trace w ++ calls /\
        handler_calls flags badfn v calls (StopAt r)
  end.
Proof.
  unfold bad_argument. destruct badfn as [bad|].
  - destruct (invoke call Unmatched (v_cursor v) bad None
                (Some (v_current v)) cbd w) as [r w1] eqn:E.
    apply invoke_inv in E as (_ & Ht & _).
    destruct (r =? 0) eqn:Hr.
    + apply Z.eqb_eq in Hr as ->. split; [reflexivity|].
      eexists. split; [exact Ht|]. apply handler_accepts. eauto.
    + apply Z.eqb_neq in Hr.
      assert (Hc : handler_calls flags (Some bad) v
                     [mk_event Unmatched (v_cursor v) None
                        (Some (v_current v)) r]
                     (StopAt (abort_result flags (v_cursor v)))).
      { apply (handler_refuses flags (Some bad) v r); eauto. }
      unfold abort_result in Hc.
      destruct (has_flag flags MINIARG_PROCESS_FLAG_FIND_ONLY);
        eexists; (split; [exact Ht | exact Hc]).
  - assert (Hc : handler_calls flags None v []
                   (StopAt (abort_result flags (v_cursor v)))).
    { apply handler_absent. reflexivity. }
    unfold abort_result in Hc.
    destruct (has_flag flags MINIARG_PROCESS_FLAG_FIND_ONLY);
      exists []; cbn [trace]; rewrite app_nil_r; (split; [reflexivity | exact Hc]).
Qed.

Lemma unmatched_exact (flags : Z) (badfn : option F) (cbd : callbackdata D)
    (i : Z) (tok : string) (next : option string) (w : World) :
  step_exact flags badfn (mk_visit i tok next NoMatch) w
    (bad_argument call flags badfn cbd i tok false w).
Proof.
  pose proof (bad_argument_exact flags badfn cbd
                (mk_visit i tok next NoMatch) w) as H.
  change (v_cursor (mk_visit i tok next (NoMatch (F := F)))) with i in H.
  change (v_current (mk_visit i tok next (NoMatch (F := F)))) with tok in H.
  cbn [v_res advanced_of] in H. unfold step_exact.
  destruct (bad_argument call flags badfn cbd i tok false w) as [adv w'|r w'].
  - destruct H as (-> & calls & Ht & Hc). split; [reflexivity|].
    exists calls. split; [exact Ht|]. apply visit_unmatched; [reflexivity|].
    exact Hc.
  - destruct H as (calls & Ht & Hc). exists calls. split; [exact Ht|].
    apply visit_unmatched; [reflexivity|]. exact Hc.
Qed.

(** The callback of a matched entry has been called and returned [r],
    which left the world [w1]: the iteration goes on when [r] is 0, and
    the token is unmatched otherwise. *)
Lemma called_exact (flags : Z) (badfn : option F) (cbd : callbackdata D)
    (v : visit F) (c : invocation F) (w w1 : World) (r : Z) :
  acts_on flags (v_res v) = true ->
  match_invocation v = Some c ->
  trace w1 = trace w ++ [returning c r] ->
  step_exact flags badfn v w
    (if r =? 0 then Continue (advanced_of (v_res v)) w1
     else bad_argument call flags badfn cbd (v_cursor v) (v_current v)
            (advanced_of (v_res v)) w1).
Proof.
  intros Ha Hc Ht. destruct (r =? 0) eqn:Hr.
  - apply Z.eqb_eq in Hr as ->. split; [reflexivity|].
    eexists. split; [exact Ht|]. apply visit_called; assumption.
  - apply Z.eqb_neq in Hr.
    pose proof (bad_argument_exact flags badfn cbd v w1) as H.
    unfold step_exact.
    destruct (bad_argument call flags badfn cbd (v_cursor v) (v_current v)
                (advanced_of (v_res v)) w1) as [adv w'|r' w'].
    + destruct H as (-> & calls & Ht' & Hh). split; [reflexivity|].
      exists (returning c r :: calls).
      split; [rewrite Ht', Ht, <- app_assoc; reflexivity|].
      eapply visit_call_failed; eassumption.
    + destruct H as (calls & Ht' & Hh).
      exists (returning c r :: calls).
      split; [rewrite Ht', Ht, <- app_assoc; reflexivity|].
      eapply visit_call_failed; eassumption.
Qed.

(** A flag branch that found the entry [d]. *)
Lemma flag_match_exact (flags : Z) (badfn : option F) (cbd : callbackdata D)
    (i : Z) (tok : string) (next : option string) (site : callsite)
    (fn : F) (d : def) (value : option string) (adv : bool) (w : World) :
  step_exact flags badfn (mk_visit i tok next (FlagMatch site d value adv)) w
    (let '(ok, w') :=
       dispatch_flag call flags site (cursor i adv) fn d value cbd w in
     if ok then Continue adv w'
     else bad_argument call flags badfn cbd (cursor i adv)
            (current tok next adv) adv w').
Proof.
  set (v := mk_visit i tok next (FlagMatch site d value adv)).
  unfold dispatch_flag.
  destruct (Z.land flags MINIARG_PROCESS_FLAG_FLAGS =? 0) eqn:Hf.
  - split; [reflexivity|]. exists []. rewrite app_nil_r.
    split; [reflexivity|]. apply visit_passed; try reflexivity; try discriminate.
    cbn [v v_res acts_on]. unfold has_flag. rewrite Hf. reflexivity.
  - destruct (invoke call site (cursor i adv) fn (Some d) value cbd w)
      as [r w1] eqn:E.
    apply invoke_inv in E as (_ & Ht & _).
    apply (called_exact flags badfn cbd v
             (mk_invocation site (cursor i adv) (Some d) value) w w1 r).
    + cbn [v v_res acts_on]. unfold has_flag. rewrite Hf. reflexivity.
    + reflexivity.
    + exact Ht.
Qed.

Lemma process_token_exact (flags : Z) (argdef : list def)
    (badfn : option F) (cbd : callbackdata D) (i : Z) (tok : string)
    (next : option string) (cache : standalone_cache F) (w : World) :
  cache_valid argdef cache ->
  step_exact flags badfn (mk_visit i tok next (resolve argdef tok next)) w
    (process_token call flags argdef badfn cbd i tok next cache w).1.
Proof.
  intros Hvalid. unfold process_token, resolve.
  destruct (classify tok) eqn:Hcls.
  - rewrite short_arg_scan_find.
    destruct (List.find (short_test tok) (table_entries argdef)) as [d|] eqn:Hd;
      [|apply unmatched_exact].
    destruct (find_entry_callback _ _ _ Hd) as [fn Hfn]. rewrite Hfn.
    destruct (argparam d).
    + destruct (negb (is_nul (char_at tok 2))).
      * pose proof (flag_match_exact flags badfn cbd i tok next ShortFlag fn d
                      (Some (offset 2 tok)) false w) as H.
        cbn [cursor current] in H.
        destruct (dispatch_flag call flags ShortFlag i fn d
                    (Some (offset 2 tok)) cbd w) as [[] w1]; exact H.
      * destruct next as [nv|]; [|apply unmatched_exact].
        pose proof (flag_match_exact flags badfn cbd i tok (Some nv) ShortFlag
                      fn d (Some nv) true w) as H.
        cbn [cursor current default] in H.
        destruct (dispatch_flag call flags ShortFlag (i + 1) fn d (Some nv)
                    cbd w) as [[] w1]; exact H.
    + destruct (is_nul (char_at tok 2)); [|apply unmatched_exact].
      pose proof (flag_match_exact flags badfn cbd i tok next ShortFlag fn d
                    None false w) as H.
      cbn [cursor current] in H.
      destruct (dispatch_flag call flags ShortFlag i fn d None cbd w)
        as [[] w1]; exact H.
  - rewrite long_arg_scan_find.
    destruct (List.find (long_name_test tok) (table_entries argdef))
      as [d|] eqn:Hd; [|apply unmatched_exact].
    destruct (find_entry_callback _ _ _ Hd) as [fn Hfn]. rewrite Hfn.
    cbv zeta.
    destruct (argparam d).
    + destruct (Ascii.eqb (char_at tok
                  (2 + strlen (default EmptyString (longarg d)))) "=");
        [|apply unmatched_exact].
      pose proof (flag_match_exact flags badfn cbd i tok next LongFlag fn d
                    (Some (offset
                       (3 + strlen (default EmptyString (longarg d))) tok))
                    false w) as H.
      cbn [cursor current] in H.
      destruct (dispatch_flag call flags LongFlag i fn d
                  (Some (offset
                     (3 + strlen (default EmptyString (longarg d))) tok))
                  cbd w) as [[] w1]; exact H.
    + destruct (is_nul (char_at tok
                  (2 + strlen (default EmptyString (longarg d)))));
        [|apply unmatched_exact].
      pose proof (flag_match_exact flags badfn cbd i tok next LongFlag fn d
                    None false w) as H.
      cbn [cursor current] in H.
      destruct (dispatch_flag call flags LongFlag i fn d None cbd w)
        as [[] w1]; exact H.
  - rewrite (standalone_lookup_valid argdef cache Hvalid).
    unfold standalone_arg. cbn [standalonevaluedef].
    destruct (find_standalone argdef) as [d|] eqn:Hd; [|apply unmatched_exact].
    destruct (find_standalone_callback _ _ Hd) as [fn Hfn]. rewrite Hfn.
    set (v := mk_visit i tok next (ValueMatch d)).
    destruct (Z.land flags MINIARG_PROCESS_FLAG_VALUES =? 0) eqn:Hv.
    { split; [reflexivity|]. exists []. rewrite app_nil_r.
      split; [reflexivity|].
      apply visit_passed; try discriminate;
        cbn [v v_res acts_on finds]; unfold has_flag; rewrite Hv; reflexivity. }
    destruct (has_flag flags MINIARG_PROCESS_FLAG_FIND_ONLY) eqn:Hfo.
    { exists []. rewrite app_nil_r. split; [reflexivity|].
      apply (visit_found flags badfn v).
      cbn [v v_res finds]. rewrite Hfo. unfold has_flag. rewrite Hv.
      reflexivity. }
    destruct (invoke call Standalone i fn (Some d) (Some tok) cbd w)
      as [r w1] eqn:E.
    apply invoke_inv in E as (_ & Ht & _).
    pose proof (called_exact flags badfn cbd v
                  (mk_invocation Standalone i (Some d) (Some tok)) w w1 r) as H.
    cbn [v v_res advanced_of] in H.
    change (v_cursor (mk_visit i tok next (ValueMatch d))) with i in H.
    change (v_current (mk_visit i tok next (ValueMatch d))) with tok in H.
    destruct (r =? 0); apply H; try reflexivity; try exact Ht;
      cbn [acts_on]; rewrite Hfo; unfold has_flag; rewrite Hv; reflexivity.
Qed.

End VisitFacts.

Section TraversalExact.

Context {F S D : Type}.
Variable call :
  F -> option (miniargv_definition F) -> option string ->
  callbackdata D -> S -> Z * S.
Variable int_at : D -> Z.

Abbreviation def := (miniargv_definition F).
Abbreviation World := (world F S).

Lemma resolve_advanced (argdef : list def) (tok : string)
    (next : option string) :
  advanced_of (resolve argdef tok next) = true -> is_Some next.
Proof.
  unfold resolve. destruct (classify tok).
  - destruct (List.find (short_test tok) (table_entries argdef)) as [d|];
      [|discriminate].
    destruct (argparam d).
    + destruct (negb (is_nul (char_at tok 2))); [discriminate|].
      destruct next; [eauto | discriminate].
    + destruct (is_nul (char_at tok 2)); discriminate.
  - destruct (List.find (long_name_test tok) (table_entries argdef)) as [d|];
      [|discriminate].
    cbv zeta. destruct (argparam d).
    + destruct (Ascii.eqb _ _); discriminate.
    + destruct (is_nul _); discriminate.
  - destruct (find_standalone argdef); discriminate.
Qed.

Lemma resolve_site (argdef : list def) (tok : string) (next : option string)
    (site : callsite) (d : def) (value : option string) (adv : bool) :
  resolve argdef tok next = FlagMatch site d value adv ->
  is_flag_site site = true.
Proof.
  unfold resolve. destruct (classify tok).
  - destruct (List.find (short_test tok) (table_entries argdef)) as [e|];
      [|discriminate].
    destruct (argparam e).
    + destruct (negb (is_nul (char_at tok 2))); [intros [= <- _ _ _]; reflexivity|].
      destruct next; [intros [= <- _ _ _]; reflexivity | discriminate].
    + destruct (is_nul (char_at tok 2)); [intros [= <- _ _ _]; reflexivity|].
      discriminate.
  - destruct (List.find (long_name_test tok) (table_entries argdef)) as [e|];
      [|discriminate].
    cbv zeta. destruct (argparam e).
    + destruct (Ascii.eqb _ _); [intros [= <- _ _ _]; reflexivity|].
      discriminate.
    + destruct (is_nul _); [intros [= <- _ _ _]; reflexivity | discriminate].
  - destruct (find_standalone argdef); discriminate.
Qed.

(** The loop makes the calls of the visits of its input. *)
Lemma scan_exact (flags : Z) (argdef : list def) (badfn : option F)
    (cbd : callbackdata D) (n : nat) :
  forall (rest : list string) (i : Z) (cache : standalone_cache F) (w : World),
    (length rest <= n)%nat ->
    cache_valid argdef cache ->
    exists calls,
      trace (scan call flags argdef badfn cbd rest i cache w).2
      = trace w ++ calls /\
      traversal_calls flags badfn (visits argdef rest i) calls
        (scan call flags argdef badfn cbd rest i cache w).1.
Proof.
  induction n as [|n IH]; intros rest i cache w Hlen Hvalid.
  { destruct rest; [|simpl in Hlen; lia]. exists []. cbn [scan fst snd visits].
    rewrite app_nil_r. split; [reflexivity | constructor]. }
  destruct rest as [|tok rest'].
  { exists []. cbn [scan fst snd visits]. rewrite app_nil_r.
    split; [reflexivity | constructor]. }
  simpl in Hlen. cbn [scan visits].
  pose proof (process_token_exact call flags argdef badfn cbd i tok
                (head rest') cache w Hvalid) as Hstep.
  pose proof (process_token_cache_valid call flags argdef badfn cbd i tok
                (head rest') cache w Hvalid) as Hvalid'.
  pose proof (resolve_advanced argdef tok (head rest')) as Hadv.
  destruct (process_token call flags argdef badfn cbd i tok (head rest')
              cache w) as [out cache'].
  cbn [fst snd] in Hstep, Hvalid'.
  destruct out as [adv w1|r w1]; cbn [step_exact v_res] in Hstep.
  - destruct Hstep as (-> & calls1 & Ht1 & Hc1).
    destruct (advanced_of (resolve argdef tok (head rest'))).
    + destruct rest' as [|nv rest''];
        [destruct (Hadv eq_refl); discriminate|].
      destruct (IH rest'' (i + 2) cache' w1 ltac:(simpl in Hlen; lia) Hvalid')
        as (calls2 & Ht2 & Hc2).
      exists (calls1 ++ calls2).
      split; [rewrite Ht2, Ht1, app_assoc; reflexivity|].
      eapply traversal_on; eassumption.
    + destruct (IH rest' (i + 1) cache' w1 ltac:(lia) Hvalid')
        as (calls2 & Ht2 & Hc2).
      exists (calls1 ++ calls2).
      split; [rewrite Ht2, Ht1, app_assoc; reflexivity|].
      eapply traversal_on; eassumption.
  - destruct Hstep as (calls & Ht & Hc). exists calls. cbn [fst snd].
    split; [exact Ht|]. apply traversal_stop. exact Hc.
Qed.

(** A traversal of [argv] makes the calls of the visits of [argv]: from
    [argv[1]] on in a full traversal. *)
Lemma process_partial_exact (flags : Z) (argv : list string)
    (argdef : list def) (badfn : option F) (cbd : callbackdata D)
    (w : World) :
  let i := start_index int_at flags cbd in
  let r := miniargv_process_partial call int_at flags argv argdef badfn cbd w in
  traversal_calls flags badfn (visits argdef (drop (Z.to_nat i) argv) i)
    (new_events w r.2) r.1.
Proof.
  intros i r. subst r. unfold miniargv_process_partial. fold i.
  destruct (scan_exact flags argdef badfn cbd
              (length (drop (Z.to_nat i) argv)) (drop (Z.to_nat i) argv) i
              (mk_cache false None) w ltac:(lia) ltac:(left; reflexivity))
    as (calls & Ht & Hc).
  rewrite (new_events_app _ _ _ Ht). exact Hc.
Qed.

(** *** The visits of an input *)

(** The visits of an input for the table of the examples: [-o] takes
    ["out"] as its value, so ["out"] is not visited; ["in"] is a
    standalone value; [--output] without a value and [-x] match
    nothing. *)
Lemma visits_of_example (fo fv fp : F) :
  visits (example_table fo fv fp)
    ["-v"; "-o"; "out"; "in"; "--output"; "-x"] 1
  = [mk_visit 1 "-v" (Some "-o")
       (FlagMatch ShortFlag (opt_verbose fv) None false);
     mk_visit 2 "-o" (Some "out")
       (FlagMatch ShortFlag (opt_output fo) (Some "out") true);
     mk_visit 4 "in" (Some "--output") (ValueMatch (opt_param fp));
     mk_visit 5 "--output" (Some "-x") NoMatch;
     mk_visit 6 "-x" None NoMatch].
Proof. reflexivity. Qed.

Lemma visits_ok (argdef : list def) (argv : list string) (n : nat) :
  forall (rest : list string) (i : Z),
    (length rest <= n)%nat ->
    0 < i -> rest = drop (Z.to_nat i) argv ->
    Forall (visit_ok argdef argv) (visits argdef rest i).
Proof.
  induction n as [|n IH]; intros rest i Hlen Hi Hrest.
  { destruct rest; [constructor | simpl in Hlen; lia]. }
  destruct rest as [|tok rest']; [constructor|].
  simpl in Hlen. cbn [visits].
  assert (Htok : argv !! Z.to_nat i = Some tok).
  { pose proof (lookup_drop argv (Z.to_nat i) 0) as H.
    rewrite <- Hrest, Nat.add_0_r in H. symmetry. exact H. }
  assert (Hrest' : rest' = drop (Z.to_nat (i + 1)) argv).
  { symmetry. replace (Z.to_nat (i + 1)) with (Datatypes.S (Z.to_nat i)) by lia.
    eapply drop_cons_next. symmetry. exact Hrest. }
  assert (Hnext : head rest' = argv !! Z.to_nat (i + 1)).
  { rewrite Hrest'. rewrite head_lookup, lookup_drop, Nat.add_0_r.
    reflexivity. }
  pose proof (resolve_advanced argdef tok (head rest')) as Hadv.
  constructor.
  - repeat split; cbn [v_index v_token v_next v_res]; auto.
  - destruct (advanced_of (resolve argdef tok (head rest'))).
    + destruct rest' as [|nv rest'']; [constructor|].
      apply IH; [simpl in Hlen; lia | lia |].
      symmetry. replace (Z.to_nat (i + 2)) with (Datatypes.S (Z.to_nat (i + 1))) by lia.
      eapply drop_cons_next. symmetry. exact Hrest'.
    + apply IH; [lia | lia | exact Hrest'].
Qed.

(** The visits are made at increasing indices: each one after the cursor
    of the one before. *)
Lemma visits_sorted (argdef : list def) (n : nat) :
  forall (rest : list string) (i : Z),
    (length rest <= n)%nat ->
    Forall (fun v => i <= v_index v) (visits argdef rest i) /\
    StronglySorted (fun a b : visit F => v_cursor a < v_index b)
      (visits argdef rest i).
Proof.
  induction n as [|n IH]; intros rest i Hlen.
  { destruct rest; [split; constructor | simpl in Hlen; lia]. }
  destruct rest as [|tok rest']; [split; constructor|].
  simpl in Hlen. cbn [visits].
  set (res := resolve argdef tok (head rest')).
  assert (Hsub : exists j,
    v_cursor (mk_visit i tok (head rest') res) < j /\
    Forall (fun v => j <= v_index v)
      (if advanced_of res
       then match rest' with
            | _ :: rest'' => visits argdef rest'' (i + 2)
            | [] => []
            end
       else visits argdef rest' (i + 1)) /\
    StronglySorted (fun a b : visit F => v_cursor a < v_index b)
      (if advanced_of res
       then match rest' with
            | _ :: rest'' => visits argdef rest'' (i + 2)
            | [] => []
            end
       else visits argdef rest' (i + 1))).
  { unfold v_cursor. cbn [v_index v_res]. unfold cursor.
    destruct (advanced_of res).
    - exists (i + 2). split; [lia|]. destruct rest' as [|nv rest''].
      + split; constructor.
      + apply IH. simpl in Hlen. lia.
    - exists (i + 1). split; [lia|]. apply IH. lia. }
  destruct Hsub as (j & Hj & Hge & Hs).
  assert (Hij : i < j).
  { unfold v_cursor in Hj. cbn [v_index v_res] in Hj. unfold cursor in Hj.
    destruct (advanced_of res); lia. }
  split.
  - constructor; [cbn [v_index]; lia|].
    eapply Forall_impl; [exact Hge|]. simpl. intros; lia.
  - constructor; [exact Hs|].
    eapply Forall_impl; [exact Hge|]. simpl. intros; lia.
Qed.

End TraversalExact.

(** ** What the visits prescribe *)

Section VisitCalls.

Context {F : Type}.

Abbreviation def := (miniargv_definition F).

Variable argdef : list def.
Variable argv : list string.
Variable flags : Z.
Variable badfn : option F.

Lemma invocation_of_returning (c : invocation F) (status : Z) :
  invocation_of (returning c status) = c.
Proof. destruct c. reflexivity. Qed.

Lemma returning_invocation_of (e : event F) :
  returning (invocation_of e) (ev_status e) = e.
Proof. destruct e. reflexivity. Qed.

(** The call for a match is the call of the callback of a table entry,
    at the cursor of the visit. *)
Lemma match_invocation_event (v : visit F) (c : invocation F) (status : Z) :
  visit_ok argdef argv v ->
  match_invocation v = Some c ->
  is_definition_event (returning c status) = true /\
  is_unmatched_event (returning c status) = false /\
  ev_index (returning c status) = v_cursor v.
Proof.
  intros (_ & _ & _ & _ & Hres). unfold match_invocation, v_cursor.
  destruct (v_res v) as [site d value adv| d|] eqn:E; [| |discriminate].
  - symmetry in Hres. apply resolve_site in Hres.
    intros [= <-]. unfold is_definition_event, is_unmatched_event.
    cbn. destruct site; try discriminate; auto.
  - intros [= <-]. repeat split.
Qed.

(** The token the handler is called with is the one at the cursor. *)
Lemma visit_current (v : visit F) :
  visit_ok argdef argv v ->
  argv !! Z.to_nat (v_cursor v) = Some (v_current v).
Proof.
  intros (_ & Htok & Hnext & Hadv & _). unfold v_cursor, v_current, cursor, current.
  destruct (advanced_of (v_res v)); [|exact Htok].
  destruct (Hadv eq_refl) as [nv Hnv]. rewrite <- Hnext, Hnv. reflexivity.
Qed.

Lemma visit_cursor_index (v : visit F) : v_index v <= v_cursor v.
Proof. unfold v_cursor, cursor. destruct (advanced_of (v_res v)); lia. Qed.

Lemma no_match_cursor (v : visit F) :
  v_res v = NoMatch -> v_cursor v = v_index v /\ v_current v = v_token v.
Proof.
  intros H. unfold v_cursor, v_current. rewrite H. split; reflexivity.
Qed.

Lemma expected_cons (v : visit F) (vs : list (visit F)) :
  expected flags (v :: vs)
  = (if acts_on flags (v_res v)
     then match match_invocation v with Some c => [c] | None => [] end
     else []) ++ expected flags vs.
Proof.
  unfold expected. cbn [List.filter].
  destruct (acts_on flags (v_res v)); [|reflexivity].
  simpl. destruct (match_invocation v); reflexivity.
Qed.

(** The calls of callbacks of table entries at one visit: the call for
    the match, when the mode acts on it. *)
Lemma visit_definition_calls (v : visit F) (calls : list (event F))
    (ending : step_end) :
  visit_ok argdef argv v ->
  visit_calls flags badfn v calls ending ->
  invocation_of <$> List.filter is_definition_event calls
  = expected flags [v].
Proof.
  intros Hok H. rewrite expected_cons. unfold expected. cbn [List.filter omap].
  rewrite app_nil_r.
  assert (Hh : forall hcalls hend,
    handler_calls flags badfn v hcalls hend ->
    List.filter is_definition_event hcalls = []).
  { intros hcalls hend Hh. inversion Hh; subst; reflexivity. }
  inversion H as [Hres Hacts Hfinds | Hfinds | c Hacts Hc
                 | c status hcalls hen Hacts Hc Hne Hhc | hcalls hen Hres Hhc];
    subst.
  - rewrite Hacts. reflexivity.
  - unfold finds in Hfinds. unfold acts_on.
    destruct (v_res v); try discriminate.
    apply andb_prop in Hfinds as [-> ->]. reflexivity.
  - rewrite Hacts, Hc. cbn [List.filter].
    destruct (match_invocation_event v c 0 Hok Hc) as (-> & _).
    cbn [fmap list_fmap]. rewrite invocation_of_returning. reflexivity.
  - rewrite Hacts, Hc. cbn [List.filter].
    destruct (match_invocation_event v c status Hok Hc) as (-> & _).
    rewrite (Hh _ _ Hhc). cbn [fmap list_fmap].
    rewrite invocation_of_returning. reflexivity.
  - rewrite Hres. cbn [acts_on]. rewrite (Hh _ _ Hhc). reflexivity.
Qed.

Hypothesis full : has_flag flags MINIARG_PROCESS_FLAG_FIND_ONLY = false.

(** A full traversal stops at the cursor of a visit. *)
Lemma visit_stop (v : visit F) (calls : list (event F)) (r : Z) :
  visit_calls flags badfn v calls (StopAt r) -> r = v_cursor v.
Proof.
  assert (Hh : forall hcalls,
    handler_calls flags badfn v hcalls (StopAt r) -> r = v_cursor v).
  { intros hcalls Hh.
    inversion Hh; subst; unfold abort_result; rewrite full; reflexivity. }
  intros H.
  inversion H as [ | Hfinds | | c status hcalls hen Hacts Hc Hne Hhc
                 | hcalls hen Hres Hhc]; subst; eauto.
  unfold finds in Hfinds. rewrite full in Hfinds.
  destruct (v_res v); try discriminate.
  rewrite andb_false_r in Hfinds. discriminate.
Qed.

(** The calls of callbacks of table entries in a full traversal are the
    calls for the matches the mode acts on, in the order of the tokens:
    all of them when the traversal returns 0. *)
Lemma traversal_definition_calls (vs : list (visit F))
    (calls : list (event F)) (r : Z) :
  Forall (visit_ok argdef argv) vs ->
  traversal_calls flags badfn vs calls r ->
  invocation_of <$> List.filter is_definition_event calls
    `prefix_of` expected flags vs /\
  (r = 0 ->
   invocation_of <$> List.filter is_definition_event calls
   = expected flags vs).
Proof.
  intros Hok H. induction H as [|v vs calls1 calls2 r H1 H2 IH|v vs calls r H1].
  - split; [apply prefix_nil | reflexivity].
  - apply Forall_cons in Hok as [Hv Hvs]. destruct (IH Hvs) as [IHp IHe].
    rewrite List.filter_app, fmap_app, expected_cons.
    rewrite (visit_definition_calls v calls1 GoOn Hv H1).
    rewrite expected_cons. unfold expected at 2 4. cbn [List.filter omap].
    rewrite app_nil_r. split.
    + apply prefix_app, IHp.
    + intros Hr. rewrite (IHe Hr). reflexivity.
  - apply Forall_cons in Hok as [Hv Hvs].
    rewrite (visit_definition_calls v calls (StopAt r) Hv H1).
    rewrite (expected_cons v vs). rewrite expected_cons. unfold expected at 1.
    cbn [List.filter omap]. rewrite app_nil_r. split.
    + apply prefix_app_r. reflexivity.
    + intros Hr. apply visit_stop in H1. destruct Hv as (Hpos & _).
      pose proof (visit_cursor_index v). lia.
Qed.


(** *** The handler of unmatched tokens in a full traversal *)

Lemma handler_goes_on (v : visit F) (calls : list (event F)) :
  handler_calls flags badfn v calls GoOn ->
  is_Some badfn /\ calls = [returning (unmatched_invocation v) 0].
Proof. intros H. inversion H; subst. auto. Qed.

Lemma handler_stops (v : visit F) (calls : list (event F)) (r : Z) :
  handler_calls flags badfn v calls (StopAt r) ->
  r = v_cursor v /\
  ((is_Some badfn /\
    exists status,
      status <> 0 /\ calls = [returning (unmatched_invocation v) status]) \/
   (badfn = None /\ calls = [])).
Proof.
  intros H.
  inversion H as [|status Hsome Hne|Hnone]; subst; unfold abort_result;
    rewrite full; (split; [reflexivity|]); [left | right]; eauto.
Qed.

Lemma unmatched_invocation_event (v : visit F) (status : Z) :
  is_unmatched_event (returning (unmatched_invocation v) status) = true /\
  is_definition_event (returning (unmatched_invocation v) status) = false /\
  ev_index (returning (unmatched_invocation v) status) = v_cursor v /\
  ev_status (returning (unmatched_invocation v) status) = status.
Proof. repeat split. Qed.

Lemma visit_calls_shape (v : visit F) (calls : list (event F))
    (ending : step_end) :
  visit_calls flags badfn v calls ending ->
  visit_shape flags badfn v calls ending.
Proof.
  intros H.
  inversion H as [Hres Hacts Hfinds | Hfinds | c Hacts Hc
                 | c status hcalls hen Hacts Hc Hne Hhc | hcalls hen Hres Hhc];
    subst.
  - apply shape_silent; assumption.
  - unfold finds in Hfinds. rewrite full in Hfinds.
    destruct (v_res v); try discriminate.
    rewrite andb_false_r in Hfinds. discriminate.
  - apply shape_called; assumption.
  - destruct ending as [|r].
    + apply handler_goes_on in Hhc as [Hsome ->].
      apply shape_failed_accepted; assumption.
    + apply handler_stops in Hhc
        as [-> [(Hsome & s & Hs & ->)|(Hnone & ->)]].
      * apply shape_failed_refused; assumption.
      * apply shape_failed_absent; assumption.
  - destruct ending as [|r].
    + apply handler_goes_on in Hhc as [Hsome ->].
      apply shape_unmatched_accepted; assumption.
    + apply handler_stops in Hhc
        as [-> [(Hsome & s & Hs & ->)|(Hnone & ->)]].
      * apply shape_unmatched_refused; assumption.
      * apply shape_unmatched_absent; assumption.
Qed.


Lemma acts_on_match (v : visit F) :
  acts_on flags (v_res v) = true -> v_res v <> NoMatch.
Proof. intros Ha Hn. rewrite Hn in Ha. discriminate. Qed.

Lemma absent_supplied : badfn = None -> is_Some badfn -> False.
Proof. intros -> [x Hx]. discriminate. Qed.

Lemma returning_status (c : invocation F) (status : Z) :
  ev_status (returning c status) = status.
Proof. reflexivity. Qed.

Ltac visit_cases H :=
  inversion H as [Hres Ha | c Ha Hc | c status Ha Hc Hne Hsome
                 | c status status' Ha Hc Hne Hsome Hne'
                 | c status Ha Hc Hne Hn | Hres Hsome
                 | status Hres Hsome Hne | Hres Hn]; subst.

Ltac find_call :=
  eexists;
  first [ apply list_elem_of_here
        | apply list_elem_of_further, list_elem_of_here ].

Ltac no_handler :=
  exfalso;
  first [ eapply absent_supplied; eassumption
        | match goal with
          | H : is_Some None |- _ => destruct H; discriminate
          end ].

Ltac in_calls H :=
  repeat (apply elem_of_cons in H as [->|H]);
  try (apply elem_of_nil in H; destruct H).

(** The calls of a visit are made at its cursor. *)
Lemma visit_calls_index (v : visit F) (calls : list (event F))
    (ending : step_end) :
  visit_ok argdef argv v ->
  visit_shape flags badfn v calls ending ->
  Forall (fun e => ev_index e = v_cursor v) calls.
Proof.
  intros Hok H. visit_cases H; repeat constructor;
    apply (match_invocation_event v c _ Hok Hc).
Qed.

(** A call of the handler: the handler is supplied, it is called with the
    token at the cursor, the visit goes on exactly when it returns 0, and
    the token is unmatched or its callback has returned non-zero. *)
Lemma visit_handler_call (v : visit F) (calls : list (event F))
    (ending : step_end) (b : event F) :
  visit_ok argdef argv v ->
  visit_shape flags badfn v calls ending ->
  b ∈ calls -> is_unmatched_event b = true ->
  is_Some badfn /\
  b = returning (unmatched_invocation v) (ev_status b) /\
  (ev_status b = 0 <-> ending = GoOn) /\
  (v_res v = NoMatch \/
   exists e, e ∈ calls /\ is_definition_event e = true /\ ev_status e <> 0) /\
  last calls = Some b.
Proof.
  intros Hok H Hb Hub.
  assert (Hdef : forall c status,
    match_invocation v = Some c ->
    is_unmatched_event (returning c status) = true -> False).
  { intros c status Hc Hu.
    destruct (match_invocation_event v c status Hok Hc) as (_ & Hu' & _).
    congruence. }
  assert (Hfailed : forall c status (l : list (event F)),
    match_invocation v = Some c -> status <> 0 ->
    v_res v = NoMatch \/
    exists e, e ∈ returning c status :: l /\
              is_definition_event e = true /\ ev_status e <> 0).
  { intros c status l Hc Hne. right. exists (returning c status).
    split; [left|]. split; [|exact Hne].
    apply (match_invocation_event v c status Hok Hc). }
  visit_cases H; in_calls Hb;
    try (exfalso; eapply Hdef; eassumption);
    (split; [assumption|]); (split; [reflexivity|]);
    rewrite returning_status.
  - split; [split; reflexivity|]. split; [eauto | reflexivity].
  - split; [split; [intros; contradiction | discriminate]|].
    split; [eauto | reflexivity].
  - split; [split; reflexivity|]. split; [left; assumption | reflexivity].
  - split; [split; [intros; contradiction | discriminate]|].
    split; [left; assumption | reflexivity].
Qed.

(** A callback that returned non-zero: a handler that is supplied is
    called, and without a handler the traversal stops. *)
Lemma visit_failed_call (v : visit F) (calls : list (event F))
    (ending : step_end) (e : event F) :
  visit_ok argdef argv v ->
  visit_shape flags badfn v calls ending ->
  e ∈ calls -> is_definition_event e = true -> ev_status e <> 0 ->
  (is_Some badfn ->
   exists status, returning (unmatched_invocation v) status ∈ calls) /\
  (badfn = None -> ending = StopAt (v_cursor v)).
Proof.
  intros Hok H He Hde Hse.
  visit_cases H; in_calls He; try discriminate;
    try (exfalso; apply Hse; reflexivity);
    (split; [intros Hs | intros Hb]);
    try reflexivity;
    try no_handler;
    find_call.
Qed.

(** An unmatched token: a handler that is supplied is called with it,
    and without a handler the traversal stops. *)
Lemma visit_no_match (v : visit F) (calls : list (event F))
    (ending : step_end) :
  visit_shape flags badfn v calls ending ->
  v_res v = NoMatch ->
  (is_Some badfn ->
   exists status, returning (unmatched_invocation v) status ∈ calls) /\
  (badfn = None -> ending = StopAt (v_cursor v)).
Proof.
  intros H Hnm.
  visit_cases H;
    try (exfalso; eapply acts_on_match; eassumption);
    try contradiction;
    (split; [intros Hs | intros Hb]);
    try reflexivity;
    try no_handler;
    find_call.
Qed.

(** A visit after which the traversal goes on: every call of the handler
    returned 0; without a handler the token matched and its callback
    returned 0. *)
Lemma visit_goes_on (v : visit F) (calls : list (event F)) :
  visit_ok argdef argv v ->
  visit_shape flags badfn v calls GoOn ->
  Forall (fun e => is_unmatched_event e = true -> ev_status e = 0) calls /\
  (badfn = None ->
   v_res v <> NoMatch /\ Forall (fun e => ev_status e = 0) calls).
Proof.
  intros Hok H.
  assert (Hdef : forall c status,
    match_invocation v = Some c ->
    is_unmatched_event (returning c status) = true -> ev_status (returning c status) = 0).
  { intros c status Hc Hu.
    destruct (match_invocation_event v c status Hok Hc) as (_ & Hu' & _).
    congruence. }
  visit_cases H.
  - split; [constructor|]. intros _. split; [assumption | constructor].
  - split; [repeat constructor; eauto|]. intros _.
    split; [apply acts_on_match; assumption | repeat constructor].
  - split; [repeat constructor; eauto|]. intros Hb.
    no_handler.
  - split; [repeat constructor; eauto|]. intros Hb.
    no_handler.
Qed.

(** A visit at which the traversal stops: at the cursor, after the
    handler returned non-zero, or without a handler at an unmatched token
    or after a callback returned non-zero. *)
Lemma visit_stops (v : visit F) (calls : list (event F)) (r : Z) :
  visit_ok argdef argv v ->
  visit_shape flags badfn v calls (StopAt r) ->
  r = v_cursor v /\
  ((exists b, b ∈ calls /\ is_unmatched_event b = true /\ ev_status b <> 0) \/
   (badfn = None /\
    (v_res v = NoMatch \/
     exists e, e ∈ calls /\ is_definition_event e = true /\
               ev_status e <> 0))).
Proof.
  intros Hok H. visit_cases H; (split; [reflexivity|]).
  - left. exists (returning (unmatched_invocation v) status').
    split; [set_solver|]. split; [reflexivity | assumption].
  - right. split; [reflexivity|]. right. exists (returning c status).
    split; [set_solver|]. split; [|assumption].
    apply (match_invocation_event v c status Hok Hc).
  - left. exists (returning (unmatched_invocation v) status).
    split; [set_solver|]. split; [reflexivity | assumption].
  - right. split; [reflexivity|]. left. assumption.
Qed.


(** *** The return contract of a full traversal *)

(** The result is 0 exactly when every call of the handler returned 0
    and, if there is no handler, every token matched and every callback
    returned 0. *)
Lemma traversal_zero (vs : list (visit F)) (calls : list (event F)) (r : Z) :
  Forall (visit_ok argdef argv) vs ->
  traversal_calls flags badfn vs calls r ->
  r = 0 <->
  Forall (fun e => is_unmatched_event e = true -> ev_status e = 0) calls /\
  (badfn = None ->
   Forall (fun v => v_res v <> NoMatch) vs /\
   Forall (fun e => ev_status e = 0) calls).
Proof.
  intros Hok H. induction H as [|v vs calls1 calls2 r H1 H2 IH|v vs calls r H1].
  - split; [|reflexivity]. intros _. split; [constructor|].
    intros _. split; constructor.
  - apply Forall_cons in Hok as [Hv Hvs]. specialize (IH Hvs).
    apply visit_calls_shape in H1.
    destruct (visit_goes_on v calls1 Hv H1) as [Hu Hb]. split.
    + intros Hr. apply IH in Hr as [Hu2 Hb2]. split.
      * apply Forall_app. auto.
      * intros Hn. destruct (Hb Hn) as [Hm Hs]. destruct (Hb2 Hn) as [Hm2 Hs2].
        split; [constructor; assumption | apply Forall_app; auto].
    + intros [Hu' Hb']. apply IH. apply Forall_app in Hu' as [_ Hu2].
      split; [exact Hu2|]. intros Hn. destruct (Hb' Hn) as [Hm Hs].
      apply Forall_cons in Hm as [_ Hm]. apply Forall_app in Hs as [_ Hs].
      auto.
  - apply Forall_cons in Hok as [Hv Hvs]. apply visit_calls_shape in H1.
    destruct (visit_stops v calls r Hv H1) as [-> Hwhy].
    destruct Hv as (Hpos & _). pose proof (visit_cursor_index v) as Hci.
    split; [lia|]. intros [Hu Hb]. exfalso.
    destruct Hwhy as [(b & Hin & Hub & Hsb)|(Hn & [Hm|(e & Hin & _ & Hse)])].
    + rewrite Forall_forall in Hu. apply Hsb, (Hu b Hin Hub).
    + destruct (Hb Hn) as [Hall _]. apply Forall_cons in Hall as [Hall _].
      contradiction.
    + destruct (Hb Hn) as [_ Hall]. rewrite Forall_forall in Hall.
      apply Hse, (Hall e Hin).
Qed.

(** An unmatched token the traversal reaches is handed to the handler,
    when there is one. *)
Lemma traversal_handler_called (vs : list (visit F))
    (calls : list (event F)) (r : Z) :
  Forall (visit_ok argdef argv) vs ->
  StronglySorted (fun a b : visit F => v_cursor a < v_index b) vs ->
  traversal_calls flags badfn vs calls r ->
  is_Some badfn ->
  forall v,
    v ∈ vs -> v_res v = NoMatch -> r = 0 \/ v_index v <= r ->
    exists status, returning (unmatched_invocation v) status ∈ calls.
Proof.
  intros Hok Hsorted H Hsome.
  induction H as [|v0 vs calls1 calls2 r H1 H2 IH|v0 vs calls r H1];
    intros v Hin Hnm Hreach.
  - apply elem_of_nil in Hin. destruct Hin.
  - apply Forall_cons in Hok as [Hv Hvs].
    apply StronglySorted_inv in Hsorted as [Hsorted _].
    apply visit_calls_shape in H1.
    apply elem_of_cons in Hin as [->|Hin].
    + destruct (visit_no_match v0 calls1 GoOn H1 Hnm) as [Hc _].
      destruct (Hc Hsome) as [status Hs]. exists status.
      apply elem_of_app. left. exact Hs.
    + destruct (IH Hvs Hsorted v Hin Hnm Hreach) as [status Hs].
      exists status. apply elem_of_app. right. exact Hs.
  - apply Forall_cons in Hok as [Hv Hvs].
    apply StronglySorted_inv in Hsorted as [_ Hlt].
    apply visit_calls_shape in H1.
    apply elem_of_cons in Hin as [->|Hin].
    + destruct (visit_no_match v0 calls (StopAt r) H1 Hnm) as [Hc _].
      exact (Hc Hsome).
    + exfalso. destruct (visit_stops v0 calls r Hv H1) as [-> _].
      rewrite Forall_forall in Hlt. specialize (Hlt v Hin).
      destruct Hv as (Hpos & _). pose proof (visit_cursor_index v0). lia.
Qed.

(** A callback that returned non-zero: the token at the cursor is handed
    to the handler when there is one, and the traversal fails at it when
    there is none. *)
Lemma traversal_failed_call (vs : list (visit F)) (calls : list (event F))
    (r : Z) :
  Forall (visit_ok argdef argv) vs ->
  traversal_calls flags badfn vs calls r ->
  forall e,
    e ∈ calls -> is_definition_event e = true -> ev_status e <> 0 ->
    (is_Some badfn ->
     exists tok status,
       argv !! Z.to_nat (ev_index e) = Some tok /\
       mk_event Unmatched (ev_index e) None (Some tok) status ∈ calls) /\
    (badfn = None -> r = ev_index e).
Proof.
  intros Hok H.
  assert (Hvisit : forall v calls1 ending e,
    visit_ok argdef argv v ->
    visit_shape flags badfn v calls1 ending ->
    e ∈ calls1 -> is_definition_event e = true -> ev_status e <> 0 ->
    (is_Some badfn ->
     exists tok status,
       argv !! Z.to_nat (ev_index e) = Some tok /\
       mk_event Unmatched (ev_index e) None (Some tok) status ∈ calls1) /\
    (badfn = None -> ending = StopAt (ev_index e))).
  { intros v calls1 ending e Hv Hs Hin Hd Hse.
    destruct (visit_failed_call v calls1 ending e Hv Hs Hin Hd Hse)
      as [Hc Hn].
    pose proof (visit_calls_index v calls1 ending Hv Hs) as Hidx.
    rewrite Forall_forall in Hidx. rewrite (Hidx e Hin). split; [|exact Hn].
    intros Hsome. destruct (Hc Hsome) as [status Hst].
    exists (v_current v), status. split; [|exact Hst].
    apply visit_current, Hv. }
  induction H as [|v0 vs calls1 calls2 r H1 H2 IH|v0 vs calls r H1];
    intros e Hin Hd Hse.
  - apply elem_of_nil in Hin. destruct Hin.
  - apply Forall_cons in Hok as [Hv Hvs]. apply visit_calls_shape in H1.
    apply elem_of_app in Hin as [Hin|Hin].
    + destruct (Hvisit v0 calls1 GoOn e Hv H1 Hin Hd Hse) as [Hc Hn]. split.
      * intros Hsome. destruct (Hc Hsome) as (tok & status & Hl & Hb).
        exists tok, status. split; [exact Hl|]. apply elem_of_app. left.
        exact Hb.
      * intros Hnone. specialize (Hn Hnone). discriminate.
    + destruct (IH Hvs e Hin Hd Hse) as [Hc Hn]. split; [|exact Hn].
      intros Hsome. destruct (Hc Hsome) as (tok & status & Hl & Hb).
      exists tok, status. split; [exact Hl|]. apply elem_of_app. right.
      exact Hb.
  - apply Forall_cons in Hok as [Hv Hvs]. apply visit_calls_shape in H1.
    destruct (Hvisit v0 calls (StopAt r) e Hv H1 Hin Hd Hse) as [Hc Hn].
    split; [exact Hc|]. intros Hnone. specialize (Hn Hnone).
    injection Hn as ->. reflexivity.
Qed.

(** A call of the handler that returned non-zero ends the traversal,
    whose result is the index of the token. *)
Lemma traversal_refused (vs : list (visit F)) (calls : list (event F))
    (r : Z) :
  Forall (visit_ok argdef argv) vs ->
  traversal_calls flags badfn vs calls r ->
  forall b,
    b ∈ calls -> is_unmatched_event b = true -> ev_status b <> 0 ->
    r = ev_index b /\ last calls = Some b.
Proof.
  intros Hok H.
  induction H as [|v0 vs calls1 calls2 r H1 H2 IH|v0 vs calls r H1];
    intros b Hin Hub Hsb.
  - apply elem_of_nil in Hin. destruct Hin.
  - apply Forall_cons in Hok as [Hv Hvs]. apply visit_calls_shape in H1.
    apply elem_of_app in Hin as [Hin|Hin].
    + destruct (visit_handler_call v0 calls1 GoOn b Hv H1 Hin Hub)
        as (_ & _ & [_ Hz] & _ & _).
      destruct Hsb. apply Hz. reflexivity.
    + destruct (IH Hvs b Hin Hub Hsb) as [-> Hlast]. split; [reflexivity|].
      destruct calls2 as [|x calls2] using rev_ind; [discriminate|].
      rewrite app_assoc, last_snoc. rewrite last_snoc in Hlast. exact Hlast.
  - apply Forall_cons in Hok as [Hv Hvs]. apply visit_calls_shape in H1.
    destruct (visit_stops v0 calls r Hv H1) as [-> _].
    pose proof (visit_calls_index v0 calls _ Hv H1) as Hidx.
    rewrite Forall_forall in Hidx. split; [symmetry; apply Hidx, Hin|].
    apply (visit_handler_call v0 calls _ b Hv H1 Hin Hub).
Qed.

(** Without a handler, the traversal fails at the first unmatched token
    at the latest. *)
Lemma traversal_no_handler (vs : list (visit F)) (calls : list (event F))
    (r : Z) :
  Forall (visit_ok argdef argv) vs ->
  StronglySorted (fun a b : visit F => v_cursor a < v_index b) vs ->
  traversal_calls flags badfn vs calls r ->
  badfn = None ->
  forall v, v ∈ vs -> v_res v = NoMatch -> 0 < r <= v_index v.
Proof.
  intros Hok Hsorted H Hnone.
  induction H as [|v0 vs calls1 calls2 r H1 H2 IH|v0 vs calls r H1];
    intros v Hin Hnm.
  - apply elem_of_nil in Hin. destruct Hin.
  - apply Forall_cons in Hok as [Hv Hvs].
    apply StronglySorted_inv in Hsorted as [Hsorted _].
    apply visit_calls_shape in H1.
    apply elem_of_cons in Hin as [->|Hin]; [|apply IH; assumption].
    destruct (visit_no_match v0 calls1 GoOn H1 Hnm) as [_ Hc].
    specialize (Hc Hnone). discriminate.
  - apply Forall_cons in Hok as [Hv Hvs].
    apply StronglySorted_inv in Hsorted as [_ Hlt].
    apply visit_calls_shape in H1.
    destruct (visit_stops v0 calls r Hv H1) as [-> _].
    destruct Hv as (Hpos & _). pose proof (visit_cursor_index v0) as Hci.
    apply elem_of_cons in Hin as [->|Hin].
    + destruct (no_match_cursor v0 Hnm) as [-> _]. lia.
    + rewrite Forall_forall in Hlt. specialize (Hlt v Hin). lia.
Qed.

(** The handler is called for unmatched tokens only: a token that
    matches nothing, or one whose callback has returned non-zero. *)
Lemma traversal_handler_calls (vs : list (visit F)) (calls : list (event F))
    (r : Z) :
  Forall (visit_ok argdef argv) vs ->
  traversal_calls flags badfn vs calls r ->
  forall b,
    b ∈ calls -> is_unmatched_event b = true ->
    is_Some badfn /\
    exists v,
      v ∈ vs /\ b = returning (unmatched_invocation v) (ev_status b) /\
      (v_res v = NoMatch \/
       exists e, e ∈ calls /\ is_definition_event e = true /\
                 ev_status e <> 0 /\ ev_index e = ev_index b).
Proof.
  intros Hok H.
  assert (Hvisit : forall v calls1 ending b,
    visit_ok argdef argv v ->
    visit_shape flags badfn v calls1 ending ->
    b ∈ calls1 -> is_unmatched_event b = true ->
    is_Some badfn /\
    b = returning (unmatched_invocation v) (ev_status b) /\
    (v_res v = NoMatch \/
     exists e, e ∈ calls1 /\ is_definition_event e = true /\
               ev_status e <> 0 /\ ev_index e = ev_index b)).
  { intros v calls1 ending b Hv Hs Hin Hub.
    destruct (visit_handler_call v calls1 ending b Hv Hs Hin Hub)
      as (Hsome & Hb & _ & Hwhy & _).
    split; [exact Hsome|]. split; [exact Hb|].
    destruct Hwhy as [Hm|(e & He & Hd & Hse)]; [left; exact Hm|].
    right. exists e. split; [exact He|]. split; [exact Hd|].
    split; [exact Hse|].
    pose proof (visit_calls_index v calls1 ending Hv Hs) as Hidx.
    rewrite Forall_forall in Hidx. rewrite (Hidx e He), (Hidx b Hin).
    reflexivity. }
  induction H as [|v0 vs calls1 calls2 r H1 H2 IH|v0 vs calls r H1];
    intros b Hin Hub.
  - apply elem_of_nil in Hin. destruct Hin.
  - apply Forall_cons in Hok as [Hv Hvs]. apply visit_calls_shape in H1.
    apply elem_of_app in Hin as [Hin|Hin].
    + destruct (Hvisit v0 calls1 GoOn b Hv H1 Hin Hub) as (Hsome & Hb & Hwhy).
      split; [exact Hsome|]. exists v0. split; [left|]. split; [exact Hb|].
      destruct Hwhy as [Hm|(e & He & Hrest)]; [left; exact Hm|].
      right. exists e. split; [apply elem_of_app; left; exact He | exact Hrest].
    + destruct (IH Hvs b Hin Hub) as (Hsome & v & Hv' & Hb & Hwhy).
      split; [exact Hsome|]. exists v. split; [right; exact Hv'|].
      split; [exact Hb|].
      destruct Hwhy as [Hm|(e & He & Hrest)]; [left; exact Hm|].
      right. exists e. split; [apply elem_of_app; right; exact He | exact Hrest].
  - apply Forall_cons in Hok as [Hv Hvs]. apply visit_calls_shape in H1.
    destruct (Hvisit v0 calls _ b Hv H1 Hin Hub) as (Hsome & Hb & Hwhy).
    split; [exact Hsome|]. exists v0. split; [left|]. split; [exact Hb|].
    exact Hwhy.
Qed.


(** A traversal that fails: the handler returned non-zero for the token
    at the index returned; or there is no handler, and that token matches
    nothing or its callback returned non-zero. *)
Lemma traversal_fails (vs : list (visit F)) (calls : list (event F)) (r : Z) :
  Forall (visit_ok argdef argv) vs ->
  traversal_calls flags badfn vs calls r ->
  r <> 0 ->
  (exists b,
     b ∈ calls /\ is_unmatched_event b = true /\ ev_status b <> 0 /\
     r = ev_index b) \/
  (badfn = None /\
   ((exists v, v ∈ vs /\ v_res v = NoMatch /\ r = v_index v) \/
    (exists e,
       e ∈ calls /\ is_definition_event e = true /\ ev_status e <> 0 /\
       r = ev_index e))).
Proof.
  intros Hok H Hr.
  induction H as [|v0 vs calls1 calls2 r H1 H2 IH|v0 vs calls r H1].
  - contradiction.
  - apply Forall_cons in Hok as [Hv Hvs].
    destruct (IH Hvs Hr) as [(b & Hb & Hrest)|(Hn & [(v & Hin & Hrest)
                                                     |(e & He & Hrest)])].
    + left. exists b. split; [apply elem_of_app; right; exact Hb | exact Hrest].
    + right. split; [exact Hn|]. left. exists v.
      split; [right; exact Hin | exact Hrest].
    + right. split; [exact Hn|]. right. exists e.
      split; [apply elem_of_app; right; exact He | exact Hrest].
  - apply Forall_cons in Hok as [Hv Hvs]. apply visit_calls_shape in H1.
    pose proof (visit_calls_index v0 calls _ Hv H1) as Hidx.
    rewrite Forall_forall in Hidx.
    destruct (visit_stops v0 calls r Hv H1)
      as [-> [(b & Hb & Hub & Hsb)|(Hn & [Hnm|(e & He & Hde & Hse)])]].
    + left. exists b. rewrite (Hidx b Hb). auto.
    + right. split; [exact Hn|]. left. exists v0. split; [left|].
      split; [exact Hnm|]. apply no_match_cursor, Hnm.
    + right. split; [exact Hn|]. right. exists e. rewrite (Hidx e He). auto.
Qed.

End VisitCalls.

(** ** The visits of the find-only mode *)

Section FindVisits.

Context {F S D : Type}.

Abbreviation def := (miniargv_definition F).
Abbreviation World := (world F S).

Variable argdef : list def.
Variable badfn : option F.

Lemma unmatched_invocation_no_match (v : visit F) (status : Z) :
  v_res v = NoMatch ->
  returning (unmatched_invocation v) status
  = mk_event Unmatched (v_index v) None (Some (v_token v)) status.
Proof.
  intros H. unfold returning, unmatched_invocation. cbn.
  destruct (no_match_cursor v H) as [-> ->]. reflexivity.
Qed.

Lemma accepted_app (l1 l2 : list (visit F)) :
  accepted (l1 ++ l2) = accepted l1 ++ accepted l2.
Proof. unfold accepted. rewrite List.filter_app, fmap_app. reflexivity. Qed.

Lemma value_positions_app (l1 l2 : list (visit F)) :
  value_positions (l1 ++ l2) = value_positions l1 ++ value_positions l2.
Proof.
  unfold value_positions. rewrite List.filter_app, fmap_app. reflexivity.
Qed.

Lemma value_positions_none (l : list (visit F)) :
  Forall (fun u => is_value_match u = false) l -> value_positions l = [].
Proof.
  unfold value_positions. induction 1 as [|u l Hu _ IH]; [reflexivity|].
  cbn [List.filter]. rewrite Hu. exact IH.
Qed.

Lemma accepted_none (l : list (visit F)) :
  Forall (fun u => is_no_match u = false) l -> accepted l = [].
Proof.
  unfold accepted. induction 1 as [|u l Hu _ IH]; [reflexivity|].
  cbn [List.filter]. rewrite Hu. exact IH.
Qed.

(** One visit of the find-only mode: a flag is passed over, the index of
    a standalone value is returned, and an unmatched token goes to the
    handler. *)
Lemma find_visit (v : visit F) (calls : list (event F)) (ending : step_end) :
  visit_calls MINIARG_PROCESS_FLAG_FIND_VALUE badfn v calls ending ->
  (is_flag_match v = true /\ calls = [] /\ ending = GoOn) \/
  (is_value_match v = true /\ calls = [] /\ ending = StopAt (v_index v)) \/
  (v_res v = NoMatch /\
   ((is_Some badfn /\ calls = accepted [v] /\ ending = GoOn) \/
    (is_Some badfn /\ ending = StopAt (-1) /\
     exists status,
       status <> 0 /\
       calls = [mk_event Unmatched (v_index v) None (Some (v_token v))
                  status]) \/
    (badfn = None /\ calls = [] /\ ending = StopAt (-1)))).
Proof.
  intros H.
  assert (Hacts : acts_on MINIARG_PROCESS_FLAG_FIND_VALUE (v_res v) = false).
  { destruct (v_res v); reflexivity. }
  inversion H as [Hres Ha Hfinds | Hfinds | c Ha Hc
                 | c status hcalls hen Ha Hc Hne Hhc | hcalls hen Hres Hhc];
    subst; try congruence.
  - left. unfold is_flag_match. destruct (v_res v); try discriminate; auto.
  - right; left. unfold is_value_match. destruct (v_res v); try discriminate.
    auto.
  - right; right. split; [exact Hres|].
    inversion Hhc as [Hsome | status Hsome Hne | Hnone]; subst.
    + left. split; [exact Hsome|]. split; [|reflexivity].
      unfold accepted, is_no_match. cbn [List.filter]. rewrite Hres.
      cbn [fmap list_fmap]. rewrite unmatched_invocation_no_match by exact Hres.
      reflexivity.
    + right; left. split; [exact Hsome|]. split; [reflexivity|].
      exists status. split; [exact Hne|].
      rewrite unmatched_invocation_no_match by exact Hres. reflexivity.
    + right; right. auto.
Qed.

(** A call in the find-only mode reaches the end of the input, or stops
    at the first standalone value, or at the first unmatched token that
    the handler does not accept. *)
Lemma find_traversal (vs : list (visit F)) (calls : list (event F)) (r : Z) :
  traversal_calls MINIARG_PROCESS_FLAG_FIND_VALUE badfn vs calls r ->
  (r = 0 /\ Forall (fun u => is_value_match u = false) vs /\
   calls = accepted vs /\
   (badfn = None -> Forall (fun u => is_no_match u = false) vs)) \/
  (exists pre v post,
     vs = pre ++ v :: post /\ is_value_match v = true /\ r = v_index v /\
     Forall (fun u => is_value_match u = false) pre /\
     calls = accepted pre /\
     (badfn = None -> Forall (fun u => is_no_match u = false) pre)) \/
  (exists pre v post,
     vs = pre ++ v :: post /\ v_res v = NoMatch /\ r = -1 /\
     Forall (fun u => is_value_match u = false) pre /\
     refused badfn pre v calls).
Proof.
  intros H. induction H as [|v vs calls1 calls2 r H1 H2 IH|v vs calls r H1].
  - left. split; [reflexivity|]. split; [constructor|].
    split; [reflexivity|]. intros _. constructor.
  - assert (Hv : is_value_match v = false /\ calls1 = accepted [v] /\
                 (badfn = None -> is_no_match v = false)).
    { apply find_visit in H1
        as [(Hf & -> & _)|[(_ & _ & He)|(Hn & [(Hs & -> & _)|[(_ & He & _)
                                                   |(_ & _ & He)]])]];
        try discriminate.
      - unfold is_flag_match in Hf. unfold is_value_match, accepted, is_no_match.
        cbn [List.filter]. destruct (v_res v); try discriminate. auto.
      - unfold is_value_match. rewrite Hn. split; [reflexivity|].
        split; [reflexivity|]. intros ->. destruct Hs. discriminate. }
    destruct Hv as (Hnv & -> & Hnn).
    destruct IH as [(-> & Hall & -> & Hno)
                   |[(pre & u & post & -> & Hu & -> & Hall & -> & Hno)
                    |(pre & u & post & -> & Hu & -> & Hall & Hr)]].
    + left. split; [reflexivity|]. split; [constructor; assumption|].
      split; [rewrite <- accepted_app; reflexivity|].
      intros Hb. constructor; auto.
    + right; left. exists (v :: pre), u, post.
      split; [reflexivity|]. split; [exact Hu|]. split; [reflexivity|].
      split; [constructor; assumption|].
      split; [rewrite <- accepted_app; reflexivity|].
      intros Hb. constructor; auto.
    + right; right. exists (v :: pre), u, post.
      split; [reflexivity|]. split; [exact Hu|]. split; [reflexivity|].
      split; [constructor; assumption|].
      unfold refused in *. destruct badfn as [bad|].
      * destruct Hr as (status & Hne & ->). exists status.
        split; [exact Hne|].
        change (v :: pre) with ([v] ++ pre). rewrite accepted_app, app_assoc.
        reflexivity.
      * destruct Hr as [-> Hno]. split.
        -- rewrite app_nil_r. apply accepted_none. constructor; auto.
        -- constructor; auto.
  - apply find_visit in H1
      as [(_ & _ & He)|[(Hv & -> & He)|(Hn & [(_ & _ & He)|[(Hs & He & Hc)
                                                  |(Hb & -> & He)]])]];
      try discriminate.
    + injection He as ->. right; left. exists [], v, vs.
      split; [reflexivity|]. split; [exact Hv|]. split; [reflexivity|].
      split; [constructor|]. split; [reflexivity|]. intros _. constructor.
    + injection He as ->. destruct Hc as (status & Hne & ->).
      right; right. exists [], v, vs.
      split; [reflexivity|]. split; [exact Hn|]. split; [reflexivity|].
      split; [constructor|]. unfold refused. destruct Hs as [bad ->].
      exists status. split; [exact Hne | reflexivity].
    + injection He as ->. right; right. exists [], v, vs.
      split; [reflexivity|]. split; [exact Hn|]. split; [reflexivity|].
      split; [constructor|]. unfold refused. rewrite Hb.
      split; [reflexivity | constructor].
Qed.

End FindVisits.

Section Enumeration.

Context {F S D : Type}.
Variable call :
  F -> option (miniargv_definition F) -> option string ->
  callbackdata D -> S -> Z * S.
Variable int_at : D -> Z.

Abbreviation def := (miniargv_definition F).
Abbreviation World := (world F S).

Variable argdef : list def.

(** The visits after a visit that did not take the following token are
    the visits of the input from the following token on. *)
Lemma visits_after (pre : list (visit F)) :
  forall (rest : list string) (i : Z) (v : visit F) (post : list (visit F)),
    visits argdef rest i = pre ++ v :: post ->
    advanced_of (v_res v) = false ->
    i <= v_index v /\
    post = visits argdef (drop (Datatypes.S (Z.to_nat (v_index v - i))) rest)
             (v_index v + 1).
Proof.
  induction pre as [|p pre IH]; intros rest i v post H Hadv.
  - destruct rest as [|tok rest']; [discriminate|].
    cbn [visits app] in H. injection H as <- <-.
    cbn [v_index v_res] in *. rewrite Hadv.
    rewrite Z.sub_diag. split; [lia | reflexivity].
  - destruct rest as [|tok rest']; [discriminate|].
    cbn [visits] in H. rewrite <- app_comm_cons in H. injection H as _ H.
    destruct (advanced_of (resolve argdef tok (head rest'))).
    + destruct rest' as [|nv rest'']; [destruct pre; discriminate|].
      destruct (IH rest'' (i + 2) v post H Hadv) as [Hle ->].
      split; [lia|].
      replace (Z.to_nat (v_index v - i))
        with (Datatypes.S (Datatypes.S (Z.to_nat (v_index v - (i + 2)))))
        by lia.
      reflexivity.
    + destruct (IH rest' (i + 1) v post H Hadv) as [Hle ->].
      split; [lia|].
      replace (Z.to_nat (v_index v - i))
        with (Datatypes.S (Z.to_nat (v_index v - (i + 1)))) by lia.
      reflexivity.
Qed.

Lemma value_match_advanced (v : visit F) :
  is_value_match v = true -> advanced_of (v_res v) = false.
Proof. unfold is_value_match. destruct (v_res v); try discriminate; auto. Qed.

Variable argv : list string.
Variable badfn : option F.

(** The iteration of [miniargv_get_next_arg_param] from [argindex]
    against the visits of the input after [argindex]. *)
Lemma enumeration_exact (n : nat) :
  forall (argindex : Z) (fuel : nat) (w : World),
    0 <= argindex ->
    (length (drop (Z.to_nat (argindex + 1)) argv) <= n)%nat ->
    (n < fuel)%nat ->
    let vs :=
      visits argdef (drop (Z.to_nat (argindex + 1)) argv) (argindex + 1) in
    exists ps fin w' new,
      next_arg_params call int_at fuel argv argdef badfn argindex w
      = Some (ps, fin, w') /\
      trace w' = trace w ++ new /\
      enumerated badfn vs ps fin new.
Proof.
  induction n as [n IH] using lt_wf_ind.
  intros argindex fuel w Hidx Hlen Hfuel vs.
  destruct fuel as [|fuel]; [lia|].
  cbn [next_arg_params].
  unfold miniargv_get_next_arg_param, miniargv_process_partial.
  change (start_index int_at MINIARG_PROCESS_FLAG_FIND_VALUE
            (ArgIndexRef argindex)) with (argindex + 1).
  set (rest := drop (Z.to_nat (argindex + 1)) argv) in *.
  destruct (scan_exact call MINIARG_PROCESS_FLAG_FIND_VALUE argdef badfn
              (ArgIndexRef argindex) (length rest) rest (argindex + 1)
              (mk_cache false None) w ltac:(lia) ltac:(left; reflexivity))
    as (calls & Ht & Hc).
  fold vs in Hc.
  pose proof (visits_ok argdef argv (length rest) rest (argindex + 1)
                ltac:(lia) ltac:(lia) eq_refl) as Hok.
  fold vs in Hok.
  destruct (scan call MINIARG_PROCESS_FLAG_FIND_VALUE argdef badfn
              (ArgIndexRef argindex) rest (argindex + 1)
              (mk_cache false None) w) as [r w1].
  cbn [fst snd] in Ht, Hc.
  apply find_traversal in Hc
    as [(-> & Hall & -> & Hno)
       |[(pre & v & post & Hvs & Hv & -> & Hall & -> & Hno)
        |(pre & v & post & Hvs & Hv & -> & Hall & Hr)]].
  - change (0 <? 0) with false. cbv iota.
    exists [], 0, w1, (accepted vs). split; [reflexivity|].
    split; [exact Ht|]. left. split; [reflexivity|].
    split; [symmetry; apply value_positions_none, Hall|].
    split; [reflexivity | exact Hno].
  - assert (Hvok : visit_ok argdef argv v).
    { rewrite Hvs in Hok. apply Forall_app in Hok as [_ Hok].
      apply Forall_cons in Hok as [Hok _]. exact Hok. }
    destruct (visits_after pre rest (argindex + 1) v post Hvs
                (value_match_advanced v Hv)) as [Hle Hpost].
    replace (0 <? v_index v) with true by (symmetry; apply Z.ltb_lt; lia).
    assert (Hrest : rest <> []).
    { intros Hnil. unfold vs in Hvs. rewrite Hnil in Hvs.
      destruct pre; discriminate. }
    assert (Hdrop : drop (Datatypes.S (Z.to_nat (v_index v - (argindex + 1)))) rest
                    = drop (Z.to_nat (v_index v + 1)) argv).
    { subst rest. rewrite drop_drop. f_equal. lia. }
    rewrite Hdrop in Hpost.
    assert (Hlen' : (length (drop (Z.to_nat (v_index v + 1)) argv)
                     < length rest)%nat).
    { subst rest. rewrite !length_drop.
      assert (length (drop (Z.to_nat (argindex + 1)) argv) <> 0%nat).
      { intros H0. apply Hrest. apply nil_length_inv. exact H0. }
      rewrite length_drop in H. lia. }
    destruct (IH (length (drop (Z.to_nat (v_index v + 1)) argv))
                ltac:(lia) (v_index v) fuel w1 ltac:(lia) ltac:(lia)
                ltac:(lia))
      as (ps & fin & w' & new2 & -> & Ht2 & Hen).
    rewrite <- Hpost in Hen.
    exists (v_index v :: ps), fin, w', (accepted pre ++ new2).
    cbn [mbind option_bind]. split; [reflexivity|].
    split; [rewrite Ht2, Ht, app_assoc; reflexivity|].
    assert (Haccv : accepted [v] = []).
    { unfold accepted, is_no_match. cbn [List.filter].
      unfold is_value_match in Hv. destruct (v_res v); try discriminate.
      reflexivity. }
    assert (Hposv : value_positions [v] = [v_index v]).
    { unfold value_positions. cbn [List.filter]. rewrite Hv. reflexivity. }
    assert (Hnov : is_no_match v = false).
    { unfold is_no_match. unfold is_value_match in Hv.
      destruct (v_res v); try discriminate; reflexivity. }
    subst vs. rewrite Hvs.
    destruct Hen as [(-> & -> & -> & Hno2)
                    |(-> & pre2 & v2 & post2 & -> & Hv2 & -> & Hr2)].
    + left. split; [reflexivity|].
      split.
      { change (v :: post) with ([v] ++ post).
        rewrite !value_positions_app, Hposv,
          (value_positions_none pre Hall). reflexivity. }
      split.
      { change (v :: post) with ([v] ++ post).
        rewrite !accepted_app, Haccv. reflexivity. }
      intros Hb. apply Forall_app. split; [auto|]. constructor; auto.
    + right. split; [reflexivity|].
      exists (pre ++ v :: pre2), v2, post2.
      split; [rewrite <- app_assoc; reflexivity|]. split; [exact Hv2|].
      split.
      { change (v :: pre2) with ([v] ++ pre2).
        rewrite !value_positions_app, Hposv,
          (value_positions_none pre Hall). reflexivity. }
      unfold refused in *. destruct badfn as [bad|].
      * destruct Hr2 as (status & Hne & ->). exists status.
        split; [exact Hne|].
        change (v :: pre2) with ([v] ++ pre2).
        rewrite !accepted_app, Haccv, <- !app_assoc. reflexivity.
      * destruct Hr2 as [-> Hno2]. specialize (Hno eq_refl). split.
        -- rewrite app_nil_r. apply accepted_none, Hno.
        -- apply Forall_app. split; [exact Hno|]. constructor; auto.
  - change (0 <? -1) with false. cbv iota.
    exists [], (-1), w1, calls. split; [reflexivity|].
    split; [exact Ht|]. right. split; [reflexivity|].
    exists pre, v, post. split; [exact Hvs|]. split; [exact Hv|].
    split; [symmetry; apply value_positions_none, Hall | exact Hr].
Qed.

End Enumeration.

(** ** The three full traversals, against the visits of the input *)

Section VisitContract.

Context {F S D : Type}.
Variable call :
  F -> option (miniargv_definition F) -> option string ->
  callbackdata D -> S -> Z * S.
Variable int_at : D -> Z.

Abbreviation def := (miniargv_definition F).
Abbreviation World := (world F S).

Lemma start_index_full (flags : Z) (cbd : callbackdata D) :
  has_flag flags MINIARG_PROCESS_FLAG_FIND_ONLY = false ->
  start_index int_at flags cbd = 1.
Proof.
  unfold has_flag, start_index. intros H.
  destruct (Z.land flags MINIARG_PROCESS_FLAG_FIND_ONLY =? 0);
    [reflexivity | discriminate].
Qed.

(** The calls and the result of a full traversal are those of the visits
    of [argv] from [argv[1]] on. *)
Lemma full_traversal_exact (mode : Z) (argv : list string)
    (argdef : list def) (badfn : option F) (cbd : callbackdata D)
    (w : World) :
  has_flag mode MINIARG_PROCESS_FLAG_FIND_ONLY = false ->
  let r := miniargv_process_partial call int_at mode argv argdef badfn cbd w in
  let vs := visits argdef (drop 1 argv) 1 in
  traversal_calls mode badfn vs (new_events w r.2) r.1 /\
  Forall (visit_ok argdef argv) vs /\
  StronglySorted (fun a b : visit F => v_cursor a < v_index b) vs.
Proof.
  intros Hmode r vs.
  pose proof (process_partial_exact call int_at mode argv argdef badfn cbd w)
    as H.
  cbv zeta in H. rewrite (start_index_full mode cbd Hmode) in H.
  change (Z.to_nat 1) with 1%nat in H.
  split; [exact H|]. split.
  - apply (visits_ok argdef argv (length (drop 1 argv)));
      [lia | lia | reflexivity].
  - apply (visits_sorted argdef (length (drop 1 argv))). lia.
Qed.

Lemma full_traversal_contract (mode : Z) (argv : list string)
    (argdef : list def) (badfn : option F) (cbd : callbackdata D)
    (w : World) :
  has_flag mode MINIARG_PROCESS_FLAG_FIND_ONLY = false ->
  let r := miniargv_process_partial call int_at mode argv argdef badfn cbd w in
  let new := new_events w r.2 in
  let vs := visits argdef (drop 1 argv) 1 in
  traversal_calls mode badfn vs new r.1 /\
  (r.1 = 0 <->
   Forall (fun e => is_unmatched_event e = true -> ev_status e = 0) new /\
   (badfn = None ->
    Forall (fun v => v_res v <> NoMatch) vs /\
    Forall (fun e => ev_status e = 0) new)) /\
  (is_Some badfn ->
   forall v,
     v ∈ vs -> v_res v = NoMatch -> r.1 = 0 \/ v_index v <= r.1 ->
     exists status,
       mk_event Unmatched (v_index v) None (Some (v_token v)) status ∈ new) /\
  (forall b,
     b ∈ new -> is_unmatched_event b = true ->
     is_Some badfn /\
     exists v,
       v ∈ vs /\
       b = mk_event Unmatched (v_cursor v) None (Some (v_current v))
             (ev_status b) /\
       (v_res v = NoMatch \/
        exists e, e ∈ new /\ is_definition_event e = true /\
                  ev_status e <> 0 /\ ev_index e = ev_index b)) /\
  (forall e,
     e ∈ new -> is_definition_event e = true -> ev_status e <> 0 ->
     (is_Some badfn ->
      exists tok status,
        argv !! Z.to_nat (ev_index e) = Some tok /\
        mk_event Unmatched (ev_index e) None (Some tok) status ∈ new) /\
     (badfn = None -> r.1 = ev_index e)) /\
  (forall b,
     b ∈ new -> is_unmatched_event b = true -> ev_status b <> 0 ->
     r.1 = ev_index b /\ last new = Some b) /\
  (badfn = None ->
   forall v, v ∈ vs -> v_res v = NoMatch -> 0 < r.1 <= v_index v) /\
  (r.1 <> 0 ->
   (exists b,
      b ∈ new /\ is_unmatched_event b = true /\ ev_status b <> 0 /\
      r.1 = ev_index b) \/
   (badfn = None /\
    ((exists v, v ∈ vs /\ v_res v = NoMatch /\ r.1 = v_index v) \/
     (exists e,
        e ∈ new /\ is_definition_event e = true /\ ev_status e <> 0 /\
        r.1 = ev_index e)))).
Proof.
  intros Hmode r new vs.
  destruct (full_traversal_exact mode argv argdef badfn cbd w Hmode)
    as (H & Hok & Hsorted).
  fold r new vs in H, Hok, Hsorted.
  split; [exact H|].
  split; [apply (traversal_zero argdef argv mode badfn Hmode vs new r.1 Hok H)|].
  split.
  { intros Hsome v Hin Hnm Hreach.
    destruct (traversal_handler_called argdef argv mode badfn Hmode vs new
                r.1 Hok Hsorted H Hsome v Hin Hnm Hreach) as [status Hs].
    exists status. rewrite <- (unmatched_invocation_no_match v status Hnm).
    exact Hs. }
  split; [apply (traversal_handler_calls argdef argv mode badfn Hmode vs new
                   r.1 Hok H)|].
  split; [apply (traversal_failed_call argdef argv mode badfn Hmode vs new
                   r.1 Hok H)|].
  split; [apply (traversal_refused argdef argv mode badfn Hmode vs new r.1
                   Hok H)|].
  split.
  { intros Hnone.
    apply (traversal_no_handler argdef argv mode badfn Hmode vs new r.1 Hok
             Hsorted H Hnone). }
  apply (traversal_fails argdef argv mode badfn Hmode vs new r.1 Hok H).
Qed.

(** C6. The three full traversals of the arguments, in every world and
    for every table, input and handler.
    - The result is 0 when the end of the input is reached, and then
      every call of the handler of unmatched tokens has returned 0;
      otherwise it is the positive index of a token of [argv], no call
      was made beyond that token, and the traversal stopped there because
      the handler is absent (the token is then reported on [stderr]) or
      because the handler, called last and on that very token, returned
      non-zero. With no environment, the results of [miniargv_process]
      and [miniargv_process_ltr] are likewise 0 or the positive index of
      a token.
    - For the table of the examples and the input ["-x"] after the
      program name, without a handler, the result is 1 and no callback
      is called.
    - The calls and the result are exactly those of the visits of the
      tokens of [argv]. The result is 0 exactly when every call of the
      handler returned 0 and, if there is no handler, every token matched
      and every callback returned 0.
    - With a handler, every token that matches nothing and that the
      traversal reaches is handed to the handler, and so is the token at
      the cursor when a callback has returned non-zero; the handler is
      called for such tokens only; when it returns non-zero the traversal
      ends, that call being the last one, and the result is the index of
      the token.
    - Without a handler, the traversal fails at the first token that
      matches nothing or whose callback returned non-zero.
    - A result other than 0 is the index of a token for which the handler
      returned non-zero or, without a handler, of a token that matches
      nothing or whose callback returned non-zero.
    - For the table of the examples and the input ["-x"; "file"], a
      handler that returns non-zero is called with ["-x"] and the result
      is 1; a handler that returns 0 is called with ["-x"], then the
      callback of the standalone value definition is called with
      ["file"], and the result is 0 when that callback returns 0. *)
Theorem full_traversal_return_contract (argv : list string)
    (argdef envdef : list def) (badfn : option F) (cbd : callbackdata D)
    (w : World) :
  return_contract argv badfn w
    (miniargv_process_arg call int_at argv argdef badfn cbd w).1
    (miniargv_process_arg call int_at argv argdef badfn cbd w).2 /\
  return_contract argv badfn w
    (miniargv_process_arg_flags call int_at argv argdef badfn cbd w).1
    (miniargv_process_arg_flags call int_at argv argdef badfn cbd w).2 /\
  return_contract argv badfn w
    (miniargv_process_arg_params call int_at argv argdef badfn cbd w).1
    (miniargv_process_arg_params call int_at argv argdef badfn cbd w).2 /\
  (forall r,
     r = (miniargv_process call int_at (Some argv) None argdef envdef badfn
            cbd w).1 \/
     r = (miniargv_process_ltr call int_at (Some argv) None argdef envdef
            badfn cbd w).1 ->
     r = 0 \/ (0 < r /\ exists tok, argv !! Z.to_nat r = Some tok)) /\
  (forall (argv0 : string) (fo fv fp : F),
     let failed :=
       (1, mk_world (st w) (trace w)
             (stderr w ++ [invalid_argument_message "-x"])) in
     miniargv_process_arg call int_at [argv0; "-x"]
       (example_table fo fv fp) None cbd w = failed /\
     miniargv_process_arg_flags call int_at [argv0; "-x"]
       (example_table fo fv fp) None cbd w = failed /\
     miniargv_process_arg_params call int_at [argv0; "-x"]
       (example_table fo fv fp) None cbd w = failed) /\
  (forall mode run,
     In (mode, run)
       [(MINIARG_PROCESS_FLAG_BOTH, miniargv_process_arg call int_at);
        (MINIARG_PROCESS_FLAG_FLAGS, miniargv_process_arg_flags call int_at);
        (MINIARG_PROCESS_FLAG_VALUES,
         miniargv_process_arg_params call int_at)] ->
     let r := run argv argdef badfn cbd w in
     let new := new_events w r.2 in
     let vs := visits argdef (drop 1 argv) 1 in
     traversal_calls mode badfn vs new r.1 /\
     (r.1 = 0 <->
      Forall (fun e => is_unmatched_event e = true -> ev_status e = 0) new /\
      (badfn = None ->
       Forall (fun v => v_res v <> NoMatch) vs /\
       Forall (fun e => ev_status e = 0) new)) /\
     (is_Some badfn ->
      forall v,
        v ∈ vs -> v_res v = NoMatch -> r.1 = 0 \/ v_index v <= r.1 ->
        exists status,
          mk_event Unmatched (v_index v) None (Some (v_token v)) status
          ∈ new) /\
     (forall b,
        b ∈ new -> is_unmatched_event b = true ->
        is_Some badfn /\
        exists v,
          v ∈ vs /\
          b = mk_event Unmatched (v_cursor v) None (Some (v_current v))
                (ev_status b) /\
          (v_res v = NoMatch \/
           exists e, e ∈ new /\ is_definition_event e = true /\
                     ev_status e <> 0 /\ ev_index e = ev_index b)) /\
     (forall e,
        e ∈ new -> is_definition_event e = true -> ev_status e <> 0 ->
        (is_Some badfn ->
         exists tok status,
           argv !! Z.to_nat (ev_index e) = Some tok /\
           mk_event Unmatched (ev_index e) None (Some tok) status ∈ new) /\
        (badfn = None -> r.1 = ev_index e)) /\
     (forall b,
        b ∈ new -> is_unmatched_event b = true -> ev_status b <> 0 ->
        r.1 = ev_index b /\ last new = Some b) /\
     (badfn = None ->
      forall v, v ∈ vs -> v_res v = NoMatch -> 0 < r.1 <= v_index v) /\
     (r.1 <> 0 ->
      (exists b,
         b ∈ new /\ is_unmatched_event b = true /\ ev_status b <> 0 /\
         r.1 = ev_index b) \/
      (badfn = None /\
       ((exists v, v ∈ vs /\ v_res v = NoMatch /\ r.1 = v_index v) \/
        (exists e,
           e ∈ new /\ is_definition_event e = true /\ ev_status e <> 0 /\
           r.1 = ev_index e))))) /\
  (forall (argv0 : string) (fo fv fp bad : F) (status : Z),
     (forall d v c s, (call bad d v c s).1 = status) ->
     let r :=
       miniargv_process_arg call int_at [argv0; "-x"; "file"]
         (example_table fo fv fp) (Some bad) cbd w in
     (status <> 0 ->
      r.1 = 1 /\
      new_events w r.2 = [mk_event Unmatched 1 None (Some "-x") status]) /\
     (status = 0 ->
      (forall d v c s, (call fp d v c s).1 = 0) ->
      r.1 = 0 /\
      new_events w r.2 =
        [mk_event Unmatched 1 None (Some "-x") 0;
         mk_event Standalone 2 (Some (opt_param fp)) (Some "file") 0])).
Proof.
  destruct (return_contract_holds call int_at argv argdef envdef badfn cbd w)
    as (H1 & H2 & H3 & H4 & H5).
  split; [exact H1|]. split; [exact H2|]. split; [exact H3|].
  split; [exact H4|]. split; [exact H5|]. split.
  - intros mode run Hin.
    destruct Hin as [Hin|[Hin|[Hin|[]]]]; injection Hin as <- <-.
    + apply (full_traversal_contract MINIARG_PROCESS_FLAG_BOTH argv argdef
               badfn cbd w eq_refl).
    + apply (full_traversal_contract MINIARG_PROCESS_FLAG_FLAGS argv argdef
               badfn cbd w eq_refl).
    + apply (full_traversal_contract MINIARG_PROCESS_FLAG_VALUES argv argdef
               badfn cbd w eq_refl).
  - intros argv0 fo fv fp bad status Hbad r. split.
    + intros Hne.
      assert (Hrun : exists s',
        r = (1, mk_world s'
                  (trace w ++ [mk_event Unmatched 1 None (Some "-x") status])
                  (stderr w))).
      { subst r. cbv.
        match goal with
        | |- context [call bad ?a ?b ?c ?d] =>
            pose proof (Hbad a b c d) as H6;
            destruct (call bad a b c d) as [r1 s1]
        end.
        simpl in H6. subst r1.
        destruct status; [congruence| |]; cbv; eexists; reflexivity. }
      destruct Hrun as [s' ->]. split; [reflexivity|].
      apply new_events_app. reflexivity.
    + intros -> Hfp.
      assert (Hrun : exists s',
        r = (0, mk_world s'
                  ((trace w ++ [mk_event Unmatched 1 None (Some "-x") 0]) ++
                   [mk_event Standalone 2 (Some (opt_param fp))
                      (Some "file") 0])
                  (stderr w))).
      { subst r. cbv.
        match goal with
        | |- context [call bad ?a ?b ?c ?d] =>
            pose proof (Hbad a b c d) as H6;
            destruct (call bad a b c d) as [r1 s1]
        end.
        simpl in H6. subst r1. cbv.
        match goal with
        | |- context [call fp ?a ?b ?c ?d] =>
            pose proof (Hfp a b c d) as H7;
            destruct (call fp a b c d) as [r2 s2]
        end.
        simpl in H7. subst r2. cbv. eexists. reflexivity. }
      destruct Hrun as [s' ->]. split; [reflexivity|].
      apply new_events_app. cbn [trace]. rewrite <- app_assoc. reflexivity.
Qed.

End VisitContract.

(** ** The order of the calls, against the matches of the input *)

Section VisitOrder.

Context {F S D : Type}.
Variable call :
  F -> option (miniargv_definition F) -> option string ->
  callbackdata D -> S -> Z * S.
Variable int_at : D -> Z.

Abbreviation def := (miniargv_definition F).
Abbreviation World := (world F S).

Lemma expected_flags (vs : list (visit F)) :
  expected MINIARG_PROCESS_FLAG_FLAGS vs = flag_matches vs.
Proof. reflexivity. Qed.

Lemma expected_values (vs : list (visit F)) :
  expected MINIARG_PROCESS_FLAG_VALUES vs = value_matches vs.
Proof. reflexivity. Qed.

Lemma expected_both (vs : list (visit F)) :
  expected MINIARG_PROCESS_FLAG_BOTH vs = matches vs.
Proof.
  unfold expected, matches. induction vs as [|v vs IH]; [reflexivity|].
  cbn [List.filter].
  assert (Hv : acts_on MINIARG_PROCESS_FLAG_BOTH (v_res v) = true \/
               (acts_on MINIARG_PROCESS_FLAG_BOTH (v_res v) = false /\
                match_invocation v = None)).
  { unfold match_invocation. destruct (v_res v); auto. }
  destruct Hv as [->|[-> Hn]]; simpl in *.
  - destruct (match_invocation v); [f_equal|]; exact IH.
  - rewrite Hn. exact IH.
Qed.

(** The calls for the matches are at strictly increasing positions. *)
Lemma matches_sorted (vs : list (visit F)) :
  StronglySorted (fun a b : visit F => v_cursor a < v_index b) vs ->
  StronglySorted Z.lt (in_index <$> matches vs).
Proof.
  assert (Hidx : forall (v : visit F) c,
            match_invocation v = Some c -> in_index c = v_cursor v).
  { intros v c. unfold match_invocation, v_cursor.
    destruct (v_res v); intros [= <-]; reflexivity. }
  unfold matches. induction 1 as [|v vs Hs IH Hall]; [constructor|].
  simpl. destruct (match_invocation v) as [c|] eqn:Hc; [|exact IH].
  cbn [fmap list_fmap]. constructor; [exact IH|].
  apply Forall_forall. intros p Hp.
  apply list_elem_of_fmap in Hp as (c' & -> & Hc').
  apply list_elem_of_omap in Hc' as (u & Hu & Hcu).
  rewrite Forall_forall in Hall. specialize (Hall u Hu).
  rewrite (Hidx v c Hc), (Hidx u c' Hcu).
  pose proof (visit_cursor_index u). lia.
Qed.

Lemma definition_event_kinds (e : event F) :
  is_definition_event e = (is_flag_event e || is_standalone_event e)%bool.
Proof.
  unfold is_definition_event, is_flag_event, is_standalone_event.
  destruct (ev_site e); reflexivity.
Qed.

Lemma filter_flag_events (l : list (event F)) :
  Forall (fun e => is_standalone_event e = false) l ->
  List.filter is_flag_event l = List.filter is_definition_event l.
Proof.
  induction 1 as [|e l He _ IH]; [reflexivity|]. cbn [List.filter].
  rewrite definition_event_kinds, He, orb_false_r, IH. reflexivity.
Qed.

Lemma filter_standalone_events (l : list (event F)) :
  Forall (fun e => is_flag_event e = false) l ->
  List.filter is_standalone_event l = List.filter is_definition_event l.
Proof.
  induction 1 as [|e l He _ IH]; [reflexivity|]. cbn [List.filter].
  rewrite definition_event_kinds, He, IH. reflexivity.
Qed.

Lemma filter_none {A : Type} (f : A -> bool) (l : list A) :
  Forall (fun x => f x = false) l -> List.filter f l = [].
Proof.
  induction 1 as [|x l Hx _ IH]; [reflexivity|]. cbn [List.filter].
  rewrite Hx. exact IH.
Qed.

(** The callbacks of table entries that a full traversal calls: those of
    the matches the mode acts on, in the order of the tokens, and all of
    them when the traversal returns 0. *)
Lemma pass_calls (mode : Z) (a : list string) (argdef : list def)
    (badfn : option F) (cbd : callbackdata D) (w : World) :
  has_flag mode MINIARG_PROCESS_FLAG_FIND_ONLY = false ->
  let r := miniargv_process_partial call int_at mode a argdef badfn cbd w in
  let new := new_events w r.2 in
  let vs := visits argdef (drop 1 a) 1 in
  invocation_of <$> List.filter is_definition_event new
    `prefix_of` expected mode vs /\
  (r.1 = 0 ->
   invocation_of <$> List.filter is_definition_event new = expected mode vs).
Proof.
  intros Hmode r new vs.
  destruct (full_traversal_exact call int_at mode a argdef badfn cbd w Hmode)
    as (H & Hok & _).
  apply (traversal_definition_calls argdef a mode badfn Hmode vs new r.1 Hok H).
Qed.


Lemma env_events_not_flag (l : list (event F)) :
  Forall (fun e => ev_site e = EnvVar) l ->
  Forall (fun e => is_flag_event e = false) l.
Proof.
  intros H. eapply Forall_impl; [exact H|].
  intros e He. unfold is_flag_event. rewrite He. reflexivity.
Qed.

(** The calls of the environment, of a flags pass and of a values pass,
    one after the other. *)
Lemma passes_in_order (l0 l1 l2 : list (event F))
    (fm : list (invocation F)) :
  Forall (fun e => ev_site e = EnvVar) l0 ->
  Forall (fun e => is_standalone_event e = false) l1 ->
  Forall (fun e => is_flag_event e = false) l2 ->
  (l2 <> [] ->
   invocation_of <$> List.filter is_definition_event l1 = fm) ->
  let new := l0 ++ l1 ++ l2 in
  List.filter is_flag_event new = List.filter is_definition_event l1 /\
  List.filter is_standalone_event new = List.filter is_definition_event l2 /\
  (forall q e,
     new !! q = Some e -> is_standalone_event e = true ->
     invocation_of <$> List.filter is_flag_event (firstn q new) = fm).
Proof.
  intros H0 H1 H2 Hfull new. subst new.
  pose proof (env_events_not_flag l0 H0) as H0f.
  pose proof (env_events_not_standalone l0 H0) as H0s.
  split; [|split].
  - rewrite !List.filter_app, (filter_none _ l0 H0f), (filter_none _ l2 H2),
      app_nil_r. apply filter_flag_events, H1.
  - rewrite !List.filter_app, (filter_none _ l0 H0s), (filter_none _ l1 H1).
    apply filter_standalone_events, H2.
  - intros q e Hq He.
    assert (Hge : (length (l0 ++ l1) <= q)%nat).
    { destruct (decide (q < length (l0 ++ l1))%nat) as [Hlt|]; [|lia].
      rewrite app_assoc, lookup_app_l in Hq by exact Hlt.
      apply list_elem_of_lookup_2 in Hq.
      apply elem_of_app in Hq as [Hq|Hq].
      - rewrite Forall_forall in H0s. rewrite (H0s e Hq) in He. discriminate.
      - rewrite Forall_forall in H1. rewrite (H1 e Hq) in He. discriminate. }
    assert (Hl2 : l2 <> []).
    { intros ->. rewrite app_nil_r in Hq. apply lookup_lt_Some in Hq. lia. }
    rewrite app_assoc, take_app, (take_ge (l0 ++ l1)) by exact Hge.
    rewrite !List.filter_app, (filter_none _ l0 H0f).
    rewrite (filter_none is_flag_event (firstn (q - length (l0 ++ l1)) l2))
      by (apply Forall_take, H2).
    rewrite app_nil_r. cbn [app].
    rewrite (filter_flag_events l1 H1). apply Hfull, Hl2.
Qed.

(** The parts of the trace of [miniargv_process]. *)
Lemma process_parts (a : list string) (env : option (list string))
    (argdef envdef : list def) (badfn : option F) (cbd : callbackdata D)
    (w : World) :
  let r := miniargv_process call int_at (Some a) env argdef envdef badfn cbd w in
  let vs := visits argdef (drop 1 a) 1 in
  exists l0 l1 l2,
    new_events w r.2 = l0 ++ l1 ++ l2 /\
    Forall (fun e => ev_site e = EnvVar) l0 /\
    Forall (fun e => is_standalone_event e = false) l1 /\
    Forall (fun e => is_flag_event e = false) l2 /\
    invocation_of <$> List.filter is_definition_event l1
      `prefix_of` flag_matches vs /\
    (l2 <> [] \/ r.1 = 0 ->
     invocation_of <$> List.filter is_definition_event l1 = flag_matches vs) /\
    invocation_of <$> List.filter is_definition_event l2
      `prefix_of` value_matches vs /\
    (r.1 = 0 ->
     invocation_of <$> List.filter is_definition_event l2 = value_matches vs).
Proof.
  intros r vs. subst r. unfold miniargv_process.
  assert (Henv : exists r0 w0 l0,
    match env with
    | Some e => miniargv_process_env call e envdef cbd w
    | None => (0, w)
    end = (r0, w0) /\
    trace w0 = trace w ++ l0 /\
    Forall (fun e => ev_site e = EnvVar) l0).
  { destruct env as [e|].
    - destruct (process_env_trace call e envdef cbd w) as (l0 & Ht & Hall).
      destruct (miniargv_process_env call e envdef cbd w) as [r0 w0].
      exists r0, w0, l0. auto.
    - exists 0, w, []. rewrite app_nil_r. repeat split. constructor. }
  destruct Henv as (r0 & w0 & l0 & -> & Ht0 & H0).
  assert (Hnil : invocation_of <$> List.filter is_definition_event []
                 `prefix_of` flag_matches vs /\
                 invocation_of <$> List.filter is_definition_event []
                 `prefix_of` value_matches vs).
  { split; apply prefix_nil. }
  destruct Hnil as [Hnil1 Hnil2].
  destruct (r0 =? 0) eqn:E0.
  2:{ apply Z.eqb_neq in E0. cbn [fst snd]. rewrite <- Z.eqb_neq in E0.
      rewrite E0. apply Z.eqb_neq in E0. cbn [fst snd].
      exists l0, [], []. rewrite !app_nil_r.
      split; [apply new_events_app, Ht0|]. split; [exact H0|].
      split; [constructor|]. split; [constructor|].
      split; [exact Hnil1|]. split; [intros [H|H]; congruence|].
      split; [exact Hnil2 | congruence]. }
  pose proof (pass_calls MINIARG_PROCESS_FLAG_FLAGS a argdef badfn cbd w0
                eq_refl) as H1.
  destruct (flags_pass_trace call int_at a argdef badfn cbd w0)
    as (l1 & Ht1 & Hs1).
  cbv zeta in H1. rewrite (new_events_app _ _ _ Ht1), expected_flags in H1.
  fold vs in H1.
  destruct (miniargv_process_partial call int_at MINIARG_PROCESS_FLAG_FLAGS a
              argdef badfn cbd w0) as [r1 w1].
  cbn [fst snd] in H1, Ht1. destruct H1 as [Hp1 He1].
  destruct (r1 =? 0) eqn:E1.
  2:{ cbn [fst snd]. exists l0, l1, []. rewrite app_nil_r.
      apply Z.eqb_neq in E1.
      split; [apply new_events_app; rewrite Ht1, Ht0, app_assoc; reflexivity|].
      split; [exact H0|]. split; [exact Hs1|]. split; [constructor|].
      split; [exact Hp1|]. split; [intros [H|H]; congruence|].
      split; [exact Hnil2 | congruence]. }
  apply Z.eqb_eq in E1. specialize (He1 E1).
  pose proof (pass_calls MINIARG_PROCESS_FLAG_VALUES a argdef badfn cbd w1
                eq_refl) as H2.
  destruct (values_pass_trace call int_at a argdef badfn cbd w1)
    as (l2 & Ht2 & Hf2 & _).
  cbv zeta in H2. rewrite (new_events_app _ _ _ Ht2), expected_values in H2.
  fold vs in H2.
  destruct (miniargv_process_partial call int_at MINIARG_PROCESS_FLAG_VALUES
              a argdef badfn cbd w1) as [r2 w2].
  cbn [fst snd] in *. destruct H2 as [Hp2 He2].
  exists l0, l1, l2.
  split; [apply new_events_app; rewrite Ht2, Ht1, Ht0, <- !app_assoc;
          reflexivity|].
  auto 10.
Qed.

(** C1. From every world, for every table, input and handler.
    - In the trace of [miniargv_process] (environment, then the flags
      pass, then the values pass), every call for a flag match comes
      before every call for a standalone value, and the calls for
      standalone values are made at strictly increasing positions, each
      with the token at its position.
    - At every call for a standalone value that [miniargv_process] makes,
      the calls made before it for flags are the calls for all the flag
      matches of the input, in the order of the tokens: every flag match
      has been dispatched before any standalone value is. The calls for
      flags and for standalone values are always calls for the first
      matches of the input, and for all of them when the result is 0.
    - The same holds for [miniargv_process_arg_flags] followed by
      [miniargv_process_arg_params], which is what [miniargv_process] runs
      on the arguments when there is no environment: the first calls the
      callbacks of the flag matches only, all of them when it returns 0,
      and the second those of the standalone values only, in the order of
      the tokens, all of them when it returns 0.
    - [miniargv_process_arg] calls the callbacks of the matches of the
      input, flags and standalone values alike, in the order of the
      tokens: at strictly increasing positions, and all of them when it
      returns 0; a call follows another at a later token, except that the
      handler of unmatched tokens is called on the token whose callback
      has just returned non-zero. *)
Theorem traversal_order (argv env : option (list string))
    (argdef envdef : list def) (badfn : option F) (cbd : callbackdata D)
    (w : World) :
  (let new :=
     new_events w
       (miniargv_process call int_at argv env argdef envdef badfn cbd w).2 in
   flags_before_values new /\ values_left_to_right (default [] argv) new) /\
  (forall a : list string,
     let r :=
       miniargv_process call int_at (Some a) env argdef envdef badfn cbd w in
     let new := new_events w r.2 in
     let vs := visits argdef (drop 1 a) 1 in
     (forall q e,
        new !! q = Some e -> is_standalone_event e = true ->
        invocation_of <$> List.filter is_flag_event (firstn q new)
        = flag_matches vs) /\
     invocation_of <$> List.filter is_flag_event new
       `prefix_of` flag_matches vs /\
     invocation_of <$> List.filter is_standalone_event new
       `prefix_of` value_matches vs /\
     (r.1 = 0 ->
      invocation_of <$> List.filter is_flag_event new = flag_matches vs /\
      invocation_of <$> List.filter is_standalone_event new
      = value_matches vs)) /\
  (forall a : list string,
     let r1 := miniargv_process_arg_flags call int_at a argdef badfn cbd w in
     let r2 :=
       miniargv_process_arg_params call int_at a argdef badfn cbd r1.2 in
     let vs := visits argdef (drop 1 a) 1 in
     flags_before_values (new_events w r2.2) /\
     values_left_to_right a (new_events w r2.2) /\
     values_left_to_right a (new_events r1.2 r2.2) /\
     miniargv_process call int_at (Some a) None argdef envdef badfn cbd w
     = (if r1.1 =? 0 then r2 else r1) /\
     invocation_of <$> List.filter is_definition_event (new_events w r1.2)
       `prefix_of` flag_matches vs /\
     (r1.1 = 0 ->
      invocation_of <$> List.filter is_definition_event (new_events w r1.2)
      = flag_matches vs) /\
     invocation_of <$> List.filter is_definition_event (new_events r1.2 r2.2)
       `prefix_of` value_matches vs /\
     (r2.1 = 0 ->
      invocation_of <$> List.filter is_definition_event
                          (new_events r1.2 r2.2)
      = value_matches vs)) /\
  (forall a : list string,
     let r := miniargv_process_arg call int_at a argdef badfn cbd w in
     let new := new_events w r.2 in
     let vs := visits argdef (drop 1 a) 1 in
     left_to_right new /\
     invocation_of <$> List.filter is_definition_event new
       `prefix_of` matches vs /\
     (r.1 = 0 ->
      invocation_of <$> List.filter is_definition_event new = matches vs) /\
     StronglySorted Z.lt (in_index <$> matches vs)).
Proof.
  destruct (trace_order call int_at argv env argdef envdef badfn cbd w)
    as (H1 & H2 & H3).
  split; [exact H1|]. split; [|split].
  - intros a r new vs.
    destruct (process_parts a env argdef envdef badfn cbd w)
      as (l0 & l1 & l2 & Hnew & H0 & Hs1 & Hf2 & Hp1 & He1 & Hp2 & He2).
    fold r vs in Hnew, He1, He2. fold new in Hnew.
    destruct (passes_in_order l0 l1 l2 (flag_matches vs) H0 Hs1 Hf2
                ltac:(intros H; apply He1; left; exact H))
      as (Hflag & Hval & Hbefore).
    rewrite <- Hnew in Hflag, Hval, Hbefore.
    split; [exact Hbefore|]. rewrite Hflag, Hval.
    split; [exact Hp1|]. split; [exact Hp2|].
    intros Hr. split; [apply He1; right; exact Hr | apply He2, Hr].
  - intros a r1 r2 vs. destruct (H2 a) as (Ha & Hb & Hc & Hd).
    split; [exact Ha|]. split; [exact Hb|]. split; [exact Hc|].
    split; [exact Hd|].
    pose proof (pass_calls MINIARG_PROCESS_FLAG_FLAGS a argdef badfn cbd w
                  eq_refl) as [Hp1 He1].
    pose proof (pass_calls MINIARG_PROCESS_FLAG_VALUES a argdef badfn cbd r1.2
                  eq_refl) as [Hp2 He2].
    rewrite expected_flags in Hp1, He1. rewrite expected_values in Hp2, He2.
    split; [exact Hp1|]. split; [exact He1|]. split; [exact Hp2 | exact He2].
  - intros a r new vs. split; [apply H3|].
    pose proof (pass_calls MINIARG_PROCESS_FLAG_BOTH a argdef badfn cbd w
                  eq_refl) as [Hp He].
    rewrite expected_both in Hp, He.
    split; [exact Hp|]. split; [exact He|].
    apply matches_sorted. apply (visits_sorted argdef (length (drop 1 a))).
    lia.
Qed.

End VisitOrder.

(** ** The find-only mode, against the visits of the input *)

Section VisitEnumeration.

Context {F S D : Type}.
Variable call :
  F -> option (miniargv_definition F) -> option string ->
  callbackdata D -> S -> Z * S.
Variable int_at : D -> Z.

Abbreviation def := (miniargv_definition F).
Abbreviation World := (world F S).

(** One call of [miniargv_get_next_arg_param], against the visits of the
    input after [argindex]. *)
Lemma find_only_call (argindex : Z) (argv : list string)
    (argdef : list def) (badfn : option F) (w : World) :
  0 <= argindex ->
  let r :=
    miniargv_get_next_arg_param call int_at argindex argv argdef badfn w in
  let vs :=
    visits argdef (drop (Z.to_nat (argindex + 1)) argv) (argindex + 1) in
  traversal_calls MINIARG_PROCESS_FLAG_FIND_VALUE badfn vs
    (new_events w r.2) r.1 /\
  Forall (visit_ok argdef argv) vs.
Proof.
  intros Hidx r vs. split.
  - apply (process_partial_exact call int_at MINIARG_PROCESS_FLAG_FIND_VALUE
             argv argdef badfn (ArgIndexRef argindex) w).
  - apply (visits_ok argdef argv
             (length (drop (Z.to_nat (argindex + 1)) argv)));
      [lia | lia | reflexivity].
Qed.

(** C7 (in the form the code satisfies).
    - A call of [miniargv_get_next_arg_param] calls no callback of a
      table entry: the only calls it makes are calls of the handler of
      unmatched tokens, nothing is written to [stderr], and without a
      handler the world is left as it is. It returns 0, -1, or an index
      beyond [argindex] of a token classified as a standalone value.
    - Its result, against the visits of the input after [argindex]: a
      positive result is the index of the first standalone value, and
      0 is returned when there is none, every unmatched token before it
      having been handed to the handler, which returned 0 (so there was
      none, if there is no handler); -1 is returned at the first
      unmatched token that the handler did not accept, when no
      standalone value comes before it.
    - Called again and again with the index it returned, from 0, it ends
      within [length argv + 1] calls on 0 or -1, and the indices it
      returned are strictly increasing; they are a prefix of the
      positions at which the values pass, run with handlers that accept
      everything, calls the callback of the standalone value definition,
      and all of them when the iteration ends on 0 or when there is no
      handler.
    - That iteration ends on 0 exactly when the handler accepted every
      unmatched token of the input (there is none, if there is no
      handler), and it has then returned the index of every standalone
      value, once each and in the order of the tokens; it ends on -1 at
      the first unmatched token that the handler did not accept, and it
      has then returned the indices of the standalone values before that
      token. *)
Theorem find_only_enumeration (argv : list string) (argdef : list def)
    (badfn : option F) (w : World) :
  (forall argindex,
     0 <= argindex ->
     let r :=
       miniargv_get_next_arg_param call int_at argindex argv argdef badfn w in
     let new := new_events w r.2 in
     let vs :=
       visits argdef (drop (Z.to_nat (argindex + 1)) argv) (argindex + 1) in
     Forall (fun e => is_unmatched_event e = true) new /\
     stderr r.2 = stderr w /\
     (badfn = None -> r.2 = w) /\
     (r.1 = 0 \/ r.1 = -1 \/
      (argindex < r.1 /\
       exists tok, argv !! Z.to_nat r.1 = Some tok /\
                   classify tok = StandaloneArg)) /\
     (0 < r.1 ->
      exists pre v post,
        vs = pre ++ v :: post /\ is_value_match v = true /\
        v_index v = r.1 /\
        Forall (fun u => is_value_match u = false) pre /\
        new = accepted pre /\
        (badfn = None -> Forall (fun u => is_no_match u = false) pre)) /\
     (r.1 = 0 ->
      Forall (fun u => is_value_match u = false) vs /\
      new = accepted vs /\
      (badfn = None -> Forall (fun u => is_no_match u = false) vs)) /\
     (r.1 = -1 ->
      exists pre v post,
        vs = pre ++ v :: post /\ v_res v = NoMatch /\
        Forall (fun u => is_value_match u = false) pre /\
        refused badfn pre v new)) /\
  (forall (cbd' : callbackdata D) (wr : World),
     let all :=
       standalone_positions
         (new_events wr
            (miniargv_process_arg_params accept_all int_at argv argdef badfn
               cbd' wr).2) in
     exists ps fin w',
       next_arg_params call int_at (Datatypes.S (length argv)) argv argdef
         badfn 0 w = Some (ps, fin, w') /\
       (fin = 0 \/ fin = -1) /\
       StronglySorted Z.lt ps /\
       ps `prefix_of` all /\
       (fin = 0 -> ps = all) /\
       (badfn = None -> ps = all /\ w' = w)) /\
  (let vs := visits argdef (drop 1 argv) 1 in
   exists ps fin w',
     next_arg_params call int_at (Datatypes.S (length argv)) argv argdef
       badfn 0 w = Some (ps, fin, w') /\
     enumerated badfn vs ps fin (new_events w w')).
Proof.
  destruct (find_only_simulation call int_at argv argdef badfn w) as [H1 H2].
  split; [|split; [exact H2|]].
  - intros argindex Hidx r new vs.
    destruct (H1 argindex Hidx) as (Ha & Hb & Hc & Hd). fold r new in Ha, Hb, Hc, Hd.
    split; [exact Ha|]. split; [exact Hb|]. split; [exact Hc|].
    split; [exact Hd|].
    destruct (find_only_call argindex argv argdef badfn w Hidx) as [Ht Hok].
    fold r new vs in Ht, Hok.
    apply find_traversal in Ht
      as [(Hr & Hall & Hnew & Hno)
         |[(pre & v & post & Hvs & Hv & Hr & Hall & Hnew & Hno)
          |(pre & v & post & Hvs & Hv & Hr & Hall & Href)]].
    + split; [intros; lia|]. split; [auto|]. intros; lia.
    + assert (Hpos : 0 < v_index v).
      { rewrite Hvs in Hok. apply Forall_app in Hok as [_ Hok].
        apply Forall_cons in Hok as [(Hpos & _) _]. exact Hpos. }
      split; [|split; intros; lia].
      intros _. exists pre, v, post. auto 10.
    + split; [intros; lia|]. split; [intros; lia|].
      intros _. exists pre, v, post. auto.
  - intros vs.
    destruct (enumeration_exact call int_at argdef argv badfn
                (length argv) 0 (Datatypes.S (length argv)) w
                ltac:(lia) ltac:(rewrite length_drop; lia) ltac:(lia))
      as (ps & fin & w' & new & Hres & Ht & Hen).
    exists ps, fin, w'. split; [exact Hres|].
    rewrite (new_events_app _ _ _ Ht). exact Hen.
Qed.

End VisitEnumeration.

Lemma find_only_enumeration_witness :
  let table := example_table App.cb_noop App.cb_noop App.cb_noop in
  let argv := ["prog"; "a"; "-o"; "b"; "c"] in
  let w := App.initial ∅ in
  (miniargv_get_next_arg_param App.call App.int_at 1 argv table None w).2 = w
  /\ exists ps fin w',
       next_arg_params App.call App.int_at 6 argv table None 0 w
       = Some (ps, fin, w') /\
       (fin = 0 -> ps = [1; 4]).
Proof.
  intros table argv w.
  destruct (find_only_enumeration App.call App.int_at argv table None w)
    as (H1 & _ & H3).
  split.
  - destruct (H1 1 ltac:(lia)) as (_ & _ & H & _). apply H. reflexivity.
  - destruct H3 as (ps & fin & w' & Hres & Hen).
    exists ps, fin, w'. split; [exact Hres|]. intros Hfin.
    destruct Hen as [(_ & -> & _)|(Hf & _)]; [|lia].
    vm_compute. reflexivity.
Defined.

Lemma full_traversal_return_contract_witness :
  let table := example_table App.cb_noop App.cb_noop App.cb_noop in
  let w := App.initial ∅ in
  let r :=
    miniargv_process_arg App.call App.int_at ["prog"; "-x"; "file"] table
      (Some (App.app_status 7)) App.NULL w in
  let r' :=
    miniargv_process_arg App.call App.int_at ["prog"; "-x"; "file"] table
      (Some (App.app_status 0)) App.NULL w in
  (r.1 = 1 /\
   new_events w r.2 = [mk_event Unmatched 1 None (Some "-x") 7]) /\
  (r'.1 = 0 /\
   new_events w r'.2 =
     [mk_event Unmatched 1 None (Some "-x") 0;
      mk_event Standalone 2 (Some (opt_param App.cb_noop)) (Some "file") 0]).
Proof.
  intros table w r r'.
  pose proof (full_traversal_return_contract App.call App.int_at
                ["prog"; "-x"; "file"] table [] None App.NULL w)
    as (_ & _ & _ & _ & _ & _ & H).
  split.
  - destruct (H "prog" App.cb_noop App.cb_noop App.cb_noop (App.app_status 7)
                7 ltac:(reflexivity)) as [H7 _].
    apply H7. discriminate.
  - destruct (H "prog" App.cb_noop App.cb_noop App.cb_noop (App.app_status 0)
                0 ltac:(reflexivity)) as [_ H0].
    apply H0; reflexivity.
Defined.

Lemma traversal_order_witness :
  let table := example_table App.cb_noop App.cb_increment_int App.cb_noop in
  let w := App.initial ∅ in
  let r :=
    miniargv_process App.call App.int_at (Some ["prog"; "a"; "-v"; "b"]) None
      table [] None App.NULL w in
  let new := new_events w r.2 in
  let verbose :=
    mk_invocation ShortFlag 2 (Some (opt_verbose App.cb_increment_int)) None in
  let value i tok :=
    mk_invocation Standalone i (Some (opt_param App.cb_noop)) (Some tok) in
  invocation_of <$> List.filter is_flag_event new = [verbose] /\
  invocation_of <$> List.filter is_standalone_event new
  = [value 1 "a"; value 3 "b"] /\
  (forall q e,
     new !! q = Some e -> is_standalone_event e = true ->
     invocation_of <$> List.filter is_flag_event (firstn q new) = [verbose]).
Proof.
  intros table w r new verbose value.
  pose proof (traversal_order App.call App.int_at
                (Some ["prog"; "a"; "-v"; "b"]) None table [] None App.NULL w)
    as (_ & H & _).
  destruct (H ["prog"; "a"; "-v"; "b"]) as (Hbefore & _ & _ & Hall).
  destruct (Hall eq_refl) as [Hf Hv].
  split; [exact Hf|]. split; [exact Hv|]. exact Hbefore.
Defined.

(** * Further properties *)
(** ** The program name *)

Lemma all_chars_char_at (P : ascii -> bool) (s : string) (j : nat) :
  all_chars P s = true -> (j < strlen s)%nat -> P (char_at s j) = true.
Proof.
  revert j. induction s as [|c s IH]; intros j H Hj.
  - cbn in Hj. lia.
  - cbn [all_chars] in H. apply andb_prop in H as [Hc Hs].
    destruct j as [|j]; [exact Hc|].
    apply (IH j Hs). cbn [strlen String.length] in Hj. unfold strlen. lia.
Qed.

Lemma char_at_end (s : string) (j : nat) :
  (strlen s <= j)%nat -> char_at s j = NUL.
Proof.
  revert j. induction s as [|c s IH]; intros j Hj.
  - destruct j; reflexivity.
  - destruct j as [|j]; cbn [strlen String.length] in Hj; [lia|].
    apply IH. unfold strlen. lia.
Qed.

Lemma char_at_append_r (a b : string) (j : nat) :
  char_at (a +:+ b) (strlen a + j) = char_at b j.
Proof. induction a as [|c a IH]; [reflexivity | exact IH]. Qed.

Lemma char_at_append_l (a b : string) (j : nat) :
  (j < strlen a)%nat -> char_at (a +:+ b) j = char_at a j.
Proof.
  revert j. induction a as [|c a IH]; intros j Hj.
  - cbn in Hj. lia.
  - destruct j as [|j]; [reflexivity|]. rewrite append_cons.
    apply (IH j). cbn [strlen String.length] in Hj. unfold strlen. lia.
Qed.

Lemma strlen_append (a b : string) :
  strlen (a +:+ b) = (strlen a + strlen b)%nat.
Proof.
  unfold strlen. induction a as [|c a IH]; [reflexivity|].
  rewrite append_cons. cbn [String.length]. rewrite IH. reflexivity.
Qed.

Lemma offset_all (s : string) : offset (strlen s) s = EmptyString.
Proof. induction s as [|c s IH]; [reflexivity | exact IH]. Qed.

Lemma strlen_offset (n : nat) (s : string) :
  strlen (offset n s) = (strlen s - n)%nat.
Proof.
  revert s. induction n as [|n IH]; intros s.
  - cbn [offset]. lia.
  - destruct s as [|c s]; [reflexivity|]. cbn [offset]. rewrite IH.
    reflexivity.
Qed.

Lemma char_at_offset (n j : nat) (s : string) :
  char_at (offset n s) j = char_at s (n + j).
Proof.
  revert s. induction n as [|n IH]; intros s; [reflexivity|].
  destruct s as [|c s].
  - cbn [offset]. rewrite !char_at_end; [reflexivity | cbn; lia | cbn; lia].
  - cbn [offset]. rewrite IH. reflexivity.
Qed.

Lemma take_offset (n : nat) (s : string) : take n s +:+ offset n s = s.
Proof.
  revert s. induction n as [|n IH]; intros s.
  - destruct s; reflexivity.
  - destruct s as [|c s]; [reflexivity|]. cbn [take offset].
    rewrite append_cons, IH. reflexivity.
Qed.

Lemma strlen_take (n : nat) (s : string) :
  (n <= strlen s)%nat -> strlen (take n s) = n.
Proof.
  revert s. induction n as [|n IH]; intros s Hn.
  - destruct s; reflexivity.
  - destruct s as [|c s]; cbn [strlen String.length] in Hn; [lia|].
    cbn [take strlen String.length]. f_equal. apply IH. unfold strlen. lia.
Qed.

Lemma name_start_stops (win32 : bool) (s : string) (n k : nat) :
  (1 <= n)%nat ->
  n = 1%nat \/ is_separator win32 (char_at s (n - 1)) = true ->
  (forall j, (j < k)%nat -> is_separator win32 (char_at s (n + j)) = false) ->
  name_start win32 s (n + k) = n.
Proof.
  intros Hn Hstop. induction k as [|k IH]; intros Hk.
  - rewrite Nat.add_0_r. destruct n as [|n]; [lia|]. cbn [name_start].
    destruct Hstop as [Hone|Hsep].
    + injection Hone as ->. reflexivity.
    + replace (Datatypes.S n - 1)%nat with n in Hsep by lia. rewrite Hsep.
      rewrite andb_false_r. reflexivity.
  - replace (n + Datatypes.S k)%nat with (Datatypes.S (n + k)) by lia.
    cbn [name_start]. rewrite (Hk k) by lia.
    replace (1 <? Datatypes.S (n + k))%nat with true
      by (symmetry; apply Nat.ltb_lt; lia).
    cbn [negb andb]. apply IH. intros j Hj. apply Hk. lia.
Qed.

Lemma name_start_spec (win32 : bool) (s : string) (pos : nat) :
  let p := name_start win32 s pos in
  (p <= pos)%nat /\ ((1 <= pos)%nat -> (1 <= p)%nat) /\
  (forall k, (p <= k < pos)%nat -> is_separator win32 (char_at s k) = false).
Proof.
  induction pos as [|pos IH]; cbn [name_start].
  - repeat split; intros; lia.
  - destruct ((1 <? Datatypes.S pos)%nat
              && negb (is_separator win32 (char_at s pos)))%bool eqn:E.
    + apply andb_prop in E as [E1 E2]. apply Nat.ltb_lt in E1.
      apply negb_true_iff in E2. destruct IH as (H1 & H2 & H3).
      split; [lia|]. split; [intros _; apply H2; lia|].
      intros k Hk. destruct (decide (k = pos)) as [->|Hne]; [exact E2|].
      apply H3. lia.
    + split; [lia|]. split; [lia|]. intros k Hk. lia.
Qed.

Lemma no_separator_char_at (win32 : bool) (s : string) (j : nat) :
  no_separator win32 s = true -> is_separator win32 (char_at s j) = false.
Proof.
  intros H. destruct (decide (j < strlen s)%nat) as [Hj|Hj].
  - apply negb_true_iff.
    exact (all_chars_char_at _ s j H Hj).
  - rewrite char_at_end by lia. destruct win32; reflexivity.
Qed.

Lemma no_separator_offset (win32 : bool) (s : string) (p : nat) :
  (forall k, (p <= k)%nat -> is_separator win32 (char_at s k) = false) ->
  no_separator win32 (offset p s) = true.
Proof.
  revert p. induction s as [|c s IH]; intros p H.
  - destruct p; reflexivity.
  - destruct p as [|p].
    + cbn [offset]. unfold no_separator. cbn [all_chars].
      pose proof (H 0%nat ltac:(lia)) as H0.
      change (char_at (String c s) 0) with c in H0. rewrite H0.
      cbn [negb andb].
      apply (IH 0%nat). intros k Hk. apply (H (Datatypes.S k)). lia.
    + cbn [offset]. apply IH. intros k Hk. apply (H (Datatypes.S k)). lia.
Qed.

Lemma program_name_start (win32 : bool) (dir name : string) (c : ascii) :
  dir = EmptyString \/ is_separator win32 c = true ->
  no_separator win32 name = true ->
  name_start win32 (dir +:+ String c name)
    (strlen (dir +:+ String c name)) = Datatypes.S (strlen dir).
Proof.
  intros Hc Hname. rewrite strlen_append.
  replace (strlen dir + strlen (String c name))%nat
    with (Datatypes.S (strlen dir) + strlen name)%nat
    by (unfold strlen; cbn [String.length]; lia).
  apply (name_start_stops win32 _ (Datatypes.S (strlen dir)) (strlen name));
    [lia | |].
  - destruct Hc as [->|Hc]; [left; reflexivity|]. right.
    replace (Datatypes.S (strlen dir) - 1)%nat with (strlen dir + 0)%nat by lia.
    rewrite char_at_append_r. exact Hc.
  - intros j _.
    replace (Datatypes.S (strlen dir) + j)%nat
      with (strlen dir + Datatypes.S j)%nat by lia.
    rewrite char_at_append_r.
    exact (no_separator_char_at win32 name j Hname).
Qed.

Lemma program_name_nonempty (dir name : string) (c : ascii) :
  cstring (dir +:+ String c name) = true ->
  is_nul (char_at (dir +:+ String c name) 0) = false.
Proof.
  intros H. apply not_true_iff_false. intros Hn.
  apply (char_at_0_nul _ H) in Hn. destruct dir; discriminate.
Qed.

(** X8. For a path [dir/name] whose last part [name] holds no
    separator, [miniargv_getprogramname] returns [name]; without
    [_WIN32] the length it stores is the length of [name]. *)
Theorem program_name_after_last_separator (win32 : bool)
    (dir name : string) (sep : ascii) :
  cstring (dir +:+ String sep name) = true ->
  is_separator win32 sep = true ->
  no_separator win32 name = true ->
  (miniargv_getprogramname win32 (Some (dir +:+ String sep name))).1
  = Some name /\
  (win32 = false ->
   (miniargv_getprogramname win32 (Some (dir +:+ String sep name))).2
   = Z.of_nat (strlen name)).
Proof.
  intros Hcs Hsep Hname. unfold miniargv_getprogramname.
  rewrite (program_name_nonempty dir name sep Hcs).
  rewrite program_name_start by auto.
  cbn [fst snd]. split.
  - f_equal. apply (offset_append dir (String sep name) 1).
  - intros ->. cbn [andb]. rewrite strlen_append.
    unfold strlen. cbn [String.length]. lia.
Qed.

Lemma program_name_after_last_separator_witness :
  (miniargv_getprogramname false (Some "/usr/bin/prog")).1 = Some "prog" /\
  (miniargv_getprogramname false (Some "/usr/bin/prog")).2 = 4.
Proof.
  destruct (program_name_after_last_separator false "/usr/bin" "prog" "/")
    as [H1 H2]; [reflexivity | reflexivity | reflexivity |].
  split; [exact H1 | exact (H2 eq_refl)].
Defined.

(** X9. The loop stops at [pos = 1] without looking at [argv0[0]]: for
    a name with no separator after its first character, the returned
    name starts at the second character, whatever the first one is. A
    program found through the search path, whose [argv0] is its bare
    name, loses its first letter. *)
Theorem program_name_drops_first_character (win32 : bool) (c : ascii)
    (rest : string) :
  c <> NUL ->
  no_separator win32 rest = true ->
  (miniargv_getprogramname win32 (Some (String c rest))).1 = Some rest /\
  (win32 = false ->
   (miniargv_getprogramname win32 (Some (String c rest))).2
   = Z.of_nat (strlen rest)).
Proof.
  intros Hc Hrest. unfold miniargv_getprogramname.
  replace (is_nul (char_at (String c rest) 0)) with false
    by (symmetry; apply is_nul_false, Hc).
  pose proof (program_name_start win32 EmptyString rest c
                (or_introl eq_refl) Hrest) as Hp.
  change (EmptyString +:+ String c rest) with (String c rest) in Hp.
  rewrite Hp. cbn [fst snd]. split; [reflexivity|].
  intros ->. cbn [andb]. unfold strlen. cbn [String.length]. lia.
Qed.

Lemma program_name_drops_first_character_witness :
  (miniargv_getprogramname false (Some "prog")).1 = Some "rog" /\
  (miniargv_getprogramname false (Some "prog")).2 = 3.
Proof.
  destruct (program_name_drops_first_character false "p" "rog")
    as [H1 H2]; [discriminate | reflexivity |].
  split; [exact H1 | exact (H2 eq_refl)].
Defined.

Lemma prefix_nonempty (s : string) (p : nat) :
  (1 <= p <= strlen s)%nat -> take p s <> EmptyString.
Proof.
  intros Hp. destruct p as [|p]; [lia|].
  destruct s as [|c s]; [cbn in Hp; lia | discriminate].
Qed.

(** X10. For every non-empty [argv0], the name that
    [miniargv_getprogramname] returns is what is left of [argv0] after a
    non-empty prefix, it holds no separator, and the length stored is at
    most its length: exactly its length without [_WIN32]. *)
Theorem program_name_is_suffix (win32 : bool) (argv0 : string) :
  cstring argv0 = true ->
  argv0 <> EmptyString ->
  exists pre name,
    argv0 = pre +:+ name /\ pre <> EmptyString /\
    (miniargv_getprogramname win32 (Some argv0)).1 = Some name /\
    no_separator win32 name = true /\
    (miniargv_getprogramname win32 (Some argv0)).2 <= Z.of_nat (strlen name) /\
    (win32 = false ->
     (miniargv_getprogramname win32 (Some argv0)).2 = Z.of_nat (strlen name)).
Proof.
  intros Hcs Hne. unfold miniargv_getprogramname.
  replace (is_nul (char_at argv0 0)) with false.
  2:{ symmetry. apply not_true_iff_false. intros H.
      apply (char_at_0_nul _ Hcs) in H. contradiction. }
  destruct (name_start_spec win32 argv0 (strlen argv0)) as (Hle & Hge & Hno).
  set (p := name_start win32 argv0 (strlen argv0)) in *.
  assert (Hlen : (1 <= strlen argv0)%nat).
  { destruct argv0; [contradiction | cbn; lia]. }
  exists (take p argv0), (offset p argv0). cbn [fst snd].
  split; [symmetry; apply take_offset|].
  split; [apply prefix_nonempty; lia|].
  split; [reflexivity|].
  split.
  { apply no_separator_offset. intros k Hk.
    destruct (decide (k < strlen argv0)%nat) as [Hlt|Hge'].
    - apply Hno. lia.
    - rewrite char_at_end by lia. destruct win32; reflexivity. }
  rewrite strlen_offset. split.
  - destruct (win32 && (4 <=? strlen argv0)%nat
              && (strcasecmp (offset (strlen argv0 - 4) argv0) ".exe" =? 0))%bool;
      lia.
  - intros ->. cbn [andb]. lia.
Qed.

Lemma program_name_is_suffix_witness :
  exists pre name,
    "./prog"%string = pre +:+ name /\ pre <> EmptyString /\
    (miniargv_getprogramname false (Some "./prog")).1 = Some name /\
    no_separator false name = true /\
    (miniargv_getprogramname false (Some "./prog")).2
    <= Z.of_nat (strlen name) /\
    (false = false ->
     (miniargv_getprogramname false (Some "./prog")).2
     = Z.of_nat (strlen name)).
Proof.
  apply (program_name_is_suffix false "./prog"); [reflexivity | discriminate].
Defined.

Lemma offset_append_r (a b : string) : offset (strlen a) (a +:+ b) = b.
Proof. exact (offset_append a b 0). Qed.

Lemma take_append (a b : string) : take (strlen a) (a +:+ b) = a.
Proof.
  induction a as [|c a IH].
  - destruct b; reflexivity.
  - rewrite append_cons. cbn [strlen String.length take]. f_equal. exact IH.
Qed.

(** X11. Under [_WIN32], for a path [dir\stem.exe] (the extension in
    any letter case) the returned name still holds the extension, and the
    length stored is the length of [stem]: the first [length] characters
    of the result are the name without its extension. *)
Theorem program_name_windows_extension (dir stem ext : string) (sep : ascii) :
  cstring (dir +:+ String sep (stem +:+ ext)) = true ->
  is_separator true sep = true ->
  no_separator true (stem +:+ ext) = true ->
  strlen ext = 4%nat ->
  strcasecmp ext ".exe" = 0 ->
  let r := miniargv_getprogramname true
             (Some (dir +:+ String sep (stem +:+ ext))) in
  r.1 = Some (stem +:+ ext) /\ r.2 = Z.of_nat (strlen stem) /\
  take (Z.to_nat r.2) (stem +:+ ext) = stem.
Proof.
  intros Hcs Hsep Hname Hext Hcmp r. subst r.
  unfold miniargv_getprogramname.
  rewrite (program_name_nonempty dir (stem +:+ ext) sep Hcs).
  rewrite program_name_start by auto.
  set (s := dir +:+ String sep (stem +:+ ext)).
  assert (Hlen : strlen s = (strlen dir + 1 + strlen stem + 4)%nat).
  { subst s. rewrite strlen_append. cbn [strlen String.length].
    fold (strlen (stem +:+ ext)). rewrite strlen_append, Hext.
    unfold strlen. lia. }
  assert (Hoff : offset (strlen s - 4) s = ext).
  { rewrite Hlen.
    replace (strlen dir + 1 + strlen stem + 4 - 4)%nat
      with (strlen stem + 1 + strlen dir)%nat by lia.
    subst s. rewrite offset_append.
    replace (strlen stem + 1)%nat with (Datatypes.S (strlen stem)) by lia.
    cbn [offset]. apply offset_append_r. }
  rewrite Hoff, Hcmp.
  replace (4 <=? strlen s)%nat with true
    by (symmetry; apply Nat.leb_le; lia).
  cbn [andb Z.eqb fst snd].
  split; [f_equal; apply (offset_append dir (String sep (stem +:+ ext)) 1)|].
  assert (Hr : Z.of_nat (strlen s - 4) - Z.of_nat (Datatypes.S (strlen dir))
               = Z.of_nat (strlen stem)) by lia.
  rewrite Hr. split; [reflexivity|].
  rewrite Nat2Z.id. apply take_append.
Qed.

Lemma program_name_windows_extension_witness :
  let r := miniargv_getprogramname true (Some "C:\bin\Tool.EXE") in
  r.1 = Some "Tool.EXE"%string /\ r.2 = 4 /\
  take (Z.to_nat r.2) "Tool.EXE" = "Tool"%string.
Proof.
  apply (program_name_windows_extension "C:\bin" "Tool" ".EXE" "\");
    reflexivity.
Defined.
(** ** Integer values *)

Section IntegerFacts.

Import Predefined.

Lemma skip_spaces_all (ws rest : string) :
  all_chars isspace ws = true ->
  skip_spaces (ws +:+ rest) = skip_spaces rest.
Proof.
  induction ws as [|c ws IH]; [reflexivity|]. cbn [all_chars].
  intros H. apply andb_prop in H as [Hc Hws]. rewrite append_cons.
  cbn [skip_spaces]. rewrite Hc. auto.
Qed.

Lemma skip_spaces_id (s : string) :
  isspace (char_at s 0) = false -> skip_spaces s = s.
Proof.
  destruct s as [|c s]; [reflexivity|]. unfold char_at. cbn [String.get].
  intros H. cbn [skip_spaces]. rewrite H. reflexivity.
Qed.

Lemma digit_count_all (s : string) :
  all_chars isdigit s = true -> digit_count s = strlen s.
Proof.
  induction s as [|c s IH]; [reflexivity|]. cbn [all_chars].
  intros H. apply andb_prop in H as [Hc Hs]. cbn [digit_count].
  rewrite Hc, (IH Hs). reflexivity.
Qed.

Lemma string_of_uint_digits (u : Decimal.uint) :
  all_chars isdigit (NilEmpty.string_of_uint u) = true.
Proof. induction u; cbn [NilEmpty.string_of_uint all_chars]; auto. Qed.

(** The value [strtol] accumulates over a string of digits is the
    number the digits denote. *)
Lemma digits_value_uint (u : Decimal.uint) (acc : Z) :
  0 <= acc ->
  digits_value (NilEmpty.string_of_uint u) acc
  = if acc =? 0 then Z.of_N (Pos.of_uint u)
    else Z.pos (Pos.of_uint_acc u (Z.to_pos acc)).
Proof.
  revert acc. induction u as [|u IH|u IH|u IH|u IH|u IH|u IH|u IH|u IH|u IH|u IH];
    intros acc Hacc;
    cbn [NilEmpty.string_of_uint digits_value Pos.of_uint Pos.of_uint_acc].
  { destruct (Z.eqb_spec acc 0) as [->|Hne]; [reflexivity|].
    rewrite Z2Pos.id by lia. reflexivity. }
  all: match goal with
       | |- context [isdigit ?c] => change (isdigit c) with true
       end;
    cbv iota;
    match goal with
    | |- context [digit_value ?c] =>
        let v := eval vm_compute in (digit_value c) in
        change (digit_value c) with v
    end;
    rewrite IH by lia;
    destruct (Z.eqb_spec acc 0) as [->|Hne]; [reflexivity|];
    match goal with
    | |- context [?x =? 0] => destruct (Z.eqb_spec x 0) as [E|_]; [lia|]
    end;
    do 2 f_equal; apply Pos2Z.inj;
    rewrite ?Pos2Z.inj_add, ?Pos2Z.inj_mul, !Z2Pos.id by lia; lia.
Qed.

Lemma string_of_uint_first (u : Decimal.uint) :
  NilEmpty.string_of_uint u <> EmptyString ->
  let c := char_at (NilEmpty.string_of_uint u) 0 in
  isdigit c = true /\ isspace c = false /\
  Ascii.eqb c "-" = false /\ Ascii.eqb c "+" = false.
Proof. destruct u; intros H; [contradiction | repeat split ..]. Qed.

Lemma strlen_skip_spaces (ws rest : string) :
  all_chars isspace ws = true ->
  isspace (char_at rest 0) = false ->
  skip_spaces (ws +:+ rest) = rest /\
  (strlen (ws +:+ rest) - strlen rest)%nat = strlen ws.
Proof.
  intros Hws Hrest. rewrite skip_spaces_all, skip_spaces_id by assumption.
  split; [reflexivity|]. rewrite strlen_append. lia.
Qed.

Lemma digit_count_append (ds rest : string) :
  all_chars isdigit ds = true ->
  isdigit (char_at rest 0) = false ->
  digit_count (ds +:+ rest) = strlen ds.
Proof.
  intros Hds Hrest. induction ds as [|c ds IH].
  - destruct rest as [|c rest]; [reflexivity|].
    change (EmptyString +:+ String c rest) with (String c rest).
    cbn [digit_count]. unfold char_at in Hrest. cbn [String.get] in Hrest.
    rewrite Hrest. reflexivity.
  - cbn [all_chars] in Hds. apply andb_prop in Hds as [Hc Hds].
    rewrite append_cons. cbn [digit_count]. rewrite Hc, (IH Hds).
    reflexivity.
Qed.

Lemma digits_value_append (ds rest : string) (acc : Z) :
  all_chars isdigit ds = true ->
  isdigit (char_at rest 0) = false ->
  digits_value (ds +:+ rest) acc = digits_value ds acc.
Proof.
  intros Hds Hrest. revert acc. induction ds as [|c ds IH]; intros acc.
  - destruct rest as [|c rest]; [reflexivity|].
    change (EmptyString +:+ String c rest) with (String c rest).
    cbn [digits_value]. unfold char_at in Hrest. cbn [String.get] in Hrest.
    rewrite Hrest. reflexivity.
  - cbn [all_chars] in Hds. apply andb_prop in Hds as [Hc Hds].
    rewrite append_cons. cbn [digits_value]. rewrite Hc. apply (IH Hds).
Qed.

(** [strtol] on white space, an optional sign, digits and a rest that
    starts with no digit: the value of the digits, with the sign,
    brought to the range of [long]; [end] is left at the rest. *)
Lemma strtol_decimal (bits : Z) (ws ds rest : string) (sg : sign)
    (u : Decimal.uint) :
  all_chars isspace ws = true ->
  ds <> EmptyString ->
  NilEmpty.uint_of_string ds = Some u ->
  isdigit (char_at rest 0) = false ->
  strtol bits (ws +:+ sign_text sg +:+ ds +:+ rest)
  = (clamp bits (signed sg (Z.of_uint u)),
     (strlen ws + strlen (sign_text sg) + strlen ds)%nat).
Proof.
  intros Hws Hne Hu Hrest. apply NilEmpty.sus in Hu. subst ds.
  destruct (string_of_uint_first u Hne) as (Hd & Hsp & Hminus & Hplus).
  cbv zeta in Hd, Hsp, Hminus, Hplus.
  pose proof (string_of_uint_digits u) as Hdigits.
  set (ds := NilEmpty.string_of_uint u) in *.
  assert (Hc : char_at (ds +:+ rest) 0 = char_at ds 0).
  { apply char_at_append_l. destruct ds; [contradiction | cbn; lia]. }
  assert (Hfirst :
    isspace (char_at (sign_text sg +:+ ds +:+ rest) 0) = false).
  { destruct sg; [|reflexivity|reflexivity].
    change (sign_text NoSign +:+ ds +:+ rest) with (ds +:+ rest).
    rewrite Hc. exact Hsp. }
  destruct (strlen_skip_spaces ws (sign_text sg +:+ ds +:+ rest) Hws Hfirst)
    as [Hskip Hlen].
  unfold strtol. rewrite Hskip, Hlen.
  assert (Hsign :
    (if Ascii.eqb (char_at (sign_text sg +:+ ds +:+ rest) 0) "-"
     then (true, 1%nat)
     else if Ascii.eqb (char_at (sign_text sg +:+ ds +:+ rest) 0) "+"
          then (false, 1%nat) else (false, 0%nat))
    = (match sg with Minus => true | _ => false end, strlen (sign_text sg))).
  { destruct sg; [|reflexivity|reflexivity].
    change (sign_text NoSign +:+ ds +:+ rest) with (ds +:+ rest).
    rewrite Hc, Hminus, Hplus. reflexivity. }
  rewrite Hsign.
  replace (offset (strlen (sign_text sg)) (sign_text sg +:+ ds +:+ rest))
    with (ds +:+ rest) by (symmetry; apply offset_append_r).
  rewrite (digit_count_append ds rest Hdigits Hrest).
  rewrite (digits_value_append ds rest 0 Hdigits Hrest).
  replace (strlen ds =? 0)%nat with false.
  2:{ symmetry. apply Nat.eqb_neq. destruct ds; [contradiction | discriminate]. }
  subst ds. rewrite (digits_value_uint u 0) by lia.
  change (0 =? 0) with true. cbv iota.
  unfold clamp, Z.of_uint.
  destruct sg; cbn [signed]; f_equal; lia.
Qed.

(** A string splits into the white space that [strtol] skips, the sign
    it reads, the digits it reads, and the rest. *)
Lemma skip_spaces_split (v : string) :
  exists ws, v = ws +:+ skip_spaces v /\ all_chars isspace ws = true /\
             isspace (char_at (skip_spaces v) 0) = false.
Proof.
  induction v as [|c v (ws & Hv & Hws & Hs)].
  - exists EmptyString. repeat split.
  - cbn [skip_spaces]. destruct (isspace c) eqn:E.
    + exists (String c ws). rewrite append_cons, <- Hv.
      split; [reflexivity|]. cbn [all_chars]. rewrite E, Hws. auto.
    + exists EmptyString. split; [reflexivity|]. split; [reflexivity|].
      exact E.
Qed.

Lemma digits_split (s : string) :
  exists ds rest, s = ds +:+ rest /\ all_chars isdigit ds = true /\
                  isdigit (char_at rest 0) = false.
Proof.
  induction s as [|c s (ds & rest & Hs & Hds & Hrest)].
  - exists EmptyString, EmptyString. repeat split.
  - destruct (isdigit c) eqn:E.
    + exists (String c ds), rest. rewrite append_cons, <- Hs.
      split; [reflexivity|]. cbn [all_chars]. rewrite E, Hds. auto.
    + exists EmptyString, (String c s). repeat split. exact E.
Qed.

Lemma isdigit_cases (c : ascii) :
  isdigit c = true ->
  In c ["0"; "1"; "2"; "3"; "4"; "5"; "6"; "7"; "8"; "9"]%char.
Proof.
  destruct c as [[] [] [] [] [] [] [] []]; intros H; try discriminate H;
    cbn; tauto.
Qed.

Lemma all_digits_uint (ds : string) :
  all_chars isdigit ds = true ->
  exists u, NilEmpty.uint_of_string ds = Some u.
Proof.
  induction ds as [|c ds IH]; [exists Decimal.Nil; reflexivity|].
  cbn [all_chars]. intros H. apply andb_prop in H as [Hc Hds].
  destruct (IH Hds) as [u Hu]. cbn [NilEmpty.uint_of_string]. rewrite Hu.
  apply isdigit_cases in Hc. cbn [In] in Hc.
  repeat (destruct Hc as [<-|Hc]; [eexists; reflexivity|]). contradiction.
Qed.

Lemma sign_split (s : string) :
  isspace (char_at s 0) = false ->
  exists sg t,
    s = sign_text sg +:+ t /\
    (sg = NoSign -> Ascii.eqb (char_at t 0) "-" = false /\
                    Ascii.eqb (char_at t 0) "+" = false).
Proof.
  intros _. destruct s as [|c s].
  - exists NoSign, EmptyString. repeat split.
  - destruct (Ascii.eqb_spec c "-") as [->|Hm].
    + exists Minus, s. split; [reflexivity | discriminate].
    + destruct (Ascii.eqb_spec c "+") as [->|Hp].
      * exists Plus, s. split; [reflexivity | discriminate].
      * exists NoSign, (String c s). split; [reflexivity|]. intros _.
        unfold char_at. cbn [String.get].
        split; apply Ascii.eqb_neq; assumption.
Qed.

(** With no digit after the optional sign, [strtol] converts nothing. *)
Lemma strtol_no_digits (bits : Z) (ws rest : string) (sg : sign) :
  all_chars isspace ws = true ->
  isspace (char_at (sign_text sg +:+ rest) 0) = false ->
  (sg = NoSign -> Ascii.eqb (char_at rest 0) "-" = false /\
                  Ascii.eqb (char_at rest 0) "+" = false) ->
  isdigit (char_at rest 0) = false ->
  strtol bits (ws +:+ sign_text sg +:+ rest) = (0, 0%nat).
Proof.
  intros Hws Hfirst Hsg Hrest.
  destruct (strlen_skip_spaces ws (sign_text sg +:+ rest) Hws Hfirst)
    as [Hskip _].
  unfold strtol. rewrite Hskip.
  assert (Hsign :
    (if Ascii.eqb (char_at (sign_text sg +:+ rest) 0) "-" then (true, 1%nat)
     else if Ascii.eqb (char_at (sign_text sg +:+ rest) 0) "+"
          then (false, 1%nat) else (false, 0%nat))
    = (match sg with Minus => true | _ => false end, strlen (sign_text sg))).
  { destruct sg; [|reflexivity|reflexivity].
    change (sign_text NoSign +:+ rest) with rest.
    destruct (Hsg eq_refl) as [-> ->]. reflexivity. }
  rewrite Hsign.
  replace (offset (strlen (sign_text sg)) (sign_text sg +:+ rest))
    with rest by (symmetry; apply offset_append_r).
  pose proof (digit_count_append EmptyString rest eq_refl Hrest) as Hn.
  change (EmptyString +:+ rest) with rest in Hn. rewrite Hn.
  reflexivity.
Qed.

Variable LONG_BITS : Z.
Hypothesis long_bits : 0 < LONG_BITS.

Lemma min_lt_max : min_signed LONG_BITS < max_signed LONG_BITS.
Proof.
  unfold min_signed, max_signed.
  assert (0 < 2 ^ (LONG_BITS - 1)) by (apply Z.pow_pos_nonneg; lia).
  assert (1 <= 2 ^ (LONG_BITS - 1)) by lia.
  destruct (decide (LONG_BITS = 1)) as [->|Hne].
  - cbn. lia.
  - assert (2 ^ 1 <= 2 ^ (LONG_BITS - 1))
      by (apply Z.pow_le_mono_r; lia).
    change (2 ^ 1) with 2 in *. lia.
Qed.

Context {F D : Type}.

Lemma isspace_not_nul (c : ascii) : isspace c = true -> is_nul c = false.
Proof.
  intros H. unfold is_nul. destruct (Ascii.eqb_spec c NUL) as [->|_];
    [discriminate H | reflexivity].
Qed.

Lemma decimal_starts (ws ds : string) (sg : sign) (u : Decimal.uint) :
  all_chars isspace ws = true ->
  ds <> EmptyString ->
  NilEmpty.uint_of_string ds = Some u ->
  is_nul (char_at (ws +:+ sign_text sg +:+ ds) 0) = false.
Proof.
  intros Hws Hne Hu. destruct ws as [|c ws].
  - apply NilEmpty.sus in Hu. subst ds.
    destruct sg; [|reflexivity|reflexivity].
    destruct u; [contradiction | reflexivity ..].
  - cbn [all_chars] in Hws. apply andb_prop in Hws as [Hc _].
    apply isspace_not_nul. exact Hc.
Qed.

Lemma decimal_read (ws ds : string) (sg : sign) (u : Decimal.uint) :
  all_chars isspace ws = true ->
  ds <> EmptyString ->
  NilEmpty.uint_of_string ds = Some u ->
  let v := ws +:+ sign_text sg +:+ ds in
  exists e,
    strtol LONG_BITS v = (clamp LONG_BITS (signed sg (Z.of_uint u)), e) /\
    is_nul (char_at v e) = true.
Proof.
  intros Hws Hne Hu v.
  pose proof (strtol_decimal LONG_BITS ws ds EmptyString sg u Hws Hne Hu
                eq_refl) as Hs.
  rewrite append_empty_r in Hs. eexists. split; [exact Hs|].
  subst v. rewrite char_at_end; [reflexivity|].
  rewrite !strlen_append. lia.
Qed.

(** X15. [miniargv_cb_set_long] reads a decimal number: for a value
    made of white space, an optional sign and at least one digit, it
    stores the number the digits denote, with the sign, and returns 0,
    provided the number lies strictly between [LONG_MIN] and [LONG_MAX];
    at or below [LONG_MIN] it returns 3, at or above [LONG_MAX] it returns
    4, and the object is then left as it was. *)
Theorem set_long_reads_decimal (d : miniargv_definition F)
    (cbd : callbackdata D) (m : gmap Z Z) (old : Z) (ws ds : string)
    (sg : sign) (u : Decimal.uint) :
  m !! userdata d = Some old ->
  all_chars isspace ws = true ->
  ds <> EmptyString ->
  NilEmpty.uint_of_string ds = Some u ->
  let z := signed sg (Z.of_uint u) in
  miniargv_cb_set_long LONG_BITS (Some d)
    (Some (ws +:+ sign_text sg +:+ ds)) cbd m
  = if z <=? min_signed LONG_BITS then (3, m)
    else if max_signed LONG_BITS <=? z then (4, m)
    else (0, <[userdata d := z]> m).
Proof.
  intros Hm Hws Hne Hu z. unfold miniargv_cb_set_long.
  rewrite (decimal_starts ws ds sg u Hws Hne Hu).
  destruct (decimal_read ws ds sg u Hws Hne Hu) as (e & -> & ->).
  fold z. cbn [negb]. pose proof min_lt_max as Hlt. unfold clamp.
  destruct (Z.leb_spec z (min_signed LONG_BITS)) as [Hlo|Hlo].
  { replace (_ =? min_signed LONG_BITS) with true
      by (symmetry; apply Z.eqb_eq; lia).
    reflexivity. }
  replace (_ =? min_signed LONG_BITS) with false
    by (symmetry; apply Z.eqb_neq; lia).
  destruct (Z.leb_spec (max_signed LONG_BITS) z) as [Hhi|Hhi].
  { replace (_ =? max_signed LONG_BITS) with true
      by (symmetry; apply Z.eqb_eq; lia).
    reflexivity. }
  replace (_ =? max_signed LONG_BITS) with false
    by (symmetry; apply Z.eqb_neq; lia).
  unfold update_object. rewrite (alter_present _ _ old) by exact Hm.
  do 2 f_equal. lia.
Qed.

(** X17. [miniargv_cb_set_int] checks the number against the range of
    [long], not of [int]: a number strictly between [LONG_MIN] and
    [LONG_MAX] is accepted with result 0 and stored reduced to 32 bits.
    The stored value is the number itself when it fits an [int]; a number
    that does not fit is stored as another number, with no error. *)
Theorem set_int_checks_long_range (d : miniargv_definition F)
    (cbd : callbackdata D) (m : gmap Z Z) (old : Z) (ws ds : string)
    (sg : sign) (u : Decimal.uint) :
  m !! userdata d = Some old ->
  all_chars isspace ws = true ->
  ds <> EmptyString ->
  NilEmpty.uint_of_string ds = Some u ->
  let z := signed sg (Z.of_uint u) in
  min_signed LONG_BITS < z < max_signed LONG_BITS ->
  miniargv_cb_set_int LONG_BITS (Some d)
    (Some (ws +:+ sign_text sg +:+ ds)) cbd m
  = (0, <[userdata d := wrap INT_BITS z]> m) /\
  (min_signed INT_BITS <= z <= max_signed INT_BITS -> wrap INT_BITS z = z) /\
  (~ min_signed INT_BITS <= z <= max_signed INT_BITS -> wrap INT_BITS z <> z).
Proof.
  intros Hm Hws Hne Hu z Hz. split; [|split].
  - unfold miniargv_cb_set_int.
    rewrite (decimal_starts ws ds sg u Hws Hne Hu).
    destruct (decimal_read ws ds sg u Hws Hne Hu) as (e & -> & ->).
    fold z. cbn [negb]. unfold clamp.
    replace (_ =? min_signed LONG_BITS) with false
      by (symmetry; apply Z.eqb_neq; lia).
    replace (_ =? max_signed LONG_BITS) with false
      by (symmetry; apply Z.eqb_neq; lia).
    unfold update_object. rewrite (alter_present _ _ old) by exact Hm.
    do 3 f_equal. lia.
  - intros Hr. apply wrap_in_range; [reflexivity | exact Hr].
  - intros Hr Hw. apply Hr. rewrite <- Hw. unfold wrap, min_signed, max_signed.
    change (2 ^ (INT_BITS - 1)) with 2147483648.
    change (2 ^ INT_BITS) with 4294967296.
    pose proof (Z.mod_pos_bound (z + 2147483648) 4294967296 eq_refl). lia.
Qed.

(** What [strtol] accepts up to the terminator is white space, an
    optional sign and at least one digit. *)
Lemma strtol_reads_all (v : string) :
  cstring v = true ->
  is_nul (char_at v 0) = false ->
  is_nul (char_at v (strtol LONG_BITS v).2) = true ->
  exists ws sg ds u,
    v = ws +:+ sign_text sg +:+ ds /\ all_chars isspace ws = true /\
    ds <> EmptyString /\ NilEmpty.uint_of_string ds = Some u /\
    (strtol LONG_BITS v).1 = clamp LONG_BITS (signed sg (Z.of_uint u)).
Proof.
  intros Hcs Hstart Hend.
  destruct (skip_spaces_split v) as (ws & Hv & Hws & Hs).
  destruct (sign_split (skip_spaces v) Hs) as (sg & t & Ht & Hsg).
  destruct (digits_split t) as (ds & rest & Hdr & Hds & Hrest).
  rewrite Ht in Hv, Hs. clear Ht. subst t.
  destruct (decide (ds = EmptyString)) as [->|Hne].
  - change (EmptyString +:+ rest) with rest in Hv, Hs, Hsg.
    rewrite Hv in Hend at 2.
    rewrite (strtol_no_digits LONG_BITS ws rest sg Hws Hs Hsg Hrest) in Hend.
    cbn [snd] in Hend. rewrite Hend in Hstart. discriminate.
  - destruct (all_digits_uint ds Hds) as [u Hu].
    pose proof (strtol_decimal LONG_BITS ws ds rest sg u Hws Hne Hu Hrest)
      as Hst.
    rewrite <- Hv in Hst. rewrite Hst in Hend |- *. cbn [fst snd] in Hend |- *.
    assert (Hr : rest = EmptyString).
    { apply char_at_0_nul.
      - rewrite Hv in Hcs. do 3 apply cstring_append in Hcs. exact Hcs.
      - rewrite Hv in Hend.
        replace (strlen ws + strlen (sign_text sg) + strlen ds)%nat
          with (strlen ws + (strlen (sign_text sg) + (strlen ds + 0)))%nat
          in Hend by lia.
        rewrite !char_at_append_r in Hend. exact Hend. }
    subst rest. rewrite append_empty_r in Hv.
    exists ws, sg, ds, u. auto.
Qed.

(** X16. [miniargv_cb_set_long] and [miniargv_cb_set_int] return 0 for
    no other value: when either returns 0, the value is white space, an
    optional sign and at least one digit, nothing after the digits, and
    the number lies strictly between [LONG_MIN] and [LONG_MAX]. *)
Theorem integer_callbacks_accept_only_decimal
    (argdef : option (miniargv_definition F)) (cbd : callbackdata D)
    (m : gmap Z Z) (v : string) :
  cstring v = true ->
  (miniargv_cb_set_long LONG_BITS argdef (Some v) cbd m).1 = 0 \/
  (miniargv_cb_set_int LONG_BITS argdef (Some v) cbd m).1 = 0 ->
  exists ws sg ds u,
    v = ws +:+ sign_text sg +:+ ds /\ all_chars isspace ws = true /\
    ds <> EmptyString /\ NilEmpty.uint_of_string ds = Some u /\
    min_signed LONG_BITS < signed sg (Z.of_uint u) < max_signed LONG_BITS.
Proof.
  intros Hcs H.
  assert (Hok : is_nul (char_at v 0) = false /\
                is_nul (char_at v (strtol LONG_BITS v).2) = true /\
                (strtol LONG_BITS v).1 <> min_signed LONG_BITS /\
                (strtol LONG_BITS v).1 <> max_signed LONG_BITS).
  { unfold miniargv_cb_set_long, miniargv_cb_set_int in H.
    destruct (is_nul (char_at v 0)); [destruct H; discriminate|].
    destruct (strtol LONG_BITS v) as [intval e]. cbn [fst snd].
    destruct (is_nul (char_at v e)); [|destruct H; discriminate].
    destruct (Z.eqb_spec intval (min_signed LONG_BITS));
      [destruct H; discriminate|].
    destruct (Z.eqb_spec intval (max_signed LONG_BITS));
      [destruct H; discriminate|].
    auto. }
  destruct Hok as (Hstart & Hend & Hmin & Hmax).
  destruct (strtol_reads_all v Hcs Hstart Hend)
    as (ws & sg & ds & u & Hv & Hws & Hne & Hu & Hval).
  exists ws, sg, ds, u. repeat (split; [assumption|]).
  rewrite Hval in Hmin, Hmax. unfold clamp in Hmin, Hmax.
  pose proof min_lt_max. lia.
Qed.

Lemma set_long_stores (d : miniargv_definition F) (cbd : callbackdata D)
    (m : gmap Z Z) (old : Z) (ws ds : string) (sg : sign)
    (u : Decimal.uint) :
  m !! userdata d = Some old ->
  all_chars isspace ws = true ->
  ds <> EmptyString ->
  NilEmpty.uint_of_string ds = Some u ->
  min_signed LONG_BITS < signed sg (Z.of_uint u) < max_signed LONG_BITS ->
  miniargv_cb_set_long LONG_BITS (Some d)
    (Some (ws +:+ sign_text sg +:+ ds)) cbd m
  = (0, <[userdata d := signed sg (Z.of_uint u)]> m).
Proof.
  intros Hm Hws Hne Hu Hz. unfold miniargv_cb_set_long.
  rewrite (decimal_starts ws ds sg u Hws Hne Hu).
  destruct (decimal_read ws ds sg u Hws Hne Hu) as (e & -> & ->).
  cbn [negb]. unfold clamp.
  replace (_ =? min_signed LONG_BITS) with false
    by (symmetry; apply Z.eqb_neq; lia).
  replace (_ =? max_signed LONG_BITS) with false
    by (symmetry; apply Z.eqb_neq; lia).
  unfold update_object. rewrite (alter_present _ _ old) by exact Hm.
  do 2 f_equal. lia.
Qed.

(** X18. Writing a number in decimal and handing the text to
    [miniargv_cb_set_long] stores the number: for every [z] strictly
    between [LONG_MIN] and [LONG_MAX] the callback returns 0 and the
    object holds [z]. *)
Theorem set_long_round_trip (d : miniargv_definition F)
    (cbd : callbackdata D) (m : gmap Z Z) (old z : Z) :
  m !! userdata d = Some old ->
  min_signed LONG_BITS < z < max_signed LONG_BITS ->
  miniargv_cb_set_long LONG_BITS (Some d) (Some (decimal z)) cbd m
  = (0, <[userdata d := z]> m).
Proof.
  intros Hm Hz. unfold decimal. destruct z as [|p|p].
  - exact (set_long_stores d cbd m old EmptyString "0" NoSign
             (Decimal.D0 Decimal.Nil) Hm eq_refl ltac:(discriminate)
             eq_refl Hz).
  - cbn [Z.to_int NilZero.string_of_int].
    pose proof (DecimalPos.Unsigned.to_uint_nonnil p) as Hnil.
    assert (Hs : NilZero.string_of_uint (Pos.to_uint p)
                 = NilEmpty.string_of_uint (Pos.to_uint p))
      by (destruct (Pos.to_uint p); [contradiction | reflexivity ..]).
    rewrite Hs.
    assert (Hval : Z.of_uint (Pos.to_uint p) = Z.pos p)
      by (unfold Z.of_uint; rewrite DecimalPos.Unsigned.of_to; reflexivity).
    pose proof (set_long_stores d cbd m old EmptyString
                  (NilEmpty.string_of_uint (Pos.to_uint p)) NoSign
                  (Pos.to_uint p) Hm eq_refl) as H.
    cbn [signed] in H. rewrite Hval in H. apply H.
    + destruct (Pos.to_uint p); [contradiction | discriminate ..].
    + apply NilEmpty.usu.
    + exact Hz.
  - cbn [Z.to_int NilZero.string_of_int].
    pose proof (DecimalPos.Unsigned.to_uint_nonnil p) as Hnil.
    assert (Hs : NilZero.string_of_uint (Pos.to_uint p)
                 = NilEmpty.string_of_uint (Pos.to_uint p))
      by (destruct (Pos.to_uint p); [contradiction | reflexivity ..]).
    rewrite Hs.
    assert (Hval : Z.of_uint (Pos.to_uint p) = Z.pos p)
      by (unfold Z.of_uint; rewrite DecimalPos.Unsigned.of_to; reflexivity).
    pose proof (set_long_stores d cbd m old EmptyString
                  (NilEmpty.string_of_uint (Pos.to_uint p)) Minus
                  (Pos.to_uint p) Hm eq_refl) as H.
    cbn [signed] in H. rewrite Hval in H. apply H.
    + destruct (Pos.to_uint p); [contradiction | discriminate ..].
    + apply NilEmpty.usu.
    + exact Hz.
Qed.

End IntegerFacts.

Lemma set_long_reads_decimal_witness :
  let d : miniargv_definition unit :=
    mk_def "n" None (Some "N") (Some tt) 100 None in
  let m : gmap Z Z := {[100 := 5]} in
  miniargv_cb_set_long 64 (Some d) (Some " -42") (UserData tt) m
  = (0, <[100 := -42]> m).
Proof.
  intros d m.
  exact (set_long_reads_decimal 64 eq_refl d (UserData tt) m 5 " " "42" Minus
           (Decimal.D4 (Decimal.D2 Decimal.Nil)) eq_refl eq_refl
           ltac:(discriminate) eq_refl).
Defined.

Lemma set_int_checks_long_range_witness :
  let d : miniargv_definition unit :=
    mk_def "n" None (Some "N") (Some tt) 100 None in
  let m : gmap Z Z := {[100 := 5]} in
  miniargv_cb_set_int 64 (Some d) (Some "4294967297") (UserData tt) m
  = (0, <[100 := 1]> m).
Proof.
  intros d m.
  destruct (set_int_checks_long_range 64 d (UserData tt) m 5
              EmptyString "4294967297" NoSign
              (Decimal.D4 (Decimal.D2 (Decimal.D9 (Decimal.D4 (Decimal.D9
                (Decimal.D6 (Decimal.D7 (Decimal.D2 (Decimal.D9
                  (Decimal.D7 Decimal.Nil))))))))))
              eq_refl eq_refl ltac:(discriminate) eq_refl)
    as [H _]; [vm_compute; split; reflexivity | exact H].
Defined.

Lemma integer_callbacks_accept_only_decimal_witness :
  exists ws sg ds u,
    "+7"%string = ws +:+ sign_text sg +:+ ds /\
    all_chars isspace ws = true /\ ds <> EmptyString /\
    NilEmpty.uint_of_string ds = Some u /\
    Predefined.min_signed 64 < signed sg (Z.of_uint u)
    < Predefined.max_signed 64.
Proof.
  apply (integer_callbacks_accept_only_decimal 64 eq_refl
           (Some (mk_def "n" None (Some "N") (Some tt) 100 None : miniargv_definition unit))
           (UserData tt : callbackdata unit) {[100 := 5]} "+7");
    [reflexivity | left; reflexivity].
Defined.

Lemma set_long_round_trip_witness :
  let d : miniargv_definition unit :=
    mk_def "n" None (Some "N") (Some tt) 100 None in
  let m : gmap Z Z := {[100 := 5]} in
  miniargv_cb_set_long 64 (Some d) (Some "-1234") (UserData tt) m
  = (0, <[100 := -1234]> m).
Proof.
  intros d m.
  apply (set_long_round_trip 64 d (UserData tt) m 5 (-1234));
    [reflexivity | vm_compute; split; reflexivity].
Defined.
(** ** Wrapped text *)

Section WrapFacts.

Lemma word_length_le (s : string) : (word_length s <= strlen s)%nat.
Proof.
  induction s as [|c s IH]; [reflexivity|]. cbn [word_length].
  destruct (isspace c); cbn [strlen String.length]; unfold strlen in IH; lia.
Qed.

Lemma space_length_le (s : string) : (space_length s <= strlen s)%nat.
Proof.
  induction s as [|c s IH]; [reflexivity|]. cbn [space_length].
  destruct (isspace c); cbn [strlen String.length]; unfold strlen in IH; lia.
Qed.

Lemma word_length_boundary (s : string) : boundary s (word_length s).
Proof.
  induction s as [|c s IH]; [left; reflexivity|]. cbn [word_length].
  destruct (isspace c) eqn:E.
  - right. exact E.
  - destruct IH as [IH|IH].
    + left. cbn [strlen String.length]. f_equal. exact IH.
    + right. exact IH.
Qed.

Lemma word_length_word (s : string) :
  all_chars (fun c => negb (isspace c)) (take (word_length s) s) = true.
Proof.
  induction s as [|c s IH]; [reflexivity|]. cbn [word_length].
  destruct (isspace c) eqn:E; [reflexivity|].
  cbn [take all_chars]. rewrite E. exact IH.
Qed.

Lemma space_length_spaces (s : string) :
  all_chars isspace (take (space_length s) s) = true.
Proof.
  induction s as [|c s IH]; [reflexivity|]. cbn [space_length].
  destruct (isspace c) eqn:E; [|reflexivity].
  cbn [take all_chars]. rewrite E. exact IH.
Qed.

Lemma skip_spaces_offset (s : string) :
  skip_spaces s = offset (space_length s) s.
Proof.
  induction s as [|c s IH]; [reflexivity|].
  cbn [skip_spaces space_length]. destruct (isspace c); [exact IH|reflexivity].
Qed.

Lemma lengths_zero (s : string) :
  word_length s = 0%nat -> space_length s = 0%nat -> s = EmptyString.
Proof.
  destruct s as [|c s]; [reflexivity|]. cbn [word_length space_length].
  destruct (isspace c); discriminate.
Qed.

Lemma offset_add (n k : nat) (s : string) :
  offset (n + k) s = offset k (offset n s).
Proof.
  revert s. induction n as [|n IH]; intros s; [reflexivity|].
  destruct s as [|c s].
  - cbn [Nat.add offset]. destruct k; reflexivity.
  - cbn [Nat.add offset]. apply IH.
Qed.

Lemma take_add (n k : nat) (s : string) :
  take (n + k) s = take n s +:+ take k (offset n s).
Proof.
  revert s. induction n as [|n IH]; intros s.
  - cbn [Nat.add offset]. destruct s; reflexivity.
  - destruct s as [|c s].
    + cbn [Nat.add take offset]. destruct k; reflexivity.
    + cbn [Nat.add take offset]. rewrite append_cons, IH. reflexivity.
Qed.

Lemma boundary_offset (p : string) (r n : nat) :
  (r <= strlen p)%nat -> boundary (offset r p) n -> boundary p (r + n).
Proof.
  intros Hr [H|H].
  - left. rewrite strlen_offset in H. lia.
  - right. rewrite char_at_offset in H. exact H.
Qed.

(** *** The wrap position *)

Lemma find_wrap_boundary (fuel : nat) (p : string) (currentpos wrapwidth : Z)
    (q r res : nat) :
  (r <= strlen p)%nat ->
  q = 0%nat \/ ((q <= strlen p)%nat /\ boundary p q) ->
  find_wrap fuel p currentpos wrapwidth q r = Some res ->
  (res <= strlen p)%nat /\ boundary p res.
Proof.
  revert q r. induction fuel as [|fuel IH]; intros q r Hr Hq H;
    [discriminate|].
  cbn [find_wrap] in H.
  set (r1 := (r + word_length (offset r p))%nat) in *.
  assert (Hr1 : (r1 <= strlen p)%nat).
  { pose proof (word_length_le (offset r p)) as Hw.
    rewrite strlen_offset in Hw. subst r1. lia. }
  assert (Hb1 : boundary p r1)
    by (apply boundary_offset; [exact Hr | apply word_length_boundary]).
  destruct (wrapwidth <? currentpos + Z.of_nat r1).
  { injection H as <-. destruct (Nat.eqb_spec q 0) as [->|Hne]; [auto|].
    destruct Hq as [->|Hq]; [contradiction | exact Hq]. }
  destruct (Ascii.eqb (char_at p r1) LF); [injection H as <-; auto|].
  set (r2 := (r1 + space_length (offset r1 p))%nat) in *.
  destruct (negb (is_nul (char_at p r2))); [|injection H as <-; auto].
  apply (IH r1 r2); [|auto|exact H].
  pose proof (space_length_le (offset r1 p)) as Hs.
  rewrite strlen_offset in Hs. subst r2. lia.
Qed.

Lemma find_wrap_total (fuel : nat) (p : string) (currentpos wrapwidth : Z)
    (q r : nat) :
  (strlen p - r < fuel)%nat -> (r <= strlen p)%nat ->
  exists res, find_wrap fuel p currentpos wrapwidth q r = Some res.
Proof.
  revert q r. induction fuel as [|fuel IH]; intros q r Hfuel Hr; [lia|].
  cbn [find_wrap].
  set (r1 := (r + word_length (offset r p))%nat).
  destruct (wrapwidth <? currentpos + Z.of_nat r1); [eexists; reflexivity|].
  destruct (Ascii.eqb (char_at p r1) LF); [eexists; reflexivity|].
  set (r2 := (r1 + space_length (offset r1 p))%nat).
  destruct (is_nul (char_at p r2)) eqn:E; cbn [negb];
    [eexists; reflexivity|].
  assert (Hr2 : (r2 < strlen p)%nat).
  { destruct (decide (r2 < strlen p)%nat) as [Hlt|Hge]; [exact Hlt|].
    rewrite char_at_end in E by lia. discriminate. }
  assert (Hgt : (r < r2)%nat).
  { destruct (decide (r < r2)%nat) as [Hlt|Hge]; [exact Hlt|]. exfalso.
    assert (Hw : word_length (offset r p) = 0%nat) by (subst r1 r2; lia).
    assert (Hr1 : r1 = r) by (subst r1; lia).
    assert (Hs : space_length (offset r p) = 0%nat)
      by (subst r2; rewrite Hr1 in *; lia).
    pose proof (lengths_zero _ Hw Hs) as He.
    assert (Hl : strlen (offset r p) = 0%nat) by (rewrite He; reflexivity).
    rewrite strlen_offset in Hl. lia. }
  apply IH; lia.
Qed.

Lemma find_wrap_start (p : string) (currentpos wrapwidth : Z) :
  exists q,
    find_wrap (Datatypes.S (strlen p)) p currentpos wrapwidth 0 0 = Some q /\
    (q <= strlen p)%nat /\ boundary p q.
Proof.
  destruct (find_wrap_total (Datatypes.S (strlen p)) p currentpos wrapwidth
              0 0) as [q Hq]; [lia | lia |].
  exists q. split; [exact Hq|].
  apply (find_wrap_boundary (Datatypes.S (strlen p)) p currentpos wrapwidth
           0 0 q); [lia | auto | exact Hq].
Qed.

(** *** Words *)

Lemma words_from_space (a b : string) (c : ascii) (cur : string) :
  isspace c = true ->
  words_from (a +:+ String c b) cur = words_from a cur ++ words b.
Proof.
  intros Hc. revert cur. induction a as [|x a IH]; intros cur.
  - change (EmptyString +:+ String c b) with (String c b).
    cbn [words_from]. rewrite Hc. destruct cur; reflexivity.
  - rewrite append_cons. cbn [words_from]. destruct (isspace x).
    + destruct cur; rewrite IH; reflexivity.
    + apply IH.
Qed.

Lemma words_space (a b : string) (c : ascii) :
  isspace c = true -> words (a +:+ String c b) = words a ++ words b.
Proof. intros Hc. apply words_from_space, Hc. Qed.

Lemma words_spaces (ws b : string) :
  all_chars isspace ws = true -> words (ws +:+ b) = words b.
Proof.
  induction ws as [|c ws IH]; [reflexivity|]. cbn [all_chars].
  intros H. apply andb_prop in H as [Hc Hws]. rewrite append_cons.
  unfold words. cbn [words_from]. rewrite Hc. apply (IH Hws).
Qed.

Lemma words_skip_spaces (s : string) : words (skip_spaces s) = words s.
Proof.
  induction s as [|c s IH]; [reflexivity|]. cbn [skip_spaces].
  destruct (isspace c) eqn:E; [|reflexivity].
  rewrite IH. unfold words. cbn [words_from]. rewrite E. reflexivity.
Qed.

Lemma spaces_spaces (n : nat) : all_chars isspace (spaces n) = true.
Proof. induction n as [|n IH]; [reflexivity | exact IH]. Qed.

Lemma strlen_spaces (n : nat) : strlen (spaces n) = n.
Proof.
  induction n as [|n IH]; [reflexivity|]. cbn [spaces strlen String.length].
  f_equal. exact IH.
Qed.

Lemma offset_cons (p : string) (q : nat) :
  (q < strlen p)%nat ->
  offset q p = String (char_at p q) (offset (Datatypes.S q) p).
Proof.
  revert p. induction q as [|q IH]; intros p Hq.
  - destruct p as [|c p]; [cbn in Hq; lia | reflexivity].
  - destruct p as [|c p]; [cbn in Hq; lia|].
    cbn [offset]. rewrite (IH p) by (cbn [strlen String.length] in Hq; unfold strlen; lia).
    reflexivity.
Qed.

(** Breaking a text at a white space character and dropping the white
    space that follows keeps its words. *)
Lemma words_break (p : string) (q : nat) :
  (q < strlen p)%nat -> isspace (char_at p q) = true ->
  words (take q p) ++ words (skip_spaces (offset q p)) = words p.
Proof.
  intros Hq Hc. rewrite words_skip_spaces.
  rewrite <- (take_offset q p) at 3.
  rewrite (offset_cons p q Hq).
  rewrite (words_space (take q p) _ _ Hc).
  f_equal. unfold words at 1. cbn [words_from]. rewrite Hc. reflexivity.
Qed.

Lemma strlen_skip_spaces_lt (s : string) :
  isspace (char_at s 0) = true -> (strlen (skip_spaces s) < strlen s)%nat.
Proof.
  destruct s as [|c s]; [discriminate|].
  unfold char_at. cbn [String.get]. intros Hc.
  cbn [skip_spaces]. rewrite Hc. rewrite skip_spaces_offset, strlen_offset.
  cbn [strlen String.length]. unfold strlen. lia.
Qed.

Lemma break_position (p : string) (q : nat) :
  (q <= strlen p)%nat -> boundary p q ->
  is_nul (char_at p q) = false ->
  (q < strlen p)%nat /\ isspace (char_at p q) = true.
Proof.
  intros Hq [->|Hb] Hn.
  - rewrite char_at_end in Hn by lia. discriminate.
  - split; [|exact Hb].
    destruct (decide (q < strlen p)%nat) as [Hlt|Hge]; [exact Hlt|].
    rewrite char_at_end in Hb by lia. discriminate.
Qed.

Lemma next_text_shorter (p : string) (q : nat) :
  (q < strlen p)%nat -> isspace (char_at p q) = true ->
  (strlen (skip_spaces (offset q p)) < strlen p)%nat.
Proof.
  intros Hq Hc.
  assert (H : (strlen (skip_spaces (offset q p)) < strlen (offset q p))%nat).
  { apply strlen_skip_spaces_lt. rewrite char_at_offset, Nat.add_0_r.
    exact Hc. }
  rewrite strlen_offset in H. lia.
Qed.

Lemma wrap_text_words (fuel : nat) (p : string)
    (currentpos indentpos wrapwidth : Z) :
  (strlen p < fuel)%nat ->
  exists out,
    wrap_text fuel p currentpos indentpos wrapwidth = Some out /\
    words out = words p.
Proof.
  revert p currentpos. induction fuel as [|fuel IH]; intros p currentpos Hfuel;
    [lia|].
  cbn [wrap_text].
  destruct (find_wrap_start p currentpos wrapwidth) as (q & -> & Hq & Hb).
  cbn [mbind option_bind].
  destruct (is_nul (char_at p q)) eqn:E; [exists p; auto|].
  destruct (break_position p q Hq Hb E) as [Hlt Hc].
  destruct (IH (skip_spaces (offset q p)) indentpos) as (out & -> & Hout).
  { pose proof (next_text_shorter p q Hlt Hc). lia. }
  cbn [mbind option_bind]. eexists. split; [reflexivity|].
  rewrite append_cons, (words_space (take q p) _ LF eq_refl).
  rewrite (words_spaces _ _ (spaces_spaces _)), Hout.
  apply words_break; assumption.
Qed.

(** *** Lines *)

Lemma words_from_word (w cur : string) :
  all_chars (fun c => negb (isspace c)) w = true ->
  (length (words_from w cur) <= 1)%nat.
Proof.
  revert cur. induction w as [|c w IH]; intros cur H.
  - cbn [words_from]. destruct cur; cbn; lia.
  - cbn [all_chars] in H. apply andb_prop in H as [Hc Hw].
    cbn [words_from]. apply negb_true_iff in Hc. rewrite Hc. apply IH, Hw.
Qed.

Lemma one_word (ws w : string) :
  all_chars isspace ws = true ->
  all_chars (fun c => negb (isspace c)) w = true ->
  (length (words (ws +:+ w)) <= 1)%nat.
Proof.
  intros Hws Hw. rewrite (words_spaces ws w Hws). apply words_from_word, Hw.
Qed.

Lemma find_wrap_fits (fuel : nat) (p : string) (currentpos wrapwidth : Z)
    (q r res : nat) :
  (q = 0%nat -> all_chars isspace (take r p) = true) ->
  (q <> 0%nat -> currentpos + Z.of_nat q <= wrapwidth) ->
  find_wrap fuel p currentpos wrapwidth q r = Some res ->
  line_fits wrapwidth currentpos (take res p) /\
  (currentpos + Z.of_nat res <= wrapwidth \/
   (length (words (take res p)) <= 1)%nat).
Proof.
  assert (Hfit : forall n, currentpos + Z.of_nat n <= wrapwidth ->
                           line_fits wrapwidth currentpos (take n p)).
  { intros n Hn. left.
    destruct (decide (n <= strlen p)%nat) as [Hle|Hgt].
    - rewrite strlen_take by exact Hle. exact Hn.
    - assert (strlen (take n p) <= n)%nat; [|lia].
      clear. revert p. induction n as [|n IH]; intros p.
      + destruct p; cbn; lia.
      + destruct p as [|c p]; [cbn; lia|]. cbn [take strlen String.length].
        specialize (IH p). unfold strlen in IH. lia. }
  revert q r. induction fuel as [|fuel IH]; intros q r Hq0 Hq H;
    [discriminate|].
  cbn [find_wrap] in H.
  set (r1 := (r + word_length (offset r p))%nat) in *.
  destruct (Z.ltb_spec wrapwidth (currentpos + Z.of_nat r1)) as [Hex|Hok].
  { injection H as <-. destruct (Nat.eqb_spec q 0) as [->|Hne].
    - assert (Hone : (length (words (take r1 p)) <= 1)%nat).
      { subst r1. rewrite take_add. apply one_word; [auto|].
        apply word_length_word. }
      split; [right; exact Hone | right; exact Hone].
    - split; [apply Hfit; auto | left; auto]. }
  destruct (Ascii.eqb (char_at p r1) LF);
    [injection H as <-; split; [apply Hfit; exact Hok | left; exact Hok]|].
  set (r2 := (r1 + space_length (offset r1 p))%nat) in *.
  destruct (negb (is_nul (char_at p r2)));
    [|injection H as <-; split; [apply Hfit; exact Hok | left; exact Hok]].
  apply (IH r1 r2); [|intros _; exact Hok|exact H].
  intros Hr1. assert (Hr : r = 0%nat) by (subst r1; lia).
  subst r2. rewrite Hr1. cbn [Nat.add offset]. apply space_length_spaces.
Qed.

Lemma no_line_feed_append (a b : string) :
  no_line_feed (a +:+ b) = true ->
  no_line_feed a = true /\ no_line_feed b = true.
Proof.
  unfold no_line_feed. induction a as [|c a IH]; [auto|].
  rewrite append_cons. cbn [all_chars]. intros H.
  apply andb_prop in H as [Hc H]. destruct (IH H) as [Ha Hb].
  rewrite Hc, Ha. auto.
Qed.

Lemma no_line_feed_take_offset (n : nat) (s : string) :
  no_line_feed s = true ->
  no_line_feed (take n s) = true /\ no_line_feed (offset n s) = true.
Proof.
  intros H. apply no_line_feed_append. rewrite take_offset. exact H.
Qed.

Lemma no_line_feed_spaces (n : nat) : no_line_feed (spaces n) = true.
Proof. induction n as [|n IH]; [reflexivity | exact IH]. Qed.

Lemma lines_nonempty (s : string) : exists l ls, lines s = l :: ls.
Proof.
  induction s as [|c s (l & ls & IH)]; [eexists _, _; reflexivity|].
  cbn [lines]. destruct (Ascii.eqb c LF); [eexists _, _; reflexivity|].
  rewrite IH. eexists _, _; reflexivity.
Qed.

Lemma lines_prepend (a b l : string) (ls : list string) :
  no_line_feed a = true -> lines b = l :: ls ->
  lines (a +:+ b) = (a +:+ l) :: ls.
Proof.
  intros Ha Hb. induction a as [|c a IH]; [exact Hb|].
  unfold no_line_feed in Ha. cbn [all_chars] in Ha.
  apply andb_prop in Ha as [Hc Ha]. apply negb_true_iff in Hc.
  rewrite append_cons. cbn [lines]. rewrite Hc, (IH Ha). reflexivity.
Qed.

Lemma lines_break (a b : string) :
  no_line_feed a = true -> lines (a +:+ String LF b) = a :: lines b.
Proof.
  intros Ha.
  rewrite (lines_prepend a (String LF b) EmptyString (lines b) Ha eq_refl).
  rewrite append_empty_r. reflexivity.
Qed.

Lemma lines_one (s : string) : no_line_feed s = true -> lines s = [s].
Proof.
  intros Hs.
  rewrite <- (append_empty_r s) at 1.
  rewrite (lines_prepend s EmptyString EmptyString [] Hs eq_refl).
  rewrite append_empty_r. reflexivity.
Qed.

Lemma line_fits_indent (wrapwidth indentpos : Z) (l : string) :
  0 <= indentpos ->
  line_fits wrapwidth indentpos l ->
  line_fits wrapwidth 0 (spaces (Z.abs_nat indentpos) +:+ l).
Proof.
  intros Hi [H|H].
  - left. rewrite strlen_append, strlen_spaces. lia.
  - right. rewrite (words_spaces _ _ (spaces_spaces _)). exact H.
Qed.

Lemma wrap_text_lines (fuel : nat) (p out : string)
    (currentpos indentpos wrapwidth : Z) :
  no_line_feed p = true ->
  0 <= indentpos ->
  wrap_text fuel p currentpos indentpos wrapwidth = Some out ->
  exists l ls,
    lines out = l :: ls /\ line_fits wrapwidth currentpos l /\
    Forall (line_fits wrapwidth 0) ls.
Proof.
  intros Hlf Hi. revert p out currentpos Hlf.
  induction fuel as [|fuel IH]; intros p out currentpos Hlf H;
    [discriminate|].
  cbn [wrap_text] in H.
  destruct (find_wrap_start p currentpos wrapwidth) as (q & Hq & Hle & Hb).
  rewrite Hq in H. cbn [mbind option_bind] in H.
  destruct (find_wrap_fits _ p currentpos wrapwidth 0 0 q
              ltac:(intros _; destruct p; reflexivity)
              ltac:(intros []; reflexivity) Hq) as [Hfit _].
  destruct (no_line_feed_take_offset q p Hlf) as [Htake Hoff].
  destruct (is_nul (char_at p q)) eqn:E.
  - injection H as <-. exists p, []. split; [apply lines_one, Hlf|].
    split; [|constructor].
    destruct Hb as [->|Hb].
    + rewrite <- (take_offset (strlen p) p) at 1.
      rewrite offset_all, append_empty_r. exact Hfit.
    + rewrite (isspace_not_nul _ Hb) in E. discriminate.
  - destruct (wrap_text fuel (skip_spaces (offset q p)) indentpos indentpos
                wrapwidth) as [out'|] eqn:Hrec; [|discriminate].
    cbn [mbind option_bind] in H. injection H as <-.
    apply IH in Hrec as (l & ls & Hl & Hfl & Hls).
    2:{ rewrite skip_spaces_offset.
        apply (no_line_feed_take_offset _ _ Hoff). }
    exists (take q p), ((spaces (Z.abs_nat indentpos) +:+ l) :: ls).
    split; [|split; [exact Hfit|]].
    + rewrite append_cons, (lines_break _ _ Htake).
      rewrite (lines_prepend _ _ l ls (no_line_feed_spaces _) Hl).
      reflexivity.
    + constructor; [apply line_fits_indent; assumption | exact Hls].
Qed.

(** *** Text that fits *)

Lemma cstring_nul_end (p : string) (n : nat) :
  cstring p = true -> is_nul (char_at p n) = true -> (strlen p <= n)%nat.
Proof.
  revert n. induction p as [|c p IH]; intros n Hcs Hn; [cbn; lia|].
  apply cstring_cons in Hcs as [Hc Hcs]. destruct n as [|n].
  - unfold char_at in Hn. cbn [String.get] in Hn.
    rewrite (is_nul_false c Hc) in Hn. discriminate.
  - cbn [strlen String.length]. specialize (IH n Hcs Hn). unfold strlen in IH.
    lia.
Qed.

Lemma find_wrap_whole (fuel : nat) (p : string) (currentpos wrapwidth : Z)
    (q r res : nat) :
  cstring p = true ->
  no_line_feed p = true ->
  isspace (char_at p (strlen p - 1)) = false ->
  currentpos + Z.of_nat (strlen p) <= wrapwidth ->
  (r <= strlen p)%nat ->
  find_wrap fuel p currentpos wrapwidth q r = Some res ->
  res = strlen p.
Proof.
  intros Hcs Hlf Hlast Hw. revert q r.
  induction fuel as [|fuel IH]; intros q r Hr H; [discriminate|].
  cbn [find_wrap] in H.
  set (r1 := (r + word_length (offset r p))%nat) in *.
  assert (Hr1 : (r1 <= strlen p)%nat).
  { pose proof (word_length_le (offset r p)) as Hl.
    rewrite strlen_offset in Hl. subst r1. lia. }
  destruct (Z.ltb_spec wrapwidth (currentpos + Z.of_nat r1)) as [Hex|_];
    [lia|].
  assert (Hnolf : Ascii.eqb (char_at p r1) LF = false).
  { destruct (decide (r1 < strlen p)%nat) as [Hlt|Hge].
    - apply negb_true_iff. exact (all_chars_char_at _ p r1 Hlf Hlt).
    - rewrite char_at_end by lia. reflexivity. }
  rewrite Hnolf in H.
  set (r2 := (r1 + space_length (offset r1 p))%nat) in *.
  assert (Hr2 : (r2 <= strlen p)%nat).
  { pose proof (space_length_le (offset r1 p)) as Hl.
    rewrite strlen_offset in Hl. subst r2. lia. }
  destruct (is_nul (char_at p r2)) eqn:E; cbn [negb] in H;
    [|apply (IH r1 r2); assumption].
  injection H as <-.
  pose proof (cstring_nul_end p r2 Hcs E) as Hend.
  destruct (decide (r1 = strlen p)) as [He|Hne]; [exact He|]. exfalso.
  assert (Hall : space_length (offset r1 p) = strlen (offset r1 p))
    by (rewrite strlen_offset; subst r2; lia).
  pose proof (space_length_spaces (offset r1 p)) as Hsp.
  rewrite Hall in Hsp.
  rewrite <- (append_empty_r (offset r1 p)) in Hsp at 2.
  rewrite take_append in Hsp.
  assert (Hc : isspace (char_at (offset r1 p) (strlen p - 1 - r1)) = true).
  { apply all_chars_char_at; [exact Hsp|]. rewrite strlen_offset. lia. }
  rewrite char_at_offset in Hc.
  replace (r1 + (strlen p - 1 - r1))%nat with (strlen p - 1)%nat in Hc by lia.
  rewrite Hc in Hlast. discriminate.
Qed.

End WrapFacts.

(** X12. [miniargv_wrap_and_indent_text] ends on every text, and what
    it prints has the words of the text, whole and in order: no word is
    split, lost or added, whatever the positions and the width. *)
Theorem wrap_keeps_words (text : string) (currentpos indentpos wrapwidth : Z) :
  exists out,
    miniargv_wrap_and_indent_text (Some text) currentpos indentpos wrapwidth
    = Some out /\
    words out = words text.
Proof.
  unfold miniargv_wrap_and_indent_text. apply wrap_text_words. lia.
Qed.

(** X14. For a text that holds no line feed, and with an indent that is
    not negative, every line [miniargv_wrap_and_indent_text] prints fits
    the width (79 when [wrapwidth] is 0), the first one from the column
    [currentpos] on and the following ones with their indent, except for
    lines that hold a single word, which is too long to fit and is printed
    whole. *)
Theorem wrap_lines_fit (text out : string)
    (currentpos indentpos wrapwidth : Z) :
  no_line_feed text = true ->
  0 <= indentpos ->
  miniargv_wrap_and_indent_text (Some text) currentpos indentpos wrapwidth
  = Some out ->
  let width := if wrapwidth =? 0 then 79 else wrapwidth in
  exists l ls,
    lines out = l :: ls /\ line_fits width currentpos l /\
    Forall (line_fits width 0) ls.
Proof.
  intros Hlf Hi H width. unfold miniargv_wrap_and_indent_text in H.
  exact (wrap_text_lines _ text out currentpos indentpos width Hlf Hi H).
Qed.

Lemma wrap_lines_fit_witness :
  exists l ls,
    lines ("hello" +:+ String LF "  world this" +:+ String LF "  is a text")
    = l :: ls /\
    line_fits 12 3 l /\ Forall (line_fits 12 0) ls.
Proof.
  apply (wrap_lines_fit "hello world this is a text" _ 3 2 12);
    [reflexivity | lia | reflexivity].
Defined.

(** X13. A text that holds no line feed, does not end in white space
    and fits between [currentpos] and the width (79 when [wrapwidth] is
    0) is printed as it is. *)
Theorem wrap_prints_fitting_text (text : string)
    (currentpos indentpos wrapwidth : Z) :
  cstring text = true ->
  no_line_feed text = true ->
  isspace (char_at text (strlen text - 1)) = false ->
  currentpos + Z.of_nat (strlen text)
  <= (if wrapwidth =? 0 then 79 else wrapwidth) ->
  miniargv_wrap_and_indent_text (Some text) currentpos indentpos wrapwidth
  = Some text.
Proof.
  intros Hcs Hlf Hlast Hw. unfold miniargv_wrap_and_indent_text.
  set (width := if wrapwidth =? 0 then 79 else wrapwidth) in *.
  cbn [wrap_text].
  destruct (find_wrap_start text currentpos width) as (q & Hq & _ & _).
  rewrite Hq. cbn [mbind option_bind].
  rewrite (find_wrap_whole _ text currentpos width 0 0 q Hcs Hlf Hlast Hw
             ltac:(lia) Hq).
  rewrite char_at_end by lia. reflexivity.
Qed.

Lemma wrap_prints_fitting_text_witness :
  miniargv_wrap_and_indent_text (Some "show the version  number") 25 25 0
  = Some "show the version  number"%string.
Proof.
  apply wrap_prints_fitting_text; [reflexivity | reflexivity | reflexivity|].
  vm_compute. discriminate.
Defined.

(** ** The indent of wrapped text *)

Lemma take_first_char (k : nat) (p : string) :
  isspace (char_at p 0) = false -> isspace (char_at (take k p) 0) = false.
Proof.
  intros H. destruct k as [|k]; [destruct p; reflexivity|].
  destruct p as [|c p]; [reflexivity | exact H].
Qed.

Lemma wrap_text_indent (fuel : nat) (p out : string)
    (currentpos indentpos wrapwidth : Z) :
  no_line_feed p = true ->
  wrap_text fuel p currentpos indentpos wrapwidth = Some out ->
  exists k l ls,
    lines out = l :: ls /\ l = take k p /\
    Forall (fun l => exists seg,
                       l = spaces (Z.abs_nat indentpos) +:+ seg /\
                       isspace (char_at seg 0) = false) ls.
Proof.
  revert p out currentpos.
  induction fuel as [|fuel IH]; intros p out currentpos Hlf H;
    [discriminate|].
  cbn [wrap_text] in H.
  destruct (find_wrap_start p currentpos wrapwidth) as (q & Hq & Hle & Hb).
  rewrite Hq in H. cbn [mbind option_bind] in H.
  destruct (no_line_feed_take_offset q p Hlf) as [Htake Hoff].
  destruct (is_nul (char_at p q)) eqn:E.
  - injection H as <-. exists (strlen p), p, [].
    split; [apply lines_one, Hlf|]. split; [|constructor].
    pose proof (take_append p "") as Ht.
    rewrite append_empty_r in Ht. symmetry. exact Ht.
  - destruct (wrap_text fuel (skip_spaces (offset q p)) indentpos indentpos
                wrapwidth) as [out'|] eqn:Hrec; [|discriminate].
    cbn [mbind option_bind] in H. injection H as <-.
    apply IH in Hrec as (k & l & ls & Hl & Hk & Hls).
    2:{ rewrite skip_spaces_offset.
        apply (no_line_feed_take_offset _ _ Hoff). }
    exists q, (take q p), ((spaces (Z.abs_nat indentpos) +:+ l) :: ls).
    split; [|split; [reflexivity|]].
    + rewrite append_cons, (lines_break _ _ Htake).
      rewrite (lines_prepend _ _ l ls (no_line_feed_spaces _) Hl).
      reflexivity.
    + constructor; [|exact Hls]. exists l. split; [reflexivity|].
      rewrite Hk. apply take_first_char.
      destruct (skip_spaces_split (offset q p)) as (_ & _ & _ & Hfirst).
      exact Hfirst.
Qed.

(** X21. For a text that holds no line feed, the first line that
    [miniargv_wrap_and_indent_text] prints is a beginning of the text, and
    every following line starts with the indent, [|indentpos|] spaces,
    followed by a character that is not white space (or by nothing). *)
Theorem wrap_indents_lines (text out : string)
    (currentpos indentpos wrapwidth : Z) :
  no_line_feed text = true ->
  miniargv_wrap_and_indent_text (Some text) currentpos indentpos wrapwidth
  = Some out ->
  exists l ls,
    lines out = l :: ls /\ starts_with text l /\
    Forall (fun l => exists seg,
                       l = spaces (Z.abs_nat indentpos) +:+ seg /\
                       isspace (char_at seg 0) = false) ls.
Proof.
  intros Hlf H. unfold miniargv_wrap_and_indent_text in H.
  destruct (wrap_text_indent _ text out currentpos indentpos _ Hlf H)
    as (k & l & ls & Hl & Hk & Hls).
  exists l, ls. split; [exact Hl|]. split; [|exact Hls].
  exists (offset k text). rewrite Hk. symmetry. apply take_offset.
Qed.

Lemma wrap_indents_lines_witness :
  exists l ls,
    lines ("hello" +:+ String LF "  world this" +:+ String LF "  is a text")
    = l :: ls /\
    starts_with "hello world this is a text" l /\
    Forall (fun l => exists seg,
                       l = spaces (Z.abs_nat 2) +:+ seg /\
                       isspace (char_at seg 0) = false) ls.
Proof.
  apply (wrap_indents_lines "hello world this is a text" _ 3 2 12);
    reflexivity.
Defined.
(** ** Configuration files *)

Section LineFacts.

Lemma raw_lines_line (l rest : string) :
  no_line_feed l = true ->
  raw_lines (l +:+ String LF rest) = (l, true) :: raw_lines rest.
Proof.
  intros Hl. induction l as [|c l IH].
  - reflexivity.
  - unfold no_line_feed in Hl. cbn [all_chars] in Hl.
    apply andb_prop in Hl as [Hc Hl]. apply negb_true_iff in Hc.
    rewrite append_cons. cbn [raw_lines]. rewrite Hc, (IH Hl). reflexivity.
Qed.

Lemma raw_lines_last (l : string) :
  no_line_feed l = true -> l <> EmptyString ->
  raw_lines l = [(l, false)].
Proof.
  intros Hl Hne. induction l as [|c l IH]; [contradiction|].
  unfold no_line_feed in Hl. cbn [all_chars] in Hl.
  apply andb_prop in Hl as [Hc Hl]. apply negb_true_iff in Hc.
  cbn [raw_lines]. rewrite Hc. destruct l as [|d l]; [reflexivity|].
  rewrite (IH Hl) by discriminate. reflexivity.
Qed.

Lemma chomp_plain (l : string) :
  Ascii.eqb (char_at l (strlen l - 1)) CR = false -> chomp (l, true) = l.
Proof.
  intros H. unfold chomp. rewrite H. rewrite andb_false_r. reflexivity.
Qed.

Lemma chomp_cr (l : string) : chomp (l +:+ String CR EmptyString, true) = l.
Proof.
  unfold chomp.
  assert (Hn : strlen (l +:+ String CR EmptyString) = Datatypes.S (strlen l))
    by (rewrite strlen_append; cbn [strlen String.length]; lia).
  rewrite Hn.
  replace (Datatypes.S (strlen l) - 1)%nat with (strlen l + 0)%nat by lia.
  rewrite char_at_append_r. cbn [Nat.ltb Nat.leb andb].
  change (Ascii.eqb (char_at (String CR EmptyString) 0) CR) with true.
  cbv iota. rewrite Nat.add_0_r. apply take_append.
Qed.

Lemma readlines_cons (l rest : string) :
  no_line_feed l = true ->
  readlines (l +:+ String LF rest) = chomp (l, true) :: readlines rest.
Proof.
  intros Hl. unfold readlines. rewrite (raw_lines_line l rest Hl).
  reflexivity.
Qed.

End LineFacts.

(** X4. [readline] gives back the lines of a file. For lines that hold
    no line feed, written each with a line feed after it and followed by a
    last line with none: the file is read as these lines, and the last one
    too unless it is empty. A carriage return before the line feed is
    taken off as well, whatever the line ends in; without it the lines
    must not end in a carriage return of their own. *)
Theorem readlines_round_trip (ls : list string) (last : string) :
  Forall (fun l => no_line_feed l = true) ls ->
  no_line_feed last = true ->
  let tail := match last with EmptyString => [] | _ => [last] end in
  readlines (with_line_ends (String CR (String LF EmptyString)) ls +:+ last)
  = ls ++ tail /\
  (Forall (fun l => Ascii.eqb (char_at l (strlen l - 1)) CR = false) ls ->
   readlines (with_line_ends (String LF EmptyString) ls +:+ last)
   = ls ++ tail).
Proof.
  intros Hls Hlast tail.
  assert (Htail : readlines last = tail).
  { subst tail. destruct last as [|c last]; [reflexivity|].
    unfold readlines. rewrite raw_lines_last by (auto; discriminate).
    reflexivity. }
  split.
  - induction Hls as [|l ls Hl Hls IH]; [exact Htail|].
    cbn [with_line_ends].
    replace ((l +:+ String CR (String LF EmptyString) +:+ with_line_ends
                (String CR (String LF EmptyString)) ls) +:+ last)
      with ((l +:+ String CR EmptyString) +:+ String LF
              (with_line_ends (String CR (String LF EmptyString)) ls
               +:+ last)).
    2:{ clear. induction l as [|c l IH]; [reflexivity|].
        rewrite !append_cons. f_equal. exact IH. }
    rewrite readlines_cons.
    + rewrite chomp_cr, IH. reflexivity.
    + clear -Hl. unfold no_line_feed in *. induction l as [|c l IH];
        [reflexivity|].
      rewrite append_cons. cbn [all_chars] in *.
      apply andb_prop in Hl as [Hc Hl]. rewrite Hc, (IH Hl). reflexivity.
  - intros Hcr. induction Hls as [|l ls Hl Hls IH]; [exact Htail|].
    apply Forall_cons in Hcr as [Hc Hcr].
    cbn [with_line_ends].
    replace ((l +:+ String LF EmptyString +:+ with_line_ends
                (String LF EmptyString) ls) +:+ last)
      with (l +:+ String LF
              (with_line_ends (String LF EmptyString) ls +:+ last)).
    2:{ clear. induction l as [|c l IH]; [reflexivity|].
        rewrite !append_cons. f_equal. exact IH. }
    rewrite (readlines_cons _ _ Hl), (chomp_plain l Hc), (IH Hcr).
    reflexivity.
Qed.

Lemma readlines_round_trip_witness :
  readlines ("a = 1" +:+ String CR (String LF ("b = 2" +:+ String CR
               (String LF "c"))))
  = ["a = 1"; "b = 2"; "c"]%string.
Proof.
  destruct (readlines_round_trip ["a = 1"; "b = 2"]%string "c") as [H _];
    [repeat constructor | reflexivity | exact H].
Defined.

Section CfgLineFacts.

Context {F S D : Type}.
Variable call :
  F -> option (miniargv_definition F) -> option string ->
  callbackdata D -> S -> Z * S.

Lemma find_delimiter_append (a rest : string) :
  no_delimiter a = true ->
  find_delimiter (a +:+ rest) = (strlen a + find_delimiter rest)%nat.
Proof.
  intros Ha. induction a as [|c a IH]; [reflexivity|].
  unfold no_delimiter in Ha. cbn [all_chars] in Ha.
  apply andb_prop in Ha as [Hc Ha]. apply negb_true_iff in Hc.
  rewrite append_cons. cbn [find_delimiter].
  change (Ascii.eqb c "=" || Ascii.eqb c ":" || Ascii.eqb c "#"
          || Ascii.eqb c ";")%bool with (is_delimiter c).
  rewrite Hc, (IH Ha). reflexivity.
Qed.

Lemma find_delimiter_stop (rest : string) :
  is_delimiter (char_at rest 0) = true \/ rest = EmptyString ->
  find_delimiter rest = 0%nat.
Proof.
  intros [H| ->]; [|reflexivity]. destruct rest as [|c rest]; [reflexivity|].
  unfold char_at in H. cbn [String.get] in H. cbn [find_delimiter].
  change (Ascii.eqb c "=" || Ascii.eqb c ":" || Ascii.eqb c "#"
          || Ascii.eqb c ";")%bool with (is_delimiter c).
  rewrite H. reflexivity.
Qed.

Lemma space_not_delimiter (c : ascii) :
  isspace c = true -> is_delimiter c = false.
Proof.
  intros H. unfold is_delimiter.
  destruct (Ascii.eqb_spec c "=") as [->|_]; [discriminate|].
  destruct (Ascii.eqb_spec c ":") as [->|_]; [discriminate|].
  destruct (Ascii.eqb_spec c "#") as [->|_]; [discriminate|].
  destruct (Ascii.eqb_spec c ";") as [->|_]; [discriminate|].
  reflexivity.
Qed.

Lemma spaces_no_delimiter (ws : string) :
  all_chars isspace ws = true -> no_delimiter ws = true.
Proof.
  unfold no_delimiter. induction ws as [|c ws IH]; [reflexivity|].
  cbn [all_chars]. intros H. apply andb_prop in H as [Hc Hws].
  rewrite (space_not_delimiter c Hc), (IH Hws). reflexivity.
Qed.

Lemma no_delimiter_app (a b : string) :
  no_delimiter a = true -> no_delimiter b = true ->
  no_delimiter (a +:+ b) = true.
Proof.
  unfold no_delimiter. intros Ha Hb. induction a as [|c a IH]; [exact Hb|].
  cbn [all_chars] in Ha. apply andb_prop in Ha as [Hc Ha].
  rewrite append_cons. cbn [all_chars]. rewrite Hc, (IH Ha). reflexivity.
Qed.

Lemma trim_end_spaces (s : string) (n k : nat) :
  (forall j, (j < k)%nat -> isspace (char_at s (n + j)) = true) ->
  trim_end s (n + k) = trim_end s n.
Proof.
  induction k as [|k IH]; intros H.
  - rewrite Nat.add_0_r. reflexivity.
  - replace (n + Datatypes.S k)%nat with (Datatypes.S (n + k)) by lia.
    cbn [trim_end]. rewrite (H k) by lia. apply IH. intros j Hj. apply H. lia.
Qed.

Lemma trim_end_stop (s : string) (n : nat) :
  isspace (char_at s (n - 1)) = false -> trim_end s n = n.
Proof.
  destruct n as [|n]; [reflexivity|]. cbn [trim_end].
  replace (Datatypes.S n - 1)%nat with n by lia. intros ->. reflexivity.
Qed.

(** Going back from the end of [a ws] over the white space [ws] stops
    at the end of [a], which does not end in white space. *)
Lemma trim_end_append (a ws rest : string) :
  all_chars isspace ws = true ->
  isspace (char_at a (strlen a - 1)) = false ->
  trim_end (a +:+ ws +:+ rest) (strlen a + strlen ws) = strlen a.
Proof.
  intros Hws Ha. rewrite trim_end_spaces.
  - destruct (decide (strlen a = 0)%nat) as [He|Hne].
    + rewrite He. reflexivity.
    + apply trim_end_stop. rewrite char_at_append_l by lia. exact Ha.
  - intros j Hj. rewrite char_at_append_r, char_at_append_l by exact Hj.
    apply all_chars_char_at; assumption.
Qed.

Lemma skip_spaces_blank (s : string) :
  all_chars isspace s = true -> skip_spaces s = EmptyString.
Proof.
  induction s as [|c s IH]; [reflexivity|]. cbn [all_chars].
  intros H. apply andb_prop in H as [Hc Hs]. cbn [skip_spaces].
  rewrite Hc. auto.
Qed.

(** A trimmed value between white space comes out as it is. *)
Lemma value_trimmed (ws3 value ws4 : string) :
  all_chars isspace ws3 = true -> all_chars isspace ws4 = true ->
  trimmed value ->
  let v := skip_spaces (ws3 +:+ value +:+ ws4) in
  take (trim_end v (strlen v)) v = value.
Proof.
  intros H3 H4 [Hfirst Hlast] v. subst v.
  rewrite skip_spaces_all by exact H3.
  destruct value as [|c value].
  - change (EmptyString +:+ ws4) with ws4.
    rewrite (skip_spaces_blank ws4 H4). reflexivity.
  - rewrite skip_spaces_id
      by (rewrite append_cons; unfold char_at in *; cbn [String.get] in *;
          exact Hfirst).
    pose proof (trim_end_append (String c value) ws4 EmptyString H4 Hlast)
      as Ht.
    rewrite append_empty_r in Ht. rewrite strlen_append, Ht.
    apply take_append.
Qed.

(** The line [ws1 name ws2 sep ws3 value ws4] is split into the name
    and the value, and the definitions are searched for the name. *)
Lemma cfg_line_split (cfgdef : list (miniargv_definition F))
    (cbd : callbackdata D) (lineno : Z) (w : world F S)
    (ws1 name ws2 ws3 value ws4 : string) (sep : ascii) :
  all_chars isspace ws1 = true -> all_chars isspace ws2 = true ->
  all_chars isspace ws3 = true -> all_chars isspace ws4 = true ->
  cstring name = true -> name <> EmptyString ->
  no_delimiter name = true -> trimmed name ->
  sep = "="%char \/ sep = ":"%char ->
  trimmed value ->
  let body := name +:+ ws2 +:+ String sep (ws3 +:+ value +:+ ws4) in
  cfg_line call cfgdef cbd lineno (ws1 +:+ body) w
  = cfg_defs call body (strlen name) value cbd lineno cfgdef w.
Proof.
  intros H1 H2 H3 H4 Hcs Hne Hnd [Hfirst Hlast] Hsep Hval body.
  assert (Hb0 : char_at body 0 = char_at name 0).
  { subst body. apply char_at_append_l. destruct name; [contradiction|].
    cbn. lia. }
  unfold cfg_line.
  rewrite skip_spaces_all by exact H1.
  rewrite skip_spaces_id by (rewrite Hb0; exact Hfirst).
  assert (Hnn : is_nul (char_at body 0) = false).
  { rewrite Hb0. apply not_true_iff_false. intros Hn.
    apply (char_at_0_nul _ Hcs) in Hn. contradiction. }
  rewrite Hnn. cbn [negb].
  assert (Hp : find_delimiter body = (strlen name + strlen ws2)%nat).
  { subst body. rewrite (find_delimiter_append name) by exact Hnd.
    rewrite (find_delimiter_append ws2) by (apply spaces_no_delimiter, H2).
    rewrite find_delimiter_stop; [lia|]. left.
    destruct Hsep as [-> | ->]; reflexivity. }
  rewrite Hp.
  assert (Hc : char_at body (strlen name + strlen ws2) = sep).
  { subst body. rewrite char_at_append_r.
    replace (strlen ws2) with (strlen ws2 + 0)%nat by lia.
    rewrite char_at_append_r. reflexivity. }
  rewrite Hc.
  replace (Ascii.eqb sep "=" || Ascii.eqb sep ":")%bool with true
    by (destruct Hsep as [-> | ->]; reflexivity).
  assert (Ht : trim_end body (strlen name + strlen ws2) = strlen name)
    by (apply trim_end_append; assumption).
  rewrite Ht.
  replace (strlen name =? 0)%nat with false
    by (symmetry; apply Nat.eqb_neq; destruct name; [contradiction | discriminate]).
  cbn [negb].
  assert (Ho : offset (strlen name + strlen ws2 + 1) body
               = ws3 +:+ value +:+ ws4).
  { subst body.
    replace (strlen name + strlen ws2 + 1)%nat
      with ((strlen ws2 + 1) + strlen name)%nat by lia.
    rewrite offset_append.
    replace (strlen ws2 + 1)%nat with (1 + strlen ws2)%nat by lia.
    rewrite offset_append. reflexivity. }
  rewrite Ho, (value_trimmed ws3 value ws4 H3 H4 Hval). reflexivity.
Qed.

Lemma strncmp_key_zero (name rest n : string) :
  cstring name = true ->
  strncmp (name +:+ rest) n (strlen name) = 0 -> starts_with n name.
Proof.
  revert n. induction name as [|c name IH]; intros n Hcs H.
  - exists n. reflexivity.
  - apply cstring_cons in Hcs as [Hc Hcs].
    rewrite append_cons in H. cbn [strlen String.length strncmp] in H.
    destruct n as [|d n].
    + destruct Hc. apply uchar_nul. lia.
    + destruct (Ascii.eqb c d) eqn:E.
      * apply Ascii.eqb_eq in E as <-.
        destruct (IH n Hcs H) as [tail ->]. exists tail. reflexivity.
      * apply Ascii.eqb_neq in E. destruct E. apply uchar_inj. lia.
Qed.

(** The search for the variable [name] calls the callback of the first
    entry whose long name starts with [name], with the value. *)
Lemma cfg_defs_first (body name tail value : string)
    (cbd : callbackdata D) (lineno : Z) (w : world F S)
    (pre post : list (miniargv_definition F)) (d : miniargv_definition F)
    (fn : F) (rest : string) :
  cstring name = true ->
  body = name +:+ rest ->
  before_sentinel pre ->
  Forall (fun e => forall n, longarg e = Some n -> ~ starts_with n name) pre ->
  callbackfn d = Some fn ->
  longarg d = Some (name +:+ tail) ->
  cfg_defs call body (strlen name) value cbd lineno (pre ++ d :: post) w
  = invoke call CfgVar lineno fn (Some d) (Some value) cbd w.
Proof.
  intros Hcs -> Hpre Hno Hfn Hlong.
  induction pre as [|e pre IH].
  - cbn [app cfg_defs]. rewrite Hfn, Hlong, strncmp_common_prefix.
    reflexivity.
  - apply Forall_cons in Hpre as [He Hpre]. apply Forall_cons in Hno as [Hn Hno].
    cbn [app cfg_defs]. destruct (callbackfn e) as [g|]; [|contradiction].
    destruct (longarg e) as [n|] eqn:El; [|exact (IH Hpre Hno)].
    destruct (Z.eqb_spec (strncmp (name +:+ rest) n (strlen name)) 0)
      as [Hz|_]; [|exact (IH Hpre Hno)].
    destruct (Hn n eq_refl). exact (strncmp_key_zero name rest n Hcs Hz).
Qed.

(** X6. A line [name = value] of a configuration file, with any white
    space around the name and around the value, and with [':'] as well as
    ['='] between them, calls the callback of the first entry of the table
    whose long name starts with [name] (the comparison stops at the length
    of [name]), with the value stripped of the white space at both ends.
    The value may hold any character, further ['='] and ['#'] included. *)
Theorem cfg_line_reads_variable (cbd : callbackdata D) (lineno : Z)
    (w : world F S) (ws1 name ws2 ws3 value ws4 tail : string) (sep : ascii)
    (pre post : list (miniargv_definition F)) (d : miniargv_definition F)
    (fn : F) :
  all_chars isspace ws1 = true -> all_chars isspace ws2 = true ->
  all_chars isspace ws3 = true -> all_chars isspace ws4 = true ->
  cstring name = true -> name <> EmptyString ->
  no_delimiter name = true -> trimmed name ->
  sep = "="%char \/ sep = ":"%char ->
  trimmed value ->
  before_sentinel pre ->
  Forall (fun e => forall n, longarg e = Some n -> ~ starts_with n name) pre ->
  callbackfn d = Some fn ->
  longarg d = Some (name +:+ tail) ->
  cfg_line call (pre ++ d :: post) cbd lineno
    (ws1 +:+ name +:+ ws2 +:+ String sep (ws3 +:+ value +:+ ws4)) w
  = invoke call CfgVar lineno fn (Some d) (Some value) cbd w.
Proof.
  intros H1 H2 H3 H4 Hcs Hne Hnd Hname Hsep Hval Hpre Hno Hfn Hlong.
  rewrite cfg_line_split by assumption.
  apply (cfg_defs_first _ name tail value cbd lineno w pre post d fn
           (ws2 +:+ String sep (ws3 +:+ value +:+ ws4)));
    auto.
Qed.

(** X5. A line of a configuration file is passed over, with no
    callback called, when after its leading white space it is empty or
    holds none of the characters [= : # ;], when the first of these that
    it holds is ['#'] or [';'] (a comment, which can follow a name), and
    when it starts with ['='] or [':'] (no name). *)
Theorem cfg_line_ignored (cfgdef : list (miniargv_definition F))
    (cbd : callbackdata D) (lineno : Z) (w : world F S)
    (ws name rest : string) :
  all_chars isspace ws = true ->
  isspace (char_at (name +:+ rest) 0) = false ->
  no_delimiter name = true ->
  rest = EmptyString \/
  char_at rest 0 = "#"%char \/ char_at rest 0 = ";"%char \/
  (name = EmptyString /\
   (char_at rest 0 = "="%char \/ char_at rest 0 = ":"%char)) ->
  cfg_line call cfgdef cbd lineno (ws +:+ name +:+ rest) w = (0, w).
Proof.
  intros Hws Hfirst Hnd Hrest. unfold cfg_line.
  rewrite skip_spaces_all by exact Hws.
  rewrite skip_spaces_id by exact Hfirst.
  destruct (is_nul (char_at (name +:+ rest) 0)); [reflexivity|]. cbn [negb].
  assert (Hp : find_delimiter (name +:+ rest) = strlen name).
  { rewrite (find_delimiter_append name) by exact Hnd.
    rewrite find_delimiter_stop; [lia|].
    destruct Hrest as [->|[H|[H|[_ [H|H]]]]]; [right; reflexivity | left ..];
      rewrite H; reflexivity. }
  rewrite Hp.
  replace (strlen name) with (strlen name + 0)%nat at 1 2 by lia.
  rewrite char_at_append_r.
  destruct Hrest as [->|[H|[H|[-> [H|H]]]]]; try (rewrite H); reflexivity.
Qed.

End CfgLineFacts.

Section GenerateFacts.

Context {F S D : Type}.
Variable call :
  F -> option (miniargv_definition F) -> option string ->
  callbackdata D -> S -> Z * S.

Lemma append_assoc (a b c : string) : (a +:+ b) +:+ c = a +:+ b +:+ c.
Proof.
  induction a as [|x a IH]; [reflexivity|].
  rewrite !append_cons, IH. reflexivity.
Qed.

Lemma starts_withb_false (n k : string) :
  starts_withb n k = false -> ~ starts_with n k.
Proof.
  revert n. induction k as [|c k IH]; intros n H [tail ->];
    [cbn in H; discriminate|].
  rewrite append_cons in H. cbn [starts_withb] in H.
  rewrite Ascii.eqb_refl in H. cbn [andb] in H.
  exact (IH _ H (ex_intro _ tail eq_refl)).
Qed.

(** A line that starts with [';'] is a comment. *)
Lemma cfg_line_comment (cfgdef : list (miniargv_definition F))
    (cbd : callbackdata D) (lineno : Z) (w : world F S) (text : string) :
  cfg_line call cfgdef cbd lineno (String ";" text) w = (0, w).
Proof. reflexivity. Qed.

Lemma chomp_comment (text : string) :
  exists text', chomp (String ";" (String " " text), true)
                = String ";" text'.
Proof.
  unfold chomp. cbn [strlen String.length].
  destruct (_ && _)%bool; [|eexists; reflexivity].
  cbn [Nat.sub take]. eexists; reflexivity.
Qed.

Lemma all_chars_append (P : ascii -> bool) (a b : string) :
  all_chars P a = true -> all_chars P b = true ->
  all_chars P (a +:+ b) = true.
Proof.
  intros Ha Hb. induction a as [|c a IH]; [exact Hb|].
  cbn [all_chars] in Ha. apply andb_prop in Ha as [Hc Ha].
  rewrite append_cons. cbn [all_chars]. rewrite Hc, (IH Ha). reflexivity.
Qed.

Lemma last_char_append (a b : string) :
  b <> EmptyString ->
  char_at (a +:+ b) (strlen (a +:+ b) - 1) = char_at b (strlen b - 1).
Proof.
  intros Hb. rewrite strlen_append.
  replace (strlen a + strlen b - 1)%nat with (strlen a + (strlen b - 1))%nat.
  - apply char_at_append_r.
  - destruct b; [contradiction|]. cbn [strlen String.length]. lia.
Qed.

Lemma not_space_not_cr (c : ascii) :
  isspace c = false -> Ascii.eqb c CR = false.
Proof.
  intros H. destruct (Ascii.eqb_spec c CR) as [->|_];
    [discriminate H | reflexivity].
Qed.

(** The three lines written for an entry, as [readline] returns them. *)
Lemma readlines_block (name helptext value rest : string) :
  no_line_feed name = true -> name <> EmptyString ->
  isspace (char_at name (strlen name - 1)) = false ->
  no_line_feed helptext = true ->
  no_line_feed value = true ->
  isspace (char_at value (strlen value - 1)) = false ->
  exists comment,
    readlines ("; " +:+ name +:+ String LF ";   " +:+ helptext
               +:+ String LF name +:+ " = " +:+ value +:+ String LF rest)
    = String ";" (String " " name) :: String ";" comment
      :: (name +:+ " = " +:+ value) :: readlines rest.
Proof.
  intros Hname Hne Hlast Hhelp Hvalue Hvlast.
  destruct (chomp_comment (String " " (String " " helptext))) as [comment Hc].
  exists comment.
  replace ("; " +:+ name +:+ String LF ";   " +:+ helptext
           +:+ String LF name +:+ " = " +:+ value +:+ String LF rest)
    with (("; " +:+ name) +:+ String LF
            ((";   " +:+ helptext) +:+ String LF
               ((name +:+ " = " +:+ value) +:+ String LF rest))).
  2:{ rewrite !append_assoc. reflexivity. }
  rewrite readlines_cons by (apply (all_chars_append _ "; " name); auto).
  rewrite readlines_cons by (apply (all_chars_append _ ";   " helptext); auto).
  rewrite readlines_cons.
  2:{ apply all_chars_append; [exact Hname|].
      apply (all_chars_append _ " = " value); auto. }
  f_equal; [|f_equal; [exact Hc|f_equal]].
  - change (String ";" (String " " name)) with ("; " +:+ name).
    apply chomp_plain. rewrite last_char_append by exact Hne.
    apply not_space_not_cr, Hlast.
  - apply chomp_plain. rewrite <- append_assoc.
    destruct value as [|c value].
    + rewrite append_empty_r. rewrite last_char_append by discriminate.
      reflexivity.
    + rewrite last_char_append by discriminate.
      apply not_space_not_cr, Hvlast.
Qed.

Lemma savable_name (d : miniargv_definition F) (name : string) :
  savable d = true -> longarg d = Some name ->
  let value := default EmptyString (argparam d) in
  cstring name = true /\ name <> EmptyString /\ no_delimiter name = true /\
  all_chars (fun c => negb (isspace c)) name = true /\
  no_line_feed (printf_s (help d)) = true /\ no_line_feed value = true /\
  trimmed value.
Proof.
  unfold savable. intros H Hl. rewrite Hl in H. cbv zeta in H |- *.
  repeat (apply andb_prop in H as [H ?]).
  split; [assumption|]. split; [intros ->; discriminate|].
  repeat (split; [assumption|]).
  split; apply negb_true_iff; assumption.
Qed.

Lemma no_space_trimmed (name : string) :
  all_chars (fun c => negb (isspace c)) name = true ->
  trimmed name /\ no_line_feed name = true.
Proof.
  intros H. assert (Hc : forall j, isspace (char_at name j) = false).
  { intros j. destruct (decide (j < strlen name)%nat) as [Hj|Hj].
    - apply negb_true_iff. exact (all_chars_char_at _ name j H Hj).
    - rewrite char_at_end by lia. reflexivity. }
  split; [split; apply Hc|].
  clear Hc. unfold no_line_feed. induction name as [|c name IH]; [reflexivity|].
  cbn [all_chars] in *. apply andb_prop in H as [Hc H].
  rewrite (IH H), andb_true_r.
  destruct (Ascii.eqb_spec c LF) as [->|_]; [discriminate Hc | reflexivity].
Qed.

Lemma generated_file_read (cfgdef pre suffix : list (miniargv_definition F))
    (cbd : callbackdata D) (lineno : Z) (w : world F S) :
  cfgdef = pre ++ suffix ->
  before_sentinel pre ->
  forallb savable suffix = true ->
  no_shadowing pre suffix = true ->
  Forall (fun d => forall fn, callbackfn d = Some fn ->
                   forall a v s, (call fn a v cbd s).1 = 0) suffix ->
  let r := cfg_lines call cfgdef cbd lineno
             (readlines (miniargv_cfgfile_generate suffix)) 0 w in
  r.1 = 0 /\ trace r.2 = trace w ++ saved_variables suffix lineno.
Proof.
  revert pre lineno w.
  induction suffix as [|d more IH]; intros pre lineno w Hdef Hpre Hsav Hsh Hacc r.
  { subst r. cbn. rewrite app_nil_r. auto. }
  subst r. cbn [miniargv_cfgfile_generate saved_variables].
  destruct (callbackfn d) as [fn|] eqn:Hfn;
    [|cbn; rewrite app_nil_r; auto].
  cbn [forallb] in Hsav. apply andb_prop in Hsav as [Hd Hsav].
  cbn [no_shadowing] in Hsh. apply andb_prop in Hsh as [Hshd Hsh].
  apply Forall_cons in Hacc as [Haccd Hacc].
  assert (Hpre' : before_sentinel (pre ++ [d])).
  { apply Forall_app. split; [exact Hpre|]. constructor; [|constructor].
    rewrite Hfn. discriminate. }
  assert (Hdef' : cfgdef = (pre ++ [d]) ++ more)
    by (rewrite <- app_assoc; exact Hdef).
  destruct (longarg d) as [name|] eqn:Hlong;
    [|exact (IH (pre ++ [d]) lineno w Hdef' Hpre' Hsav Hsh Hacc)].
  destruct (savable_name d name Hd Hlong)
    as (Hcs & Hne & Hnd & Hns & Hhelp & Hvlf & Hval).
  cbv zeta in Hvlf, Hval.
  destruct (no_space_trimmed name Hns) as [Hname Hnlf].
  destruct (readlines_block name (printf_s (help d))
              (default EmptyString (argparam d))
              (miniargv_cfgfile_generate more) Hnlf Hne (proj2 Hname) Hhelp
              Hvlf (proj2 Hval)) as [comment ->].
  cbn [cfg_lines Z.eqb negb]. rewrite !cfg_line_comment.
  cbn [Z.eqb negb].
  pose proof (cfg_line_split call cfgdef cbd (lineno + 1 + 1) w
                EmptyString name " " " " (default EmptyString (argparam d))
                EmptyString "=" eq_refl eq_refl eq_refl eq_refl Hcs Hne Hnd
                Hname (or_introl eq_refl) Hval) as Hline.
  cbv zeta in Hline.
  rewrite append_empty_r in Hline.
  change (EmptyString +:+ ?x) with x in Hline.
  change (name +:+ " " +:+ String "=" (" " +:+ default EmptyString (argparam d)))
    with (name +:+ " = " +:+ default EmptyString (argparam d)) in Hline.
  rewrite Hline. rewrite Hdef.
  rewrite (cfg_defs_first call _ name EmptyString _ cbd _ w pre more d fn
             (" = " +:+ default EmptyString (argparam d))
             Hcs eq_refl Hpre).
  2:{ clear -Hshd. apply List.Forall_forall. intros e He n Hn.
      rewrite forallb_forall in Hshd. specialize (Hshd e He).
      rewrite Hn in Hshd. apply starts_withb_false, negb_true_iff, Hshd. }
  2:{ exact Hfn. }
  2:{ rewrite append_empty_r. exact Hlong. }
  unfold invoke.
  pose proof (Haccd fn Hfn (Some d)
                (Some (default EmptyString (argparam d))) (st w)) as Hret.
  destruct (call fn (Some d) (Some (default EmptyString (argparam d))) cbd
              (st w)) as [ret s'].
  cbn [fst] in Hret. subst ret. rewrite <- Hdef.
  specialize (IH (pre ++ [d]) (lineno + 1 + 1 + 1)
                (mk_world s'
                   (trace w ++
                    [mk_event CfgVar (lineno + 1 + 1) (Some d)
                       (Some (default EmptyString (argparam d))) 0])
                   (stderr w))
                Hdef' Hpre' Hsav Hsh Hacc).
  cbv zeta in IH. destruct IH as [IH1 IH2].
  split; [exact IH1|]. rewrite IH2. cbn [trace].
  rewrite <- app_assoc. cbn [app].
  replace (lineno + 1 + 1) with (lineno + 2) by lia.
  replace (lineno + 2 + 1) with (lineno + 3) by lia.
  reflexivity.
Qed.

(** X7. A configuration file written by [miniargv_cfgfile_generate]
    is read back by [miniargv_process_cfgfile] with the same table: when
    every entry is [savable], no long name is the start of the long name
    of an earlier entry, and the callbacks return 0, each entry with a
    long name has its own callback called once, in the order of the table,
    with its value text ([argparam], or the empty string), and no other
    call is made. *)
Theorem generated_cfgfile_round_trip (fs : gmap string string)
    (cfgfile : string) (cfgdef : list (miniargv_definition F))
    (cbd : callbackdata D) (w : world F S) :
  fs !! cfgfile = Some (miniargv_cfgfile_generate cfgdef) ->
  forallb savable cfgdef = true ->
  no_shadowing [] cfgdef = true ->
  Forall (fun d => forall fn, callbackfn d = Some fn ->
                   forall a v s, (call fn a v cbd s).1 = 0) cfgdef ->
  let r := miniargv_process_cfgfile call fs cfgfile cfgdef cbd w in
  r.1 = 0 /\ trace r.2 = trace w ++ saved_variables cfgdef 1.
Proof.
  intros Hfs Hsav Hsh Hacc r. subst r. unfold miniargv_process_cfgfile.
  rewrite Hfs.
  destruct (generated_file_read cfgdef [] cfgdef cbd 1 w eq_refl
              ltac:(constructor) Hsav Hsh Hacc) as [H1 H2].
  destruct (cfg_lines call cfgdef cbd 1
              (readlines (miniargv_cfgfile_generate cfgdef)) 0 w)
    as [status w'].
  cbn [fst snd] in *. auto.
Qed.

End GenerateFacts.
(** ** The end of the table *)

Section Sentinel.

Context {F S D : Type}.
Variable call :
  F -> option (miniargv_definition F) -> option string ->
  callbackdata D -> S -> Z * S.
Variable int_at : D -> Z.

Variables (pre post : list (miniargv_definition F))
          (s : miniargv_definition F).
Hypothesis sentinel_entry : callbackfn s = None.

Lemma short_arg_scan_cut (flags : Z) (cbd : callbackdata D) (i : Z)
    (tok : string) (next : option string) (w : world F S) :
  short_arg_scan call flags cbd i tok next w (pre ++ s :: post)
  = short_arg_scan call flags cbd i tok next w (pre ++ [s]).
Proof.
  induction pre as [|d more IH]; cbn [app short_arg_scan].
  - rewrite sentinel_entry. reflexivity.
  - rewrite IH. reflexivity.
Qed.

Lemma long_arg_scan_cut (flags : Z) (cbd : callbackdata D) (i : Z)
    (tok : string) (w : world F S) :
  long_arg_scan call flags cbd i tok w (pre ++ s :: post)
  = long_arg_scan call flags cbd i tok w (pre ++ [s]).
Proof.
  induction pre as [|d more IH]; cbn [app long_arg_scan].
  - rewrite sentinel_entry. reflexivity.
  - rewrite IH. reflexivity.
Qed.

Lemma find_standalone_cut :
  find_standalone (pre ++ s :: post) = find_standalone (pre ++ [s]).
Proof.
  induction pre as [|d more IH]; cbn [app find_standalone].
  - rewrite sentinel_entry. reflexivity.
  - rewrite IH. reflexivity.
Qed.

Lemma process_token_cut (flags : Z) (badfn : option F)
    (cbd : callbackdata D) (i : Z) (tok : string) (next : option string)
    (cache : standalone_cache F) (w : world F S) :
  process_token call flags (pre ++ s :: post) badfn cbd i tok next cache w
  = process_token call flags (pre ++ [s]) badfn cbd i tok next cache w.
Proof.
  unfold process_token, standalone_lookup.
  rewrite short_arg_scan_cut, long_arg_scan_cut, find_standalone_cut.
  reflexivity.
Qed.

Lemma scan_cut (flags : Z) (badfn : option F) (cbd : callbackdata D)
    (rest : list string) (i : Z) (cache : standalone_cache F)
    (w : world F S) :
  scan call flags (pre ++ s :: post) badfn cbd rest i cache w
  = scan call flags (pre ++ [s]) badfn cbd rest i cache w.
Proof.
  remember (length rest) as n eqn:Hn.
  assert (Hle : (length rest <= n)%nat) by lia. clear Hn.
  revert rest i cache w Hle.
  induction n as [|n IH]; intros rest i cache w Hle.
  { destruct rest; [reflexivity | cbn in Hle; lia]. }
  destruct rest as [|tok rest']; [reflexivity|].
  cbn [length] in Hle. cbn [scan]. rewrite process_token_cut.
  destruct (process_token call flags (pre ++ [s]) badfn cbd i tok
              (head rest') cache w) as [[adv w'|r w'] cache'];
    [|reflexivity].
  destruct adv.
  - destruct rest' as [|v rest'']; [reflexivity|]. cbn [length] in Hle.
    apply IH. lia.
  - apply IH. lia.
Qed.

Lemma process_partial_cut (flags : Z) (argv : list string)
    (badfn : option F) (cbd : callbackdata D) (w : world F S) :
  miniargv_process_partial call int_at flags argv (pre ++ s :: post) badfn
    cbd w
  = miniargv_process_partial call int_at flags argv (pre ++ [s]) badfn cbd w.
Proof. unfold miniargv_process_partial. apply scan_cut. Qed.

Lemma env_defs_cut (env : list string) (cbd : callbackdata D)
    (w : world F S) :
  env_defs call env cbd (pre ++ s :: post) w
  = env_defs call env cbd (pre ++ [s]) w.
Proof.
  revert w. induction pre as [|d more IH]; intros w; cbn [app env_defs].
  - rewrite sentinel_entry. reflexivity.
  - destruct (callbackfn d); [|reflexivity].
    destruct (longarg d); [|apply IH].
    destruct (env_scan call d f s0 cbd 0 env w) as [result w'].
    destruct (negb (result =? 0)); [reflexivity | apply IH].
Qed.

Lemma cfg_defs_cut (varname : string) (varnamelen : nat) (value : string)
    (cbd : callbackdata D) (lineno : Z) (w : world F S) :
  cfg_defs call varname varnamelen value cbd lineno (pre ++ s :: post) w
  = cfg_defs call varname varnamelen value cbd lineno (pre ++ [s]) w.
Proof.
  induction pre as [|d more IH]; cbn [app cfg_defs].
  - rewrite sentinel_entry. reflexivity.
  - rewrite IH. reflexivity.
Qed.

Lemma cfg_lines_cut (cbd : callbackdata D) (lineno : Z)
    (lines : list string) (status : Z) (w : world F S) :
  cfg_lines call (pre ++ s :: post) cbd lineno lines status w
  = cfg_lines call (pre ++ [s]) cbd lineno lines status w.
Proof.
  revert lineno status w.
  induction lines as [|line more IH]; intros lineno status w;
    [reflexivity|].
  cbn [cfg_lines]. unfold cfg_line. rewrite cfg_defs_cut.
  destruct (negb (status =? 0)); [reflexivity|].
  match goal with |- (let '(_, _) := ?x in _) = _ => destruct x end.
  apply IH.
Qed.

Lemma generate_cut :
  miniargv_cfgfile_generate (pre ++ s :: post)
  = miniargv_cfgfile_generate (pre ++ [s]).
Proof.
  induction pre as [|d more IH]; cbn [app miniargv_cfgfile_generate].
  - rewrite sentinel_entry. reflexivity.
  - rewrite IH. reflexivity.
Qed.

End Sentinel.

(** X1. No function reads a table beyond its first entry with a NULL
    [callbackfn]: whatever follows the sentinel in the argument table, in
    the environment table or in the configuration table, the traversals,
    the find-only query, the reading and the writing of a configuration
    file do what they do with the table that ends at the sentinel. *)
Theorem entries_after_sentinel_ignored {F S D : Type}
    (call : F -> option (miniargv_definition F) -> option string ->
            callbackdata D -> S -> Z * S)
    (int_at : D -> Z)
    (pre post epre epost : list (miniargv_definition F))
    (s es : miniargv_definition F) :
  callbackfn s = None ->
  callbackfn es = None ->
  (forall argv env badfn cbd w,
     miniargv_process call int_at argv env (pre ++ s :: post)
       (epre ++ es :: epost) badfn cbd w
     = miniargv_process call int_at argv env (pre ++ [s]) (epre ++ [es])
         badfn cbd w) /\
  (forall argv env badfn cbd w,
     miniargv_process_ltr call int_at argv env (pre ++ s :: post)
       (epre ++ es :: epost) badfn cbd w
     = miniargv_process_ltr call int_at argv env (pre ++ [s]) (epre ++ [es])
         badfn cbd w) /\
  (forall argindex argv badfn w,
     miniargv_get_next_arg_param call int_at argindex argv
       (pre ++ s :: post) badfn w
     = miniargv_get_next_arg_param call int_at argindex argv (pre ++ [s])
         badfn w) /\
  (forall fs cfgfile cbd w,
     miniargv_process_cfgfile call fs cfgfile (pre ++ s :: post) cbd w
     = miniargv_process_cfgfile call fs cfgfile (pre ++ [s]) cbd w) /\
  miniargv_cfgfile_generate (pre ++ s :: post)
  = miniargv_cfgfile_generate (pre ++ [s]).
Proof.
  intros Hs Hes. split; [|split; [|split; [|split]]].
  - intros. unfold miniargv_process, miniargv_process_env.
    assert (Hargs : forall (a : list string) result w0,
      (let '(result, w) :=
         if result =? 0
         then miniargv_process_partial call int_at MINIARG_PROCESS_FLAG_FLAGS
                a (pre ++ s :: post) badfn cbd w0
         else (result, w0) in
       if result =? 0
       then miniargv_process_partial call int_at MINIARG_PROCESS_FLAG_VALUES
              a (pre ++ s :: post) badfn cbd w
       else (result, w))
      = (let '(result, w) :=
           if result =? 0
           then miniargv_process_partial call int_at
                  MINIARG_PROCESS_FLAG_FLAGS a (pre ++ [s]) badfn cbd w0
           else (result, w0) in
         if result =? 0
         then miniargv_process_partial call int_at
                MINIARG_PROCESS_FLAG_VALUES a (pre ++ [s]) badfn cbd w
         else (result, w))).
    { intros a result w0.
      rewrite (process_partial_cut call int_at pre post s Hs).
      destruct (if result =? 0 then _ else _) as [r1 w1].
      rewrite (process_partial_cut call int_at pre post s Hs). reflexivity. }
    destruct env as [e|], argv as [a|];
      rewrite ?(env_defs_cut call epre epost es Hes);
      try reflexivity.
    + destruct (env_defs call e cbd (epre ++ [es]) w) as [result w0].
      apply Hargs.
    + apply Hargs.
  - intros. unfold miniargv_process_ltr, miniargv_process_env,
      miniargv_process_arg.
    destruct env as [e|], argv as [a|];
      rewrite ?(env_defs_cut call epre epost es Hes);
      try destruct (env_defs call e cbd (epre ++ [es]) w) as [result w0];
      rewrite ?(process_partial_cut call int_at pre post s Hs);
      reflexivity.
  - intros. apply (process_partial_cut call int_at pre post s Hs).
  - intros. unfold miniargv_process_cfgfile.
    destruct (fs !! cfgfile); [|reflexivity].
    rewrite (cfg_lines_cut call pre post s Hs). reflexivity.
  - apply (generate_cut pre post s Hs).
Qed.

(** ** A handler that accepts every token *)

Section Accepting.

Context {F S D : Type}.
Variable call :
  F -> option (miniargv_definition F) -> option string ->
  callbackdata D -> S -> Z * S.
Variable int_at : D -> Z.

Lemma bad_argument_accepted (flags : Z) (bad : F) (cbd : callbackdata D)
    (i : Z) (cur : string) (adv : bool) (w : world F S) :
  returns_zero call bad ->
  exists s',
    bad_argument call flags (Some bad) cbd i cur adv w
    = Continue adv
        (mk_world s' (trace w ++ [mk_event Unmatched i None (Some cur) 0])
           (stderr w)).
Proof.
  intros Hbad. unfold bad_argument, invoke.
  pose proof (Hbad None (Some cur) cbd (st w)) as Hr.
  destruct (call bad None (Some cur) cbd (st w)) as [r s']. cbn [fst] in Hr.
  subst r. exists s'. reflexivity.
Qed.

Lemma process_token_accepted (flags : Z) (argdef : list (miniargv_definition F))
    (bad : F) (cbd : callbackdata D) (i : Z) (tok : string)
    (next : option string) (cache : standalone_cache F) (w : world F S) :
  returns_zero call bad ->
  match (process_token call flags argdef (Some bad) cbd i tok next cache w).1
  with
  | Continue _ _ => True
  | Return r _ =>
      has_flag flags MINIARG_PROCESS_FLAG_FIND_ONLY = true /\ r = i
  end.
Proof.
  intros Hbad. unfold process_token.
  destruct (classify tok).
  - destruct (short_arg_scan call flags cbd i tok next w argdef)
      as [[[] adv] w']; [exact I|].
    destruct adv;
      [destruct (bad_argument_accepted flags bad cbd (i + 1)
                   (default tok next) true w' Hbad) as [s' ->]
      |destruct (bad_argument_accepted flags bad cbd i tok false w' Hbad)
         as [s' ->]];
      exact I.
  - destruct (long_arg_scan call flags cbd i tok w argdef) as [[] w'];
      [exact I|].
    destruct (bad_argument_accepted flags bad cbd i tok false w' Hbad)
      as [s' ->].
    exact I.
  - unfold standalone_arg.
    destruct (bad_argument_accepted flags bad cbd i tok false w Hbad)
      as [s' Hb].
    destruct (standalonevaluedef (standalone_lookup argdef cache)) as [d|];
      [|cbn [fst]; rewrite Hb; exact I].
    destruct (callbackfn d) as [fn|]; [|cbn [fst]; rewrite Hb; exact I].
    destruct (Z.land flags MINIARG_PROCESS_FLAG_VALUES =? 0); [exact I|].
    destruct (has_flag flags MINIARG_PROCESS_FLAG_FIND_ONLY) eqn:Hfo;
      [cbn [fst]; auto|].
    destruct (invoke call Standalone i fn (Some d) (Some tok) cbd w)
      as [r w'].
    destruct (r =? 0); [exact I|].
    destruct (bad_argument_accepted flags bad cbd i tok false w' Hbad)
      as [s'' ->].
    exact I.
Qed.

Lemma scan_accepted (flags : Z) (argdef : list (miniargv_definition F))
    (bad : F) (cbd : callbackdata D) (rest : list string) (i : Z)
    (cache : standalone_cache F) (w : world F S) :
  returns_zero call bad ->
  let r := (scan call flags argdef (Some bad) cbd rest i cache w).1 in
  r = 0 \/ (has_flag flags MINIARG_PROCESS_FLAG_FIND_ONLY = true /\ i <= r).
Proof.
  intros Hbad.
  remember (length rest) as n eqn:Hn.
  assert (Hle : (length rest <= n)%nat) by lia. clear Hn.
  revert rest i cache w Hle.
  induction n as [|n IH]; intros rest i cache w Hle.
  { destruct rest; [left; reflexivity | cbn in Hle; lia]. }
  destruct rest as [|tok rest']; [left; reflexivity|].
  cbn [length] in Hle. cbn [scan].
  pose proof (process_token_accepted flags argdef bad cbd i tok (head rest')
                cache w Hbad) as Hstep.
  destruct (process_token call flags argdef (Some bad) cbd i tok (head rest')
              cache w) as [[adv w'|r w'] cache']; cbn [fst] in Hstep.
  - destruct adv.
    + destruct rest' as [|v rest'']; [left; reflexivity|].
      cbn [length] in Hle.
      destruct (IH rest'' (i + 2) cache' w' ltac:(lia)) as [H|[H1 H2]];
        [left; exact H | right; split; [exact H1 | lia]].
    + destruct (IH rest' (i + 1) cache' w' ltac:(lia)) as [H|[H1 H2]];
        [left; exact H | right; split; [exact H1 | lia]].
  - destruct Hstep as [Hfo ->]. right. cbn [fst]. split; [exact Hfo | lia].
Qed.

(** X2. With a handler of unmatched tokens that returns 0 whatever the
    token, no traversal of the arguments fails: each pass and both
    policies return 0, whatever the table, the tokens and the callbacks of
    the table do; and the find-only query never returns -1: it returns 0
    or an index beyond the one it was given. *)
Theorem accepting_handler_never_fails (argv : list string)
    (argdef envdef : list (miniargv_definition F)) (bad : F)
    (cbd : callbackdata D) (w : world F S) (argindex : Z) :
  returns_zero call bad ->
  (miniargv_process_arg call int_at argv argdef (Some bad) cbd w).1 = 0 /\
  (miniargv_process_arg_flags call int_at argv argdef (Some bad) cbd w).1 = 0 /\
  (miniargv_process_arg_params call int_at argv argdef (Some bad) cbd w).1 = 0 /\
  (miniargv_process call int_at (Some argv) None argdef envdef (Some bad)
     cbd w).1 = 0 /\
  (miniargv_process_ltr call int_at (Some argv) None argdef envdef (Some bad)
     cbd w).1 = 0 /\
  let r := (miniargv_get_next_arg_param call int_at argindex argv argdef
              (Some bad) w).1 in
  r = 0 \/ argindex < r.
Proof.
  intros Hbad.
  assert (Hmode : forall flags w0,
    has_flag flags MINIARG_PROCESS_FLAG_FIND_ONLY = false ->
    (miniargv_process_partial call int_at flags argv argdef (Some bad) cbd
       w0).1 = 0).
  { intros flags w0 Hfo. unfold miniargv_process_partial.
    destruct (scan_accepted flags argdef bad cbd
                (drop (Z.to_nat (start_index int_at flags cbd)) argv)
                (start_index int_at flags cbd) (mk_cache false None) w0 Hbad)
      as [H|[H _]]; [exact H|].
    rewrite H in Hfo. discriminate. }
  split; [apply Hmode; reflexivity|].
  split; [apply Hmode; reflexivity|].
  split; [apply Hmode; reflexivity|].
  split; [|split].
  - unfold miniargv_process. cbn [Z.eqb].
    pose proof (Hmode MINIARG_PROCESS_FLAG_FLAGS w eq_refl) as H1.
    destruct (miniargv_process_partial call int_at MINIARG_PROCESS_FLAG_FLAGS
                argv argdef (Some bad) cbd w) as [r1 w1].
    cbn [fst] in H1. subst r1. cbn [Z.eqb].
    apply Hmode. reflexivity.
  - unfold miniargv_process_ltr. cbn [Z.eqb]. apply Hmode. reflexivity.
  - intros r. subst r. unfold miniargv_get_next_arg_param,
      miniargv_process_partial.
    destruct (scan_accepted MINIARG_PROCESS_FLAG_FIND_VALUE argdef bad
                (ArgIndexRef argindex)
                (drop (Z.to_nat (start_index int_at
                                   MINIARG_PROCESS_FLAG_FIND_VALUE
                                   (ArgIndexRef argindex))) argv)
                (start_index int_at MINIARG_PROCESS_FLAG_FIND_VALUE
                   (ArgIndexRef argindex)) (mk_cache false None) w Hbad)
      as [H|[_ H]]; [left; exact H|].
    right. change (start_index int_at MINIARG_PROCESS_FLAG_FIND_VALUE
                     (ArgIndexRef argindex)) with (argindex + 1) in *.
    lia.
Qed.

End Accepting.

(** ** Unmatched tokens in the two passes *)

Section TwoPasses.

Context {F S D : Type}.
Variable call :
  F -> option (miniargv_definition F) -> option string ->
  callbackdata D -> S -> Z * S.
Variable int_at : D -> Z.

Lemma unmatched_tokens_app (l1 l2 : list (event F)) :
  unmatched_tokens (l1 ++ l2) = unmatched_tokens l1 ++ unmatched_tokens l2.
Proof.
  unfold unmatched_tokens. rewrite List.filter_app, fmap_app. reflexivity.
Qed.

(** A flag branch in the flags pass, with callbacks that return 0, next
    to the same branch in the values pass: the same tokens match, and the
    flags pass makes no call of the handler. *)
Lemma short_arg_scan_passes (cbd : callbackdata D) (i : Z) (tok : string)
    (next : option string) (w1 w2 : world F S)
    (argdef : list (miniargv_definition F)) :
  callbacks_return_zero call argdef ->
  exists ok adv w1' n,
    short_arg_scan call MINIARG_PROCESS_FLAG_FLAGS cbd i tok next w1 argdef
    = (ok, adv, w1') /\
    short_arg_scan call MINIARG_PROCESS_FLAG_VALUES cbd i tok next w2 argdef
    = (ok, adv, w2) /\
    (ok = false -> adv = false) /\
    trace w1' = trace w1 ++ n /\ unmatched_tokens n = [] /\
    stderr w1' = stderr w1.
Proof.
  intros Hz.
  assert (Hd : forall fn d v j,
    returns_zero call fn ->
    exists w1',
      dispatch_flag call MINIARG_PROCESS_FLAG_FLAGS ShortFlag j fn d v cbd w1
      = (true, w1') /\
      trace w1' = trace w1 ++ [mk_event ShortFlag j (Some d) v 0] /\
      stderr w1' = stderr w1).
  { intros fn d v j Hfn. unfold dispatch_flag, invoke. cbn [Z.land Z.eqb].
    pose proof (Hfn (Some d) v cbd (st w1)) as Hr.
    destruct (call fn (Some d) v cbd (st w1)) as [r s']. cbn [fst] in Hr.
    subst r. eexists. split; [reflexivity|]. split; reflexivity. }
  induction Hz as [|d more Hfn Hz IH]; cbn [short_arg_scan].
  { exists false, false, w1, []. rewrite app_nil_r. repeat split. }
  destruct (callbackfn d) as [fn|].
  2:{ exists false, false, w1, []. rewrite app_nil_r. repeat split. }
  specialize (Hfn fn eq_refl).
  destruct (negb (is_nul (shortarg d)) &&
            Ascii.eqb (char_at tok 1) (shortarg d))%bool; [|exact IH].
  rewrite ?(dispatch_flag_silent call MINIARG_PROCESS_FLAG_VALUES)
    by reflexivity.
  destruct (argparam d).
  - destruct (negb (is_nul (char_at tok 2))).
    + destruct (Hd fn d (Some (offset 2 tok)) i Hfn) as (w1' & -> & Ht & Hs).
      exists true, false, w1', [mk_event ShortFlag i (Some d)
                                  (Some (offset 2 tok)) 0].
      repeat split; auto; discriminate.
    + destruct next as [v|].
      * destruct (Hd fn d (Some v) (i + 1) Hfn) as (w1' & -> & Ht & Hs).
        exists true, true, w1', [mk_event ShortFlag (i + 1) (Some d)
                                   (Some v) 0].
        repeat split; auto; discriminate.
      * exists false, false, w1, []. rewrite app_nil_r. repeat split.
  - destruct (is_nul (char_at tok 2)).
    + destruct (Hd fn d None i Hfn) as (w1' & -> & Ht & Hs).
      exists true, false, w1', [mk_event ShortFlag i (Some d) None 0].
      repeat split; auto; discriminate.
    + exists false, false, w1, []. rewrite app_nil_r. repeat split.
Qed.

Lemma long_arg_scan_passes (cbd : callbackdata D) (i : Z) (tok : string)
    (w1 w2 : world F S) (argdef : list (miniargv_definition F)) :
  callbacks_return_zero call argdef ->
  exists ok w1' n,
    long_arg_scan call MINIARG_PROCESS_FLAG_FLAGS cbd i tok w1 argdef
    = (ok, w1') /\
    long_arg_scan call MINIARG_PROCESS_FLAG_VALUES cbd i tok w2 argdef
    = (ok, w2) /\
    trace w1' = trace w1 ++ n /\ unmatched_tokens n = [] /\
    stderr w1' = stderr w1.
Proof.
  intros Hz.
  assert (Hd : forall fn d v,
    returns_zero call fn ->
    exists w1',
      dispatch_flag call MINIARG_PROCESS_FLAG_FLAGS LongFlag i fn d v cbd w1
      = (true, w1') /\
      trace w1' = trace w1 ++ [mk_event LongFlag i (Some d) v 0] /\
      stderr w1' = stderr w1).
  { intros fn d v Hfn. unfold dispatch_flag, invoke. cbn [Z.land Z.eqb].
    pose proof (Hfn (Some d) v cbd (st w1)) as Hr.
    destruct (call fn (Some d) v cbd (st w1)) as [r s']. cbn [fst] in Hr.
    subst r. eexists. split; [reflexivity|]. split; reflexivity. }
  induction Hz as [|d more Hfn Hz IH]; cbn [long_arg_scan].
  { exists false, w1, []. rewrite app_nil_r. repeat split. }
  destruct (callbackfn d) as [fn|].
  2:{ exists false, w1, []. rewrite app_nil_r. repeat split. }
  specialize (Hfn fn eq_refl).
  destruct (longarg d) as [name|]; [|exact IH].
  destruct ((strncmp (offset 2 tok) name (strlen name) =? 0) &&
            (is_nul (char_at tok (2 + strlen name))
             || Ascii.eqb (char_at tok (2 + strlen name)) "="))%bool;
    [|exact IH].
  rewrite ?(dispatch_flag_silent call MINIARG_PROCESS_FLAG_VALUES)
    by reflexivity.
  destruct (argparam d).
  - destruct (Ascii.eqb (char_at tok (2 + strlen name)) "=").
    + destruct (Hd fn d (Some (offset (3 + strlen name) tok)) Hfn)
        as (w1' & -> & Ht & Hs).
      eexists true, w1', [_]. repeat split; eauto.
    + exists false, w1, []. rewrite app_nil_r. repeat split.
  - destruct (is_nul (char_at tok (2 + strlen name))).
    + destruct (Hd fn d None Hfn) as (w1' & -> & Ht & Hs).
      eexists true, w1', [_]. repeat split; eauto.
    + exists false, w1, []. rewrite app_nil_r. repeat split.
Qed.

Lemma find_standalone_returns_zero (argdef : list (miniargv_definition F))
    (d : miniargv_definition F) (fn : F) :
  callbacks_return_zero call argdef ->
  find_standalone argdef = Some d -> callbackfn d = Some fn ->
  returns_zero call fn.
Proof.
  intros Hz. induction Hz as [|e more He Hz IH]; [discriminate|].
  cbn [find_standalone]. destruct (callbackfn e) as [g|] eqn:Eg;
    [|discriminate].
  destruct (is_nul (shortarg e) &&
            match longarg e with None => true | Some _ => false end)%bool.
  - intros [= <-] Hfn. rewrite Eg in Hfn. exact (He fn Hfn).
  - exact IH.
Qed.

(** One iteration of the flags pass next to the same iteration of the
    values pass, with a handler and callbacks that return 0: both go on
    in the same way, and both hand the same token to the handler, or
    neither does. *)
Lemma process_token_passes (argdef : list (miniargv_definition F))
    (bad : F) (cbd : callbackdata D) (i : Z) (tok : string)
    (next : option string) (c1 c2 : standalone_cache F) (w1 w2 : world F S) :
  callbacks_return_zero call argdef ->
  returns_zero call bad ->
  cache_valid argdef c1 -> cache_valid argdef c2 ->
  exists adv w1' w2' n1 n2,
    (process_token call MINIARG_PROCESS_FLAG_FLAGS argdef (Some bad) cbd i
       tok next c1 w1).1 = Continue adv w1' /\
    (process_token call MINIARG_PROCESS_FLAG_VALUES argdef (Some bad) cbd i
       tok next c2 w2).1 = Continue adv w2' /\
    trace w1' = trace w1 ++ n1 /\ trace w2' = trace w2 ++ n2 /\
    unmatched_tokens n1 = unmatched_tokens n2.
Proof.
  intros Hz Hbad Hc1 Hc2.
  assert (Hb : forall flags j cur adv (wa wb : world F S) na,
    trace wa = trace w1 ++ na -> unmatched_tokens na = [] ->
    exists w1' w2' n1 n2,
      bad_argument call flags (Some bad) cbd j cur adv wa
      = Continue adv w1' /\
      bad_argument call MINIARG_PROCESS_FLAG_VALUES (Some bad) cbd j cur adv w2
      = Continue adv w2' /\
      trace w1' = trace w1 ++ n1 /\ trace w2' = trace w2 ++ n2 /\
      unmatched_tokens n1 = unmatched_tokens n2).
  { intros flags j cur adv wa wb na Hta Hna.
    destruct (bad_argument_accepted call flags bad cbd j cur adv wa Hbad)
      as [s1 ->].
    destruct (bad_argument_accepted call MINIARG_PROCESS_FLAG_VALUES bad cbd
                j cur adv w2 Hbad) as [s2 ->].
    eexists _, _, (na ++ [_]), [_].
    split; [reflexivity|]. split; [reflexivity|]. cbn [trace].
    split; [rewrite Hta, <- app_assoc; reflexivity|].
    split; [reflexivity|].
    rewrite unmatched_tokens_app, Hna. reflexivity. }
  unfold process_token. destruct (classify tok).
  - destruct (short_arg_scan_passes cbd i tok next w1 w2 argdef Hz)
      as (ok & adv & w1' & n & -> & -> & Hok & Ht & Hn & _).
    destruct ok.
    + exists adv, w1', w2, n, []. cbn [fst]. rewrite app_nil_r. auto.
    + rewrite (Hok eq_refl).
      destruct (Hb MINIARG_PROCESS_FLAG_FLAGS i tok false w1' w2 n Ht Hn)
        as (wa & wb & n1 & n2 & -> & -> & H).
      exists false, wa, wb, n1, n2. auto.
  - destruct (long_arg_scan_passes cbd i tok w1 w2 argdef Hz)
      as (ok & w1' & n & -> & -> & Ht & Hn & _).
    destruct ok.
    + exists false, w1', w2, n, []. cbn [fst]. rewrite app_nil_r. auto.
    + destruct (Hb MINIARG_PROCESS_FLAG_FLAGS i tok false w1' w2 n Ht Hn)
        as (wa & wb & n1 & n2 & -> & -> & H).
      exists false, wa, wb, n1, n2. auto.
  - rewrite !standalone_lookup_valid by assumption.
    unfold standalone_arg. cbn [standalonevaluedef].
    assert (Hnone : exists w1' w2' n1 n2,
      bad_argument call MINIARG_PROCESS_FLAG_FLAGS (Some bad) cbd i tok false
        w1 = Continue false w1' /\
      bad_argument call MINIARG_PROCESS_FLAG_VALUES (Some bad) cbd i tok false
        w2 = Continue false w2' /\
      trace w1' = trace w1 ++ n1 /\ trace w2' = trace w2 ++ n2 /\
      unmatched_tokens n1 = unmatched_tokens n2).
    { apply (Hb _ i tok false w1 w2 []); [rewrite app_nil_r|]; reflexivity. }
    destruct (find_standalone argdef) as [d|] eqn:Hsd.
    2:{ destruct Hnone as (wa & wb & n1 & n2 & -> & -> & H).
        exists false, wa, wb, n1, n2. auto. }
    destruct (callbackfn d) as [fn|] eqn:Hfn.
    2:{ destruct Hnone as (wa & wb & n1 & n2 & -> & -> & H).
        exists false, wa, wb, n1, n2. auto. }
    cbn [Z.land Z.eqb MINIARG_PROCESS_FLAG_FLAGS MINIARG_PROCESS_FLAG_VALUES
         has_flag negb].
    change (Z.land MINIARG_PROCESS_FLAG_FLAGS MINIARG_PROCESS_FLAG_VALUES =? 0)
      with true.
    change (Z.land MINIARG_PROCESS_FLAG_VALUES MINIARG_PROCESS_FLAG_VALUES =? 0)
      with false.
    change (has_flag MINIARG_PROCESS_FLAG_VALUES MINIARG_PROCESS_FLAG_FIND_ONLY)
      with false.
    cbv iota. unfold invoke.
    pose proof (find_standalone_returns_zero argdef d fn Hz Hsd Hfn
                  (Some d) (Some tok) cbd (st w2)) as Hr.
    destruct (call fn (Some d) (Some tok) cbd (st w2)) as [r s']. cbn [fst] in Hr.
    subst r. cbn [Z.eqb fst].
    eexists false, w1, _, [], [_]. rewrite app_nil_r. cbn [trace].
    repeat split; reflexivity.
Qed.

Lemma scan_passes (argdef : list (miniargv_definition F)) (bad : F)
    (cbd : callbackdata D) (rest : list string) (i : Z)
    (c1 c2 : standalone_cache F) (w1 w2 : world F S) :
  callbacks_return_zero call argdef ->
  returns_zero call bad ->
  cache_valid argdef c1 -> cache_valid argdef c2 ->
  exists w1' w2' n1 n2,
    scan call MINIARG_PROCESS_FLAG_FLAGS argdef (Some bad) cbd rest i c1 w1
    = (0, w1') /\
    scan call MINIARG_PROCESS_FLAG_VALUES argdef (Some bad) cbd rest i c2 w2
    = (0, w2') /\
    trace w1' = trace w1 ++ n1 /\ trace w2' = trace w2 ++ n2 /\
    unmatched_tokens n1 = unmatched_tokens n2.
Proof.
  intros Hz Hbad.
  remember (length rest) as n eqn:Hn.
  assert (Hle : (length rest <= n)%nat) by lia. clear Hn.
  revert rest i c1 c2 w1 w2 Hle.
  assert (Hend : forall w1 w2 : world F S,
    exists w1' w2' n1 n2,
      (0, w1) = (0, w1') /\ (0, w2) = (0, w2') /\
      trace w1' = trace w1 ++ n1 /\ trace w2' = trace w2 ++ n2 /\
      unmatched_tokens (F:=F) n1 = unmatched_tokens n2).
  { intros w1 w2. exists w1, w2, [], []. rewrite !app_nil_r. auto. }
  induction n as [|n IH]; intros rest i c1 c2 w1 w2 Hle Hc1 Hc2.
  { destruct rest; [apply Hend | cbn in Hle; lia]. }
  destruct rest as [|tok rest']; [apply Hend|].
  cbn [length] in Hle. cbn [scan].
  destruct (process_token_passes argdef bad cbd i tok (head rest') c1 c2
              w1 w2 Hz Hbad Hc1 Hc2)
    as (adv & wa & wb & n1 & n2 & H1 & H2 & Ht1 & Ht2 & Hu).
  pose proof (process_token_cache_valid call MINIARG_PROCESS_FLAG_FLAGS argdef
                (Some bad) cbd i tok (head rest') c1 w1 Hc1) as Hc1'.
  pose proof (process_token_cache_valid call MINIARG_PROCESS_FLAG_VALUES argdef
                (Some bad) cbd i tok (head rest') c2 w2 Hc2) as Hc2'.
  destruct (process_token call MINIARG_PROCESS_FLAG_FLAGS argdef (Some bad)
              cbd i tok (head rest') c1 w1) as [o1 c1'].
  destruct (process_token call MINIARG_PROCESS_FLAG_VALUES argdef (Some bad)
              cbd i tok (head rest') c2 w2) as [o2 c2'].
  cbn [fst snd] in *. subst o1 o2.
  assert (Hnext : forall rest2 j,
    (length rest2 <= n)%nat ->
    exists w1' w2' m1 m2,
      scan call MINIARG_PROCESS_FLAG_FLAGS argdef (Some bad) cbd rest2 j c1'
        wa = (0, w1') /\
      scan call MINIARG_PROCESS_FLAG_VALUES argdef (Some bad) cbd rest2 j c2'
        wb = (0, w2') /\
      trace w1' = trace w1 ++ m1 /\ trace w2' = trace w2 ++ m2 /\
      unmatched_tokens m1 = unmatched_tokens m2).
  { intros rest2 j Hl.
    destruct (IH rest2 j c1' c2' wa wb Hl Hc1' Hc2')
      as (w1' & w2' & m1 & m2 & E1 & E2 & T1 & T2 & U).
    exists w1', w2', (n1 ++ m1), (n2 ++ m2).
    split; [exact E1|]. split; [exact E2|].
    split; [rewrite T1, Ht1, <- app_assoc; reflexivity|].
    split; [rewrite T2, Ht2, <- app_assoc; reflexivity|].
    rewrite !unmatched_tokens_app, Hu, U. reflexivity. }
  destruct adv.
  - destruct rest' as [|v rest''].
    + exists wa, wb, n1, n2. auto.
    + cbn [length] in Hle. apply Hnext. lia.
  - apply Hnext. lia.
Qed.

(** X3. In the two-pass traversal every unmatched token is handed to
    the handler twice. With a handler and callbacks that return 0, the
    flags pass and the values pass hand the same tokens, at the same
    positions and in the same order, to the handler of unmatched tokens,
    and [miniargv_process] is the one pass followed by the other: a
    handler that reports or counts unknown arguments does it once in each
    pass. *)
Theorem two_passes_report_unmatched_twice (argv : list string)
    (argdef envdef : list (miniargv_definition F)) (bad : F)
    (cbd : callbackdata D) (w : world F S) :
  callbacks_return_zero call argdef ->
  returns_zero call bad ->
  exists w1 w2 n1 n2,
    miniargv_process_arg_flags call int_at argv argdef (Some bad) cbd w
    = (0, w1) /\
    miniargv_process_arg_params call int_at argv argdef (Some bad) cbd w1
    = (0, w2) /\
    miniargv_process call int_at (Some argv) None argdef envdef (Some bad)
      cbd w = (0, w2) /\
    trace w1 = trace w ++ n1 /\ trace w2 = trace w1 ++ n2 /\
    unmatched_tokens n1 = unmatched_tokens n2.
Proof.
  intros Hz Hbad.
  unfold miniargv_process, miniargv_process_arg_flags,
    miniargv_process_arg_params, miniargv_process_partial.
  change (start_index int_at MINIARG_PROCESS_FLAG_FLAGS cbd) with 1.
  change (start_index int_at MINIARG_PROCESS_FLAG_VALUES cbd) with 1.
  destruct (scan_passes argdef bad cbd (drop (Z.to_nat 1) argv) 1
              (mk_cache false None) (mk_cache false None) w w Hz Hbad
              ltac:(left; reflexivity) ltac:(left; reflexivity))
    as (w1 & _ & n1 & _ & E1 & _ & T1 & _ & _).
  destruct (scan_passes argdef bad cbd (drop (Z.to_nat 1) argv) 1
              (mk_cache false None) (mk_cache false None) w w1 Hz Hbad
              ltac:(left; reflexivity) ltac:(left; reflexivity))
    as (w1' & w2 & n1' & n2 & E1' & E2 & T1' & T2 & U).
  rewrite E1 in E1'. injection E1' as <-.
  exists w1, w2, n1', n2. rewrite E1. cbn [Z.eqb]. rewrite E2.
  repeat (split; [reflexivity || assumption|]). exact U.
Qed.

End TwoPasses.

(** ** The order of the environment *)

Section EnvOrder.

Context {F S D : Type}.
Variable call :
  F -> option (miniargv_definition F) -> option string ->
  callbackdata D -> S -> Z * S.

Lemma env_scan_app (d : miniargv_definition F) (fn : F) (name : string)
    (cbd : callbackdata D) (k : Z) (env1 env2 : list string) (w : world F S) :
  env_scan call d fn name cbd k (env1 ++ env2) w
  = let '(result, w') := env_scan call d fn name cbd k env1 w in
    if result =? 0
    then env_scan call d fn name cbd (k + Z.of_nat (length env1)) env2 w'
    else (result, w').
Proof.
  revert k w. induction env1 as [|e env1 IH]; intros k w.
  - cbn [app env_scan length Z.eqb]. rewrite Z.add_0_r. reflexivity.
  - cbn [app env_scan length].
    replace (k + Z.of_nat (Datatypes.S (length env1)))
      with (k + 1 + Z.of_nat (length env1)) by lia.
    destruct (strchr e "=") as [n|]; [|apply IH].
    destruct (strncmp e name n =? 0); [|apply IH].
    destruct (invoke call EnvVar k fn (Some d) (Some (offset (n + 1) e)) cbd w)
      as [result w'].
    destruct (Z.eqb_spec result 0) as [->|Hne]; cbn [negb]; [apply IH|].
    apply Z.eqb_neq in Hne. rewrite Hne. reflexivity.
Qed.

(** X19. [miniargv_process_env] goes through the table first and the
    environment second. With a table [A ++ B], where no entry of [A] is
    the sentinel, it does what it does with [A], and then, if that returned
    0, what it does with [B]: every call for an entry of [A] is made before
    any call for an entry of [B], wherever their variables stand in the
    environment. For one entry, the pairs are taken in the order of the
    environment: a first part of it, then the rest. *)
Theorem process_env_order (env : list string)
    (A B : list (miniargv_definition F)) (cbd : callbackdata D)
    (w : world F S) :
  before_sentinel A ->
  miniargv_process_env call env (A ++ B) cbd w
  = (let '(result, w') := miniargv_process_env call env A cbd w in
     if result =? 0 then miniargv_process_env call env B cbd w'
     else (result, w')) /\
  (forall d fn name k env1 env2 w0,
     env_scan call d fn name cbd k (env1 ++ env2) w0
     = let '(result, w') := env_scan call d fn name cbd k env1 w0 in
       if result =? 0
       then env_scan call d fn name cbd (k + Z.of_nat (length env1)) env2 w'
       else (result, w')).
Proof.
  intros HA. split; [|intros; apply env_scan_app].
  unfold miniargv_process_env. revert w.
  induction HA as [|d A Hd HA IH]; intros w; [reflexivity|].
  cbn [app env_defs]. destruct (callbackfn d) as [fn|]; [|contradiction].
  destruct (longarg d) as [name|]; [|apply IH].
  destruct (env_scan call d fn name cbd 0 env w) as [result w'].
  destruct (Z.eqb_spec result 0) as [->|Hne]; cbn [negb]; [apply IH|].
  apply Z.eqb_neq in Hne. rewrite Hne. reflexivity.
Qed.

End EnvOrder.

Lemma process_env_order_witness :
  let va : miniargv_definition App.fnptr :=
    mk_def NUL (Some "A") (Some "n") (Some App.cb_noop) 0 None in
  let vb : miniargv_definition App.fnptr :=
    mk_def NUL (Some "B") (Some "n") (Some App.cb_noop) 0 None in
  trace (miniargv_process_env App.call ["B=1"; "A=2"] [va; vb; sentinel]
           App.NULL (App.initial ∅)).2
  = [mk_event EnvVar 1 (Some va) (Some "2") 0;
     mk_event EnvVar 0 (Some vb) (Some "1") 0].
Proof.
  intros va vb.
  destruct (process_env_order App.call ["B=1"; "A=2"] [va] [vb; sentinel]
              App.NULL (App.initial ∅)) as [H _].
  - repeat constructor. discriminate.
  - change ([va; vb; sentinel]) with ([va] ++ [vb; sentinel]). rewrite H.
    reflexivity.
Defined.

(** ** Help texts *)

Section HelpFacts.

Context {F : Type}.

Lemma column_from_append (a b : string) (col : nat) :
  column_from (a +:+ b) col = column_from b (column_from a col).
Proof.
  revert col. induction a as [|c a IH]; intros col; [reflexivity|].
  rewrite append_cons. cbn [column_from]. destruct (Ascii.eqb c LF); apply IH.
Qed.

Lemma column_from_line (s : string) (col : nat) :
  no_line_feed s = true -> column_from s col = (col + strlen s)%nat.
Proof.
  revert col. induction s as [|c s IH]; intros col H.
  - cbn [column_from strlen String.length]. lia.
  - unfold no_line_feed in H. cbn [all_chars] in H.
    apply andb_prop in H as [Hc Hs]. apply negb_true_iff in Hc.
    cbn [column_from]. rewrite Hc, (IH _ Hs). cbn [strlen String.length].
    unfold strlen. lia.
Qed.

(** After the label and the gap, the cursor is in the column of the
    descriptions. *)
Lemma description_column (label : string) (descindent : Z) (col : nat) :
  no_line_feed label = true ->
  col = 0%nat ->
  column_from
    (label +:+ description_gap (Z.of_nat (strlen label)) descindent) col
  = Z.abs_nat descindent.
Proof.
  intros Hl ->. rewrite column_from_append, (column_from_line label 0 Hl).
  unfold description_gap.
  destruct (Z.ltb_spec (descindent - 2) (Z.of_nat (strlen label))) as [H|H].
  - cbn [column_from]. change (Ascii.eqb LF LF) with true. cbv iota.
    rewrite column_from_line by apply no_line_feed_spaces.
    rewrite strlen_spaces. reflexivity.
  - destruct (Z.ltb_spec (Z.of_nat (strlen label)) descindent) as [H'|H'];
      [|lia].
    rewrite column_from_line by apply no_line_feed_spaces.
    rewrite strlen_spaces. lia.
Qed.

Lemma wrap_total (text : option string) (currentpos indentpos wrapwidth : Z) :
  exists out,
    miniargv_wrap_and_indent_text text currentpos indentpos wrapwidth
    = Some out.
Proof.
  destruct text as [t|]; [|exists EmptyString; reflexivity].
  unfold miniargv_wrap_and_indent_text.
  destruct (wrap_text_words (Datatypes.S (strlen t)) t currentpos indentpos
              (if wrapwidth =? 0 then 79 else wrapwidth) ltac:(lia))
    as (out & H & _).
  exists out. exact H.
Qed.

Lemma help_entries_aligned (label : miniargv_definition F -> string)
    (pre post : list (miniargv_definition F)) (d : miniargv_definition F)
    (descindent wrapwidth : Z) (start : string) :
  before_sentinel pre ->
  callbackfn d <> None ->
  no_line_feed (label d) = true ->
  column start = 0%nat ->
  exists out before text after,
    help_entries label (pre ++ d :: post) descindent wrapwidth = Some out /\
    out = before +:+ text +:+ String LF after /\
    miniargv_wrap_and_indent_text (help d) descindent descindent wrapwidth
    = Some text /\
    column (start +:+ before) = Z.abs_nat descindent.
Proof.
  intros Hpre Hd Hl. revert start.
  induction Hpre as [|e pre He Hpre IH]; intros start Hstart.
  - cbn [app help_entries]. destruct (callbackfn d) as [fn|]; [|contradiction].
    destruct (wrap_total (help d) descindent descindent wrapwidth)
      as [text Ht].
    rewrite Ht. cbn [mbind option_bind].
    assert (Hrest : exists rest,
      help_entries label post descindent wrapwidth = Some rest).
    { clear. induction post as [|e post [rest IH]];
        [exists EmptyString; reflexivity|].
      cbn [help_entries]. destruct (callbackfn e);
        [|exists EmptyString; reflexivity].
      destruct (wrap_total (help e) descindent descindent wrapwidth)
        as [text ->].
      rewrite IH. cbn [mbind option_bind]. eexists; reflexivity. }
    destruct Hrest as [rest ->]. cbn [mbind option_bind].
    exists (label d +:+
            description_gap (Z.of_nat (strlen (label d))) descindent +:+
            text +:+ String LF rest),
      (label d +:+ description_gap (Z.of_nat (strlen (label d))) descindent),
      text, rest.
    split; [reflexivity|]. split; [rewrite !append_assoc; reflexivity|].
    split; [reflexivity|].
    unfold column. rewrite column_from_append. fold (column start).
    apply description_column; assumption.
  - cbn [app help_entries]. destruct (callbackfn e) as [fn|]; [|contradiction].
    destruct (wrap_total (help e) descindent descindent wrapwidth)
      as [etext ->].
    cbn [mbind option_bind].
    set (block := label e +:+
                  description_gap (Z.of_nat (strlen (label e))) descindent +:+
                  etext +:+ String LF EmptyString).
    destruct (IH (start +:+ block)) as (out & before & text & after & -> & Ho
                                        & Ht & Hc).
    { unfold column, block. rewrite !column_from_append. cbn [column_from].
      change (Ascii.eqb LF LF) with true. reflexivity. }
    cbn [mbind option_bind].
    exists (label e +:+
            description_gap (Z.of_nat (strlen (label e))) descindent +:+
            etext +:+ String LF out),
      (block +:+ before), text, after.
    split; [reflexivity|]. split.
    + rewrite Ho. unfold block. rewrite !append_assoc. reflexivity.
    + split; [exact Ht|]. rewrite <- append_assoc. exact Hc.
Qed.

End HelpFacts.

(** X20. [miniargv_arg_help] and [miniargv_env_help] end for every
    table, and the description of every entry starts in the same column:
    in what they print, the wrapped help text of an entry is preceded by a
    text that leaves the cursor in column [descindent] (25 when
    [descindent] is 0), after the spaces that follow the label or, when
    the label is too long, on a line of its own. *)
Theorem help_descriptions_aligned {F : Type}
    (pre post : list (miniargv_definition F)) (d : miniargv_definition F)
    (descindent wrapwidth : Z) :
  before_sentinel pre ->
  callbackfn d <> None ->
  no_line_feed (arg_label d) = true ->
  no_line_feed (env_label d) = true ->
  let indent := if descindent =? 0 then 25 else descindent in
  (exists before text after,
     miniargv_arg_help (pre ++ d :: post) descindent wrapwidth
     = Some (before +:+ text +:+ String LF after) /\
     miniargv_wrap_and_indent_text (help d) indent indent wrapwidth
     = Some text /\
     column before = Z.abs_nat indent) /\
  (exists before text after,
     miniargv_env_help (pre ++ d :: post) descindent wrapwidth
     = Some (before +:+ text +:+ String LF after) /\
     miniargv_wrap_and_indent_text (help d) indent indent wrapwidth
     = Some text /\
     column before = Z.abs_nat indent).
Proof.
  intros Hpre Hd Ha He indent. unfold miniargv_arg_help, miniargv_env_help.
  fold indent. split.
  - destruct (help_entries_aligned arg_label pre post d indent wrapwidth
                EmptyString Hpre Hd Ha eq_refl)
      as (out & before & text & after & -> & -> & Ht & Hc).
    exists before, text, after. auto.
  - destruct (help_entries_aligned env_label pre post d indent wrapwidth
                EmptyString Hpre Hd He eq_refl)
      as (out & before & text & after & -> & -> & Ht & Hc).
    exists before, text, after. auto.
Qed.

Lemma help_descriptions_aligned_witness :
  let indent := 25 in
  (exists before text after,
     miniargv_arg_help
       ([opt_output App.cb_noop] ++ opt_verbose App.cb_noop :: [sentinel]) 0 0
     = Some (before +:+ text +:+ String LF after) /\
     miniargv_wrap_and_indent_text (Some "verbose mode") indent indent 0
     = Some text /\
     column before = Z.abs_nat indent) /\
  (exists before text after,
     miniargv_env_help
       ([opt_output App.cb_noop] ++ opt_verbose App.cb_noop :: [sentinel]) 0 0
     = Some (before +:+ text +:+ String LF after) /\
     miniargv_wrap_and_indent_text (Some "verbose mode") indent indent 0
     = Some text /\
     column before = Z.abs_nat indent).
Proof.
  apply (help_descriptions_aligned [opt_output App.cb_noop] [sentinel]
           (opt_verbose App.cb_noop) 0 0);
    [repeat constructor; discriminate | discriminate | reflexivity
    | reflexivity].
Defined.

(** ** What the environment and the configuration file can call *)

Section Contracts.

Context {F S D : Type}.
Variable call :
  F -> option (miniargv_definition F) -> option string ->
  callbackdata D -> S -> Z * S.

Lemma strchr_split (e : string) (n : nat) :
  strchr e "=" = Some n ->
  e = take n e +:+ String "=" (offset (n + 1) e) /\
  strchr (take n e) "=" = None /\ strlen (take n e) = n.
Proof.
  revert n. induction e as [|c e IH]; intros n; [discriminate|].
  cbn [strchr]. destruct (Ascii.eqb_spec c "=") as [->|Hc].
  - intros [= <-]. repeat split.
  - destruct (strchr e "=") as [m|] eqn:E; [|discriminate].
    intros [= <-]. destruct (IH m eq_refl) as (He & Hk & Hl).
    cbn [take Nat.add offset]. rewrite append_cons, <- He.
    split; [reflexivity|]. split.
    + cbn [strchr]. apply Ascii.eqb_neq in Hc. rewrite Hc, Hk. reflexivity.
    + cbn [strlen String.length]. f_equal. exact Hl.
Qed.

Lemma cstring_prefix (a b : string) :
  cstring (a +:+ b) = true -> cstring a = true.
Proof.
  induction a as [|c a IH]; [reflexivity|]. rewrite append_cons.
  cbn [cstring]. intros H. apply andb_prop in H as [Hc H].
  rewrite Hc, (IH H). reflexivity.
Qed.

Lemma stops_zero_cons (e : event F) (new : list (event F)) (result : Z) :
  ev_status e = 0 -> stops_at_first_failure new result ->
  stops_at_first_failure (e :: new) result.
Proof.
  intros He [[Hr Hall]|(Hr & pre & l & -> & Hl & Hall)].
  - left. split; [exact Hr|]. constructor; assumption.
  - right. split; [exact Hr|]. exists (e :: pre), l.
    split; [reflexivity|]. split; [exact Hl|]. constructor; assumption.
Qed.

Lemma stops_zero_app (new1 new2 : list (event F)) (result : Z) :
  Forall (fun e => ev_status e = 0) new1 ->
  stops_at_first_failure new2 result ->
  stops_at_first_failure (new1 ++ new2) result.
Proof.
  intros H1 H2. induction H1 as [|e new1 He H1 IH]; [exact H2|].
  cbn [app]. apply stops_zero_cons; assumption.
Qed.

Lemma stops_failure (e : event F) :
  ev_status e <> 0 -> stops_at_first_failure [e] (ev_status e).
Proof.
  intros He. right. split; [exact He|]. exists [], e. repeat split.
  constructor.
Qed.

Lemma stops_at_zero (new : list (event F)) :
  stops_at_first_failure new 0 -> Forall (fun e => ev_status e = 0) new.
Proof. intros [[_ H]|[H _]]; [exact H | contradiction]. Qed.

Lemma env_scan_contract (env : list string)
    (envdef : list (miniargv_definition F)) (d : miniargv_definition F)
    (fn : F) (name : string) (cbd : callbackdata D) (current_env : list string)
    (k : nat) (w : world F S) :
  Forall (fun e => cstring e = true) env ->
  In d envdef -> callbackfn d = Some fn -> longarg d = Some name ->
  drop k env = current_env ->
  let r := env_scan call d fn name cbd (Z.of_nat k) current_env w in
  exists new,
    trace r.2 = trace w ++ new /\ stderr r.2 = stderr w /\
    Forall (env_call env envdef) new /\
    stops_at_first_failure new r.1.
Proof.
  intros Hcs Hd Hfn Hname. revert k w.
  induction current_env as [|e more IH]; intros k w Hdrop r; subst r;
    cbn [env_scan].
  { exists []. rewrite app_nil_r. repeat split; [constructor|].
    left. split; [reflexivity | constructor]. }
  assert (Hmore : drop (Datatypes.S k) env = more)
    by (apply (drop_cons_next env more e k Hdrop)).
  assert (Hk : env !! k = Some e).
  { rewrite <- (Nat.add_0_r k), <- lookup_drop, Hdrop. reflexivity. }
  replace (Z.of_nat k + 1) with (Z.of_nat (Datatypes.S k)) by lia.
  destruct (strchr e "=") as [n|] eqn:En; [|exact (IH _ w Hmore)].
  destruct (Z.eqb_spec (strncmp e name n) 0) as [Hz|_]; [|exact (IH _ w Hmore)].
  destruct (strchr_split e n En) as (He & Hkey & Hlen).
  assert (Hcall : forall r,
    env_call env envdef
      (mk_event EnvVar (Z.of_nat k) (Some d) (Some (offset (n + 1) e)) r)).
  { intros r. split; [reflexivity|]. split; [cbn; lia|].
    exists d, name, (take n e), (offset (n + 1) e). cbn [ev_def ev_index ev_value].
    rewrite Nat2Z.id, <- He. repeat split; auto.
    - rewrite Hfn. discriminate.
    - apply (strncmp_key_zero (take n e) (String "=" (offset (n + 1) e))).
      + pose proof (Forall_lookup_1 _ _ _ _ Hcs Hk) as Hce. cbv beta in Hce.
        rewrite He in Hce. exact (cstring_prefix _ _ Hce).
      + rewrite Hlen, <- He. exact Hz. }
  unfold invoke.
  destruct (call fn (Some d) (Some (offset (n + 1) e)) cbd (st w)) as [r s'].
  destruct (Z.eqb_spec r 0) as [->|Hne]; cbn [negb].
  - destruct (IH (Datatypes.S k)
                (mk_world s'
                   (trace w ++
                    [mk_event EnvVar (Z.of_nat k) (Some d)
                       (Some (offset (n + 1) e)) 0]) (stderr w)) Hmore)
      as (new & Ht & Hs & Hall & Hstop).
    cbn [trace stderr] in Ht, Hs.
    eexists (_ :: new). split; [rewrite Ht, <- app_assoc; reflexivity|].
    split; [exact Hs|]. split; [constructor; [apply Hcall | exact Hall]|].
    apply stops_zero_cons; [reflexivity | exact Hstop].
  - eexists [_]. cbn [fst snd trace stderr]. split; [reflexivity|].
    split; [reflexivity|]. split; [constructor; [apply Hcall | constructor]|].
    apply (stops_failure (mk_event EnvVar (Z.of_nat k) (Some d)
                            (Some (offset (n + 1) e)) r)).
    exact Hne.
Qed.

Lemma env_defs_contract (env : list string)
    (envdef tbl : list (miniargv_definition F)) (cbd : callbackdata D)
    (w : world F S) :
  Forall (fun e => cstring e = true) env ->
  (forall d, In d tbl -> In d envdef) ->
  let r := env_defs call env cbd tbl w in
  exists new,
    trace r.2 = trace w ++ new /\ stderr r.2 = stderr w /\
    Forall (env_call env envdef) new /\
    stops_at_first_failure new r.1.
Proof.
  intros Hcs Hsub r. subst r. revert Hsub w.
  induction tbl as [|d more IH]; intros Hsub w; cbn [env_defs].
  { exists []. rewrite app_nil_r. repeat split; [constructor|].
    left. split; [reflexivity | constructor]. }
  assert (Hmore : forall e, In e more -> In e envdef)
    by (intros e He; apply Hsub; right; exact He).
  destruct (callbackfn d) as [fn|] eqn:Hfn.
  2:{ exists []. rewrite app_nil_r. repeat split; [constructor|].
      left. split; [reflexivity | constructor]. }
  destruct (longarg d) as [name|] eqn:Hname; [|exact (IH Hmore w)].
  destruct (env_scan_contract env envdef d fn name cbd env 0 w Hcs
              (Hsub d (or_introl eq_refl)) Hfn Hname eq_refl)
    as (new1 & Ht1 & Hs1 & Hall1 & Hstop1).
  change (Z.of_nat 0) with 0 in *.
  destruct (env_scan call d fn name cbd 0 env w) as [r1 w1].
  cbn [fst snd] in *.
  destruct (Z.eqb_spec r1 0) as [->|Hne]; cbn [negb].
  - destruct (IH Hmore w1) as (new2 & Ht2 & Hs2 & Hall2 & Hstop2).
    exists (new1 ++ new2).
    split; [rewrite Ht2, Ht1, <- app_assoc; reflexivity|].
    split; [rewrite Hs2; exact Hs1|].
    split; [apply Forall_app; auto|].
    apply stops_zero_app; [apply stops_at_zero, Hstop1 | exact Hstop2].
  - exists new1. cbn [fst snd]. auto.
Qed.

(** X22. The calls of [miniargv_process_env] and its result. Every
    call is made for a pair [key=value] of the environment and an entry of
    the table, before the sentinel, whose long name starts with [key], and
    passes [value]; nothing is written to [stderr]. The result is 0 when
    every callback returned 0; otherwise it is the status of the last
    call, the first one that did not return 0. *)
Theorem process_env_contract (env : list string)
    (envdef : list (miniargv_definition F)) (cbd : callbackdata D)
    (w : world F S) :
  Forall (fun e => cstring e = true) env ->
  let r := miniargv_process_env call env envdef cbd w in
  exists new,
    trace r.2 = trace w ++ new /\ stderr r.2 = stderr w /\
    Forall (env_call env envdef) new /\
    stops_at_first_failure new r.1.
Proof.
  intros Hcs. unfold miniargv_process_env.
  apply env_defs_contract; auto.
Qed.

Lemma cfg_defs_contract (cfgdef : list (miniargv_definition F))
    (varname : string) (varnamelen : nat) (value : string)
    (cbd : callbackdata D) (lineno : Z)
    (tbl : list (miniargv_definition F)) (w : world F S) :
  (forall d, In d tbl -> In d cfgdef) ->
  let r := cfg_defs call varname varnamelen value cbd lineno tbl w in
  r = (0, w) \/
  exists e,
    trace r.2 = trace w ++ [e] /\ stderr r.2 = stderr w /\
    cfg_call cfgdef e /\ ev_index e = lineno /\ ev_status e = r.1.
Proof.
  intros Hsub r. subst r.
  induction tbl as [|d more IH]; cbn [cfg_defs]; [left; reflexivity|].
  assert (Hmore : forall e, In e more -> In e cfgdef)
    by (intros e He; apply Hsub; right; exact He).
  destruct (callbackfn d) as [fn|] eqn:Hfn; [|left; reflexivity].
  destruct (longarg d) as [name|] eqn:Hname; [|exact (IH Hmore)].
  destruct (strncmp varname name varnamelen =? 0); [|exact (IH Hmore)].
  right. unfold invoke.
  destruct (call fn (Some d) (Some value) cbd (st w)) as [status s'].
  eexists. cbn [fst snd trace stderr ev_index ev_status].
  split; [reflexivity|]. split; [reflexivity|]. split; [|auto].
  split; [reflexivity|]. exists d, name. cbn [ev_def ev_value].
  split; [reflexivity|]. split; [apply Hsub; left; reflexivity|].
  split; [rewrite Hfn; discriminate|]. split; [exact Hname|].
  eexists; reflexivity.
Qed.

Lemma cfg_line_contract (cfgdef : list (miniargv_definition F))
    (cbd : callbackdata D) (lineno : Z) (line : string) (w : world F S) :
  let r := cfg_line call cfgdef cbd lineno line w in
  r = (0, w) \/
  exists e,
    trace r.2 = trace w ++ [e] /\ stderr r.2 = stderr w /\
    cfg_call cfgdef e /\ ev_index e = lineno /\ ev_status e = r.1.
Proof.
  intros r. subst r. unfold cfg_line.
  set (varname := skip_spaces line).
  destruct (negb (is_nul (char_at varname 0))); [|left; reflexivity].
  destruct (Ascii.eqb (char_at varname (find_delimiter varname)) "="
            || Ascii.eqb (char_at varname (find_delimiter varname)) ":")%bool;
    [|left; reflexivity].
  destruct (negb (trim_end varname (find_delimiter varname) =? 0)%nat);
    [|left; reflexivity].
  apply cfg_defs_contract. auto.
Qed.

Lemma cfg_lines_contract (cfgdef : list (miniargv_definition F))
    (cbd : callbackdata D) (lines : list string) (lineno : Z)
    (w : world F S) :
  let r := cfg_lines call cfgdef cbd lineno lines 0 w in
  exists new,
    trace r.2 = trace w ++ new /\ stderr r.2 = stderr w /\
    Forall (cfg_call cfgdef) new /\
    Forall (fun e => lineno <= ev_index e < lineno + Z.of_nat (length lines))
      new /\
    StronglySorted Z.lt (ev_index <$> new) /\
    stops_at_first_failure new r.1.
Proof.
  revert lineno w. induction lines as [|line more IH]; intros lineno w r;
    subst r.
  { exists []. cbn. rewrite app_nil_r.
    split; [reflexivity|]. split; [reflexivity|]. split; [constructor|].
    split; [constructor|]. split; [constructor|].
    left. split; [reflexivity | constructor]. }
  cbn [cfg_lines Z.eqb negb length].
  destruct (cfg_line_contract cfgdef cbd lineno line w)
    as [Hnone|(e & Ht & Hs & Hc & Hi & Hst)].
  - cbv zeta in Hnone. rewrite Hnone.
    destruct (IH (lineno + 1) w) as (new & Ht & Hs & Hall & Hidx & Hsort & Hstop).
    exists new. repeat (split; [assumption|]). split; [|auto].
    eapply Forall_impl; [exact Hidx|]. cbv beta. intros x Hx. lia.
  - cbv zeta in Ht, Hs, Hst.
    destruct (cfg_line call cfgdef cbd lineno line w) as [status w1].
    cbn [fst snd] in *.
    destruct (Z.eqb_spec status 0) as [->|Hne].
    + destruct (IH (lineno + 1) w1)
        as (new & Ht2 & Hs2 & Hall & Hidx & Hsort & Hstop).
      exists (e :: new).
      split; [rewrite Ht2, Ht, <- app_assoc; reflexivity|].
      split; [rewrite Hs2; exact Hs|].
      split; [constructor; assumption|].
      split.
      { constructor; [lia|]. eapply Forall_impl; [exact Hidx|]. cbv beta.
        intros x Hx. lia. }
      split.
      { cbn [fmap list_fmap]. constructor; [exact Hsort|].
        apply Forall_fmap. eapply Forall_impl; [exact Hidx|]. cbv beta.
        intros x Hx. cbn. lia. }
      apply stops_zero_cons; assumption.
    + rewrite (cfg_lines_stop call cfgdef cbd (lineno + 1) more status w1 Hne).
      exists [e]. cbn [fst snd].
      split; [exact Ht|]. split; [exact Hs|].
      split; [constructor; [exact Hc | constructor]|].
      split; [constructor; [lia | constructor]|].
      split; [cbn; repeat constructor|].
      rewrite <- Hst. apply stops_failure. rewrite Hst. exact Hne.
Qed.

(** X23. The calls of [miniargv_process_cfgfile]. Each call is made
    for one line of the file and for an entry of the table, before the
    sentinel, that has a long name; a line gives rise to one call at most,
    and the calls follow the order of the lines; after a call that did not
    return 0 no further call is made. Nothing is written to [stderr], and
    the result is 0. *)
Theorem process_cfgfile_contract (fs : gmap string string)
    (cfgfile : string) (cfgdef : list (miniargv_definition F))
    (cbd : callbackdata D) (w : world F S) :
  let r := miniargv_process_cfgfile call fs cfgfile cfgdef cbd w in
  let lines := match fs !! cfgfile with
               | Some src => readlines src
               | None => []
               end in
  r.1 = 0 /\
  exists new status,
    trace r.2 = trace w ++ new /\ stderr r.2 = stderr w /\
    Forall (cfg_call cfgdef) new /\
    Forall (fun e => 1 <= ev_index e <= Z.of_nat (length lines)) new /\
    StronglySorted Z.lt (ev_index <$> new) /\
    stops_at_first_failure new status.
Proof.
  intros r lines. subst r lines. unfold miniargv_process_cfgfile.
  destruct (fs !! cfgfile) as [src|].
  - destruct (cfg_lines_contract cfgdef cbd (readlines src) 1 w)
      as (new & Ht & Hs & Hall & Hidx & Hsort & Hstop).
    destruct (cfg_lines call cfgdef cbd 1 (readlines src) 0 w) as [status w'].
    cbn [fst snd] in *. split; [reflexivity|]. exists new, status.
    repeat (split; [assumption|]). split; [|auto].
    eapply Forall_impl; [exact Hidx|]. cbv beta. intros x Hx. lia.
  - split; [reflexivity|]. exists [], 0. cbn. rewrite app_nil_r.
    split; [reflexivity|]. split; [reflexivity|]. split; [constructor|].
    split; [constructor|]. split; [constructor|].
    left. split; [reflexivity | constructor].
Qed.

End Contracts.

Lemma process_env_contract_witness :
  let d : miniargv_definition App.fnptr :=
    mk_def NUL (Some "PATHEXT") (Some "list") (Some (App.app_status 7)) 0 None in
  let r :=
    miniargv_process_env App.call ["HOME=/root"; "PATH=/bin"] [d; sentinel]
      App.NULL (App.initial ∅) in
  exists new,
    trace r.2 = trace (App.initial ∅) ++ new /\
    stderr r.2 = stderr (App.initial ∅) /\
    Forall (env_call ["HOME=/root"; "PATH=/bin"] [d; sentinel]) new /\
    stops_at_first_failure new r.1.
Proof.
  intros d.
  apply (process_env_contract App.call ["HOME=/root"; "PATH=/bin"]
           [d; sentinel] App.NULL (App.initial ∅)).
  repeat constructor.
Defined.

(** ** Instances *)

Lemma cfg_line_ignored_witness :
  cfg_line App.call [opt_output App.cb_noop; sentinel] App.NULL 1
    "  output # = a.txt" (App.initial ∅)
  = (0, App.initial ∅).
Proof.
  apply (cfg_line_ignored App.call [opt_output App.cb_noop; sentinel]
           App.NULL 1 (App.initial ∅) "  " "output " "# = a.txt");
    [reflexivity | reflexivity | reflexivity |].
  right; left. reflexivity.
Defined.

Lemma cfg_line_reads_variable_witness :
  cfg_line App.call [opt_verbose App.cb_noop; opt_output App.cb_noop; sentinel]
    App.NULL 1 " out : a = b.txt  " (App.initial ∅)
  = invoke App.call CfgVar 1 App.cb_noop (Some (opt_output App.cb_noop))
      (Some "a = b.txt") App.NULL (App.initial ∅).
Proof.
  apply (cfg_line_reads_variable App.call App.NULL 1 (App.initial ∅)
           " " "out" " " " " "a = b.txt" "  " "put" ":"
           [opt_verbose App.cb_noop] [sentinel] (opt_output App.cb_noop)
           App.cb_noop);
    try reflexivity.
  - discriminate.
  - split; reflexivity.
  - right; reflexivity.
  - split; reflexivity.
  - repeat constructor. discriminate.
  - repeat constructor. intros n [= <-] [tail H]. discriminate H.
Defined.

Lemma generated_cfgfile_round_trip_witness :
  let table := example_table App.cb_noop App.cb_set_int_to_one App.cb_noop in
  let fs : gmap string string :=
    {["app.cfg" := miniargv_cfgfile_generate table]} in
  let r :=
    miniargv_process_cfgfile App.call fs "app.cfg" table App.NULL
      (App.initial ∅) in
  r.1 = 0 /\ trace r.2 = trace (App.initial ∅) ++ saved_variables table 1.
Proof.
  intros table fs.
  apply (generated_cfgfile_round_trip App.call fs "app.cfg" table App.NULL
           (App.initial ∅));
    [reflexivity | reflexivity | reflexivity |].
  unfold table, example_table.
  constructor; [intros fn [= <-] a v s; reflexivity|].
  constructor; [intros fn [= <-] [a|] v s; reflexivity|].
  constructor; [intros fn [= <-] a v s; reflexivity|].
  constructor; [intros fn [=] | constructor].
Defined.

Lemma entries_after_sentinel_ignored_witness :
  miniargv_cfgfile_generate
    ([opt_verbose App.cb_noop] ++ sentinel :: [opt_output App.cb_noop])
  = miniargv_cfgfile_generate ([opt_verbose App.cb_noop] ++ [sentinel]).
Proof.
  exact (proj2 (proj2 (proj2 (proj2
    (entries_after_sentinel_ignored App.call App.int_at
       [opt_verbose App.cb_noop] [opt_output App.cb_noop] [] []
       sentinel sentinel eq_refl eq_refl))))).
Defined.

Lemma accept_all_returns_zero {F S D : Type} (fn : F) :
  returns_zero (accept_all (S:=S) (D:=D)) fn.
Proof. intros a v c s. reflexivity. Qed.

Lemma accepting_handler_never_fails_witness :
  (miniargv_process_arg accept_all App.int_at ["prog"; "-x"; "file"]
     [opt_verbose App.cb_noop; sentinel] (Some App.cb_noop) App.NULL
     (App.initial ∅)).1 = 0.
Proof.
  exact (proj1 (accepting_handler_never_fails accept_all App.int_at
                  ["prog"; "-x"; "file"] [opt_verbose App.cb_noop; sentinel]
                  [] App.cb_noop App.NULL (App.initial ∅) 0
                  (accept_all_returns_zero App.cb_noop))).
Defined.

Lemma two_passes_report_unmatched_twice_witness :
  exists w1 w2 n1 n2,
    miniargv_process_arg_flags accept_all App.int_at ["prog"; "-x"; "file"]
      (example_table App.cb_noop App.cb_noop App.cb_noop) (Some App.cb_noop)
      App.NULL (App.initial ∅) = (0, w1) /\
    miniargv_process_arg_params accept_all App.int_at ["prog"; "-x"; "file"]
      (example_table App.cb_noop App.cb_noop App.cb_noop) (Some App.cb_noop)
      App.NULL w1 = (0, w2) /\
    miniargv_process accept_all App.int_at (Some ["prog"; "-x"; "file"]) None
      (example_table App.cb_noop App.cb_noop App.cb_noop) []
      (Some App.cb_noop) App.NULL (App.initial ∅) = (0, w2) /\
    trace w1 = trace (App.initial ∅) ++ n1 /\ trace w2 = trace w1 ++ n2 /\
    unmatched_tokens n1 = unmatched_tokens n2.
Proof.
  apply (two_passes_report_unmatched_twice accept_all App.int_at).
  - repeat constructor; intros fn _; apply accept_all_returns_zero.
  - apply accept_all_returns_zero.
Defined.
